(** * DIPlib image core: a shallow embedding of the view, copy, chain-code
      and parabolic-morphology routines, with the properties proved of them.

    Sources embedded:
    - [src/library/image_manip.cpp]: [Image::Mirror], [Image::AddSingleton],
      [Image::TensorToSpatial], [Image::SplitComplex], [Image::ReinterpretCast],
      [GetWindowOrigin], [Image::Crop];
    - [src/library/image_copy.cpp]: [WriteSamples], [ReadSamples], the two
      [CopyTo] overloads, [Image::Convert], [InternSwapBytesInSample],
      [Image::SwapBytesInSample];
    - [src/measurement/chain_code.cpp]: [ChainCode::ConvertTo8Connected],
      [ChainCode::Polygon];
    - [src/morphology/basic.cpp]: [ParabolicMorphologyLineFilter::Filter].

    The first part of the file holds the definitions, the second part the
    lemmas and theorems. *)

From Stdlib Require Import ZArith List Lia Bool Ascii String QArith Qround Qcanon Qabs
  Qpower Lqa Setoid Morphisms.
From Stdlib Require SpecFloat.
From stdpp Require Import base list.

Local Open Scope Z_scope.

(* ===================================================================== *)
(** * Part I: definitions                                                 *)
(* ===================================================================== *)

(** ** Machine integers

    [dip::uint] is [std::size_t] and [dip::sint] is [std::ptrdiff_t]; both
    are 64 bits wide.  Values are kept in [Z] and every arithmetic operation
    of the source is followed by the reduction its type performs. *)

Definition wrap_uint (z : Z) : Z := z mod 2 ^ 64.
Definition wrap_sint (z : Z) : Z := (z + 2 ^ 63) mod 2 ^ 64 - 2 ^ 63.

Definition is_uint (z : Z) : Prop := 0 <= z < 2 ^ 64.
Definition is_sint (z : Z) : Prop := - 2 ^ 63 <= z < 2 ^ 63.

Definition is_uintb (z : Z) : bool := (0 <=? z) && (z <? 2 ^ 64).
Definition is_sintb (z : Z) : bool := (- 2 ^ 63 <=? z) && (z <? 2 ^ 63).

(** Unsigned operators. *)
Definition uadd (a b : Z) : Z := wrap_uint (a + b).
Definition usub (a b : Z) : Z := wrap_uint (a - b).
Definition umul (a b : Z) : Z := wrap_uint (a * b).
Definition udiv (a b : Z) : Z := a / b.
Definition umod (a b : Z) : Z := a mod b.

(** Signed operators; [/] and [%] truncate toward zero. *)
Definition sadd (a b : Z) : Z := wrap_sint (a + b).
Definition smul (a b : Z) : Z := wrap_sint (a * b).
Definition sneg (a : Z) : Z := wrap_sint (- a).
Definition sdiv (a b : Z) : Z := wrap_sint (Z.quot a b).
Definition srem (a b : Z) : Z := Z.rem a b.

(** [static_cast< dip::sint >] of an unsigned value and the converse. *)
Definition to_sint (a : Z) : Z := wrap_sint a.
Definition to_uint (a : Z) : Z := wrap_uint a.

(** Pointers are byte addresses; pointer arithmetic is 64-bit as well. *)
Definition ptr_add (p off : Z) : Z := wrap_uint (p + off).

(** Congruence modulo [2 ^ 64], the relation under which the wrapping
    operators are the plain ones. *)
Definition eqm64 (a b : Z) : Prop := a mod 2 ^ 64 = b mod 2 ^ 64.

Definition b2z (b : bool) : Z := if b then 1 else 0.

(** Array indexing as the source writes it, [a[ i ]]. *)
Definition at_ (a : list Z) (i : nat) : Z := nth i a 0.

(** ** Error conditions

    The [E::...] constants the source throws, and free-form messages. *)

Inductive Error : Type :=
| IMAGE_NOT_FORGED
| ILLEGAL_DIMENSION
| ARRAY_PARAMETER_WRONG_LENGTH
| ARRAY_PARAMETER_EMPTY
| INDEX_OUT_OF_RANGE
| INVALID_PARAMETER
| SIZES_DONT_MATCH
| NTENSORELEM_DONT_MATCH
| DATA_TYPE_NOT_SUPPORTED
| NOT_IMPLEMENTED
| Message (msg : string).

Inductive Res (A : Type) : Type :=
| Ok (a : A)
| Throw (e : Error).
Arguments Ok {A} a.
Arguments Throw {A} e.

(** ** A state-and-exception monad

    A member function mutates [*this] and may throw; after a throw the object
    is still there, in whatever state the function left it.  So a computation
    returns the final state next to its outcome. *)

Definition M (St A : Type) : Type := St -> Res A * St.

Definition ret {St A : Type} (a : A) : M St A := fun s => (Ok a, s).

Definition bind {St A B : Type} (c : M St A) (k : A -> M St B) : M St B :=
  fun s => match c s with
           | (Ok a, s') => k a s'
           | (Throw e, s') => (Throw e, s')
           end.

Definition throw {St A : Type} (e : Error) : M St A := fun s => (Throw e, s).
Definition get {St : Type} : M St St := fun s => (Ok s, s).
Definition gets {St A : Type} (f : St -> A) : M St A := fun s => (Ok (f s), s).
Definition modify {St : Type} (f : St -> St) : M St unit := fun s => (Ok tt, f s).

(** [DIP_THROW_IF( test, e )]. *)
Definition DIP_THROW_IF {St : Type} (test : bool) (e : Error) : M St unit :=
  if test then throw e else ret tt.

Declare Scope dip_scope.
Delimit Scope dip_scope with dip.
Notation "x <- c ;; k" := (bind c (fun x => k))
  (at level 100, c at next level, right associativity) : dip_scope.
Notation "c ;;; k" := (bind c (fun _ => k))
  (at level 100, right associativity) : dip_scope.
Local Open Scope dip_scope.

(** [for( ii = lo; ii < lo + n; ++ii ) body( ii )]. *)
Fixpoint for_ {St : Type} (n : nat) (lo : nat) (body : nat -> M St unit) : M St unit :=
  match n with
  | O => ret tt
  | S n' => body lo ;;; for_ n' (S lo) body
  end.

(** ** Sample types *)

(** Modelled from the spec: [dip::DataType] (datatype.h is not among the
    sources).  The spec lists boolean, 8/16/32/64-bit signed and unsigned
    integers, single and double float, single and double complex; [SizeOf] is
    the byte size of a sample, a complex sample being a pair of floats. *)
Inductive DataType : Type :=
| DT_BIN | DT_UINT8 | DT_SINT8 | DT_UINT16 | DT_SINT16
| DT_UINT32 | DT_SINT32 | DT_UINT64 | DT_SINT64
| DT_SFLOAT | DT_DFLOAT | DT_SCOMPLEX | DT_DCOMPLEX.

Definition DataType_eqb (a b : DataType) : bool :=
  match a, b with
  | DT_BIN, DT_BIN | DT_UINT8, DT_UINT8 | DT_SINT8, DT_SINT8
  | DT_UINT16, DT_UINT16 | DT_SINT16, DT_SINT16
  | DT_UINT32, DT_UINT32 | DT_SINT32, DT_SINT32
  | DT_UINT64, DT_UINT64 | DT_SINT64, DT_SINT64
  | DT_SFLOAT, DT_SFLOAT | DT_DFLOAT, DT_DFLOAT
  | DT_SCOMPLEX, DT_SCOMPLEX | DT_DCOMPLEX, DT_DCOMPLEX => true
  | _, _ => false
  end.

Definition SizeOf (dt : DataType) : Z :=
  match dt with
  | DT_BIN | DT_UINT8 | DT_SINT8 => 1
  | DT_UINT16 | DT_SINT16 => 2
  | DT_UINT32 | DT_SINT32 | DT_SFLOAT => 4
  | DT_UINT64 | DT_SINT64 | DT_DFLOAT | DT_SCOMPLEX => 8
  | DT_DCOMPLEX => 16
  end.

Definition IsComplex (dt : DataType) : bool :=
  match dt with
  | DT_SCOMPLEX | DT_DCOMPLEX => true
  | _ => false
  end.

(** ** The image value type *)

(** Modelled from the spec: [dip::Tensor] (tensor.h is not among the
    sources): a shape tag and an element count. *)
Inductive TensorShape : Type :=
| SCALAR_SHAPE | VECTOR_SHAPE | MATRIX_SHAPE
| DIAGONAL_SHAPE | SYMMETRIC_SHAPE | TRIANGULAR_SHAPE.

Record Tensor : Type := mkTensor {
  shape_ : TensorShape;
  elements_ : Z
}.

Definition Elements (t : Tensor) : Z := elements_ t.
Definition SetScalar (_ : Tensor) : Tensor := mkTensor SCALAR_SHAPE 1.

(** Modelled from the spec: [dip::PixelSize] (not among the sources), the
    optional per-dimension physical pixel size; only its magnitudes are
    kept. *)
Definition PixelSize : Type := list Q.

(** The fields of [dip::Image] listed in the spec's data model.  Strides and
    the tensor stride count samples; [origin_] is a byte address into the
    data segment; [dataBlock_] names the shared segment ([None] for a raw
    image). *)
Record Image : Type := mkImage {
  dataType_ : DataType;
  sizes_ : list Z;
  strides_ : list Z;
  tensor_ : Tensor;
  tensorStride_ : Z;
  protect_ : bool;
  colorSpace_ : string;
  pixelSize_ : PixelSize;
  dataBlock_ : option nat;
  origin_ : Z;
  externalInterface_ : option nat
}.

Definition set_dataType (v : DataType) (i : Image) : Image :=
  mkImage v (sizes_ i) (strides_ i) (tensor_ i) (tensorStride_ i) (protect_ i)
          (colorSpace_ i) (pixelSize_ i) (dataBlock_ i) (origin_ i) (externalInterface_ i).
Definition set_sizes (v : list Z) (i : Image) : Image :=
  mkImage (dataType_ i) v (strides_ i) (tensor_ i) (tensorStride_ i) (protect_ i)
          (colorSpace_ i) (pixelSize_ i) (dataBlock_ i) (origin_ i) (externalInterface_ i).
Definition set_strides (v : list Z) (i : Image) : Image :=
  mkImage (dataType_ i) (sizes_ i) v (tensor_ i) (tensorStride_ i) (protect_ i)
          (colorSpace_ i) (pixelSize_ i) (dataBlock_ i) (origin_ i) (externalInterface_ i).
Definition set_tensor (v : Tensor) (i : Image) : Image :=
  mkImage (dataType_ i) (sizes_ i) (strides_ i) v (tensorStride_ i) (protect_ i)
          (colorSpace_ i) (pixelSize_ i) (dataBlock_ i) (origin_ i) (externalInterface_ i).
Definition set_tensorStride (v : Z) (i : Image) : Image :=
  mkImage (dataType_ i) (sizes_ i) (strides_ i) (tensor_ i) v (protect_ i)
          (colorSpace_ i) (pixelSize_ i) (dataBlock_ i) (origin_ i) (externalInterface_ i).
Definition set_colorSpace (v : string) (i : Image) : Image :=
  mkImage (dataType_ i) (sizes_ i) (strides_ i) (tensor_ i) (tensorStride_ i) (protect_ i)
          v (pixelSize_ i) (dataBlock_ i) (origin_ i) (externalInterface_ i).
Definition set_pixelSize (v : PixelSize) (i : Image) : Image :=
  mkImage (dataType_ i) (sizes_ i) (strides_ i) (tensor_ i) (tensorStride_ i) (protect_ i)
          (colorSpace_ i) v (dataBlock_ i) (origin_ i) (externalInterface_ i).
Definition set_origin (v : Z) (i : Image) : Image :=
  mkImage (dataType_ i) (sizes_ i) (strides_ i) (tensor_ i) (tensorStride_ i) (protect_ i)
          (colorSpace_ i) (pixelSize_ i) (dataBlock_ i) v (externalInterface_ i).

(** Modelled from the spec: the accessors of image.h (not among the
    sources).  A raw image has no data segment, forging gives it one; the
    dimensionality is the length of the size array; a scalar image has one
    tensor element; [Pointer( offset )] is the address [offset] samples past
    the origin. *)
Definition IsForged (i : Image) : bool :=
  match dataBlock_ i with Some _ => true | None => false end.
Definition Dimensionality (i : Image) : nat := length (sizes_ i).
Definition TensorElements (i : Image) : Z := Elements (tensor_ i).
Definition IsScalar (i : Image) : bool := TensorElements i =? 1.
Definition Pointer (i : Image) (offset : Z) : Z :=
  ptr_add (origin_ i) (smul offset (to_sint (SizeOf (dataType_ i)))).
Definition ResetColorSpace : M Image unit := modify (set_colorSpace EmptyString).

(** The invariants of a forged image that the proofs rely on: parallel size
    and stride arrays, every field within the range of its machine type. *)
Definition wf_Image (i : Image) : bool :=
  (length (strides_ i) =? length (sizes_ i))%nat
  && forallb is_uintb (sizes_ i)
  && forallb is_sintb (strides_ i)
  && is_sintb (tensorStride_ i)
  && is_uintb (origin_ i).

(** ** [Image::Mirror] (image_manip.cpp) *)

Definition Mirror (dimension : nat) : M Image unit :=
  img <- get ;;
  DIP_THROW_IF (negb (IsForged img)) IMAGE_NOT_FORGED ;;;
  DIP_THROW_IF (length (sizes_ img) <=? dimension)%nat ILLEGAL_DIMENSION ;;;
  modify (fun i => set_origin
     (Pointer i (smul (to_sint (usub (at_ (sizes_ i) dimension) 1))
                      (at_ (strides_ i) dimension))) i) ;;;
  modify (fun i => set_strides
     (<[ dimension := sneg (at_ (strides_ i) dimension) ]> (strides_ i)) i).

(** ** [GetWindowOrigin] and [Image::Crop] (image_manip.cpp) *)

Inductive CropLocation : Type := CENTER | MIRROR_CENTER | TOP_LEFT | BOTTOM_RIGHT.

(** [for( ii = lo; ii < lo + n; ++ii ) s = body( ii, s )], for loops that
    cannot throw. *)
Fixpoint loop {St : Type} (n : nat) (lo : nat) (body : nat -> St -> St) (s : St) : St :=
  match n with
  | O => s
  | S n' => loop n' (S lo) body (body lo s)
  end.

(** [x & 1u] used as a condition. *)
Definition low_bit (x : Z) : bool := negb (Z.land x 1 =? 0).

(** [origin = imageSizes; origin -= windowSizes;] is the element-wise
    unsigned difference of the two arrays. *)
Definition GetWindowOrigin (imageSizes windowSizes : list Z)
    (cropLocation : CropLocation) : list Z :=
  let nDims := length imageSizes in
  let origin := replicate nDims 0 in
  match cropLocation with
  | CENTER =>
      loop nDims 0 (fun ii origin =>
        let diff := usub (at_ imageSizes ii) (at_ windowSizes ii) in
        <[ ii := uadd (udiv diff 2)
                      (b2z (negb (low_bit (at_ imageSizes ii))
                            && low_bit (at_ windowSizes ii))) ]> origin) origin
  | MIRROR_CENTER =>
      loop nDims 0 (fun ii origin =>
        let diff := usub (at_ imageSizes ii) (at_ windowSizes ii) in
        <[ ii := uadd (udiv diff 2)
                      (b2z (low_bit (at_ imageSizes ii)
                            && negb (low_bit (at_ windowSizes ii)))) ]> origin) origin
  | TOP_LEFT => origin
  | BOTTOM_RIGHT => zip_with usub imageSizes windowSizes
  end.

(** The window handed to [Crop] fits: one size per image dimension, none
    larger than the image's, all within [dip::uint]. *)
Definition window_fits (windowSizes imageSizes : list Z) : bool :=
  (length windowSizes =? length imageSizes)%nat
  && forallb (fun p => (0 <=? fst p) && (fst p <=? snd p) && (snd p <? 2 ^ 64))
             (zip windowSizes imageSizes).

Section Crop.

(** Two members that [Crop] calls live in headers that are not among the
sources, and are taken as parameters: [operator>] on two
[UnsignedArray]s, and [Image::Pointer( UnsignedArray const& )], which
turns pixel coordinates into an address or throws. *)
Variable array_gt : list Z -> list Z -> bool.
Variable PointerAt : Image -> list Z -> Res Z.

Definition PointerOf (coords : list Z) : M Image Z :=
fun i => (PointerAt i coords, i).

Definition Crop (sizes : list Z) (cropLocation : CropLocation) : M Image unit :=
img <- get ;;
DIP_THROW_IF (negb (IsForged img)) IMAGE_NOT_FORGED ;;;
let nDims := length (sizes_ img) in
DIP_THROW_IF (negb (length sizes =? nDims)%nat) ARRAY_PARAMETER_WRONG_LENGTH ;;;
DIP_THROW_IF (array_gt sizes (sizes_ img)) INDEX_OUT_OF_RANGE ;;;
let origin := GetWindowOrigin (sizes_ img) sizes cropLocation in
p <- PointerOf origin ;;
modify (set_origin p) ;;;
modify (set_sizes sizes).

End Crop.

(** ** [Image::AddSingleton] and [Image::ReinterpretCast] (image_manip.cpp) *)

(** [DimensionArray::insert( index, value )]. *)
Definition array_insert {A : Type} (index : nat) (value : A) (a : list A) : list A :=
  take index a ++ value :: drop index a.

Definition cast_error : Error := Message "Image not compatible with requested cast".

Section ReinterpretCast.

(** [PixelSize::InsertDimension] is declared in a header that is not among
the sources; it is taken as a parameter. *)
Variable InsertDimension : nat -> PixelSize -> PixelSize.

Definition AddSingleton (dim : nat) : M Image unit :=
img <- get ;;
DIP_THROW_IF (negb (IsForged img)) IMAGE_NOT_FORGED ;;;
let nd := length (sizes_ img) in
DIP_THROW_IF (nd <? dim)%nat INVALID_PARAMETER ;;;
modify (fun i => set_sizes (array_insert dim 1 (sizes_ i)) i) ;;;
modify (fun i => set_strides (array_insert dim 0 (strides_ i)) i) ;;;
modify (fun i => set_pixelSize (InsertDimension dim (pixelSize_ i)) i).

(** [for( dim = 0; dim < nDims; ++dim ) if( sizes_[ dim ] > 1 && strides_[ dim ] == 1 ) break;]
run from [dim] with [n] dimensions left; the result is [nDims] when no
dimension qualifies. *)
Fixpoint find_unit_stride (n : nat) (dim : nat) (sizes strides : list Z) : nat :=
match n with
| O => dim
| S n' =>
if (1 <? at_ sizes dim) && (at_ strides dim =? 1) then dim
else find_unit_stride n' (S dim) sizes strides
end.

Definition ReinterpretCast (dataType : DataType) : M Image unit :=
img <- get ;;
DIP_THROW_IF (negb (IsForged img)) IMAGE_NOT_FORGED ;;;
if DataType_eqb dataType (dataType_ img) then ret tt else
let inSize := SizeOf (dataType_ img) in
let outSize := SizeOf dataType in
(if negb (inSize =? outSize) then
 let nDims := Dimensionality img in
 let dim := find_unit_stride nDims 0 (sizes_ img) (strides_ img) in
 if outSize <? inSize then
 let ratio := udiv inSize outSize in
 let ratio_s := to_sint ratio in
 dn <- (if (dim =? nDims)%nat then
        AddSingleton 0 ;;;
        modify (fun i => set_strides (<[ 0%nat := 1 ]> (strides_ i)) i) ;;;
        ret (0%nat, S nDims)
      else ret (dim, nDims)) ;;
 let dim := fst dn in
 let nDims := snd dn in
 modify (fun i => set_sizes
         (<[ dim := umul (at_ (sizes_ i) dim) ratio ]> (sizes_ i)) i) ;;;
 for_ nDims 0 (fun ii =>
 if negb (ii =? dim)%nat then
   modify (fun i => set_strides
             (<[ ii := smul (at_ (strides_ i) ii) ratio_s ]> (strides_ i)) i)
 else ret tt) ;;;
 modify (fun i => set_tensorStride (smul (tensorStride_ i) ratio_s) i)
 else
 DIP_THROW_IF (dim =? nDims)%nat cast_error ;;;
 let ratio := udiv outSize inSize in
 let ratio_s := to_sint ratio in
 (* Do all checks before we change anything about the image *)
 i0 <- get ;;
 DIP_THROW_IF (negb (umod (at_ (sizes_ i0) dim) ratio =? 0)) cast_error ;;;
 for_ nDims 0 (fun ii =>
 if negb (ii =? dim)%nat then
   i <- get ;;
   DIP_THROW_IF (negb (srem (at_ (strides_ i) ii) ratio_s =? 0)) cast_error
 else ret tt) ;;;
 (* Now we're OK to make changes *)
 modify (fun i => set_sizes
         (<[ dim := udiv (at_ (sizes_ i) dim) ratio ]> (sizes_ i)) i) ;;;
 for_ nDims 0 (fun ii =>
 if negb (ii =? dim)%nat then
   modify (fun i => set_strides
             (<[ ii := sdiv (at_ (strides_ i) ii) ratio_s ]> (strides_ i)) i)
 else ret tt) ;;;
 modify (fun i => set_tensorStride (sdiv (tensorStride_ i) ratio_s) i)
 else ret tt) ;;;
modify (set_dataType dataType).

End ReinterpretCast.

(** ** Sample inputs

    The images and parameters on which the statements below are evaluated;
    they follow the doctests of the sources where there is one. *)

(** An [operator>] that never fires and a [Pointer( coords )] that is linear
    in the strides, for running [Crop]. *)
Definition no_gt (_ _ : list Z) : bool := false.
Definition linear_pointer (i : Image) (coords : list Z) : Res Z :=
  Ok (Pointer i (fold_left Z.add (zip_with Z.mul coords (strides_ i)) 0)).

(** [dip::Image src( { 7, 8, 9, 10 }, 1 )] of the Crop doctest, with normal
    strides, at address 4096. *)
Definition img_crop_test : Image :=
  mkImage DT_SFLOAT [7; 8; 9; 10] [1; 7; 56; 504] (mkTensor SCALAR_SHAPE 1) 1
          false EmptyString [] (Some 0%nat) 4096 None.


(** A [PixelSize::InsertDimension] that inserts a unit pixel size. *)
Definition unit_pixel_size (dim : nat) (ps : PixelSize) : PixelSize :=
  array_insert dim 1%Q ps.

(** [dip::Image src( { 7, 8 }, 1, dip::DT_SINT32 )] of the ReinterpretCast
    doctest. *)
Definition img_cast_test : Image :=
  mkImage DT_SINT32 [7; 8] [1; 7] (mkTensor SCALAR_SHAPE 1) 1
          false EmptyString [] (Some 0%nat) 4096 None.

(** ** [Image::Convert] (image_copy.cpp) *)

(** What [Convert] acts on: the image, the bytes of memory, and the list of
    the addresses at which sample data has been read or written so far. *)
Record World : Type := mkWorld {
  w_image : Image;
  w_bytes : Z -> Z;
  w_accesses : list Z
}.

Definition on_image (f : Image -> Image) (w : World) : World :=
  mkWorld (f (w_image w)) (w_bytes w) (w_accesses w).

Definition protected_error : Error := Message "Image is protected".

Section Convert.

(** Taken as parameters, their code being outside the sources:
[Image::IsShared] (it looks at the reference count of the data
segment); the in-place pass over the samples through
[detail::CopyBuffer] (either the single call or the loop over the image
lines); and the conversion through a new image
([ReForge], [Copy], [move]). *)
Variable IsShared : World -> bool.
Variable CopyBuffer_in_place : DataType -> M World unit.
Variable convert_by_copy : DataType -> M World unit.

Definition Convert (dt : DataType) : M World unit :=
w <- get ;;
let img := w_image w in
DIP_THROW_IF (negb (IsForged img)) IMAGE_NOT_FORGED ;;;
if negb (DataType_eqb dt (dataType_ img)) then
if DataType_eqb (dataType_ img) DT_BIN
 && (DataType_eqb dt DT_UINT8 || DataType_eqb dt DT_SINT8) then
(* bin->uint8 or bin->sint8: just change the flag *)
modify (on_image (set_dataType dt))
else if negb (IsShared w) && (SizeOf dt =? SizeOf (dataType_ img)) then
CopyBuffer_in_place dt ;;;
modify (on_image (set_dataType dt))
else
DIP_THROW_IF (protect_ img) protected_error ;;;
convert_by_copy dt
else ret tt.

End Convert.

(** ** [Image::TensorToSpatial], [Image::SplitComplex] (image_manip.cpp) *)

Section TensorAndComplex.

Variable InsertDimension : nat -> PixelSize -> PixelSize.

Definition TensorToSpatial (dim : nat) : M Image unit :=
img <- get ;;
DIP_THROW_IF (negb (IsForged img)) IMAGE_NOT_FORGED ;;;
let nd := length (sizes_ img) in
DIP_THROW_IF (nd <? dim)%nat INVALID_PARAMETER ;;;
modify (fun i => set_sizes (array_insert dim (Elements (tensor_ i)) (sizes_ i)) i) ;;;
modify (fun i => set_strides (array_insert dim (tensorStride_ i) (strides_ i)) i) ;;;
modify (fun i => set_pixelSize (InsertDimension dim (pixelSize_ i)) i) ;;;
modify (fun i => set_tensor (SetScalar (tensor_ i)) i) ;;;
modify (set_tensorStride 1) ;;;
ResetColorSpace.

Definition SplitComplex (dim : nat) : M Image unit :=
img <- get ;;
DIP_THROW_IF (negb (IsForged img)) IMAGE_NOT_FORGED ;;;
DIP_THROW_IF (negb (IsComplex (dataType_ img))) DATA_TYPE_NOT_SUPPORTED ;;;
let nd := length (sizes_ img) in
DIP_THROW_IF (nd <? dim)%nat INVALID_PARAMETER ;;;
(* Change data type *)
modify (fun i => set_dataType
    (if DataType_eqb (dataType_ i) DT_SCOMPLEX then DT_SFLOAT else DT_DFLOAT) i) ;;;
(* Sample size is halved, meaning all strides must be doubled *)
for_ nd 0 (fun ii =>
modify (fun i => set_strides
      (<[ ii := smul (at_ (strides_ i) ii) 2 ]> (strides_ i)) i)) ;;;
modify (fun i => set_tensorStride (smul (tensorStride_ i) 2) i) ;;;
(* Create new spatial dimension *)
modify (fun i => set_sizes (array_insert dim 2 (sizes_ i)) i) ;;;
modify (fun i => set_strides (array_insert dim 1 (strides_ i)) i) ;;;
modify (fun i => set_pixelSize (InsertDimension dim (pixelSize_ i)) i).

End TensorAndComplex.

(** ** [InternSwapBytesInSample], [Image::SwapBytesInSample] (image_copy.cpp) *)

(** Memory is a map from byte addresses to byte values. *)
Definition Memory : Type := Z -> Z.

Definition store (m : Memory) (a v : Z) : Memory :=
  fun x => if x =? a then v else m x.

(** [std::swap( c[ i ], c[ j ] )] on the bytes at [c]. *)
Definition swap_bytes (c i j : Z) (m : Memory) : Memory :=
  let t := m (c + i) in
  store (store m (c + i) (m (c + j))) (c + j) t.

(** The body of the [do] loop for a sample of [size] bytes at [c]:
    [for( ii = 0; ii < sizeof( TPI ) / 2; ++ii ) std::swap( c[ ii ], c[ sizeof( TPI ) - 1 - ii ] )]. *)
Definition swap_sample (size : Z) (c : Z) (m : Memory) : Memory :=
  loop (Z.to_nat (size / 2)) 0
       (fun ii m => swap_bytes c (Z.of_nat ii) (size - 1 - Z.of_nat ii) m) m.

(** Modelled from the spec: [Image::QuickCopy] (image.h is not among the
    sources), a view: a new image value that shares the data segment and has
    the same sizes, strides, tensor, data type and origin; the pixel size,
    the colour space and the protection flag are not carried over. *)
Definition QuickCopy (i : Image) : Image :=
  mkImage (dataType_ i) (sizes_ i) (strides_ i) (tensor_ i) (tensorStride_ i)
          false EmptyString [] (dataBlock_ i) (origin_ i) (externalInterface_ i).

Section SwapBytesInSample.

Variable InsertDimension : nat -> PixelSize -> PixelSize.

(** [ImageIterator< TPI >] and its [OptimizeAndFlatten] belong to
iterators.h, which is not among the sources.  The iterator is taken as
a parameter: for an image it gives the sample offset (from the origin)
the iterator starts at, and the offsets it points at after each
successful [++it], in order. *)
Variable ImageIterator : Image -> Z * list Z.

(** [do { body( it.Pointer() ) } while( ++it );] *)
Definition InternSwapBytesInSample (size : Z) (img : Image) (m : Memory) : Memory :=
let it := ImageIterator img in
fold_left (fun m offset => swap_sample size (Pointer img offset) m)
    (snd it)
    (swap_sample size (Pointer img (fst it)) m).

(** Runs a mutation of the local copy [tmp]; the image members throw
without touching memory. *)
Definition on_tmp (c : M Image unit) (tmp : Image) : M Memory Image :=
fun m => match c tmp with
   | (Ok _, tmp') => (Ok tmp', m)
   | (Throw e, _) => (Throw e, m)
   end.

Definition SwapBytesInSample (this : Image) : M Memory unit :=
DIP_THROW_IF (negb (IsForged this)) IMAGE_NOT_FORGED ;;;
if SizeOf (dataType_ this) =? 1 then ret tt (* nothing to do! *) else
let tmp := QuickCopy this in
tmp <- (if negb (IsScalar tmp)
  then on_tmp (TensorToSpatial InsertDimension (Dimensionality tmp)) tmp
  else ret tmp) ;;
tmp <- (if IsComplex (dataType_ tmp)
  then on_tmp (SplitComplex InsertDimension 0) tmp
  else ret tmp) ;;
let size := SizeOf (dataType_ this) in
if size =? 2 then
tmp <- on_tmp (ReinterpretCast InsertDimension DT_UINT16) tmp ;;
modify (InternSwapBytesInSample 2 tmp)
else if size =? 4 then
tmp <- on_tmp (ReinterpretCast InsertDimension DT_UINT32) tmp ;;
modify (InternSwapBytesInSample 4 tmp)
else if size =? 8 then
tmp <- on_tmp (ReinterpretCast InsertDimension DT_UINT64) tmp ;;
modify (InternSwapBytesInSample 8 tmp)
else
throw NOT_IMPLEMENTED. (* This should never happen *)

End SwapBytesInSample.

(** The addresses of the samples the iterator points at, in order. *)
Definition visited_pointers (ImageIterator : Image -> Z * list Z) (img : Image) : list Z :=
  map (Pointer img) (fst (ImageIterator img) :: snd (ImageIterator img)).

(** Reversal of the bytes of the sample of [size] bytes at [c], as a map on
    addresses: the address whose byte is found at [a] afterwards. *)
Definition rev_addr (size c a : Z) : Z :=
  if (c <=? a) && (a <? c + size) then c + (size - 1 - (a - c)) else a.

(** The same for the samples at [cs], reversed one after the other. *)
Definition rev_addrs (size : Z) (cs : list Z) (a : Z) : Z :=
  fold_right (rev_addr size) a cs.

(** Two samples start at the same address or do not overlap. *)
Definition apart (size c1 c2 : Z) : Prop :=
  c1 = c2 \/ c1 + size <= c2 \/ c2 + size <= c1.


(** A one-dimensional image of three 16-bit samples at address 4096, the
    iterator that walks along it, and a memory whose sample at offset 2
    holds 5. *)
Definition img_swap_test : Image :=
  mkImage DT_SINT16 [3] [1] (mkTensor SCALAR_SHAPE 1) 1
          false EmptyString [] (Some 0%nat) 4096 None.
Definition line_iterator (i : Image) : Z * list Z :=
  (0, map Z.of_nat (seq 1 (Z.to_nat (at_ (sizes_ i) 0) - 1))).
Definition mem_swap_test : Memory :=
  fun a => if a =? 4100 then 5 else 0.

(** A shared binary image, and passes over the samples that throw should
    they ever be run. *)
Definition world_bin_test : World :=
  mkWorld (mkImage DT_BIN [4; 2] [1; 4] (mkTensor SCALAR_SHAPE 1) 1
                   false EmptyString [] (Some 0%nat) 4096 None)
          (fun a => a mod 2) [].
Definition failing_pass (_ : DataType) : M World unit := throw NOT_IMPLEMENTED.

(** ** Chain codes (chain_code.cpp) *)

(** Modelled from the spec: [ChainCode::Code], [VertexInteger], [VertexFloat]
    and the [ChainCode] structure (chain_code.h is not among the sources).  A
    code is a direction number, 0 to 3 in a 4-connected and 0 to 7 in an
    8-connected chain, with a flag telling that the step runs along the image
    border; a chain code is the sequence of codes, the coordinates of the
    start pixel, the label of the object and the connectivity flag.  Vertex
    coordinates of a polygon are integers plus or minus one half, which
    [dfloat] holds exactly; they are kept in [Q]. *)
Record Code : Type := mkCode {
  code_number : Z;
  IsBorder : bool
}.

Definition VertexInteger : Type := (Z * Z)%type.
Definition VertexFloat : Type := (Q * Q)%type.

Record ChainCode : Type := mkChainCode {
  codes : list Code;
  start : VertexInteger;
  objectID : Z;
  is8connected : bool
}.

Definition ssub (a b : Z) : Z := wrap_sint (a - b).

Definition vertex_sub (a b : VertexInteger) : VertexInteger :=
  (ssub (fst a) (fst b), ssub (snd a) (snd b)).

Definition vertex_add (a b : VertexFloat) : VertexFloat :=
  (Qred (fst a + fst b), Qred (snd a + snd b)).

Definition to_float (v : VertexInteger) : VertexFloat :=
  (inject_Z (fst v), inject_Z (snd v)).

Definition code_at (cs : list Code) (i : nat) : Code := nth i cs (mkCode 0 false).
Definition back (cs : list Code) : Code := List.last cs (mkCode 0 false).

(** [( cur + 1 ) % 4 == next]. *)
Definition diagonal_pair (cur next : Code) : bool :=
  (code_number cur + 1) mod 4 =? code_number next.

Section ChainCode.

(** The tables [deltas4] and [deltas8] (the unit step of each direction)
and the default value of the member [is8connected] are declared
outside the sources; they are parameters. *)
Variable deltas4 : Z -> VertexInteger.
Variable deltas8 : Z -> VertexInteger.
Variable default_is8connected : bool.

(** The [for] loop of [ConvertTo8Connected], from index [ii] with the codes
pushed so far; it returns the index it stops at and the codes pushed.
Every round advances [ii], so [fuel = codes.size()] rounds are
enough. *)
Fixpoint convert_loop (fuel : nat) (cs : list Code) (ii : nat) (out : list Code)
: nat * list Code :=
match fuel with
| O => (ii, out)
| S fuel' =>
if (ii <? length cs - 1)%nat then
let cur := code_at cs ii in
let next := code_at cs (ii + 1) in
if diagonal_pair cur next then
  (* this cannot be along the image edge! *)
  convert_loop fuel' cs (S (S ii)) (out ++ [mkCode (code_number cur * 2 + 1) false])
else
  convert_loop fuel' cs (S ii) (out ++ [mkCode (code_number cur * 2) (IsBorder cur)])
else (ii, out)
end.

Definition ConvertTo8Connected (this : ChainCode) : ChainCode :=
if is8connected this then this else
let cs := codes this in
if (length cs <? 3)%nat then
mkChainCode (map (fun c => mkCode (code_number c * 2) (IsBorder c)) cs)
        (start this) (objectID this) default_is8connected
else
let cur := back cs in
let next := code_at cs 0 in
let wraps := diagonal_pair cur next in
let out_codes := if wraps then [mkCode (code_number cur * 2 + 1) false] else [] in
let out_start := if wraps then vertex_sub (start this) (deltas4 (code_number cur))
             else start this in
let skipLast := wraps in
let ii := if wraps then 1%nat else 0%nat in
let '(ii, out_codes) := convert_loop (length cs) cs ii out_codes in
let out_codes :=
if (ii <? length cs)%nat && negb skipLast then
out_codes ++ [mkCode (code_number (code_at cs ii) * 2) (IsBorder (code_at cs ii))]
else out_codes in
mkChainCode out_codes out_start (objectID this) default_is8connected.

(** [pts]: the midpoints of the four pixel edges. *)
Definition pts (k : Z) : VertexFloat :=
if k =? 0 then (0, - (1 # 2))%Q
else if k =? 1 then (- (1 # 2), 0)%Q
else if k =? 2 then (0, 1 # 2)%Q
else (1 # 2, 0)%Q.

Definition DecrementMod4 (k : Z) : Z := if k =? 0 then 3 else k - 1.

(** The vertices pushed for the code [n] that follows the code [m], at
position [pos]. *)
Definition polygon_step (m n : Z) (pos : VertexFloat) : list VertexFloat :=
let k := (m + 1) / 2 in
let k := if k =? 4 then 0 else k in
let l := n / 2 in
let l := if l <? k then l + 4 else l in
let l := l - k in
[vertex_add (pts k) pos] ++
(if negb (l =? 0) then
 let k := DecrementMod4 k in
 [vertex_add (pts k) pos] ++
 (if l <=? 2 then
let k := DecrementMod4 k in
[vertex_add (pts k) pos] ++
(if l =? 1 then
   (* This case is only possible if n is odd and n==m+4 *)
   let k := DecrementMod4 k in
   [vertex_add (pts k) pos]
 else [])
else [])
 else []).

(** [for( unsigned n : cc.codes ) { ... pos += deltas8[ n ]; m = n; }]. *)
Fixpoint polygon_loop (cs : list Code) (m : Z) (pos : VertexFloat)
(vertices : list VertexFloat) : list VertexFloat :=
match cs with
| [] => vertices
| c :: cs' =>
let n := code_number c in
polygon_loop cs' n (vertex_add pos (to_float (deltas8 n)))
           (vertices ++ polygon_step m n pos)
end.

Definition weird_chain_code : Error :=
Message "Received a weird chain code as input (N==1)".

Definition Polygon (this : ChainCode) : Res (list VertexFloat) :=
if (length (codes this) =? 1)%nat then Throw weird_chain_code else
(* This function works only for 8-connected chain codes, convert it if it's 4-connected. *)
let cc := if is8connected this then this else ConvertTo8Connected this in
let pos := to_float (start cc) in
match codes cc with
| [] =>
(* A 1-pixel object. *)
Ok [vertex_add (pts 0) pos; vertex_add (pts 3) pos;
  vertex_add (pts 2) pos; vertex_add (pts 1) pos]
| _ :: _ =>
let m := code_number (back (codes cc)) in
Ok (polygon_loop (codes cc) m pos [])
end.

End ChainCode.

(** The claim's reading of the conversion, on direction numbers: a scan from
    left to right that merges a code and its successor when the successor is
    the code plus one modulo 4, and doubles a code otherwise... *)
Fixpoint merge_pairs (l : list Z) : list Z :=
  match l with
  | [] => []
  | cur :: rest =>
      match rest with
      | [] => [cur * 2]
      | next :: rest' =>
          if (cur + 1) mod 4 =? next then (cur * 2 + 1) :: merge_pairs rest'
          else (cur * 2) :: merge_pairs rest
      end
  end.

(** ... and across the sequence boundary: when the last code followed by the
    first is such a pair, the two are merged and the scan covers the codes in
    between. *)
Definition merge_pairs_cyclic (l : list Z) : list Z :=
  match l with
  | [] => []
  | first :: rest =>
      let last := List.last l 0 in
      if (2 <=? length l)%nat && ((last + 1) mod 4 =? first)
      then (last * 2 + 1) :: merge_pairs (removelast rest)
      else merge_pairs l
  end.

Definition code_numbers (cs : list Code) : list Z := map code_number cs.

(** [Code( c * 2, c.IsBorder() )]. *)
Definition double_code (c : Code) : Code := mkCode (code_number c * 2) (IsBorder c).

Definition is_4connected_code (c : Code) : bool :=
  (0 <=? code_number c) && (code_number c <=? 3).

(** The scan of the [for] loop on a list of codes: the codes it pushes, and
    the code it leaves unread at the end, if any. *)
Fixpoint scan_pairs (l : list Code) : list Code * list Code :=
  match l with
  | [] => ([], [])
  | cur :: rest =>
      match rest with
      | [] => ([], [cur])
      | next :: rest' =>
          if diagonal_pair cur next then
            let r := scan_pairs rest' in
            (mkCode (code_number cur * 2 + 1) false :: fst r, snd r)
          else
            let r := scan_pairs rest in
            (mkCode (code_number cur * 2) (IsBorder cur) :: fst r, snd r)
      end
  end.


(** The unit steps of the Freeman directions, with the y axis pointing
    down: code 0 is a step to the right, the codes turn counter-clockwise. *)
Definition freeman4 (c : Z) : VertexInteger :=
  if c =? 0 then (1, 0) else if c =? 1 then (0, -1)
  else if c =? 2 then (-1, 0) else (0, 1).
Definition freeman8 (c : Z) : VertexInteger :=
  if c =? 0 then (1, 0) else if c =? 1 then (1, -1)
  else if c =? 2 then (0, -1) else if c =? 3 then (-1, -1)
  else if c =? 4 then (-1, 0) else if c =? 5 then (-1, 1)
  else if c =? 6 then (0, 1) else (1, 1).

Definition chain (connected8 : bool) (numbers : list Z) : ChainCode :=
  mkChainCode (map (fun c => mkCode c false) numbers) (0, 0) 1 connected8.

(** The two chain codes of the doctest of chain_code.cpp (a little circle),
    a chain of two codes, and a chain whose last, first and one-but-last
    codes are in sequence. *)
Definition cc8_test : ChainCode := chain true [0; 0; 7; 6; 6; 5; 4; 4; 3; 2; 2; 1].
Definition cc4_test : ChainCode :=
  chain false [0; 0; 3; 0; 3; 3; 2; 3; 2; 2; 1; 2; 1; 1; 0; 1].
Definition cc_short_test : ChainCode := chain false [0; 1].
Definition cc_wrap_test : ChainCode := chain false [1; 3; 0].

(** *** The chain codes of one boundary *)


Definition step_to (pos delta : VertexInteger) : VertexInteger :=
  (fst pos + fst delta, snd pos + snd delta).





(** ** [CopyTo] (image_copy.cpp) *)

(** [std::memcpy( dest, src, n )]. *)
Definition memcpy (dest src n : Z) (m : Memory) : Memory :=
  fun a => if (dest <=? a) && (a <? dest + n) then m (src + (a - dest)) else m a.

(** The [n] bytes at [a], and writing [n] bytes at [a]. *)
Definition read_bytes (m : Memory) (a n : Z) : list Z :=
  map (fun k => m (a + Z.of_nat k)) (seq 0 (Z.to_nat n)).
Definition write_bytes (a : Z) (bs : list Z) (n : Z) (m : Memory) : Memory :=
  fun x => if (a <=? x) && (x <? a + n) then nth (Z.to_nat (x - a)) bs 0 else m x.

(** Modelled from the spec: [Image::NumberOfPixels] (image.h is not among the
    sources), the product of the sizes. *)
Definition NumberOfPixels (i : Image) : Z := fold_left umul (sizes_ i) 1.

(** Modelled from the spec: the state of a [GenericImageIterator]
    (generic_iterators.h is not among the sources): the offset of the pixel
    it points at and the offsets still to come, or [None] once it has moved
    past the last pixel; [operator bool] tells which, [++it] moves on. *)
Definition Iterator : Type := option (Z * list Z).
Definition it_valid (it : Iterator) : bool :=
  match it with Some _ => true | None => false end.
Definition it_offset (it : Iterator) : Z :=
  match it with Some (o, _) => o | None => 0 end.
Definition it_next (it : Iterator) : Iterator :=
  match it with Some (_, o :: rest) => Some (o, rest) | _ => None end.
(** The number of pixels from the current one to the last. *)
Definition it_left (it : Iterator) : nat :=
  match it with Some (_, rest) => S (length rest) | None => O end.

Definition offsets_error : Error := Message "Number of pixels does not match offset list".

Section CopyTo.

(** Taken as parameters, their code being outside the sources: the pixels a
[GenericImageIterator] over an image visits (the offset of the first and
the offsets of the following ones); the same for the joint iterator over
two images (pairs of offsets); [Image::CheckIsMask] with the options
[DONT_ALLOW] and [DO_THROW]; and the conversion of the bytes of one
sample from a data type to another that pixel assignment performs. *)
Variable GenericImageIterator : Image -> Z * list Z.
Variable GenericJointImageIterator : Image -> Image -> (Z * Z) * list (Z * Z).
Variable CheckIsMask : Image -> list Z -> Res unit.
Variable convert_sample : DataType -> DataType -> list Z -> list Z.

(** [telems] and [bytes] after the test on the tensor strides. *)
Definition copy_telems (dest src : Image) : Z :=
if (tensorStride_ dest =? 1) && (tensorStride_ src =? 1) then 1 else TensorElements dest.
Definition copy_bytes (dest src : Image) : Z :=
if (tensorStride_ dest =? 1) && (tensorStride_ src =? 1)
then umul (SizeOf (dataType_ dest)) (TensorElements dest)
else SizeOf (dataType_ dest).

(** [it.Pointer( ii )]: the address of tensor element [ii] of the pixel at
[offset]. *)
Definition element_pointer (i : Image) (offset : Z) (ii : nat) : Z :=
Pointer i (offset + Z.of_nat ii * tensorStride_ i).

(** The three ways a pixel is copied: as one block of bytes, tensor element
by tensor element, or by pixel assignment, which converts each sample. *)
Definition copy_pixel (dest src : Image) (d s : Z) (m : Memory) : Memory :=
if DataType_eqb (dataType_ dest) (dataType_ src) then
if copy_telems dest src =? 1 then
memcpy (Pointer dest d) (Pointer src s) (copy_bytes dest src) m
else
loop (Z.to_nat (copy_telems dest src)) 0
   (fun ii m => memcpy (element_pointer dest d ii) (element_pointer src s ii)
                       (copy_bytes dest src) m) m
else
loop (Z.to_nat (TensorElements dest)) 0
 (fun ii m =>
    write_bytes (element_pointer dest d ii)
                (convert_sample (dataType_ src) (dataType_ dest)
                   (read_bytes m (element_pointer src s ii) (SizeOf (dataType_ src))))
                (SizeOf (dataType_ dest)) m) m.

(** [*( static_cast< bin* >( destIt.Pointer< 1 >() ))]. *)
Definition mask_set (destMask : Image) (offset : Z) (m : Memory) : bool :=
negb (m (Pointer destMask offset) =? 0).

(** [do { if( mask ) { DIP_THROW_IF( !srcIt, ... ); copy; ++srcIt; } } while( ++destIt );]
with the joint iterator at [cur] and [rest] still to come. *)
Fixpoint CopyTo_mask_loop (dest src destMask : Image) (cur : Z * Z) (rest : list (Z * Z))
(srcIt : Iterator) : M Memory Iterator :=
srcIt <- (m <- get ;;
    if mask_set destMask (snd cur) m then
      DIP_THROW_IF (negb (it_valid srcIt)) SIZES_DONT_MATCH ;;;
      modify (copy_pixel dest src (fst cur) (it_offset srcIt)) ;;;
      ret (it_next srcIt)
    else ret srcIt) ;;
match rest with
| [] => ret srcIt
| next :: rest' => CopyTo_mask_loop dest src destMask next rest' srcIt
end.

Definition CopyTo_mask (src dest destMask : Image) : M Memory unit :=
DIP_THROW_IF (negb (IsForged src) || negb (IsForged dest)) IMAGE_NOT_FORGED ;;;
DIP_THROW_IF (negb (TensorElements src =? TensorElements dest)) NTENSORELEM_DONT_MATCH ;;;
DIP_THROW_IF (negb (IsForged destMask)) IMAGE_NOT_FORGED ;;;
(fun m => (CheckIsMask destMask (sizes_ dest), m)) ;;;
let destIt := GenericJointImageIterator dest destMask in
let srcIt := Some (GenericImageIterator src) in
srcIt <- CopyTo_mask_loop dest src destMask (fst destIt) (snd destIt) srcIt ;;
DIP_THROW_IF (it_valid srcIt) SIZES_DONT_MATCH.

(** [do { copy to dest.Pointer( *arrIt ) } while( ++arrIt, ++srcIt );] with
[arrIt] at index [ii] of the offset list. *)
Fixpoint CopyTo_offsets_loop (dest src : Image) (destOffsets : list Z) (ii : nat)
(cur : Z) (rest : list Z) : M Memory unit :=
modify (copy_pixel dest src (at_ destOffsets ii) cur) ;;;
match rest with
| [] => ret tt
| next :: rest' => CopyTo_offsets_loop dest src destOffsets (S ii) next rest'
end.

Definition CopyTo_offsets (src dest : Image) (destOffsets : list Z) : M Memory unit :=
DIP_THROW_IF (negb (IsForged src) || negb (IsForged dest)) IMAGE_NOT_FORGED ;;;
DIP_THROW_IF (negb (TensorElements src =? TensorElements dest)) NTENSORELEM_DONT_MATCH ;;;
DIP_THROW_IF (length destOffsets =? 0)%nat ARRAY_PARAMETER_EMPTY ;;;
DIP_THROW_IF (negb (NumberOfPixels src =? Z.of_nat (length destOffsets))) offsets_error ;;;
let srcIt := GenericImageIterator src in
CopyTo_offsets_loop dest src destOffsets 0 (fst srcIt) (snd srcIt).

(** The byte ranges (first address, length) that copying to the pixel of
[dest] at offset [d] writes. *)
Definition written (dest src : Image) (d : Z) : list (Z * Z) :=
if DataType_eqb (dataType_ dest) (dataType_ src) then
if copy_telems dest src =? 1 then [(Pointer dest d, copy_bytes dest src)]
else map (fun ii => (element_pointer dest d ii, copy_bytes dest src))
     (seq 0 (Z.to_nat (copy_telems dest src)))
else map (fun ii => (element_pointer dest d ii, SizeOf (dataType_ dest)))
   (seq 0 (Z.to_nat (TensorElements dest))).

Definition in_range (a : Z) (r : Z * Z) : bool := (fst r <=? a) && (a <? fst r + snd r).

(** No sample of the mask lies in the bytes the copy writes to. *)
Definition mask_apart (dest src destMask : Image) : bool :=
let destIt := GenericJointImageIterator dest destMask in
let joint := fst destIt :: snd destIt in
forallb (fun pm =>
forallb (fun pd =>
forallb (fun r => negb (in_range (Pointer destMask (snd pm)) r))
      (written dest src (fst pd))) joint) joint.

(** The mask as the joint iterator reads it. *)
Definition mask_bits (dest destMask : Image) (m : Memory) : list bool :=
let destIt := GenericJointImageIterator dest destMask in
map (fun p => mask_set destMask (snd p) m) (fst destIt :: snd destIt).

End CopyTo.

(** The number of set pixels of a mask. *)
Fixpoint count_set (bits : list bool) : nat :=
  match bits with
  | [] => O
  | b :: rest => ((if b then 1 else 0) + count_set rest)%nat
  end.

(** The lockstep of the mask loop, on the mask bits alone: the number of
    source pixels left after the loop, or [None] when a set mask pixel finds
    the source exhausted. *)
Fixpoint lockstep (bits : list bool) (left : nat) : option nat :=
  match bits with
  | [] => Some left
  | b :: rest =>
      if b then match left with
                | O => None
                | S left' => lockstep rest left'
                end
      else lockstep rest left
  end.


(** A source of two 8-bit pixels (holding 7 and 8) at address 100, a
    destination of three at address 200 and a binary mask of three set pixels
    at address 300; the joint iterator over two lines, a [CheckIsMask] that
    accepts, and a sample conversion that keeps the bytes. *)
Definition img_line (dt : DataType) (n origin : Z) : Image :=
  mkImage dt [n] [1] (mkTensor SCALAR_SHAPE 1) 1
          false EmptyString [] (Some 0%nat) origin None.
Definition img_copy_src : Image := img_line DT_UINT8 2 100.
Definition img_copy_dest : Image := img_line DT_UINT8 3 200.
Definition img_copy_mask : Image := img_line DT_BIN 3 300.
Definition mem_copy_test : Memory :=
  fun a => if a =? 100 then 7 else if a =? 101 then 8
           else if (300 <=? a) && (a <? 303) then 1 else 0.
Definition joint_line_iterator (a b : Image) : (Z * Z) * list (Z * Z) :=
  ((0, 0), map (fun k => (Z.of_nat k, Z.of_nat k)) (seq 1 (Z.to_nat (at_ (sizes_ a) 0) - 1))).
Definition any_mask (_ : Image) (_ : list Z) : Res unit := Ok tt.
Definition same_bytes (_ _ : DataType) (bs : list Z) : list Z := bs.

(* ===================================================================== *)
(** * The floating-point sample types [dip::sfloat] and [dip::dfloat]

    [sfloat] is [float] and [dfloat] is [double]: the IEEE 754 formats
    binary32 and binary64.  A value of such a type is a rational number, an
    infinity or a NaN.  An operation gives the exact result rounded to the
    nearest number of the format, to the one with the even last digit in
    case of a tie; a rounded result beyond the largest number of the format
    is an infinity.  The sign of a zero is not kept: no comparison tells
    [-0] from [+0]. *)

Inductive FloatType : Type := SFLOAT | DFLOAT.

(** The number of digits of the mantissa, and the exponent beyond the largest
    one. *)
Definition prec (t : FloatType) : Z := match t with SFLOAT => 24 | DFLOAT => 53 end.
Definition emax (t : FloatType) : Z := match t with SFLOAT => 128 | DFLOAT => 1024 end.
(** The exponent of the last digit of the numbers next to zero. *)
Definition emin (t : FloatType) : Z := 3 - emax t - prec t.

Definition pow2 (e : Z) : Q := (2 ^ e)%Q.

(** The exponent [k] with [2 ^ (k - 1) <= |q| < 2 ^ k], for [q] other than
    zero. *)
Definition mag (q : Q) : Z :=
  if Qnum q =? 0 then 0 else
  let k := Z.log2 (Z.abs (Qnum q)) - Z.log2 (Z.pos (Qden q)) in
  if Qle_bool (pow2 k) (Qabs q) then k + 1 else k.

(** The nearest integer, the even one of two that are equally near. *)
Definition rne (q : Q) : Z :=
  let f := Qfloor q in
  match (q - inject_Z f ?= 1 # 2)%Q with
  | Lt => f
  | Gt => f + 1
  | Eq => if Z.even f then f else f + 1
  end.

(** The exponent of the last digit that the format keeps of [q]. *)
Definition cexp (t : FloatType) (q : Q) : Z := Z.max (mag q - prec t) (emin t).

(** [q] rounded to a multiple of [2 ^ e], and to the format, whatever its
    size. *)
Definition on_grid (e : Z) (q : Q) : Q := (inject_Z (rne (q / pow2 e)) * pow2 e)%Q.
Definition round_to (t : FloatType) (q : Q) : Q := on_grid (cexp t q) q.

(** [std::numeric_limits< T >::max()], as a number. *)
Definition max_value (t : FloatType) : Q :=
  (inject_Z (2 ^ prec t - 1) * pow2 (emax t - prec t))%Q.

Inductive floating : Type :=
| Fin (q : Qc)
| PInf
| NInf
| NaN.

(** The value of the format that an exact result [q] gives. *)
Definition rounded (t : FloatType) (q : Q) : floating :=
  let r := round_to t q in
  if Qle_bool r (max_value t) then
    if Qle_bool (- max_value t) r then Fin (Q2Qc r) else NInf
  else PInf.

Definition fp_neg (x : floating) : floating :=
  match x with
  | Fin q => Fin (- q)%Qc
  | PInf => NInf
  | NInf => PInf
  | NaN => NaN
  end.

Definition fp_add (t : FloatType) (x y : floating) : floating :=
  match x, y with
  | NaN, _ | _, NaN => NaN
  | PInf, NInf | NInf, PInf => NaN
  | PInf, _ | _, PInf => PInf
  | NInf, _ | _, NInf => NInf
  | Fin a, Fin b => rounded t (this a + this b)%Q
  end.

Definition fp_sub (t : FloatType) (x y : floating) : floating :=
  match x, y with
  | NaN, _ | _, NaN => NaN
  | PInf, PInf | NInf, NInf => NaN
  | PInf, _ | _, NInf => PInf
  | NInf, _ | _, PInf => NInf
  | Fin a, Fin b => rounded t (this a - this b)%Q
  end.

(** The sign of a number: [Lt] for a negative one. *)
Definition fp_sign (x : floating) : option comparison :=
  match x with
  | Fin q => Some (0 ?= this q)%Q
  | PInf => Some Lt
  | NInf => Some Gt
  | NaN => None
  end.

Definition fp_mul (t : FloatType) (x y : floating) : floating :=
  match x, y with
  | Fin a, Fin b => rounded t (this a * this b)%Q
  | _, _ =>
      match fp_sign x, fp_sign y with
      | Some Eq, _ | _, Some Eq | None, _ | _, None => NaN
      | Some Lt, Some Lt | Some Gt, Some Gt => PInf
      | _, _ => NInf
      end
  end.

(** A zero divisor counts as [+0]: the one division of the sources divides by
    a square, which is never [-0]. *)
Definition fp_div (t : FloatType) (x y : floating) : floating :=
  match x, y with
  | NaN, _ | _, NaN => NaN
  | Fin a, Fin b =>
      if Qeq_bool (this b) 0 then
        match (0 ?= this a)%Q with Eq => NaN | Lt => PInf | Gt => NInf end
      else rounded t (this a / this b)%Q
  | Fin _, _ => Fin 0%Qc
  | _, Fin b =>
      match fp_sign x, (0 ?= this b)%Q with
      | Some Lt, (Lt | Eq) | Some Gt, Gt => PInf
      | _, _ => NInf
      end
  | _, _ => NaN
  end.

(** [x <= y] and [x >= y]: false when either is a NaN. *)
Definition fp_leb (x y : floating) : bool :=
  match x, y with
  | NaN, _ | _, NaN => false
  | NInf, _ | _, PInf => true
  | _, NInf | PInf, _ => false
  | Fin a, Fin b => Qle_bool (this a) (this b)
  end.
Definition fp_geb (x y : floating) : bool := fp_leb y x.

(** [static_cast< T >] of a [dip::sint], and of a value of another
    floating-point type. *)
Definition fp_of_sint (t : FloatType) (z : Z) : floating := rounded t (inject_Z z).
Definition fp_cast (t : FloatType) (x : floating) : floating :=
  match x with
  | Fin q => rounded t (this q)
  | _ => x
  end.

(** [std::numeric_limits< T >::lowest()] and [max()]. *)
Definition fp_max (t : FloatType) : floating := Fin (Q2Qc (max_value t)).
Definition fp_lowest (t : FloatType) : floating := Fin (Q2Qc (- max_value t)).

(** The numbers of the format. *)
Definition representable (t : FloatType) (q : Q) : Prop :=
  (round_to t q == q)%Q /\ (Qabs q <= max_value t)%Q.

(** A number that is not negative. *)
Definition not_negative (x : floating) : Prop := fp_leb (Fin 0%Qc) x = true.

(** [x] is the number [q]. *)
Definition is_value (x : floating) (q : Q) : bool :=
  match x with
  | Fin a => Qeq_bool (this a) q
  | _ => false
  end.

(** *** The Standard Library's specification of IEEE 754 arithmetic

    A value of [SpecFloat.spec_float] keeps a sign, a mantissa and an
    exponent, and the operations of the specification work on the digits.
    On sample operands the operations above give the same numbers. *)

(** The number that a value of the specification stands for. *)
Definition of_spec_float (x : SpecFloat.spec_float) : floating :=
  match x with
  | SpecFloat.S754_zero _ => Fin 0%Qc
  | SpecFloat.S754_infinity s => if s then NInf else PInf
  | SpecFloat.S754_nan => NaN
  | SpecFloat.S754_finite s m e =>
      Fin (Q2Qc (inject_Z (if s then Z.neg m else Z.pos m) * pow2 e))
  end.

(** The integer [m] times [2 ^ e], in the specification. *)
Definition spec_float_of (t : FloatType) (m e : Z) : SpecFloat.spec_float :=
  SpecFloat.binary_normalize (prec t) (emax t) m e false.

Definition same_value (x y : floating) : bool :=
  match x, y with
  | Fin a, Fin b => Qeq_bool (this a) (this b)
  | PInf, PInf | NInf, NInf | NaN, NaN => true
  | _, _ => false
  end.

(** The operations on [m1 * 2 ^ e1] and [m2 * 2 ^ e2] agree with those of the
    specification (the division but for a zero divisor, whose sign decides
    there). *)
Definition agree (t : FloatType) (m1 e1 m2 e2 : Z) : bool :=
  let x := spec_float_of t m1 e1 in
  let y := spec_float_of t m2 e2 in
  let x' := rounded t (inject_Z m1 * pow2 e1) in
  let y' := rounded t (inject_Z m2 * pow2 e2) in
  same_value (of_spec_float x) x'
  && same_value (of_spec_float (SpecFloat.SFadd (prec t) (emax t) x y)) (fp_add t x' y')
  && same_value (of_spec_float (SpecFloat.SFsub (prec t) (emax t) x y)) (fp_sub t x' y')
  && same_value (of_spec_float (SpecFloat.SFmul (prec t) (emax t) x y)) (fp_mul t x' y')
  && (match y with
      | SpecFloat.S754_zero _ => true
      | _ => same_value (of_spec_float (SpecFloat.SFdiv (prec t) (emax t) x y))
                        (fp_div t x' y')
      end)
  && Bool.eqb (SpecFloat.SFleb x y) (fp_leb x' y').

(** Operands for it: small integers, numbers next to zero, numbers next to
    the largest one, ties, and numbers with more digits than a format
    keeps. *)
Definition operands_test : list (Z * Z * Z * Z) :=
  [(9, 0, 10, 0); (1, 0, 100, 0); (1, -1074, 3, -1075); (12345678901234567890, 0, 1, -80);
   (-7, 970, 5, 1021); (2 ^ 53 - 1, 971, 1, 970); (2 ^ 53 - 1, 971, 2 ^ 53 - 1, 971);
   (1, -600, 1, -600); (-1, -1074, 3, 0); (2 ^ 24 + 1, 0, 3, -30); (2 ^ 53 + 1, 0, -1, 0);
   (5, -1075, 5, -1075); (0, 0, 5, 3); (2 ^ 24 - 1, 104, 1, 103); (1, -149, 1, -150);
   (3, -150, -5, -151)].

(** ** [WriteSamples], [ReadSamples] (image_copy.cpp) *)

(** Modelled from the spec: [clamp_cast] (clamp_cast.h is not among the
    sources).  A sample value is taken as the rational it stands for.  Every
    sample type has a least and a largest representable value; a value above
    the largest converts to the largest, a value below the least to the
    least.  A value in between is truncated to an integer for an integer
    type and rounded to the nearest number of the format for a
    floating-point type; of a complex type the real part is kept here, which
    converts as for the floating-point type of its parts.  The binary type
    takes every non-zero value to true (1), also a negative one. *)
Definition float_of (dt : DataType) : option FloatType :=
  match dt with
  | DT_SFLOAT | DT_SCOMPLEX => Some SFLOAT
  | DT_DFLOAT | DT_DCOMPLEX => Some DFLOAT
  | _ => None
  end.

Definition type_range (dt : DataType) : Q * Q :=
  match dt with
  | DT_BIN => (inject_Z 0, inject_Z 1)
  | DT_UINT8 => (inject_Z 0, inject_Z (2 ^ 8 - 1))
  | DT_SINT8 => (inject_Z (- 2 ^ 7), inject_Z (2 ^ 7 - 1))
  | DT_UINT16 => (inject_Z 0, inject_Z (2 ^ 16 - 1))
  | DT_SINT16 => (inject_Z (- 2 ^ 15), inject_Z (2 ^ 15 - 1))
  | DT_UINT32 => (inject_Z 0, inject_Z (2 ^ 32 - 1))
  | DT_SINT32 => (inject_Z (- 2 ^ 31), inject_Z (2 ^ 31 - 1))
  | DT_UINT64 => (inject_Z 0, inject_Z (2 ^ 64 - 1))
  | DT_SINT64 => (inject_Z (- 2 ^ 63), inject_Z (2 ^ 63 - 1))
  | DT_SFLOAT | DT_SCOMPLEX => ((- max_value SFLOAT)%Q, max_value SFLOAT)
  | DT_DFLOAT | DT_DCOMPLEX => ((- max_value DFLOAT)%Q, max_value DFLOAT)
  end.

(** [static_cast] of a floating-point value to an integer type drops the
    fraction. *)
Definition Qtruncate (v : Q) : Z := Z.quot (Qnum v) (Z.pos (Qden v)).

Definition clamp_cast (T : DataType) (v : Q) : Q :=
  match T with
  | DT_BIN => if Qeq_bool v 0 then inject_Z 0 else inject_Z 1
  | _ =>
      let (lo, hi) := type_range T in
      if Qle_bool hi v then hi
      else if Qle_bool v lo then lo
      else match float_of T with
           | Some t => round_to t v
           | None => inject_Z (Qtruncate v)
           end
  end.

(** [WriteSamples< T >( src, destination, n )]: both runs of samples have
    stride 1; [dest] is the destination buffer, as sample values. *)
Definition WriteSamples (T : DataType) (src : list Q) (dest : list Q) (n : nat) : list Q :=
  loop n 0 (fun k dest => <[ k := clamp_cast T (nth k src 0%Q) ]> dest) dest.

(** [ReadSamples< T >( source, dest, n, stride )]: [source] gives the sample
    at each offset from the source pointer; the destination is [dfloat]. *)
Definition ReadSamples (source : Z -> Q) (dest : list Q) (n : nat) (stride : Z) : list Q :=
  loop n 0 (fun k dest => <[ k := clamp_cast DT_DFLOAT (source (Z.of_nat k * stride)) ]> dest) dest.

(** ** [ParabolicMorphologyLineFilter::Filter] (basic.cpp) *)

Section Parabolic.

(** The filter is a template over the sample type [TPI] (a floating-point
type).  The type and its arithmetic are parameters: [lowest] and
[highest] are [std::numeric_limits< TPI >::lowest()] and [max()],
[of_sint] is [static_cast< TPI >] of a [dip::sint] and [of_dfloat] that
of a [dip::dfloat].  Buffers are the lists of their samples, in line
order: the strides are not modelled. *)
Variable TPI : Type.
Variables add sub mul : TPI -> TPI -> TPI.
Variables geb leb : TPI -> TPI -> bool.
Variables lowest highest : TPI.
Variable of_sint : Z -> TPI.
Variable of_dfloat : floating -> TPI.

Definition sample (buffer : list TPI) (i : Z) : TPI := nth (Z.to_nat i) buffer lowest.

(** The inner loop, [n] rounds from [jj] in steps of [step]:
[val = get( jj ) -+ lambda * TPI( jj * jj ); if( val >= max ) { max = val; index = jj; }]
(with [<=] and [min] for the erosion). *)
Fixpoint search (better : TPI -> TPI -> bool) (penalty : TPI -> TPI -> TPI)
(lambda : TPI) (get : Z -> TPI) (step : Z) (n : nat) (jj : Z)
(best : TPI) (index : Z) : TPI * Z :=
match n with
| O => (best, index)
| S n' =>
let val := penalty (get jj) (mul lambda (of_sint (smul jj jj))) in
if better val best
then search better penalty lambda get step n' (jj + step) val jj
else search better penalty lambda get step n' (jj + step) best index
end.

(** The left-to-right pass: [n] rounds from position [ii], with the buffer
filled so far and the current [index]. *)
Fixpoint first_pass (better : TPI -> TPI -> bool) (penalty : TPI -> TPI -> TPI)
(init lambda : TPI) (input : list TPI) (n : nat) (ii : nat)
(buf : list TPI) (index : Z) : list TPI :=
match n with
| O => buf
| S n' =>
let index := index - 1 in
let r :=
  if better (sample input (Z.of_nat ii)) (sample buf (Z.of_nat ii - 1))
  then (sample input (Z.of_nat ii), 0)
  else search better penalty lambda (fun jj => sample input (Z.of_nat ii + jj))
              1 (Z.to_nat (0 - index + 1)) index init index in
first_pass better penalty init lambda input n' (S ii) (buf ++ [fst r]) (snd r)
end.

(** The right-to-left pass: [n] rounds from position [q] downwards, with the
output written so far (the samples to the right of [q]) and the current
[index]. *)
Fixpoint second_pass (better : TPI -> TPI -> bool) (penalty : TPI -> TPI -> TPI)
(init lambda : TPI) (buf : list TPI) (n : nat) (q : nat)
(out : list TPI) (index : Z) : list TPI :=
match n with
| O => out
| S n' =>
let index := index + 1 in
let r :=
  if better (sample buf (Z.of_nat q)) (sample out 0)
  then (sample buf (Z.of_nat q), 0)
  else search better penalty lambda (fun jj => sample buf (Z.of_nat q + jj))
              (-1) (Z.to_nat (index + 1)) index init index in
second_pass better penalty init lambda buf n' (q - 1) (fst r :: out) (snd r)
end.

Definition two_passes (better : TPI -> TPI -> bool) (penalty : TPI -> TPI -> TPI)
(init lambda : TPI) (input : list TPI) : list TPI :=
let length := List.length input in
let buf := first_pass better penalty init lambda input (length - 1) 1
                  [sample input 0] 0 in
second_pass better penalty init lambda buf (length - 1) (length - 2)
        [sample buf (Z.of_nat length - 1)] 0.

(** [Filter] on a line of at least one sample; [param] is
[params_[ params.dimension ]], a [dfloat], and [1.0 / ( param * param )] is
computed in that type. *)
Definition Filter (dilation_ : bool) (param : floating) (input : list TPI) : list TPI :=
let lambda := of_dfloat (fp_div DFLOAT (Fin 1%Qc) (fp_mul DFLOAT param param)) in
if dilation_ then two_passes geb sub lowest lambda input
else two_passes leb add highest lambda input.

End Parabolic.

(** *** The line with one spike

    The forms the proofs below give to the dilation of a line that holds
    [zero] everywhere but for [h] at position [p]: the penalty at an offset,
    the parabola through the spike, and the state of the two passes after
    each of their rounds. *)

Section SpikeForms.

Variable TPI : Type.
Variables sub mul : TPI -> TPI -> TPI.
Variable geb : TPI -> TPI -> bool.
Variable of_sint : Z -> TPI.
Variables lambda h zero : TPI.
Variable p : nat.

(** [lambda * static_cast< TPI >( jj * jj )], and [val] for the sample read
through [get]. *)
Definition pen (jj : Z) : TPI := mul lambda (of_sint (smul jj jj)).
Definition candidate (get : Z -> TPI) (jj : Z) : TPI := sub (get jj) (pen jj).

(** The parabola at offset [k], whether it exceeds the background there, and
the larger of the two. *)
Definition spike_value (k : Z) : TPI := sub h (pen k).
Definition alive (k : Z) : bool := negb (geb zero (spike_value k)).
Definition closed_form (k : Z) : TPI :=
if geb zero (spike_value k) then zero else spike_value k.

(** The buffer after the left-to-right pass, and [index] after its round at
position [i]. *)
Definition left_form (i : nat) : TPI :=
if (i <? p)%nat then zero else closed_form (Z.of_nat i - Z.of_nat p).
Definition left_index (i : nat) : Z :=
if (i <? p)%nat then 0
else if alive (Z.of_nat i - Z.of_nat p) then - (Z.of_nat i - Z.of_nat p) else 0.

(** The output after the right-to-left pass, and [index] after its round at
position [i]. *)
Definition final_form (i : nat) : TPI :=
closed_form (Z.abs (Z.of_nat i - Z.of_nat p)).
Definition right_index (i : nat) : Z :=
if (p <? i)%nat then 0
else if alive (Z.of_nat p - Z.of_nat i) then Z.of_nat p - Z.of_nat i else 0.

End SpikeForms.

(** *** Floating-point samples

    The filter as the sources instantiate it, for [sfloat] and for [dfloat]
    samples: the arithmetic and the comparisons are those of the type. *)

Definition Filter_float (t : FloatType) (dilation_ : bool) (param : floating)
    (input : list floating) : list floating :=
  Filter floating (fp_add t) (fp_sub t) (fp_mul t) fp_geb fp_leb (fp_lowest t) (fp_max t)
         (fp_of_sint t) (fp_cast t) dilation_ param input.

(** [lambda], as [Filter] computes it from [params_[ params.dimension ]]. *)
Definition lambda_of (t : FloatType) (param : floating) : floating :=
  fp_cast t (fp_div DFLOAT (Fin 1%Qc) (fp_mul DFLOAT param param)).

(** The inner loop of the dilation, and the candidate of one of its rounds. *)
Definition search_float (t : FloatType) (lambda : floating) (get : Z -> floating) (step : Z)
    (n : nat) (jj : Z) (best : floating) (index : Z) : floating * Z :=
  search floating (fp_mul t) (fp_of_sint t) fp_geb (fp_sub t) lambda get step n jj best index.

Definition candidate_float (t : FloatType) (lambda : floating) (get : Z -> floating) (jj : Z)
    : floating :=
  candidate floating (fp_sub t) (fp_mul t) (fp_of_sint t) lambda get jj.

(** A line of [n] samples, zero but for the spike of height [h] at [p]. *)
Definition spike_line (n p : nat) (h : floating) : list floating :=
  map (fun i => if (i =? p)%nat then h else Fin 0%Qc) (seq 0 n).

(** [h - lambda * k * k], as the sample type computes it: the square is
    converted to the type, the product and the difference are rounded. *)
Definition parabola (t : FloatType) (lambda h : floating) (k : Z) : floating :=
  fp_sub t h (fp_mul t lambda (fp_of_sint t (k * k))).

(** Sample inputs: the line of the test of the filter (a spike of height 9,
    [sigma = 10]), cut to 61 samples around the spike, a line on which two
    offsets tie, and a line with two peaks. *)
Definition of_Z (z : Z) : floating := Fin (Q2Qc (inject_Z z)).
Definition spike_test : list floating := spike_line 61 30 (of_Z 9).
Definition tie_line (jj : Z) : floating := if jj =? 0 then of_Z 0 else of_Z 1.
Definition line_test : list floating := [of_Z 0; of_Z 3; of_Z 0; of_Z 0; of_Z 5; of_Z 0].

(** ** [GetOptimalDFTSize] (dft.cpp) *)

(** [optimalDFTSizeTab], as the source lists it. *)
Definition optimalDFTSizeTab : list Z :=
  [1; 2; 3; 4; 5; 6; 8; 9; 10; 12; 15; 16; 18; 20; 24; 25; 27; 30; 32; 36; 40; 45; 48; 50;
   54; 60; 64; 72; 75; 80; 81; 90; 96; 100; 108; 120; 125; 128; 135; 144; 150; 160; 162;
   180; 192; 200; 216; 225; 240; 243; 250; 256; 270; 288; 300; 320; 324; 360; 375; 384;
   400; 405; 432; 450; 480; 486; 500; 512; 540; 576; 600; 625; 640; 648; 675; 720; 729;
   750; 768; 800; 810; 864; 900; 960; 972; 1000; 1024; 1080; 1125; 1152; 1200; 1215; 1250;
   1280; 1296; 1350; 1440; 1458; 1500; 1536; 1600; 1620; 1728; 1800; 1875; 1920; 1944;
   2000; 2025; 2048; 2160; 2187; 2250; 2304; 2400; 2430; 2500; 2560; 2592; 2700; 2880;
   2916; 3000; 3072; 3125; 3200; 3240; 3375; 3456; 3600; 3645; 3750; 3840; 3888; 4000;
   4050; 4096; 4320; 4374; 4500; 4608; 4800; 4860; 5000; 5120; 5184; 5400; 5625; 5760;
   5832; 6000; 6075; 6144; 6250; 6400; 6480; 6561; 6750; 6912; 7200; 7290; 7500; 7680;
   7776; 8000; 8100; 8192; 8640; 8748; 9000; 9216; 9375; 9600; 9720; 10000; 10125; 10240;
   10368; 10800; 10935; 11250; 11520; 11664; 12000; 12150; 12288; 12500; 12800; 12960;
   13122; 13500; 13824; 14400; 14580; 15000; 15360; 15552; 15625; 16000; 16200; 16384;
   16875; 17280; 17496; 18000; 18225; 18432; 18750; 19200; 19440; 19683; 20000; 20250;
   20480; 20736; 21600; 21870; 22500; 23040; 23328; 24000; 24300; 24576; 25000; 25600;
   25920; 26244; 27000; 27648; 28125; 28800; 29160; 30000; 30375; 30720; 31104; 31250;
   32000; 32400; 32768; 32805; 33750; 34560; 34992; 36000; 36450; 36864; 37500; 38400;
   38880; 39366; 40000; 40500; 40960; 41472; 43200; 43740; 45000; 46080; 46656; 46875;
   48000; 48600; 49152; 50000; 50625; 51200; 51840; 52488; 54000; 54675; 55296; 56250;
   57600; 58320; 59049; 60000; 60750; 61440; 62208; 62500; 64000; 64800; 65536; 65610;
   67500; 69120; 69984; 72000; 72900; 73728; 75000; 76800; 77760; 78125; 78732; 80000;
   81000; 81920; 82944; 84375; 86400; 87480; 90000; 91125; 92160; 93312; 93750; 96000;
   97200; 98304; 98415; 100000; 101250; 102400; 103680; 104976; 108000; 109350; 110592;
   112500; 115200; 116640; 118098; 120000; 121500; 122880; 124416; 125000; 128000; 129600;
   131072; 131220; 135000; 138240; 139968; 140625; 144000; 145800; 147456; 150000; 151875;
   153600; 155520; 156250; 157464; 160000; 162000; 163840; 164025; 165888; 168750; 172800;
   174960; 177147; 180000; 182250; 184320; 186624; 187500; 192000; 194400; 196608; 196830;
   200000; 202500; 204800; 207360; 209952; 216000; 218700; 221184; 225000; 230400; 233280;
   234375; 236196; 240000; 243000; 245760; 248832; 250000; 253125; 256000; 259200; 262144;
   262440; 270000; 273375; 276480; 279936; 281250; 288000; 291600; 294912; 295245; 300000;
   303750; 307200; 311040; 312500; 314928; 320000; 324000; 327680; 328050; 331776; 337500;
   345600; 349920; 354294; 360000; 364500; 368640; 373248; 375000; 384000; 388800; 390625;
   393216; 393660; 400000; 405000; 409600; 414720; 419904; 421875; 432000; 437400; 442368;
   450000; 455625; 460800; 466560; 468750; 472392; 480000; 486000; 491520; 492075; 497664;
   500000; 506250; 512000; 518400; 524288; 524880; 531441; 540000; 546750; 552960; 559872;
   562500; 576000; 583200; 589824; 590490; 600000; 607500; 614400; 622080; 625000; 629856;
   640000; 648000; 655360; 656100; 663552; 675000; 691200; 699840; 703125; 708588; 720000;
   729000; 737280; 746496; 750000; 759375; 768000; 777600; 781250; 786432; 787320; 800000;
   810000; 819200; 820125; 829440; 839808; 843750; 864000; 874800; 884736; 885735; 900000;
   911250; 921600; 933120; 937500; 944784; 960000; 972000; 983040; 984150; 995328; 1000000;
   1012500; 1024000; 1036800; 1048576; 1049760; 1062882; 1080000; 1093500; 1105920;
   1119744; 1125000; 1152000; 1166400; 1171875; 1179648; 1180980; 1200000; 1215000;
   1228800; 1244160; 1250000; 1259712; 1265625; 1280000; 1296000; 1310720; 1312200;
   1327104; 1350000; 1366875; 1382400; 1399680; 1406250; 1417176; 1440000; 1458000;
   1474560; 1476225; 1492992; 1500000; 1518750; 1536000; 1555200; 1562500; 1572864;
   1574640; 1594323; 1600000; 1620000; 1638400; 1640250; 1658880; 1679616; 1687500;
   1728000; 1749600; 1769472; 1771470; 1800000; 1822500; 1843200; 1866240; 1875000;
   1889568; 1920000; 1944000; 1953125; 1966080; 1968300; 1990656; 2000000; 2025000;
   2048000; 2073600; 2097152; 2099520; 2109375; 2125764; 2160000; 2187000; 2211840;
   2239488; 2250000; 2278125; 2304000; 2332800; 2343750; 2359296; 2361960; 2400000;
   2430000; 2457600; 2460375; 2488320; 2500000; 2519424; 2531250; 2560000; 2592000;
   2621440; 2624400; 2654208; 2657205; 2700000; 2733750; 2764800; 2799360; 2812500;
   2834352; 2880000; 2916000; 2949120; 2952450; 2985984; 3000000; 3037500; 3072000;
   3110400; 3125000; 3145728; 3149280; 3188646; 3200000; 3240000; 3276800; 3280500;
   3317760; 3359232; 3375000; 3456000; 3499200; 3515625; 3538944; 3542940; 3600000;
   3645000; 3686400; 3732480; 3750000; 3779136; 3796875; 3840000; 3888000; 3906250;
   3932160; 3936600; 3981312; 4000000; 4050000; 4096000; 4100625; 4147200; 4194304;
   4199040; 4218750; 4251528; 4320000; 4374000; 4423680; 4428675; 4478976; 4500000;
   4556250; 4608000; 4665600; 4687500; 4718592; 4723920; 4782969; 4800000; 4860000;
   4915200; 4920750; 4976640; 5000000; 5038848; 5062500; 5120000; 5184000; 5242880;
   5248800; 5308416; 5314410; 5400000; 5467500; 5529600; 5598720; 5625000; 5668704;
   5760000; 5832000; 5859375; 5898240; 5904900; 5971968; 6000000; 6075000; 6144000;
   6220800; 6250000; 6291456; 6298560; 6328125; 6377292; 6400000; 6480000; 6553600;
   6561000; 6635520; 6718464; 6750000; 6834375; 6912000; 6998400; 7031250; 7077888;
   7085880; 7200000; 7290000; 7372800; 7381125; 7464960; 7500000; 7558272; 7593750;
   7680000; 7776000; 7812500; 7864320; 7873200; 7962624; 7971615; 8000000; 8100000;
   8192000; 8201250; 8294400; 8388608; 8398080; 8437500; 8503056; 8640000; 8748000;
   8847360; 8857350; 8957952; 9000000; 9112500; 9216000; 9331200; 9375000; 9437184;
   9447840; 9565938; 9600000; 9720000; 9765625; 9830400; 9841500; 9953280; 10000000;
   10077696; 10125000; 10240000; 10368000; 10485760; 10497600; 10546875; 10616832;
   10628820; 10800000; 10935000; 11059200; 11197440; 11250000; 11337408; 11390625;
   11520000; 11664000; 11718750; 11796480; 11809800; 11943936; 12000000; 12150000;
   12288000; 12301875; 12441600; 12500000; 12582912; 12597120; 12656250; 12754584;
   12800000; 12960000; 13107200; 13122000; 13271040; 13286025; 13436928; 13500000;
   13668750; 13824000; 13996800; 14062500; 14155776; 14171760; 14400000; 14580000;
   14745600; 14762250; 14929920; 15000000; 15116544; 15187500; 15360000; 15552000;
   15625000; 15728640; 15746400; 15925248; 15943230; 16000000; 16200000; 16384000;
   16402500; 16588800; 16777216; 16796160; 16875000; 17006112; 17280000; 17496000;
   17578125; 17694720; 17714700; 17915904; 18000000; 18225000; 18432000; 18662400;
   18750000; 18874368; 18895680; 18984375; 19131876; 19200000; 19440000; 19531250;
   19660800; 19683000; 19906560; 20000000; 20155392; 20250000; 20480000; 20503125;
   20736000; 20971520; 20995200; 21093750; 21233664; 21257640; 21600000; 21870000;
   22118400; 22143375; 22394880; 22500000; 22674816; 22781250; 23040000; 23328000;
   23437500; 23592960; 23619600; 23887872; 23914845; 24000000; 24300000; 24576000;
   24603750; 24883200; 25000000; 25165824; 25194240; 25312500; 25509168; 25600000;
   25920000; 26214400; 26244000; 26542080; 26572050; 26873856; 27000000; 27337500;
   27648000; 27993600; 28125000; 28311552; 28343520; 28800000; 29160000; 29296875;
   29491200; 29524500; 29859840; 30000000; 30233088; 30375000; 30720000; 31104000;
   31250000; 31457280; 31492800; 31640625; 31850496; 31886460; 32000000; 32400000;
   32768000; 32805000; 33177600; 33554432; 33592320; 33750000; 34012224; 34171875;
   34560000; 34992000; 35156250; 35389440; 35429400; 35831808; 36000000; 36450000;
   36864000; 36905625; 37324800; 37500000; 37748736; 37791360; 37968750; 38263752;
   38400000; 38880000; 39062500; 39321600; 39366000; 39813120; 39858075; 40000000;
   40310784; 40500000; 40960000; 41006250; 41472000; 41943040; 41990400; 42187500;
   42467328; 42515280; 43200000; 43740000; 44236800; 44286750; 44789760; 45000000;
   45349632; 45562500; 46080000; 46656000; 46875000; 47185920; 47239200; 47775744;
   47829690; 48000000; 48600000; 48828125; 49152000; 49207500; 49766400; 50000000;
   50331648; 50388480; 50625000; 51018336; 51200000; 51840000; 52428800; 52488000;
   52734375; 53084160; 53144100; 53747712; 54000000; 54675000; 55296000; 55987200;
   56250000; 56623104; 56687040; 56953125; 57600000; 58320000; 58593750; 58982400;
   59049000; 59719680; 60000000; 60466176; 60750000; 61440000; 61509375; 62208000;
   62500000; 62914560; 62985600; 63281250; 63700992; 63772920; 64000000; 64800000;
   65536000; 65610000; 66355200; 66430125; 67108864; 67184640; 67500000; 68024448;
   68343750; 69120000; 69984000; 70312500; 70778880; 70858800; 71663616; 72000000;
   72900000; 73728000; 73811250; 74649600; 75000000; 75497472; 75582720; 75937500;
   76527504; 76800000; 77760000; 78125000; 78643200; 78732000; 79626240; 79716150;
   80000000; 80621568; 81000000; 81920000; 82012500; 82944000; 83886080; 83980800;
   84375000; 84934656; 85030560; 86400000; 87480000; 87890625; 88473600; 88573500;
   89579520; 90000000; 90699264; 91125000; 92160000; 93312000; 93750000; 94371840;
   94478400; 94921875; 95551488; 95659380; 96000000; 97200000; 97656250; 98304000;
   98415000; 99532800; 100000000; 100663296; 100776960; 101250000; 102036672; 102400000;
   102515625; 103680000; 104857600; 104976000; 105468750; 106168320; 106288200; 107495424;
   108000000; 109350000; 110592000; 110716875; 111974400; 112500000; 113246208; 113374080;
   113906250; 115200000; 116640000; 117187500; 117964800; 118098000; 119439360; 119574225;
   120000000; 120932352; 121500000; 122880000; 123018750; 124416000; 125000000; 125829120;
   125971200; 126562500; 127401984; 127545840; 128000000; 129600000; 131072000; 131220000;
   132710400; 132860250; 134217728; 134369280; 135000000; 136048896; 136687500; 138240000;
   139968000; 140625000; 141557760; 141717600; 143327232; 144000000; 145800000; 146484375;
   147456000; 147622500; 149299200; 150000000; 150994944; 151165440; 151875000; 153055008;
   153600000; 155520000; 156250000; 157286400; 157464000; 158203125; 159252480; 159432300;
   160000000; 161243136; 162000000; 163840000; 164025000; 165888000; 167772160; 167961600;
   168750000; 169869312; 170061120; 170859375; 172800000; 174960000; 175781250; 176947200;
   177147000; 179159040; 180000000; 181398528; 182250000; 184320000; 184528125; 186624000;
   187500000; 188743680; 188956800; 189843750; 191102976; 191318760; 192000000; 194400000;
   195312500; 196608000; 196830000; 199065600; 199290375; 200000000; 201326592; 201553920;
   202500000; 204073344; 204800000; 205031250; 207360000; 209715200; 209952000; 210937500;
   212336640; 212576400; 214990848; 216000000; 218700000; 221184000; 221433750; 223948800;
   225000000; 226492416; 226748160; 227812500; 230400000; 233280000; 234375000; 235929600;
   236196000; 238878720; 239148450; 240000000; 241864704; 243000000; 244140625; 245760000;
   246037500; 248832000; 250000000; 251658240; 251942400; 253125000; 254803968; 255091680;
   256000000; 259200000; 262144000; 262440000; 263671875; 265420800; 265720500; 268435456;
   268738560; 270000000; 272097792; 273375000; 276480000; 279936000; 281250000; 283115520;
   283435200; 284765625; 286654464; 288000000; 291600000; 292968750; 294912000; 295245000;
   298598400; 300000000; 301989888; 302330880; 303750000; 306110016; 307200000; 307546875;
   311040000; 312500000; 314572800; 314928000; 316406250; 318504960; 318864600; 320000000;
   322486272; 324000000; 327680000; 328050000; 331776000; 332150625; 335544320; 335923200;
   337500000; 339738624; 340122240; 341718750; 345600000; 349920000; 351562500; 353894400;
   354294000; 358318080; 360000000; 362797056; 364500000; 368640000; 369056250; 373248000;
   375000000; 377487360; 377913600; 379687500; 382205952; 382637520; 384000000; 388800000;
   390625000; 393216000; 393660000; 398131200; 398580750; 400000000; 402653184; 403107840;
   405000000; 408146688; 409600000; 410062500; 414720000; 419430400; 419904000; 421875000;
   424673280; 425152800; 429981696; 432000000; 437400000; 439453125; 442368000; 442867500;
   447897600; 450000000; 452984832; 453496320; 455625000; 460800000; 466560000; 468750000;
   471859200; 472392000; 474609375; 477757440; 478296900; 480000000; 483729408; 486000000;
   488281250; 491520000; 492075000; 497664000; 500000000; 503316480; 503884800; 506250000;
   509607936; 510183360; 512000000; 512578125; 518400000; 524288000; 524880000; 527343750;
   530841600; 531441000; 536870912; 537477120; 540000000; 544195584; 546750000; 552960000;
   553584375; 559872000; 562500000; 566231040; 566870400; 569531250; 573308928; 576000000;
   583200000; 585937500; 589824000; 590490000; 597196800; 597871125; 600000000; 603979776;
   604661760; 607500000; 612220032; 614400000; 615093750; 622080000; 625000000; 629145600;
   629856000; 632812500; 637009920; 637729200; 640000000; 644972544; 648000000; 655360000;
   656100000; 663552000; 664301250; 671088640; 671846400; 675000000; 679477248; 680244480;
   683437500; 691200000; 699840000; 703125000; 707788800; 708588000; 716636160; 720000000;
   725594112; 729000000; 732421875; 737280000; 738112500; 746496000; 750000000; 754974720;
   755827200; 759375000; 764411904; 765275040; 768000000; 777600000; 781250000; 786432000;
   787320000; 791015625; 796262400; 797161500; 800000000; 805306368; 806215680; 810000000;
   816293376; 819200000; 820125000; 829440000; 838860800; 839808000; 843750000; 849346560;
   850305600; 854296875; 859963392; 864000000; 874800000; 878906250; 884736000; 885735000;
   895795200; 900000000; 905969664; 906992640; 911250000; 921600000; 922640625; 933120000;
   937500000; 943718400; 944784000; 949218750; 955514880; 956593800; 960000000; 967458816;
   972000000; 976562500; 983040000; 984150000; 995328000; 996451875; 1000000000;
   1006632960; 1007769600; 1012500000; 1019215872; 1020366720; 1024000000; 1025156250;
   1036800000; 1048576000; 1049760000; 1054687500; 1061683200; 1062882000; 1073741824;
   1074954240; 1080000000; 1088391168; 1093500000; 1105920000; 1107168750; 1119744000;
   1125000000; 1132462080; 1133740800; 1139062500; 1146617856; 1152000000; 1166400000;
   1171875000; 1179648000; 1180980000; 1194393600; 1195742250; 1200000000; 1207959552;
   1209323520; 1215000000; 1220703125; 1224440064; 1228800000; 1230187500; 1244160000;
   1250000000; 1258291200; 1259712000; 1265625000; 1274019840; 1275458400; 1280000000;
   1289945088; 1296000000; 1310720000; 1312200000; 1318359375; 1327104000; 1328602500;
   1342177280; 1343692800; 1350000000; 1358954496; 1360488960; 1366875000; 1382400000;
   1399680000; 1406250000; 1415577600; 1417176000; 1423828125; 1433272320; 1440000000;
   1451188224; 1458000000; 1464843750; 1474560000; 1476225000; 1492992000; 1500000000;
   1509949440; 1511654400; 1518750000; 1528823808; 1530550080; 1536000000; 1537734375;
   1555200000; 1562500000; 1572864000; 1574640000; 1582031250; 1592524800; 1594323000;
   1600000000; 1610612736; 1612431360; 1620000000; 1632586752; 1638400000; 1640250000;
   1658880000; 1660753125; 1677721600; 1679616000; 1687500000; 1698693120; 1700611200;
   1708593750; 1719926784; 1728000000; 1749600000; 1757812500; 1769472000; 1771470000;
   1791590400; 1800000000; 1811939328; 1813985280; 1822500000; 1843200000; 1845281250;
   1866240000; 1875000000; 1887436800; 1889568000; 1898437500; 1911029760; 1913187600;
   1920000000; 1934917632; 1944000000; 1953125000; 1966080000; 1968300000; 1990656000;
   1992903750; 2000000000; 2013265920; 2015539200; 2025000000; 2038431744; 2040733440;
   2048000000; 2050312500; 2073600000; 2097152000; 2099520000; 2109375000; 2123366400;
   2125764000].

Section BinarySearch.

(** The two loops of [GetOptimalDFTSize] over a table [tab]; [a], [b] and [c]
are [dip::uint].  A round of either loop makes [b - a] smaller, so [fuel]
rounds are run, with [fuel] at least [b - a]. *)
Variable tab : list Z.

Definition tab_at (c : Z) : Z := nth (Z.to_nat c) tab 0.

(** [while( a < b ) { c = ( a + b ) / 2; if( size0 <= tab[ c ] ) b = c; else a = c + 1; }] *)
Fixpoint search_larger (fuel : nat) (size0 a b : Z) : Z * Z :=
match fuel with
| O => (a, b)
| S fuel' =>
if a <? b then
let c := udiv (uadd a b) 2 in
if size0 <=? tab_at c then search_larger fuel' size0 a c
else search_larger fuel' size0 (uadd c 1) b
else (a, b)
end.

(** [while( a < b ) { c = ( a + b + 1 ) / 2; if( size0 >= tab[ c ] ) a = c; else b = c - 1; }] *)
Fixpoint search_smaller (fuel : nat) (size0 a b : Z) : Z * Z :=
match fuel with
| O => (a, b)
| S fuel' =>
if a <? b then
let c := udiv (uadd (uadd a b) 1) 2 in
if tab_at c <=? size0 then search_smaller fuel' size0 c b
else search_smaller fuel' size0 a (usub c 1)
else (a, b)
end.

Definition GetOptimalDFTSize_in (size0 : Z) (larger : bool) : Z :=
let a := 0 in
let b := usub (Z.of_nat (length tab)) 1 in
if (tab_at b <? size0) || (size0 =? 0) then
0 (* 0 indicates an error condition *)
else
let ab := if larger then search_larger (Z.to_nat b) size0 a b
      else search_smaller (Z.to_nat b) size0 a b in
tab_at (snd ab).

End BinarySearch.

Definition GetOptimalDFTSize (size0 : Z) (larger : bool) : Z :=
  GetOptimalDFTSize_in optimalDFTSizeTab size0 larger.

(** A table is in strictly increasing order. *)
Fixpoint increasing (l : list Z) : bool :=
  match l with
  | x :: (y :: _) as l' => (x <? y) && increasing l'
  | _ => true
  end.

(** A number whose only prime factors are 2, 3 and 5: what is left after
    dividing them out, at most [fuel] times each, is 1. *)
Fixpoint divide_out (fuel : nat) (p n : Z) : Z :=
  match fuel with
  | O => n
  | S fuel' => if (0 <? n) && (n mod p =? 0) then divide_out fuel' p (n / p) else n
  end.

Definition is_nice_size (n : Z) : bool :=
  divide_out 64 5 (divide_out 64 3 (divide_out 64 2 n)) =? 1.

(** ** The other dimension manipulations (image_manip.cpp) *)

(** [std::swap( a[ i ], a[ j ] )], [DimensionArray::resize( n, value )] and
    [DimensionArray::erase( index )]. *)
Definition array_swap (i j : nat) (a : list Z) : list Z :=
  <[ j := at_ a i ]> (<[ i := at_ a j ]> a).

Definition array_resize {A : Type} (n : nat) (value : A) (a : list A) : list A :=
  take n a ++ replicate (n - length a) value.

Definition array_erase {A : Type} (index : nat) (a : list A) : list A :=
  take index a ++ drop (S index) a.

Definition not_divisible_error : Error := Message "Dimension cannot be evenly divided".

Section Dimensions.

(** The members of [PixelSize] and of [Tensor] that these functions call,
and three of the [E::] constants, live in headers that are not among the
sources; they are parameters. *)
Variable InsertDimension : nat -> PixelSize -> PixelSize.
Variable InsertDimensionValue : nat -> Q -> PixelSize -> PixelSize.
Variable PixelSize_at : PixelSize -> nat -> Q.
Variable PixelSize_Set : nat -> Q -> PixelSize -> PixelSize.
Variable PixelSize_Resize : nat -> PixelSize -> PixelSize.
Variable PixelSize_SwapDimensions : nat -> nat -> PixelSize -> PixelSize.
Variable PixelSize_EraseDimension : nat -> PixelSize -> PixelSize.
Variable SetVector : Z -> Tensor -> Tensor.
Variable SetMatrix : Z -> Z -> Tensor -> Tensor.
Variables DIMENSION_NOT_EXPANDED DIMENSIONALITIES_DONT_MATCH IMAGE_NOT_SCALAR : Error.

Definition SwapDimensions (dim1 dim2 : nat) : M Image unit :=
img <- get ;;
DIP_THROW_IF (negb (IsForged img)) IMAGE_NOT_FORGED ;;;
let nd := length (sizes_ img) in
DIP_THROW_IF ((nd <=? dim1)%nat || (nd <=? dim2)%nat) ILLEGAL_DIMENSION ;;;
if negb (dim1 =? dim2)%nat then
modify (fun i => set_sizes (array_swap dim1 dim2 (sizes_ i)) i) ;;;
modify (fun i => set_strides (array_swap dim1 dim2 (strides_ i)) i) ;;;
modify (fun i => set_pixelSize (PixelSize_SwapDimensions dim1 dim2 (pixelSize_ i)) i)
else ret tt.

Definition SplitDimension (dim : nat) (size : Z) : M Image unit :=
img <- get ;;
DIP_THROW_IF (negb (IsForged img)) IMAGE_NOT_FORGED ;;;
DIP_THROW_IF (length (sizes_ img) <=? dim)%nat ILLEGAL_DIMENSION ;;;
let size2 := udiv (at_ (sizes_ img) dim) size in
DIP_THROW_IF (negb (umul size size2 =? at_ (sizes_ img) dim)) not_divisible_error ;;;
modify (fun i => set_sizes (<[ dim := size ]> (sizes_ i)) i) ;;;
modify (fun i => set_sizes (array_insert (dim + 1) size2 (sizes_ i)) i) ;;;
modify (fun i => set_strides
      (array_insert (dim + 1) (smul (at_ (strides_ i) dim) (to_sint size)) (strides_ i))
      i) ;;;
modify (fun i => set_pixelSize
      (InsertDimensionValue (dim + 1) (PixelSize_at (pixelSize_ i) dim) (pixelSize_ i)) i).

(** [Squeeze( UnsignedArray& dims )]: the loop keeps, next to the image, the
write position [jj] and the list [dims]; the call returns [dims]. *)
Definition Squeeze_all : M Image (list nat) :=
img <- get ;;
DIP_THROW_IF (negb (IsForged img)) IMAGE_NOT_FORGED ;;;
let st := loop (length (sizes_ img)) 0
(fun ii (st : Image * nat * list nat) =>
 let '(i, jj, dims) := st in
 if 1 <? at_ (sizes_ i) ii then
   let i := set_strides (<[ jj := at_ (strides_ i) ii ]> (strides_ i)) i in
   let i := set_sizes (<[ jj := at_ (sizes_ i) ii ]> (sizes_ i)) i in
   let i := set_pixelSize
              (PixelSize_Set jj (PixelSize_at (pixelSize_ i) ii) (pixelSize_ i)) i in
   (i, S jj, dims)
 else (i, jj, dims ++ [ii]))
(img, 0%nat, []) in
let jj := snd (fst st) in
modify (fun _ => fst (fst st)) ;;;
modify (fun i => set_strides (array_resize jj 0 (strides_ i)) i) ;;;
modify (fun i => set_sizes (array_resize jj 0 (sizes_ i)) i) ;;;
modify (fun i => set_pixelSize (PixelSize_Resize jj (pixelSize_ i)) i) ;;;
ret (snd st).

Definition Squeeze (dim : nat) : M Image unit :=
img <- get ;;
DIP_THROW_IF (negb (IsForged img)) IMAGE_NOT_FORGED ;;;
let nd := length (sizes_ img) in
DIP_THROW_IF ((nd <=? dim)%nat || negb (at_ (sizes_ img) dim =? 1)) INVALID_PARAMETER ;;;
for_ (nd - (dim + 1)) (dim + 1) (fun ii =>
modify (fun i => set_strides (<[ (ii - 1)%nat := at_ (strides_ i) ii ]> (strides_ i)) i) ;;;
modify (fun i => set_sizes (<[ (ii - 1)%nat := at_ (sizes_ i) ii ]> (sizes_ i)) i) ;;;
modify (fun i => set_pixelSize
        (PixelSize_Set (ii - 1) (PixelSize_at (pixelSize_ i) ii) (pixelSize_ i)) i)) ;;;
modify (fun i => set_strides (array_resize (nd - 1) 0 (strides_ i)) i) ;;;
modify (fun i => set_sizes (array_resize (nd - 1) 0 (sizes_ i)) i) ;;;
modify (fun i => set_pixelSize (PixelSize_Resize (nd - 1) (pixelSize_ i)) i).

(** [AddSingleton( UnsignedArray const& dims )]. *)
Fixpoint AddSingleton_each (dims : list nat) : M Image unit :=
match dims with
| [] => ret tt
| dim :: dims' => AddSingleton InsertDimension dim ;;; AddSingleton_each dims'
end.

Definition AddSingleton_dims (dims : list nat) : M Image unit :=
img <- get ;;
DIP_THROW_IF (negb (IsForged img)) IMAGE_NOT_FORGED ;;;
AddSingleton_each dims.

Definition ExpandDimensionality (dim : nat) : M Image unit :=
img <- get ;;
DIP_THROW_IF (negb (IsForged img)) IMAGE_NOT_FORGED ;;;
if (length (sizes_ img) <? dim)%nat then
modify (fun i => set_sizes (array_resize dim 1 (sizes_ i)) i) ;;;
modify (fun i => set_strides (array_resize dim 0 (strides_ i)) i)
else ret tt.

Definition ExpandSingletonDimension (dim : nat) (sz : Z) : M Image unit :=
img <- get ;;
DIP_THROW_IF (negb (IsForged img)) IMAGE_NOT_FORGED ;;;
DIP_THROW_IF (length (sizes_ img) <=? dim)%nat ILLEGAL_DIMENSION ;;;
DIP_THROW_IF (negb (at_ (sizes_ img) dim =? 1)) INVALID_PARAMETER ;;;
modify (fun i => set_sizes (<[ dim := sz ]> (sizes_ i)) i) ;;;
modify (fun i => set_strides (<[ dim := 0 ]> (strides_ i)) i).

(** The loop of [IsSingletonExpansionPossible], from [ii] with [n]
dimensions left. *)
Fixpoint expansion_loop (n ii : nat) (sizes newSizes : list Z) : bool :=
match n with
| O => true
| S n' =>
if negb (at_ sizes ii =? at_ newSizes ii) && negb (at_ sizes ii =? 1) then false
else expansion_loop n' (S ii) sizes newSizes
end.

Definition IsSingletonExpansionPossible (newSizes : list Z) (img : Image) : bool :=
if (length newSizes <? length (sizes_ img))%nat then false
else expansion_loop (length (sizes_ img)) 0 (sizes_ img) newSizes.

Definition ExpandSingletonDimensions (newSizes : list Z) : M Image unit :=
img <- get ;;
DIP_THROW_IF (negb (IsForged img)) IMAGE_NOT_FORGED ;;;
let ndims := length newSizes in
DIP_THROW_IF (ndims <? length (sizes_ img))%nat DIMENSIONALITIES_DONT_MATCH ;;;
DIP_THROW_IF (negb (IsSingletonExpansionPossible newSizes img)) SIZES_DONT_MATCH ;;;
(if (length (sizes_ img) <? ndims)%nat then ExpandDimensionality ndims else ret tt) ;;;
for_ ndims 0 (fun ii =>
i <- get ;;
if negb (at_ (sizes_ i) ii =? at_ newSizes ii) then
ExpandSingletonDimension ii (at_ newSizes ii)
else ret tt).

Definition UnexpandSingletonDimensions : M Image unit :=
img <- get ;;
DIP_THROW_IF (negb (IsForged img)) IMAGE_NOT_FORGED ;;;
(if tensorStride_ img =? 0 then modify (fun i => set_tensor (SetScalar (tensor_ i)) i)
 else ret tt) ;;;
let ndims := length (sizes_ img) in
for_ ndims 0 (fun ii =>
i <- get ;;
if at_ (strides_ i) ii =? 0 then
modify (fun i => set_sizes (<[ ii := 1 ]> (sizes_ i)) i)
else ret tt).

Definition UnexpandSingletonDimension (dim : nat) : M Image unit :=
img <- get ;;
DIP_THROW_IF (negb (IsForged img)) IMAGE_NOT_FORGED ;;;
DIP_THROW_IF (length (sizes_ img) <=? dim)%nat ILLEGAL_DIMENSION ;;;
DIP_THROW_IF (negb (at_ (strides_ img) dim =? 0)) DIMENSION_NOT_EXPANDED ;;;
modify (fun i => set_sizes (<[ dim := 1 ]> (sizes_ i)) i).

Definition ExpandSingletonTensor (sz : Z) : M Image unit :=
img <- get ;;
DIP_THROW_IF (negb (IsForged img)) IMAGE_NOT_FORGED ;;;
DIP_THROW_IF (negb (Elements (tensor_ img) =? 1)) IMAGE_NOT_SCALAR ;;;
modify (fun i => set_tensor (SetVector sz (tensor_ i)) i) ;;;
modify (set_tensorStride 0).

Definition UnexpandSingletonTensor : M Image unit :=
img <- get ;;
DIP_THROW_IF (negb (IsForged img)) IMAGE_NOT_FORGED ;;;
DIP_THROW_IF (negb (tensorStride_ img =? 0)) DIMENSION_NOT_EXPANDED ;;;
modify (fun i => set_tensor (SetScalar (tensor_ i)) i).

Definition SpatialToTensor (dim : nat) (rows cols : Z) : M Image unit :=
img <- get ;;
DIP_THROW_IF (negb (IsForged img)) IMAGE_NOT_FORGED ;;;
DIP_THROW_IF (negb (IsScalar img)) IMAGE_NOT_SCALAR ;;;
let nd := length (sizes_ img) in
DIP_THROW_IF (nd <=? dim)%nat INVALID_PARAMETER ;;;
let rc :=
if (rows =? 0) && (cols =? 0) then (at_ (sizes_ img) dim, 1)
else if rows =? 0 then (udiv (at_ (sizes_ img) dim) cols, cols)
else if cols =? 0 then (rows, udiv (at_ (sizes_ img) dim) rows)
else (rows, cols) in
let rows := fst rc in
let cols := snd rc in
DIP_THROW_IF (negb (at_ (sizes_ img) dim =? umul rows cols)) INVALID_PARAMETER ;;;
modify (fun i => set_tensor (SetMatrix rows cols (tensor_ i)) i) ;;;
modify (fun i => set_tensorStride (at_ (strides_ i) dim) i) ;;;
modify (fun i => set_sizes (array_erase dim (sizes_ i)) i) ;;;
modify (fun i => set_strides (array_erase dim (strides_ i)) i) ;;;
modify (fun i => set_pixelSize (PixelSize_EraseDimension dim (pixelSize_ i)) i) ;;;
ResetColorSpace.

Definition SplitComplexToTensor : M Image unit :=
img <- get ;;
DIP_THROW_IF (negb (IsForged img)) IMAGE_NOT_FORGED ;;;
DIP_THROW_IF (negb (IsScalar img)) IMAGE_NOT_SCALAR ;;;
DIP_THROW_IF (negb (IsComplex (dataType_ img))) DATA_TYPE_NOT_SUPPORTED ;;;
(* Change data type *)
modify (fun i => set_dataType
      (if DataType_eqb (dataType_ i) DT_SCOMPLEX then DT_SFLOAT else DT_DFLOAT) i) ;;;
(* Sample size is halved, meaning all strides must be doubled *)
for_ (length (sizes_ img)) 0 (fun ii =>
modify (fun i => set_strides
        (<[ ii := smul (at_ (strides_ i) ii) 2 ]> (strides_ i)) i)) ;;;
(* Create new tensor dimension *)
modify (fun i => set_tensor (SetVector 2 (tensor_ i)) i) ;;;
modify (set_tensorStride 1) ;;;
ResetColorSpace.

Definition MergeTensorToComplex : M Image unit :=
img <- get ;;
DIP_THROW_IF (negb (IsForged img)) IMAGE_NOT_FORGED ;;;
DIP_THROW_IF (negb (Elements (tensor_ img) =? 2) || negb (tensorStride_ img =? 1))
         NTENSORELEM_DONT_MATCH ;;;
DIP_THROW_IF (IsComplex (dataType_ img)) DATA_TYPE_NOT_SUPPORTED ;;;
(* Change data type *)
modify (fun i => set_dataType
      (if DataType_eqb (dataType_ i) DT_SFLOAT then DT_SCOMPLEX else DT_DCOMPLEX) i) ;;;
(* Delete old tensor dimension *)
modify (fun i => set_tensor (SetScalar (tensor_ i)) i) ;;;
(* Sample size is doubled, meaning all strides must be halved *)
for_ (length (sizes_ img)) 0 (fun ii =>
modify (fun i => set_strides
        (<[ ii := sdiv (at_ (strides_ i) ii) 2 ]> (strides_ i)) i)) ;;;
ResetColorSpace.

End Dimensions.

(** Two images agree in every field but the pixel size. *)
Definition same_but_pixelSize (a b : Image) : Prop :=
  set_pixelSize (pixelSize_ b) a = b.

(** The parameters the statements below are evaluated with: pixel sizes that
    are left alone, tensors that only record their element count, and
    messages for the three error constants. *)
Definition keep_pixel_size (_ : nat) (ps : PixelSize) : PixelSize := ps.
Definition keep_pixel_size2 (_ _ : nat) (ps : PixelSize) : PixelSize := ps.
Definition keep_pixel_size_value (_ : nat) (_ : Q) (ps : PixelSize) : PixelSize := ps.
Definition first_pixel_size (ps : PixelSize) (_ : nat) : Q := hd 1%Q ps.
Definition vector_tensor (n : Z) (_ : Tensor) : Tensor := mkTensor VECTOR_SHAPE n.
Definition matrix_tensor (rows cols : Z) (_ : Tensor) : Tensor :=
  mkTensor MATRIX_SHAPE (umul rows cols).
Definition not_expanded_error : Error := Message "Dimension is not expanded".
Definition dimensionalities_error : Error := Message "Dimensionalities don't match".
Definition not_scalar_error : Error := Message "Image is not scalar".

(** [dip::Image src( { 5, 10, 15 }, 3 )] and [dip::Image src( { 5, 10, 15 }, 1 )]
    of the doctests on dimensions, with normal strides. *)
Definition img_dims_test : Image :=
  mkImage DT_SFLOAT [5; 10; 15] [3; 15; 150] (mkTensor VECTOR_SHAPE 3) 1
          false EmptyString [] (Some 0%nat) 4096 None.
Definition img_singleton_test : Image :=
  mkImage DT_SFLOAT [5; 10; 15] [1; 5; 50] (mkTensor SCALAR_SHAPE 1) 1
          false EmptyString [] (Some 0%nat) 4096 None.

(** One round of the loop of [Squeeze( dim )] on an array: the entry at [ii]
    moves one place down. *)
Definition shift_down (ii : nat) (l : list Z) : list Z := <[ (ii - 1)%nat := at_ l ii ]> l.

(** The state of the loop of [ExpandSingletonDimensions] before round [ii]:
  the dimensions before [ii] have their new sizes, and stride 0 where the
  size changed; the others are as the loop found them. *)
Definition expanding (img : Image) (newSizes S0 T0 : list Z) (ii : nat) (i : Image) : Prop :=
  IsForged i = true
  /\ length (sizes_ i) = length newSizes /\ length (strides_ i) = length newSizes
  /\ (forall k, (k < ii)%nat -> at_ (sizes_ i) k = at_ newSizes k)
  /\ (forall k, (ii <= k)%nat -> at_ (sizes_ i) k = at_ S0 k)
  /\ (forall k, (k < ii)%nat ->
        at_ (strides_ i) k = if at_ S0 k =? at_ newSizes k then at_ T0 k else 0)
  /\ (forall k, (ii <= k)%nat -> at_ (strides_ i) k = at_ T0 k)
  /\ set_sizes (sizes_ img) (set_strides (strides_ img) i) = img.

(** The image of the doctest on singleton dimensions after
    [AddSingleton( 1 )], and the sizes it is expanded to. *)
Definition img_expand_test : Image :=
  mkImage DT_SFLOAT [5; 1; 10; 15] [1; 0; 5; 50] (mkTensor SCALAR_SHAPE 1) 1
          false EmptyString [] (Some 0%nat) 4096 None.
Definition sizes_expand_test : list Z := [5; 20; 10; 15; 25].

(** One round of the loop of [UnexpandSingletonDimensions]. *)
Definition unexpand_step (ii : nat) (i : Image) : Image :=
  if at_ (strides_ i) ii =? 0 then set_sizes (<[ ii := 1 ]> (sizes_ i)) i else i.

(** The product of the entries of an array, without wrap-around. *)
Definition product (l : list Z) : Z := fold_right Z.mul 1 l.

(** [dip::Image src( { 5, 10, 15 }, 1, dip::DT_SCOMPLEX )], a scalar complex
    image with normal strides. *)
Definition img_complex_test : Image :=
  mkImage DT_SCOMPLEX [5; 10; 15] [1; 5; 50] (mkTensor SCALAR_SHAPE 1) 1
          false EmptyString [] (Some 0%nat) 4096 None.

(** ** [Image::Mirror( process )] and [Image::Rotation90] (image_manip.cpp) *)

Section Rotation.

(** [ArrayUseParameter] and the pixel size are declared in headers that are
    not among the sources. *)
Variable ArrayUseParameter : list bool -> nat -> bool -> Res (list bool).
Variable PixelSize_SwapDimensions : nat -> nat -> PixelSize -> PixelSize.

Definition Mirror_process (process : list bool) : M Image unit :=
  img <- get ;;
  let nd := length (sizes_ img) in
  match ArrayUseParameter process nd true with
  | Throw e => throw e
  | Ok process =>
      for_ nd 0 (fun ii => if nth ii process false then Mirror ii else ret tt)
  end.

Definition Rotation90 (n : Z) (dimension1 dimension2 : nat) : M Image unit :=
  img <- get ;;
  DIP_THROW_IF (negb (IsForged img)) IMAGE_NOT_FORGED ;;;
  let nd := length (sizes_ img) in
  DIP_THROW_IF ((nd <=? dimension1)%nat || (nd <=? dimension2)%nat
                || (dimension1 =? dimension2)%nat) INVALID_PARAMETER ;;;
  let n := srem n 4 in
  let n := if n <? 0 then sadd n 4 else n in
  let process := replicate nd false in
  if n =? 1 then
    (* 90 degrees clockwise *)
    Mirror_process (<[ dimension2 := true ]> process) ;;;
    SwapDimensions PixelSize_SwapDimensions dimension1 dimension2
  else if n =? 2 then
    (* 180 degrees *)
    Mirror_process (<[ dimension2 := true ]> (<[ dimension1 := true ]> process))
  else if n =? 3 then
    (* 270 degrees (== 90 degrees counter-clockwise) *)
    Mirror_process (<[ dimension1 := true ]> process) ;;;
    SwapDimensions PixelSize_SwapDimensions dimension1 dimension2
  else
    (* Do nothing *)
    ret tt.

End Rotation.

(** The image that [Mirror( dimension )] leaves when it does not throw. *)
Definition mirrored (dimension : nat) (i : Image) : Image :=
  set_strides (<[ dimension := sneg (at_ (strides_ i) dimension) ]> (strides_ i))
    (set_origin (Pointer i (smul (to_sint (usub (at_ (sizes_ i) dimension) 1))
                                 (at_ (strides_ i) dimension))) i).

(** What a rotation in the plane of two dimensions works on: the size and
    the stride of the first, the size and the stride of the second, and the
    origin. *)
Definition Turn : Type := (Z * Z * Z * Z * Z)%type.

Definition turn_of (dimension1 dimension2 : nat) (i : Image) : Turn :=
  (at_ (sizes_ i) dimension1, at_ (strides_ i) dimension1,
   at_ (sizes_ i) dimension2, at_ (strides_ i) dimension2, origin_ i).

(** A quarter turn clockwise, for samples of [sz] bytes: the second dimension
    is mirrored, then the two change places. *)
Definition quarter_turn (sz : Z) (t : Turn) : Turn :=
  let '(a1, s1, a2, s2, o) := t in
  (a2, sneg s2, a1, s1,
   ptr_add o (smul (smul (to_sint (usub a2 1)) s2) (to_sint sz))).

(** The image [i] has the sizes [sizes0] and the strides [strides0] but for
    the two dimensions and the origin, which are those of [t]. *)
Definition turned (dimension1 dimension2 : nat) (t : Turn) (sizes0 strides0 : list Z)
    (i : Image) : Prop :=
  let '(a1, s1, a2, s2, o) := t in
  sizes_ i = <[ dimension1 := a1 ]> (<[ dimension2 := a2 ]> sizes0)
  /\ strides_ i = <[ dimension1 := s1 ]> (<[ dimension2 := s2 ]> strides0)
  /\ origin_ i = o.

(** The invariants of the strides and the origin in a [Turn]. *)
Definition turn_ok (t : Turn) : Prop :=
  let '(a1, s1, a2, s2, o) := t in is_sint s1 /\ is_sint s2 /\ is_uint o.

(** The parameter the statements below are evaluated with: an array of the
    right length is used as it is, an empty one or a single value is spread
    over all dimensions. *)
Definition use_parameter (array : list bool) (n : nat) (default : bool) : Res (list bool) :=
  if (length array =? n)%nat then Ok array
  else match array with
       | [] => Ok (replicate n default)
       | [v] => Ok (replicate n v)
       | _ => Throw ARRAY_PARAMETER_WRONG_LENGTH
       end.

(** ** What [Squeeze( dims )] keeps and removes *)

(** Of an array that runs parallel to the sizes, the entries of the
    dimensions larger than 1: what [Squeeze( dims )] keeps. *)
Fixpoint kept (sizes a : list Z) : list Z :=
  match sizes, a with
  | n :: sizes', x :: a' => if 1 <? n then x :: kept sizes' a' else kept sizes' a'
  | _, _ => []
  end.

(** The dimensions that are not larger than 1, numbered from [ii]: what
    [Squeeze( dims )] writes to [dims]. *)
Fixpoint removed (ii : nat) (sizes : list Z) : list nat :=
  match sizes with
  | [] => []
  | n :: sizes' => if 1 <? n then removed (S ii) sizes' else ii :: removed (S ii) sizes'
  end.

(** The strides with 0 for the dimensions that are not larger than 1. *)
Fixpoint flagged (sizes strides : list Z) : list Z :=
  match sizes, strides with
  | n :: sizes', s :: strides' => (if 1 <? n then s else 0) :: flagged sizes' strides'
  | _, _ => []
  end.

(** [dip::Image img( { 1, 5, 1, 10 } )] with normal strides. *)
Definition img_squeeze_test : Image :=
  mkImage DT_SFLOAT [1; 5; 1; 10] [1; 1; 5; 5] (mkTensor SCALAR_SHAPE 1) 1
          false EmptyString [] (Some 0%nat) 4096 None.

(** ** The Python buffer protocol (pydip/src/image.cpp) *)

(** [py::buffer_info], with the fields that the two conversions use.  The
    pointer is an address, 0 for [nullptr]; [itemsize], [ndim], the shape and
    the strides are [ssize_t]. *)
Module py.
Record buffer_info : Type := mk_buffer_info {
  ptr : Z;
  itemsize : Z;
  format : string;
  ndim : Z;
  shape : list Z;
  strides : list Z
}.
End py.

(** [s[ n ]] on a [std::string]: the character, or the terminating 0 at the
    end of the string. *)
Definition string_at (s : string) (n : nat) : ascii :=
  match String.get n s with
  | Some c => c
  | None => Ascii.zero
  end.

Definition buffer_type_error : Error :=
  Message "Buffer data type not compatible with class Image".
Definition buffer_strides_error : Error :=
  Message "Cannot create image out of an array where strides are not in whole pixels".

Section Buffer.

(** Declared in headers that are not among the sources: the flag
    [ReverseDimensions()] of pydip.h, the data types of [unsigned long] and
    [long], which vary with the platform, what [DIP_ASSERT] does with the
    value of its test, the default-constructed image, and the constructor of
    an image around external data, with a scalar tensor and tensor stride 1. *)
Variable ReverseDimensions : bool.
Variables DT_ULONG DT_LONG : DataType.
Variable DIP_ASSERT : bool -> option Error.
Variable Image_default : Image.
Variable Image_external : nat -> Z -> DataType -> list Z -> list Z -> Image.
Variable PixelSize_EraseDimension : nat -> PixelSize -> PixelSize.
Variable SetMatrix : Z -> Z -> Tensor -> Tensor.
Variable IMAGE_NOT_SCALAR : Error.

(** The [switch] on [info.format] of [BufferToImage]. *)
Definition buffer_datatype (format : string) : Res DataType :=
  match string_at format 0 with
  | "?"%char => Ok DT_BIN
  | "B"%char => Ok DT_UINT8
  | "H"%char => Ok DT_UINT16
  | "I"%char => Ok DT_UINT32
  | "L"%char => Ok DT_ULONG
  | "K"%char | "Q"%char => Ok DT_UINT64
  | "b"%char => Ok DT_SINT8
  | "h"%char => Ok DT_SINT16
  | "i"%char => Ok DT_SINT32
  | "l"%char => Ok DT_LONG
  | "k"%char | "q"%char => Ok DT_SINT64
  | "f"%char => Ok DT_SFLOAT
  | "d"%char => Ok DT_DFLOAT
  | "Z"%char =>
      match string_at format 1 with
      | "f"%char => Ok DT_SCOMPLEX
      | "d"%char => Ok DT_DCOMPLEX
      | _ => Throw buffer_type_error
      end
  | _ => Throw buffer_type_error
  end.

(** [for( ii = 0; ii < ndim; ++ii ) isEmpty |= info.shape[ ii ] == 0;] *)
Definition buffer_isEmpty (shape : list Z) (ndim : nat) : bool :=
  loop ndim 0 (fun ii isEmpty => isEmpty || (at_ shape ii =? 0)) false.

(** The loop that fills [sizes]: [sizes( ndim, 1 )], then
    [sizes[ ii ] = static_cast< dip::uint >( info.shape[ ii ] )]. *)
Definition buffer_sizes (shape : list Z) (ndim : nat) : list Z :=
  loop ndim 0 (fun ii sizes => <[ ii := to_uint (at_ shape ii) ]> sizes) (replicate ndim 1).

(** The loop that fills [strides], which throws at the first stride that is
    not a whole number of samples. *)
Fixpoint buffer_strides (itemsize : Z) (info_strides : list Z) (n ii : nat)
    (strides : list Z) : Res (list Z) :=
  match n with
  | O => Ok strides
  | S n' =>
      let s := sdiv (at_ info_strides ii) (to_sint itemsize) in
      if negb (smul s (to_sint itemsize) =? at_ info_strides ii)
      then Throw buffer_strides_error
      else buffer_strides itemsize info_strides n' (S ii) (<[ ii := s ]> strides)
  end.

(** [out.SpatialToTensor( dim )] on a local image, with the default
    [rows = 0, cols = 0]. *)
Definition SpatialToTensor_of (dim : nat) (out : Image) : Res Image :=
  match SpatialToTensor PixelSize_EraseDimension SetMatrix IMAGE_NOT_SCALAR dim 0 0 out with
  | (Ok _, out') => Ok out'
  | (Throw e, _) => Throw e
  end.

(** [BufferToImage( buf, auto_tensor )]; [pyObject] stands for [buf.ptr()],
    the Python object that becomes the data segment. *)
Definition BufferToImage (pyObject : nat) (info : py.buffer_info) (auto_tensor : bool)
    : Res Image :=
  (* Data type *)
  match buffer_datatype (py.format info) with
  | Throw e => Throw e
  | Ok datatype =>
  (* An empty array leads to a raw image *)
  let ndim := Z.to_nat (to_uint (py.ndim info)) in
  match DIP_ASSERT (ndim =? length (py.shape info))%nat with
  | Some e => Throw e
  | None =>
  if buffer_isEmpty (py.shape info) ndim then
    Ok (set_dataType datatype Image_default)
  else
    let sizes := buffer_sizes (py.shape info) ndim in
    match buffer_strides (py.itemsize info) (py.strides info) ndim 0 (replicate ndim 1) with
    | Throw e => Throw e
    | Ok strides =>
    (* Optionally reverse dimensions *)
    let sizes := if ReverseDimensions then rev sizes else sizes in
    let strides := if ReverseDimensions then rev strides else strides in
    (* Create an image with all of this. *)
    let out := Image_external pyObject (py.ptr info) datatype sizes strides in
    if auto_tensor
       && ((2 <? length sizes)%nat
           && ((at_ sizes 0 <? 10) || (at_ sizes (ndim - 1) <? 10))) then
      if at_ sizes 0 <? at_ sizes (ndim - 1) then SpatialToTensor_of 0 out
      else SpatialToTensor_of (ndim - 1) out
    else Ok out
    end
  end
  end.

(** [BufferToImage( buf, tensor_axis )]. *)
Definition BufferToImage_axis (pyObject : nat) (info : py.buffer_info) (tensor_axis : Z)
    : Res Image :=
  match BufferToImage pyObject info false with
  | Throw e => Throw e
  | Ok img =>
      let tensor_axis := ssub (sneg tensor_axis) 1 in
      let tensor_axis :=
        if tensor_axis <? 0 then sadd tensor_axis (to_sint (Z.of_nat (Dimensionality img)))
        else tensor_axis in
      SpatialToTensor_of (Z.to_nat (to_uint tensor_axis)) img
  end.

(** [ImageToBuffer]; the thirteen data types all have a format, so the
    [default:] of the [switch] is never reached. *)
Definition ImageToBuffer (image : Image) : py.buffer_info :=
  (* Get data type and size *)
  let format :=
    match dataType_ image with
    | DT_BIN => "?" | DT_UINT8 => "B" | DT_UINT16 => "H" | DT_UINT32 => "I"
    | DT_UINT64 => "Q" | DT_SINT8 => "b" | DT_SINT16 => "h" | DT_SINT32 => "i"
    | DT_SINT64 => "q" | DT_SFLOAT => "f" | DT_DFLOAT => "d"
    | DT_SCOMPLEX => "Zf" | DT_DCOMPLEX => "Zd"
    end%string in
  let itemsize := to_sint (SizeOf (dataType_ image)) in
  (* Short cut for non-forged images *)
  if negb (IsForged image) then
    py.mk_buffer_info 0 itemsize format 1 [0] [1]
  else
    (* Get sizes and strides *)
    let sizes := sizes_ image in
    let strides := map (fun s => smul s itemsize) (strides_ image) in
    (* Optionally reverse sizes and strides arrays *)
    let sizes := if ReverseDimensions then rev sizes else sizes in
    let strides := if ReverseDimensions then rev strides else strides in
    (* Add tensor dimension as the last array dimension *)
    let sizes := if negb (IsScalar image) then sizes ++ [TensorElements image] else sizes in
    let strides :=
      if negb (IsScalar image) then strides ++ [smul (tensorStride_ image) itemsize]
      else strides in
    py.mk_buffer_info (origin_ image) itemsize format (to_sint (Z.of_nat (length sizes)))
                      (map to_sint sizes) strides.

End Buffer.

(** The parameters the statements below are evaluated with: assertions that
    are compiled out, a raw image, and an image around external data that has
    the fields it is given. *)
Definition no_assert (_ : bool) : option Error := None.
Definition raw_image : Image :=
  mkImage DT_SFLOAT [] [] (mkTensor SCALAR_SHAPE 1) 0 false EmptyString [] None 0 None.
Definition external_image (segment : nat) (origin : Z) (dt : DataType)
    (sizes strides : list Z) : Image :=
  mkImage dt sizes strides (mkTensor SCALAR_SHAPE 1) 1 false EmptyString [] (Some segment)
          origin None.

(** ** Eigenvalues of symmetric matrices, largest first (eigensystem.cpp) *)

Section Eigen.

(** The samples are [double]; [ltb] is their [operator<].  The solvers are
    those of the Eigen library: for an input matrix, the eigenvalues and the
    eigenvectors, the latter column by column. *)
Variable T : Type.
Variable ltb : T -> T -> bool.
Variable eigenvalues : list T -> list T.
Variable eigenvectors : list T -> list T.

(** [std::swap( a[ i ], a[ j ] )] and [a[ i ] < a[ j ]] on an array. *)
Definition swap (i j : nat) (a : list T) : list T :=
  match a !! i, a !! j with
  | Some x, Some y => <[ j := x ]> (<[ i := y ]> a)
  | _, _ => a
  end.

Definition less (a : list T) (i j : nat) : bool :=
  match a !! i, a !! j with
  | Some x, Some y => ltb x y
  | _, _ => false
  end.

Definition SymmetricEigenValues2D (input : list T) : list T :=
  let lambdas := eigenvalues input in
  if less lambdas 0 1 then swap 0 1 lambdas else lambdas.

Definition SymmetricEigenSystem2D (input : list T) : list T * list T :=
  let lambdas := eigenvalues input in
  let vectors := eigenvectors input in
  if less lambdas 0 1 then
    (swap 0 1 lambdas, swap 1 3 (swap 0 2 vectors))
  else (lambdas, vectors).

Definition SymmetricEigenValues3D (input : list T) : list T :=
  let lambdas := eigenvalues input in
  let lambdas := if less lambdas 0 1 then swap 0 1 lambdas else lambdas in
  let lambdas := if less lambdas 1 2 then swap 1 2 lambdas else lambdas in
  if less lambdas 0 1 then swap 0 1 lambdas else lambdas.

Definition SymmetricEigenSystem3D (input : list T) : list T * list T :=
  let lambdas := eigenvalues input in
  let vectors := eigenvectors input in
  let '(lambdas, vectors) :=
    if less lambdas 0 1 then
      (swap 0 1 lambdas, swap 2 5 (swap 1 4 (swap 0 3 vectors)))
    else (lambdas, vectors) in
  let '(lambdas, vectors) :=
    if less lambdas 1 2 then
      (swap 1 2 lambdas, swap 5 8 (swap 4 7 (swap 3 6 vectors)))
    else (lambdas, vectors) in
  if less lambdas 0 1 then
    (swap 0 1 lambdas, swap 2 5 (swap 1 4 (swap 0 3 vectors)))
  else (lambdas, vectors).

(** The eigenvectors of a 3x3 matrix, one column each. *)
Definition columns3 (vectors : list T) : list (list T) :=
  [take 3 vectors; take 3 (drop 3 vectors); drop 6 vectors].

Definition columns2 (vectors : list T) : list (list T) :=
  [take 2 vectors; drop 2 vectors].

(** No entry is smaller than the next one. *)
Fixpoint descending (lambdas : list T) : bool :=
  match lambdas with
  | a :: (b :: _) as rest => negb (ltb a b) && descending rest
  | _ => true
  end.

End Eigen.

(** The solvers' results for the diagonal matrix with 4, 8 and 6 on the
    diagonal, eigenvalues in increasing order. *)
Definition eigenvalues_test (_ : list Z) : list Z := [4; 6; 8].
Definition eigenvectors_test (_ : list Z) : list Z := [1; 0; 0; 0; 0; 1; 0; 1; 0].

(** ** [Image::CropWindow] (image_manip.cpp) *)

(** [dip::Range] with step 1: the first and the last index; the default
    range, [{ 0, -1 }], is the whole dimension. *)
Definition Range : Type := (Z * Z)%type.

Section CropWindow.

(** [operator>] on two [UnsignedArray]s is declared in a header that is not
    among the sources. *)
Variable array_gt : list Z -> list Z -> bool.

Definition CropWindow_sizes (imageSizes windowSizes : list Z) (cropLocation : CropLocation)
    : Res (list Range) :=
  let nDims := length imageSizes in
  if negb (length windowSizes =? nDims)%nat then Throw ARRAY_PARAMETER_WRONG_LENGTH
  else if array_gt windowSizes imageSizes then Throw INDEX_OUT_OF_RANGE
  else
    let origin := GetWindowOrigin imageSizes windowSizes cropLocation in
    Ok (loop nDims 0
          (fun ii (out : list Range) =>
             <[ ii := (to_sint (nth ii origin 0),
                       to_sint (usub (uadd (nth ii origin 0) (nth ii windowSizes 0)) 1)) ]> out)
          (replicate nDims (0, -1))).

Definition CropWindow (sizes : list Z) (cropLocation : CropLocation) (img : Image)
    : Res (list Range) :=
  if negb (IsForged img) then Throw IMAGE_NOT_FORGED
  else CropWindow_sizes (sizes_ img) sizes cropLocation.

End CropWindow.

(** ** [Image::PermuteDimensions] (image_manip.cpp) *)

Definition duplicate_error : Error := Message "Cannot duplicate a dimension".
Definition discard_error : Error := Message "Cannot discard non-singleton dimension".

(** The first loop of [PermuteDimensions], from index [ii] with [n] entries
    of [order] left: it marks the dimensions that [order] names in [keep],
    and throws at the first one that does not exist or is named twice. *)
Fixpoint mark_kept (order : list nat) (nd : nat) (n ii : nat) (keep : list bool)
    : Res (list bool) :=
  match n with
  | O => Ok keep
  | S n' =>
      if (nd <=? nth ii order 0)%nat then Throw ILLEGAL_DIMENSION
      else if nth (nth ii order 0%nat) keep false then Throw duplicate_error
      else mark_kept order nd n' (S ii) (<[ nth ii order 0%nat := true ]> keep)
  end.

Section PermuteDimensions.

(** [DimensionArray::permute] and [PixelSize::Permute] are declared in
    headers that are not among the sources. *)
Variable permute : list nat -> list Z -> list Z.
Variable PixelSize_Permute : list nat -> PixelSize -> PixelSize.

Definition PermuteDimensions (order : list nat) : M Image unit :=
  img <- get ;;
  DIP_THROW_IF (negb (IsForged img)) IMAGE_NOT_FORGED ;;;
  let nd := length (sizes_ img) in
  DIP_THROW_IF (nd <? length order)%nat ARRAY_PARAMETER_WRONG_LENGTH ;;;
  let newnd := length order in
  match mark_kept order nd newnd 0 (replicate nd false) with
  | Throw e => throw e
  | Ok keep =>
      for_ nd 0 (fun ii =>
        DIP_THROW_IF (negb (nth ii keep false) && (1 <? at_ (sizes_ img) ii))
                     discard_error) ;;;
      modify (fun i => set_sizes (permute order (sizes_ i)) i) ;;;
      modify (fun i => set_strides (permute order (strides_ i)) i) ;;;
      modify (fun i => set_pixelSize (PixelSize_Permute order (pixelSize_ i)) i)
  end.

End PermuteDimensions.

(** The parameters the statements below are evaluated with: the array with
    the entries that [order] names, in that order. *)
Definition permute_at (order : list nat) (a : list Z) : list Z :=
  map (fun d => at_ a d) order.
Definition keep_pixel_size_order (_ : list nat) (ps : PixelSize) : PixelSize := ps.

(** ** [FlatSEMorphologyLineFilter::Filter] (morphology/basic.cpp) *)

(** [PixelTableOffsets::PixelRun]: the offset of the first pixel of a run
    and the number of pixels in it. *)
Record PixelRun : Type := mkPixelRun {
  run_offset : Z;
  run_length : Z
}.

Section FlatSE.

(** The samples are those of an integer type [TPI], with
    [std::numeric_limits< TPI >::lowest()] and [max()].  The input is read
    through [in_], which gives the sample at an offset from the start of the
    line; the output is the list of the values written, in order. *)
Variables lowest highest : Z.
Variable in_ : Z -> Z.

(** The two branches of every loop differ in the comparison and in the
    start value only: [better val max] is [val > max] for the dilation and
    [val < min] for the erosion. *)

(** [max = std::max( max, val )] and [min = std::min( min, val )]. *)
Definition pick (better : Z -> Z -> bool) (best val : Z) : Z :=
  if better val best then val else best.

(** [if( max == val ) index = std::max( index, pos );
     else if( val > max ) { max = val; index = pos; }] *)
Definition update (better : Z -> Z -> bool) (st : Z * Z) (val pos : Z) : Z * Z :=
  let '(best, index) := st in
  if best =? val then (best, Z.max index pos)
  else if better val best then (val, pos)
  else (best, index).

(** The brute force method at the pixel [p] samples into the line. *)
Definition brute_force (better : Z -> Z -> bool) (offsets_ : list Z) (p : Z) : Z :=
  fold_left (fun best o => pick better best (in_ (p + o))) (tl offsets_)
            (in_ (p + hd 0 offsets_)).

(** The optimum is in the filter: only the pixels that came in, the last of
    each run, are looked at. *)
Definition came_in (better : Z -> Z -> bool) (runs : list PixelRun) (inStride p : Z)
    (st : Z * Z) : Z * Z :=
  fold_left (fun st run =>
               let len := to_sint (usub (run_length run) 1) in
               let position := sadd (run_offset run) (smul len inStride) in
               update better st (in_ (p + position)) len)
            runs st.

(** The optimum is no longer in the filter: all pixels in the table are
    looked at, run by run; [jj] counts the pixels of a run, [n] are left. *)
Fixpoint all_of_run (better : Z -> Z -> bool) (stride p : Z) (n : nat) (jj : Z) (offset : Z)
    (st : Z * Z) : Z * Z :=
  match n with
  | O => st
  | S n' =>
      all_of_run better stride p n' (uadd jj 1) (sadd offset stride)
                 (update better st (in_ (p + offset)) (to_sint jj))
  end.

Definition all_pixels (better : Z -> Z -> bool) (runs : list PixelRun) (stride p : Z)
    (st : Z * Z) : Z * Z :=
  fold_left (fun st run =>
               all_of_run better stride p (Z.to_nat (run_length run)) 0 (run_offset run) st)
            runs st.

(** The run length method, with [n] pixels of the line left, at [p] samples
    into the line. *)
Fixpoint run_length_method (better : Z -> Z -> bool) (worst : Z) (runs : list PixelRun)
    (stride inStride : Z) (n : nat) (p : Z) (st : Z * Z) : list Z :=
  match n with
  | O => []
  | S n' =>
      let st :=
        if 0 <=? snd st then came_in better runs inStride p st
        else all_pixels better runs stride p (worst, 0) in
      fst st :: run_length_method better worst runs stride inStride n' (p + inStride)
                                  (fst st, ssub (snd st) 1)
  end.

(** [Filter]: [offsets_] and [bruteForce_] are the members that
    [SetNumberOfThreads] has set, [runs] and [stride] are
    [pixelTable.Runs()] and [pixelTable.Stride()]. *)
Definition FlatSE_Filter (dilation_ bruteForce_ : bool) (offsets_ : list Z)
    (runs : list PixelRun) (stride inStride : Z) (length : nat) : list Z :=
  if bruteForce_ then
    if dilation_ then
      map (fun ii => brute_force Z.gtb offsets_ (Z.of_nat ii * inStride)) (seq 0 length)
    else
      map (fun ii => brute_force Z.ltb offsets_ (Z.of_nat ii * inStride)) (seq 0 length)
  else
    if dilation_ then
      run_length_method Z.gtb lowest runs stride inStride length 0 (0, -1)
    else
      run_length_method Z.ltb highest runs stride inStride length 0 (0, -1).

End FlatSE.

(** The pixels of the table: the run and the place in the run. *)
Definition in_table (runs : list PixelRun) (run : PixelRun) (jj : Z) : Prop :=
  In run runs /\ 0 <= jj < run_length run.

(** The value [v] is one of the samples under the table at [p], and none of
    them is better. *)
Definition best_under (better : Z -> Z -> bool) (in_ : Z -> Z) (runs : list PixelRun)
    (stride p : Z) (v : Z) : Prop :=
  (exists run jj, in_table runs run jj /\ v = in_ (p + (run_offset run + jj * stride)))
  /\ forall run jj, in_table runs run jj ->
       better (in_ (p + (run_offset run + jj * stride))) v = false.

(** The offsets of the pixels of the table, as [PixelTableOffsets::Offsets]
    lists them. *)
Definition offsets_of (runs : list PixelRun) (stride : Z) : list Z :=
  flat_map (fun run => map (fun jj => run_offset run + Z.of_nat jj * stride)
                           (seq 0 (Z.to_nat (run_length run)))) runs.

(** A line of samples of an 8-bit unsigned type, and the table of a
    horizontal line of three pixels around the origin. *)
Definition in_test (a : Z) : Z := (a * a) mod 7.
Definition runs_test : list PixelRun := [mkPixelRun (-1) 3].

(** ** [FeatureGreySize::ScanLine] (measurement/feature_grey_size.h) *)

Section GreySize.

(** The grey values are [dfloat] with their addition; [objectIndices] is
    the map from object IDs to indices, looked up with [find]. *)
Variable T : Type.
Variable add : T -> T -> T.
Variable zero : T.
Variable objectIndices : Z -> option nat.
Variable nTensor_ : nat.

(** [for( ii = 0; ii < nTensor_; ++ii ) data[ ii ] += grey[ ii ];] with
    [data = &data_[ index ]]. *)
Definition add_pixel (index : nat) (grey : list T) (data_ : list T) : list T :=
  loop nTensor_ 0
       (fun ii data_ =>
          <[ (index + ii)%nat := add (nth (index + ii) data_ zero) (nth ii grey zero) ]> data_)
       data_.

(** One round of the [do ... while] loop: the state is the ID of the last
    object seen, the index that [data] points to ([None] for [nullptr]), and
    the array [data_]. *)
Definition ScanLine_pixel (st : Z * option nat * list T) (px : Z * list T)
    : Z * option nat * list T :=
  let '(objectID, data, data_) := st in
  let '(label, grey) := px in
  if 0 <? label then
    let '(objectID, data) :=
      if negb (label =? objectID) then (label, objectIndices label)
      else (objectID, data) in
    match data with
    | Some index => (objectID, data, add_pixel index grey data_)
    | None => (objectID, data, data_)
    end
  else st.

(** [ScanLine] over the pixels of a line, each a label and its grey values;
    a line has at least one pixel. *)
Definition ScanLine (line : list (Z * list T)) (data_ : list T) : list T :=
  snd (fold_left ScanLine_pixel line (0, None, data_)).

(** What a pixel adds to the entry [k] of [data_]: the grey value of each
    tensor element [ii] for which [k] is the index of the label plus [ii]. *)
Definition added_to (k : nat) (px : Z * list T) : list T :=
  let '(label, grey) := px in
  if 0 <? label then
    match objectIndices label with
    | Some index =>
        flat_map (fun ii => if (index + ii =? k)%nat then [nth ii grey zero] else [])
                 (seq 0 nTensor_)
    | None => []
    end
  else [].

End GreySize.

(** Two objects, with the IDs 1 and 2, and a line of five pixels of a scalar
    image with integer grey values. *)
Definition indices_test (id : Z) : option nat :=
  if id =? 1 then Some 0%nat else if id =? 2 then Some 1%nat else None.
Definition line_grey_test : list (Z * list Z) :=
  [(1, [3]); (1, [4]); (0, [9]); (2, [5]); (1, [1])].

(** ** [PlanCache] (transform/dft.cpp) *)

(** An element of the cache: the use count, the time of the last access and
    the plan, which is known by the length it was made for. *)
Record PlanData : Type := mkPlanData {
  use_count : Z;
  last_access : Z;
  plan : Z
}.

(** The cache is a hash map from lengths to elements; the order in which a
    loop visits its elements is not specified, and is here the order of the
    list. *)
Definition Cache : Type := list (Z * PlanData).

Fixpoint cache_find (length : Z) (cache : Cache) : option PlanData :=
  match cache with
  | [] => None
  | (key, data) :: rest => if key =? length then Some data else cache_find length rest
  end.

Definition cache_erase (length : Z) (cache : Cache) : Cache :=
  List.filter (fun p => negb (fst p =? length)) cache.

(** [it.value()] changed in place. *)
Definition cache_change (length : Z) (f : PlanData -> PlanData) (cache : Cache) : Cache :=
  map (fun p => if fst p =? length then (fst p, f (snd p)) else p) cache.

(** [cache.insert( { length, data } )] leaves an element with the same key
    alone. *)
Definition cache_insert (length : Z) (data : PlanData) (cache : Cache) : Cache :=
  match cache_find length cache with
  | Some _ => cache
  | None => cache ++ [(length, data)]
  end.

Definition maxSize : Z := 30.

(** The loop that looks for the element to delete: of the elements that are
    not in use, one with the oldest access. *)
Definition oldest_unused (cache : Cache) (access_counter : Z) : Z * Z :=
  fold_left (fun (st : Z * Z) (p : Z * PlanData) =>
               let '(acc, len) := st in
               if use_count (snd p) =? 0 then
                 if last_access (snd p) <? acc then (last_access (snd p), plan (snd p))
                 else (acc, len)
               else (acc, len))
            cache (access_counter, 0).

(** [PlanCache( length, free )]: the state is the cache and the access
    counter, two static variables; the result is the plan, [None] for
    [nullptr]. *)
Definition PlanCache (length : Z) (free : bool) (st : Cache * Z) : option Z * (Cache * Z) :=
  let '(cache, access_counter) := st in
  if free then
    match cache_find length cache with
    | Some data =>
        if 0 <? use_count data then
          (None, (cache_change length
                    (fun d => mkPlanData (usub (use_count d) 1) (last_access d) (plan d)) cache,
                  access_counter))
        else (None, (cache, access_counter))
    | None => (None, (cache, access_counter))
    end
  else
    let '(cache, access_counter) :=
      if access_counter =? 2 ^ 64 - 1 then
        (map (fun p => (fst p, mkPlanData (use_count (snd p)) 0 (plan (snd p)))) cache, 1)
      else (cache, access_counter) in
    match cache_find length cache with
    | Some data =>
        (* Update *)
        let access_counter := uadd access_counter 1 in
        (Some (plan data),
         (cache_change length
            (fun d => mkPlanData (uadd (use_count d) 1) access_counter (plan d)) cache,
          access_counter))
    | None =>
        (* Not found *)
        let cache :=
          if maxSize <=? Z.of_nat (List.length cache) then
            (* Delete one cache element that is not in use, if possible *)
            let '(acc, len) := oldest_unused cache access_counter in
            if 0 <? len then cache_erase len cache else cache
          else cache in
        let access_counter := uadd access_counter 1 in
        let cache := cache_insert length (mkPlanData 1 access_counter length) cache in
        (match cache_find length cache with Some data => Some (plan data) | None => None end,
         (cache, access_counter))
    end.

(** Every element holds the plan of its key, and no key occurs twice. *)
Definition cache_ok (cache : Cache) : Prop :=
  List.NoDup (map fst cache) /\ forall key data, In (key, data) cache -> plan data = key.

(** A full cache: thirty plans, all in use but the one for length 3. *)
Definition cache_test : Cache :=
  map (fun k => (k, mkPlanData (if k =? 3 then 0 else 1) k k))
      [1; 2; 3; 4; 5; 6; 7; 8; 9; 10; 11; 12; 13; 14; 15;
       16; 17; 18; 19; 20; 21; 22; 23; 24; 25; 26; 27; 28; 29; 30].

(* ===================================================================== *)
(** * [dip::RDFT< T >::Apply] (src/transform/dft.cpp), the PocketFFT branch

    The real-to-complex transform works in one array of samples of type [T].
    PocketFFT's real plan keeps a half-complex spectrum packed in [nfft_]
    samples: the real part of the first frequency, then real and imaginary
    part of each following one (the last one has only a real part when
    [nfft_] is even).  [Apply] converts between that form and an array of
    proper complex numbers, by moving samples inside the array. *)

Section RDFT.

Variable T : Type.
(** The sample [0]. *)
Variable zero : T.

(** The members of an [RDFT] object that [Apply] reads.  [plan_] is null until
    [Initialize] was called; then it points at a [pocketfft::pocketfft_r< T >]
    made for length [nfft_].  PocketFFT is not part of these sources: the
    plan is given by what its [exec( c, fct, r2hc )] makes of the samples
    [c[ 0 ], ..., c[ nfft_ - 1 ]]. *)
Record RDFT : Type := {
  nfft_ : Z;
  inverse_ : bool;
  plan_ : option (list T -> T -> bool -> list T)
}.

(** [plan->exec( c, fct, r2hc )]: the first [n] samples of the array are
    transformed in place, the others stay. *)
Definition exec (plan : list T -> T -> bool -> list T) (n : nat) (fct : T) (r2hc : bool)
    (c : list T) : list T :=
  plan (take n c) fct r2hc ++ drop n c.

(** [std::copy_n( source + first, count, destination + result )]: [count]
    assignments from front to back.  [source] is [None] where the source is
    the destination array itself: a read then sees the samples written
    before it. *)
Definition copy_n (source : option (list T)) (first count result : nat) (destination : list T)
    : list T :=
  loop count 0
       (fun k d => <[ (result + k)%nat := nth (first + k) (default d source) zero ]> d)
       destination.

(** [std::copy_backward( d + first, d + last, d + d_last )]: the same samples
    move, from back to front. *)
Definition copy_backward (first last d_last : nat) (destination : list T) : list T :=
  loop (last - first) 1
       (fun k d => <[ (d_last - k)%nat := nth (last - k) d zero ]> d)
       destination.

(** [RDFT< T >::Apply( source, destination, scale )].  The state is the array
    at [destination]; [source] is [None] for [source == destination]. *)
Definition RDFT_Apply (self : RDFT) (source : option (list T)) (scale : T) : M (list T) unit :=
  match plan_ self with
  | None => throw (Message "No plan defined.")
  | Some plan =>
      (if inverse_ self then
         (* Coerce the complex input data into the form expected by PocketFFT *)
         modify (fun d => <[ 0%nat := nth 0 (default d source) zero ]> d) ;;;
         modify (copy_n source 2 (Z.to_nat (usub (nfft_ self) 1)) 1)
       else
         match source with
         | Some src => modify (copy_n (Some src) 0 (Z.to_nat (nfft_ self)) 0)
         | None => ret tt
         end) ;;;
      modify (exec plan (Z.to_nat (nfft_ self)) scale (negb (inverse_ self))) ;;;
      if negb (inverse_ self) then
        (* Translate the complex output into proper complex numbers. *)
        let n := umul 2 (uadd (udiv (nfft_ self) 2) 1) in
        modify (fun d => <[ Z.to_nat (usub n 1) := zero ]> d) ;;;
        let n := if Z.land (nfft_ self) 1 =? 0 then usub n 1 else n in
        modify (copy_backward 1 (Z.to_nat (nfft_ self)) (Z.to_nat n)) ;;;
        modify (fun d => <[ 1%nat := zero ]> d)
      else ret tt
  end.

End RDFT.

Arguments nfft_ {T} _.
Arguments inverse_ {T} _.
Arguments plan_ {T} _.

(** A plan for testing: it reverses the samples it is given. *)
Definition plan_test : list Z -> Z -> bool -> list Z := fun c _ _ => rev c.

(* ===================================================================== *)
(** * Part II: lemmas and theorems                                        *)
(* ===================================================================== *)

(** ** Machine arithmetic

    Congruence modulo [2 ^ 64] and the facts about the wrapping operators
    that the proofs below share. *)

#[local] Instance eqm64_equiv : Equivalence eqm64.
Proof.
  unfold eqm64. split.
  - intros a. reflexivity.
  - intros a b H. symmetry. exact H.
  - intros a b c H1 H2. congruence.
Qed.

#[local] Instance eqm64_add : Proper (eqm64 ==> eqm64 ==> eqm64) Z.add.
Proof.
  unfold eqm64. intros a a' Ha b b' Hb.
  rewrite (Z.add_mod a), (Z.add_mod a') by lia. congruence.
Qed.

#[local] Instance eqm64_mul : Proper (eqm64 ==> eqm64 ==> eqm64) Z.mul.
Proof.
  unfold eqm64. intros a a' Ha b b' Hb.
  rewrite (Z.mul_mod a), (Z.mul_mod a') by lia. congruence.
Qed.

#[local] Instance eqm64_opp : Proper (eqm64 ==> eqm64) Z.opp.
Proof.
  intros a a' Ha. replace (- a) with (-1 * a) by lia. replace (- a') with (-1 * a') by lia.
  rewrite Ha. reflexivity.
Qed.


Lemma wrap_sint_eqm z : eqm64 (wrap_sint z) z.
Proof.
  unfold eqm64, wrap_sint. rewrite Zminus_mod_idemp_l. f_equal. lia.
Qed.

Lemma wrap_uint_eqm z : eqm64 (wrap_uint z) z.
Proof. unfold eqm64, wrap_uint. apply Z.mod_mod. lia. Qed.

Lemma wrap_sint_id z : is_sint z -> wrap_sint z = z.
Proof.
  unfold is_sint, wrap_sint. intros H. rewrite Z.mod_small; lia.
Qed.

Lemma wrap_uint_id z : is_uint z -> wrap_uint z = z.
Proof. unfold is_uint, wrap_uint. intros H. apply Z.mod_small; lia. Qed.

Lemma wrap_sint_range z : is_sint (wrap_sint z).
Proof.
  unfold is_sint, wrap_sint.
  pose proof (Z.mod_pos_bound (z + 2 ^ 63) (2 ^ 64) ltac:(lia)). lia.
Qed.

Lemma wrap_uint_range z : is_uint (wrap_uint z).
Proof.
  unfold is_uint, wrap_uint. apply Z.mod_pos_bound. lia.
Qed.

Lemma eqm_sint a b : is_sint a -> is_sint b -> eqm64 a b -> a = b.
Proof.
  intros Ha Hb H. rewrite <- (wrap_sint_id a Ha), <- (wrap_sint_id b Hb).
  unfold wrap_sint. f_equal.
  unfold eqm64 in H. rewrite <- Zplus_mod_idemp_l, H, Zplus_mod_idemp_l. reflexivity.
Qed.

Lemma eqm_uint a b : is_uint a -> is_uint b -> eqm64 a b -> a = b.
Proof.
  intros Ha Hb H. rewrite <- (wrap_uint_id a Ha), <- (wrap_uint_id b Hb). exact H.
Qed.

Lemma sneg_sneg s : is_sint s -> sneg (sneg s) = s.
Proof.
  intros H. apply eqm_sint; [apply wrap_sint_range | exact H |].
  unfold sneg. rewrite !wrap_sint_eqm.
  replace (- - s) with s by lia. reflexivity.
Qed.

Lemma Pointer_back o a st sz :
  is_uint o ->
  ptr_add (ptr_add o (smul (smul a st) sz)) (smul (smul a (sneg st)) sz) = o.
Proof.
  intros Ho. apply eqm_uint; [apply wrap_uint_range | exact Ho |].
  unfold ptr_add, smul, sneg. rewrite !wrap_uint_eqm, !wrap_sint_eqm.
  replace (o + a * st * sz + a * - st * sz) with o by ring. reflexivity.
Qed.

Lemma is_uintb_spec z : is_uintb z = true <-> is_uint z.
Proof. unfold is_uintb, is_uint. rewrite andb_true_iff. lia. Qed.
Lemma is_sintb_spec z : is_sintb z = true <-> is_sint z.
Proof. unfold is_sintb, is_sint. rewrite andb_true_iff. lia. Qed.

Lemma forallb_at (f : Z -> bool) (l : list Z) (i : nat) :
  forallb f l = true -> (i < length l)%nat -> f (at_ l i) = true.
Proof.
  intros H Hi. rewrite forallb_forall in H. apply H. apply nth_In. exact Hi.
Qed.

Lemma at_insert_eq (l : list Z) (i : nat) (v : Z) :
  (i < length l)%nat -> at_ (<[ i := v ]> l) i = v.
Proof.
  intros Hi. unfold at_. apply nth_lookup_Some. apply list_lookup_insert_eq. exact Hi.
Qed.

Lemma insert_at_id (l : list Z) (i : nat) :
  <[ i := at_ l i ]> l = l.
Proof.
  apply list_insert_id'. intros Hi. unfold at_.
  destruct (nth_lookup_or_length l i 0) as [H | H]; [exact H | lia].
Qed.

(** ** [Image::Mirror] *)

(** C7.  On a forged image, mirroring a valid dimension twice gives back the
    image as it was: the same strides, the same origin pointer, the same
    sizes (and every other field). *)
Theorem Mirror_twice (img : Image) (dimension : nat) :
  IsForged img = true ->
  wf_Image img = true ->
  (dimension < length (sizes_ img))%nat ->
  (Mirror dimension ;;; Mirror dimension)%dip img = (Ok tt, img).
Proof.
  intros Hf Hwf Hd.
  unfold wf_Image in Hwf. rewrite !andb_true_iff in Hwf.
  destruct Hwf as [[[[Hlen Hsz] Hst] Hts] Ho].
  apply Nat.eqb_eq in Hlen.
  assert (Hd' : (dimension < length (strides_ img))%nat) by lia.
  assert (Hlt : (length (sizes_ img) <=? dimension)%nat = false) by (apply Nat.leb_gt; lia).
  destruct img as [dt sz st te ts pr cs ps db o ei]; simpl in *.
  unfold Mirror, bind, get, modify, DIP_THROW_IF, ret, throw, IsForged in *; simpl in *.
  rewrite Hf, Hlt; simpl. rewrite Hf, Hlt; simpl.
  unfold Pointer; simpl.
  rewrite at_insert_eq by exact Hd'.
  rewrite list_insert_insert_eq.
  rewrite sneg_sneg by (apply is_sintb_spec, forallb_at; assumption).
  rewrite insert_at_id.
  rewrite Pointer_back by (apply is_uintb_spec; exact Ho).
  reflexivity.
Qed.

Lemma Mirror_twice_witness :
  (Mirror 1 ;;; Mirror 1) img_crop_test = (Ok tt, img_crop_test).
Proof.
  apply Mirror_twice.
  - reflexivity.
  - vm_compute. reflexivity.
  - simpl. lia.
Defined.

(** One application negates the stride and moves the origin to the last
    pixel along the dimension (the second dimension of the 7x8x9x10 image has
    stride 7 and 4-byte samples). *)
Example Mirror_once :
  Mirror 1 img_crop_test
  = (Ok tt, set_strides [1; -7; 56; 504] (set_origin (4096 + 4 * (7 * 7)) img_crop_test)).
Proof. vm_compute. reflexivity. Qed.

(** ** [GetWindowOrigin] and [Image::Crop] *)

Lemma length_loop_insert (f : nat -> Z) (n lo : nat) (o : list Z) :
  length (loop n lo (fun ii origin => <[ ii := f ii ]> origin) o) = length o.
Proof.
  revert lo o. induction n as [| n IH]; intros lo o; simpl.
  - reflexivity.
  - rewrite IH. apply length_insert.
Qed.

Lemma at_insert_ne (l : list Z) (i j : nat) (v : Z) :
  i <> j -> at_ (<[ i := v ]> l) j = at_ l j.
Proof.
  intros Hij. unfold at_. rewrite !nth_lookup, list_lookup_insert_ne by exact Hij.
  reflexivity.
Qed.

Lemma at_loop_insert (f : nat -> Z) (n lo : nat) (o : list Z) (i : nat) :
  (lo + n <= length o)%nat ->
  at_ (loop n lo (fun ii origin => <[ ii := f ii ]> origin) o) i =
  if ((lo <=? i) && (i <? lo + n))%nat then f i else at_ o i.
Proof.
  revert lo o. induction n as [| n IH]; intros lo o Hlen; simpl.
  - replace ((lo <=? i) && (i <? lo + 0))%nat with false; [reflexivity |].
    symmetry. apply andb_false_iff.
    destruct (Nat.leb_spec lo i); [right; apply Nat.ltb_ge; lia | left; reflexivity].
  - rewrite IH by (rewrite length_insert; lia).
    destruct (Nat.lt_trichotomy i lo) as [Hlt | [Heq | Hgt]].
    + replace (S lo <=? i)%nat with false by (symmetry; apply Nat.leb_gt; lia).
      replace (lo <=? i)%nat with false by (symmetry; apply Nat.leb_gt; lia).
      simpl. apply at_insert_ne. lia.
    + subst i.
      replace (S lo <=? lo)%nat with false by (symmetry; apply Nat.leb_gt; lia).
      replace (lo <=? lo)%nat with true by (symmetry; apply Nat.leb_le; lia).
      replace (lo <? lo + S n)%nat with true by (symmetry; apply Nat.ltb_lt; lia).
      simpl. apply at_insert_eq. lia.
    + replace (S lo <=? i)%nat with true by (symmetry; apply Nat.leb_le; lia).
      replace (lo <=? i)%nat with true by (symmetry; apply Nat.leb_le; lia).
      replace (i <? S lo + n)%nat with (i <? lo + S n)%nat by (f_equal; lia).
      simpl. destruct (i <? lo + S n)%nat; [reflexivity | apply at_insert_ne; lia].
Qed.

Lemma low_bit_odd (x : Z) : low_bit x = Z.odd x.
Proof.
  unfold low_bit. change 1 with (Z.ones 1) at 1. rewrite Z.land_ones by lia.
  change (2 ^ 1) with 2. rewrite Zmod_odd. destruct (Z.odd x); reflexivity.
Qed.

Lemma at_replicate_0 (n i : nat) : at_ (replicate n 0) i = 0.
Proof.
  unfold at_. rewrite nth_lookup. destruct (replicate n 0 !! i) eqn:E; [| reflexivity].
  apply lookup_replicate in E. simpl. tauto.
Qed.

Lemma at_zip_with_usub (a b : list Z) (i : nat) :
  length b = length a -> (i < length a)%nat ->
  at_ (zip_with usub a b) i = usub (at_ a i) (at_ b i).
Proof.
  intros Hlen Hi. unfold at_. apply nth_lookup_Some.
  rewrite lookup_zip_with.
  destruct (nth_lookup_or_length a i 0) as [Ha | Ha]; [| lia].
  destruct (nth_lookup_or_length b i 0) as [Hb | Hb]; [| lia].
  rewrite Ha. simpl. rewrite Hb. reflexivity.
Qed.

(** The per-dimension window origin of each placement, as the code computes
    it, when the window fits in the image. *)
Lemma GetWindowOrigin_at (imageSizes windowSizes : list Z) (loc : CropLocation) (ii : nat) :
  length windowSizes = length imageSizes ->
  (ii < length imageSizes)%nat ->
  0 <= at_ windowSizes ii <= at_ imageSizes ii ->
  at_ imageSizes ii < 2 ^ 64 ->
  at_ (GetWindowOrigin imageSizes windowSizes loc) ii =
  let I := at_ imageSizes ii in
  let W := at_ windowSizes ii in
  match loc with
  | CENTER => (I - W) / 2 + (if Z.even I && Z.odd W then 1 else 0)
  | MIRROR_CENTER => (I - W) / 2 + (if Z.odd I && Z.even W then 1 else 0)
  | TOP_LEFT => 0
  | BOTTOM_RIGHT => I - W
  end.
Proof.
  intros Hlen Hi HW HI. cbv zeta.
  assert (Hd : usub (at_ imageSizes ii) (at_ windowSizes ii)
               = at_ imageSizes ii - at_ windowSizes ii).
  { apply wrap_uint_id. unfold is_uint. lia. }
  assert (Hu : forall b : bool,
             uadd (udiv (at_ imageSizes ii - at_ windowSizes ii) 2) (b2z b)
             = (at_ imageSizes ii - at_ windowSizes ii) / 2 + (if b then 1 else 0)).
  { intros b. unfold uadd, udiv, b2z. apply wrap_uint_id. unfold is_uint.
    pose proof (Z.div_pos (at_ imageSizes ii - at_ windowSizes ii) 2 ltac:(lia) ltac:(lia)).
    assert ((at_ imageSizes ii - at_ windowSizes ii) / 2 < 2 ^ 63).
    { apply Z.div_lt_upper_bound; lia. }
    destruct b; lia. }
  destruct loc; unfold GetWindowOrigin.
  - rewrite at_loop_insert by (rewrite length_replicate; lia).
    replace ((0 <=? ii) && (ii <? 0 + length imageSizes))%nat with true
      by (symmetry; apply andb_true_iff; split; [apply Nat.leb_le | apply Nat.ltb_lt]; lia).
    rewrite Hd, Hu, !low_bit_odd, Z.negb_odd. reflexivity.
  - rewrite at_loop_insert by (rewrite length_replicate; lia).
    replace ((0 <=? ii) && (ii <? 0 + length imageSizes))%nat with true
      by (symmetry; apply andb_true_iff; split; [apply Nat.leb_le | apply Nat.ltb_lt]; lia).
    rewrite Hd, Hu, !low_bit_odd, Z.negb_odd. reflexivity.
  - apply at_replicate_0.
  - rewrite at_zip_with_usub by assumption. exact Hd.
Qed.

Lemma length_GetWindowOrigin (imageSizes windowSizes : list Z) (loc : CropLocation) :
  length windowSizes = length imageSizes ->
  length (GetWindowOrigin imageSizes windowSizes loc) = length imageSizes.
Proof.
  intros Hlen. destruct loc; unfold GetWindowOrigin.
  - rewrite length_loop_insert. apply length_replicate.
  - rewrite length_loop_insert. apply length_replicate.
  - apply length_replicate.
  - rewrite length_zip_with. lia.
Qed.

Lemma window_fits_at (windowSizes imageSizes : list Z) (ii : nat) :
  window_fits windowSizes imageSizes = true ->
  (ii < length imageSizes)%nat ->
  0 <= at_ windowSizes ii <= at_ imageSizes ii /\ at_ imageSizes ii < 2 ^ 64.
Proof.
  unfold window_fits. rewrite andb_true_iff, forallb_forall.
  intros [Hlen H] Hi. apply Nat.eqb_eq in Hlen.
  specialize (H (at_ windowSizes ii, at_ imageSizes ii)).
  simpl in H. rewrite !andb_true_iff in H.
  assert (Hin : In (at_ windowSizes ii, at_ imageSizes ii) (zip windowSizes imageSizes)).
  { apply list_elem_of_In. apply list_elem_of_lookup. exists ii.
    apply lookup_zip_Some.
    destruct (nth_lookup_or_length windowSizes ii 0) as [Ha | Ha]; [| lia].
    destruct (nth_lookup_or_length imageSizes ii 0) as [Hb | Hb]; [| lia].
    split; assumption. }
  specialize (H Hin). lia.
Qed.

Lemma parity_cases (x : Z) :
  (Z.even x = true /\ Z.odd x = false /\ exists a, x = 2 * a) \/
  (Z.even x = false /\ Z.odd x = true /\ exists a, x = 2 * a + 1).
Proof.
  destruct (Z.even x) eqn:E.
  - left. rewrite <- Z.negb_even, E. split; [reflexivity | split; [reflexivity |]].
    apply Z.even_spec in E. destruct E as [a Ha]. exists a. exact Ha.
  - right. rewrite <- Z.negb_even, E. split; [reflexivity | split; [reflexivity |]].
    assert (O : Z.odd x = true) by (rewrite <- Z.negb_even, E; reflexivity).
    apply Z.odd_spec in O. destruct O as [a Ha]. exists a. exact Ha.
Qed.

(** CENTER keeps the pixel at index [I / 2] at index [W / 2] of the window. *)
Lemma center_keeps_right_of_centre (I W : Z) :
  0 <= W <= I ->
  I / 2 - ((I - W) / 2 + (if Z.even I && Z.odd W then 1 else 0)) = W / 2.
Proof.
  intros H.
  destruct (parity_cases I) as [(-> & _ & a & Ha) | (-> & _ & a & Ha)];
  destruct (parity_cases W) as [(_ & -> & b & Hb) | (_ & -> & b & Hb)];
  subst I W; simpl; Z.div_mod_to_equations; lia.
Qed.

(** MIRROR_CENTER keeps the pixel at index [(I - 1) / 2] at index
    [(W - 1) / 2] of the window. *)
Lemma mirror_center_keeps_left_of_centre (I W : Z) :
  0 <= W <= I ->
  (I - 1) / 2 - ((I - W) / 2 + (if Z.odd I && Z.even W then 1 else 0)) = (W - 1) / 2.
Proof.
  intros H.
  destruct (parity_cases I) as [(_ & -> & a & Ha) | (_ & -> & a & Ha)];
  destruct (parity_cases W) as [(-> & _ & b & Hb) | (-> & _ & b & Hb)];
  subst I W; simpl; Z.div_mod_to_equations; lia.
Qed.

Lemma Crop_run (array_gt : list Z -> list Z -> bool) (PointerAt : Image -> list Z -> Res Z)
    (img : Image) (sizes : list Z) (loc : CropLocation) :
  IsForged img = true ->
  length sizes = length (sizes_ img) ->
  array_gt sizes (sizes_ img) = false ->
  Crop array_gt PointerAt sizes loc img =
  match PointerAt img (GetWindowOrigin (sizes_ img) sizes loc) with
  | Ok p => (Ok tt, set_sizes sizes (set_origin p img))
  | Throw e => (Throw e, img)
  end.
Proof.
  intros Hf Hlen Hgt.
  unfold Crop, bind, get, DIP_THROW_IF, PointerOf, modify, ret, throw.
  rewrite Hf, Hlen, Nat.eqb_refl, Hgt. simpl.
  destruct (PointerAt img _); reflexivity.
Qed.

(** C1.  When the window fits in the image, [Crop] moves the origin to the
    pixel whose coordinates are the window origin of the placement policy and
    takes the window sizes.  Per dimension, with image size [I] and window
    size [W], the window origin is [(I - W) / 2] plus one exactly when [I] is
    even and [W] odd under CENTER, and [(I - W) / 2] plus one exactly when
    [I] is odd and [W] even under MIRROR_CENTER (0 for TOP_LEFT, [I - W] for
    BOTTOM_RIGHT).  Hence under CENTER the pixel at index [I / 2] lands at
    index [W / 2]: a pixel at the exact centre of an odd-sized image stays at
    the exact centre of an odd window and at the right one of the two middle
    pixels of an even window; under MIRROR_CENTER the pixel at index
    [(I - 1) / 2] lands at index [(W - 1) / 2], which for the exact centre
    and an even window is the left one of the two middle pixels. *)
Theorem Crop_placement (array_gt : list Z -> list Z -> bool)
    (PointerAt : Image -> list Z -> Res Z)
    (img : Image) (sizes : list Z) (loc : CropLocation) :
  IsForged img = true ->
  window_fits sizes (sizes_ img) = true ->
  array_gt sizes (sizes_ img) = false ->
  let origin := GetWindowOrigin (sizes_ img) sizes loc in
  Crop array_gt PointerAt sizes loc img =
    match PointerAt img origin with
    | Ok p => (Ok tt, set_sizes sizes (set_origin p img))
    | Throw e => (Throw e, img)
    end
  /\ length origin = length sizes
  /\ forall ii : nat, (ii < length (sizes_ img))%nat ->
       let I := at_ (sizes_ img) ii in
       let W := at_ sizes ii in
       let o := at_ origin ii in
       match loc with
       | CENTER =>
           o = (I - W) / 2 + (if Z.even I && Z.odd W then 1 else 0)
           /\ I / 2 - o = W / 2
           /\ (Z.odd I = true -> Z.odd W = true -> (I - 1) / 2 - o = (W - 1) / 2)
           /\ (Z.odd I = true -> Z.even W = true -> (I - 1) / 2 - o = W / 2)
       | MIRROR_CENTER =>
           o = (I - W) / 2 + (if Z.odd I && Z.even W then 1 else 0)
           /\ (I - 1) / 2 - o = (W - 1) / 2
           /\ (Z.odd I = true -> Z.even W = true -> (I - 1) / 2 - o = W / 2 - 1)
       | TOP_LEFT => o = 0
       | BOTTOM_RIGHT => o = I - W
       end.
Proof.
  intros Hf Hfit Hgt origin.
  assert (Hlen : length sizes = length (sizes_ img)).
  { unfold window_fits in Hfit. apply andb_true_iff in Hfit.
    apply Nat.eqb_eq. tauto. }
  split; [apply Crop_run; assumption |].
  split; [unfold origin; rewrite length_GetWindowOrigin; [symmetry |]; exact Hlen |].
  intros ii Hii I W o.
  destruct (window_fits_at _ _ ii Hfit Hii) as [HW HI].
  assert (Ho : o = match loc with
                   | CENTER => (I - W) / 2 + (if Z.even I && Z.odd W then 1 else 0)
                   | MIRROR_CENTER => (I - W) / 2 + (if Z.odd I && Z.even W then 1 else 0)
                   | TOP_LEFT => 0
                   | BOTTOM_RIGHT => I - W
                   end).
  { unfold o, origin. rewrite GetWindowOrigin_at by assumption. reflexivity. }
  fold I W in HW, HI. clearbody o I W.
  destruct loc; try exact Ho.
  - split; [exact Ho |]. subst o.
    split; [exact (center_keeps_right_of_centre I W HW) |]. split.
    + intros HoI HoW.
      destruct (parity_cases I) as [(_ & E & _) | (EI & _ & a & Ha)]; [congruence |].
      destruct (parity_cases W) as [(_ & E & _) | (_ & _ & b & Hb)]; [congruence |].
      rewrite EI. subst I W. simpl. Z.div_mod_to_equations. lia.
    + intros HoI HeW.
      destruct (parity_cases I) as [(_ & E & _) | (EI & _ & a & Ha)]; [congruence |].
      destruct (parity_cases W) as [(_ & _ & b & Hb) | (E & _ & _)]; [| congruence].
      rewrite EI. subst I W. simpl. Z.div_mod_to_equations. lia.
  - split; [exact Ho |]. subst o.
    split; [exact (mirror_center_keeps_left_of_centre I W HW) |].
    intros HoI HeW.
    destruct (parity_cases I) as [(_ & E & _) | (_ & _ & a & Ha)]; [congruence |].
    destruct (parity_cases W) as [(_ & _ & b & Hb) | (E & _ & _)]; [| congruence].
    rewrite HoI, HeW. subst I W. simpl. Z.div_mod_to_equations. lia.
Qed.

(** The Crop doctest: cropping the 7x8x9x10 image to 6x6x7x7 puts the window
    origin at (0,1,1,2) under CENTER, so that the pixel (3,4,4,5) is found at
    (3,3,3,3), and at (1,1,1,1) under MIRROR_CENTER, so that the pixel
    (3,3,4,4) is found at (2,2,3,3). *)
Example GetWindowOrigin_doctest :
  GetWindowOrigin [7; 8; 9; 10] [6; 6; 7; 7] CENTER = [0; 1; 1; 2]
  /\ GetWindowOrigin [7; 8; 9; 10] [6; 6; 7; 7] MIRROR_CENTER = [1; 1; 1; 1].
Proof. split; reflexivity. Qed.

Lemma Crop_placement_witness :
  Crop no_gt linear_pointer [6; 6; 7; 7] CENTER img_crop_test
  = (Ok tt, set_sizes [6; 6; 7; 7] (set_origin (4096 + 4 * (7 + 56 + 2 * 504)) img_crop_test)).
Proof.
  assert (Hfit : window_fits [6; 6; 7; 7] (sizes_ img_crop_test) = true)
    by (vm_compute; reflexivity).
  destruct (Crop_placement no_gt linear_pointer img_crop_test [6; 6; 7; 7] CENTER
              eq_refl Hfit eq_refl) as [H _].
  rewrite H. vm_compute. reflexivity.
Defined.

(** ** Running monadic code *)

Section MonadInversion.
Context {St A B : Type}.

Lemma bind_Throw_inv (c : M St A) (k : A -> M St B) (s s' : St) (e : Error) :
bind c k s = (Throw e, s') ->
c s = (Throw e, s') \/ exists a s1, c s = (Ok a, s1) /\ k a s1 = (Throw e, s').
Proof.
unfold bind. destruct (c s) as [[a | e0] s1]; intros H.
- right. exists a, s1. split; [reflexivity | exact H].
- left. inversion H. reflexivity.
Qed.

Lemma bind_Ok_inv (c : M St A) (k : A -> M St B) (s s' : St) (b : B) :
bind c k s = (Ok b, s') ->
exists a s1, c s = (Ok a, s1) /\ k a s1 = (Ok b, s').
Proof.
unfold bind. destruct (c s) as [[a | e0] s1]; intros H.
- exists a, s1. split; [reflexivity | exact H].
- discriminate.
Qed.

Lemma bind_Ok (c : M St A) (k : A -> M St B) (s s1 : St) (a : A) :
c s = (Ok a, s1) -> bind c k s = k a s1.
Proof. unfold bind. intros ->. reflexivity. Qed.

Lemma bind_Throw (c : M St A) (k : A -> M St B) (s s1 : St) (e : Error) :
c s = (Throw e, s1) -> bind c k s = (Throw e, s1).
Proof. unfold bind. intros ->. reflexivity. Qed.
End MonadInversion.

Lemma DIP_THROW_IF_Throw_inv {St : Type} (t : bool) (e e' : Error) (s s' : St) :
  DIP_THROW_IF t e s = (Throw e', s') -> t = true /\ e' = e /\ s' = s.
Proof.
  unfold DIP_THROW_IF, throw, ret. destruct t; intros H; inversion H; auto.
Qed.

Lemma DIP_THROW_IF_Ok_inv {St : Type} (t : bool) (e : Error) (u : unit) (s s' : St) :
  DIP_THROW_IF t e s = (Ok u, s') -> t = false /\ s' = s.
Proof.
  unfold DIP_THROW_IF, throw, ret. destruct t; intros H; inversion H; auto.
Qed.

(** A loop whose bodies only modify the state never throws. *)
Lemma for_modify_total {St : Type} (c : nat -> bool) (f : nat -> St -> St) (n lo : nat) (s : St) :
  exists s', for_ n lo (fun ii => if c ii then modify (f ii) else ret tt) s = (Ok tt, s').
Proof.
  revert lo s. induction n as [| n IH]; intros lo s; simpl.
  - exists s. reflexivity.
  - destruct (c lo).
    + rewrite (bind_Ok _ _ s (f lo s) tt) by reflexivity. apply IH.
    + rewrite (bind_Ok _ _ s s tt) by reflexivity. apply IH.
Qed.

(** A loop whose bodies only test the state leaves it alone, and throws
    exactly when one of the tests fires. *)
Lemma for_check {St : Type} (c : nat -> bool) (t : St -> nat -> bool) (e : Error)
    (n lo : nat) (s : St) :
  let body := fun ii => if c ii then (i <- get ;; DIP_THROW_IF (t i ii) e) else ret tt in
  (for_ n lo body s = (Ok tt, s)
   /\ forall ii, (lo <= ii < lo + n)%nat -> c ii = true -> t s ii = false)
  \/ (for_ n lo body s = (Throw e, s)
      /\ exists ii, (lo <= ii < lo + n)%nat /\ c ii = true /\ t s ii = true).
Proof.
  cbv zeta. revert lo. induction n as [| n IH]; intros lo; simpl.
  - left. split; [reflexivity | intros ii Hii; lia].
  - destruct (c lo) eqn:Ec; [destruct (t s lo) eqn:Et |].
    + right. split.
      * apply bind_Throw. rewrite (bind_Ok _ _ s s s) by reflexivity.
        unfold DIP_THROW_IF. rewrite Et. reflexivity.
      * exists lo. repeat split; try lia; assumption.
    + rewrite (bind_Ok _ _ s s tt).
      2:{ rewrite (bind_Ok _ _ s s s) by reflexivity.
          unfold DIP_THROW_IF. rewrite Et. reflexivity. }
      destruct (IH (S lo)) as [[H1 H2] | [H1 (ii & Hii & Hc & Ht)]].
      * left. split; [exact H1 |]. intros ii Hii Hc.
        destruct (Nat.eq_dec ii lo) as [-> | Hne]; [exact Et | apply H2; [lia | exact Hc]].
      * right. split; [exact H1 |]. exists ii. repeat split; try lia; assumption.
    + rewrite (bind_Ok _ _ s s tt) by reflexivity.
      destruct (IH (S lo)) as [[H1 H2] | [H1 (ii & Hii & Hc & Ht)]].
      * left. split; [exact H1 |]. intros ii Hii Hc.
        destruct (Nat.eq_dec ii lo) as [-> | Hne]; [congruence | apply H2; [lia | exact Hc]].
      * right. split; [exact H1 |]. exists ii. repeat split; try lia; assumption.
Qed.

Lemma AddSingleton_total (InsertDimension : nat -> PixelSize -> PixelSize) (img : Image) :
  IsForged img = true ->
  exists img', AddSingleton InsertDimension 0 img = (Ok tt, img').
Proof.
  intros Hf. unfold AddSingleton, bind, get, DIP_THROW_IF, modify, ret, throw.
  rewrite Hf. simpl. eexists. reflexivity.
Qed.

(** ** [Image::ReinterpretCast] *)

(** One step of inversion of a throwing computation. *)
Ltac throw_step H :=
  let a := fresh "a" in let s1 := fresh "s" in let H1 := fresh "Hrun" in
  apply bind_Throw_inv in H; destruct H as [H | (a & s1 & H1 & H)].

(** The checks that open [ReinterpretCast]: on a forged image whose data type
    differs from the requested one, the run is that of the branch on the
    sample sizes followed by the change of the data type. *)
Lemma ReinterpretCast_Throw_body (InsertDimension : nat -> PixelSize -> PixelSize)
    (dataType : DataType) (img img' : Image) (e : Error) :
  IsForged img = true ->
  ReinterpretCast InsertDimension dataType img = (Throw e, img') ->
  DataType_eqb dataType (dataType_ img) = false
  /\ SizeOf (dataType_ img) <> SizeOf dataType
  /\ exists body : M Image unit,
       body img = (Throw e, img')
       /\ body =
          (let inSize := SizeOf (dataType_ img) in
           let outSize := SizeOf dataType in
           let nDims := Dimensionality img in
           let dim := find_unit_stride nDims 0 (sizes_ img) (strides_ img) in
           if outSize <? inSize then
             let ratio := udiv inSize outSize in
             let ratio_s := to_sint ratio in
             dn <- (if (dim =? nDims)%nat then
                      AddSingleton InsertDimension 0 ;;;
                      modify (fun i => set_strides (<[ 0%nat := 1 ]> (strides_ i)) i) ;;;
                      ret (0%nat, S nDims)
                    else ret (dim, nDims)) ;;
             let dim := fst dn in
             let nDims := snd dn in
             modify (fun i => set_sizes
                       (<[ dim := umul (at_ (sizes_ i) dim) ratio ]> (sizes_ i)) i) ;;;
             for_ nDims 0 (fun ii =>
               if negb (ii =? dim)%nat then
                 modify (fun i => set_strides
                           (<[ ii := smul (at_ (strides_ i) ii) ratio_s ]> (strides_ i)) i)
               else ret tt) ;;;
             modify (fun i => set_tensorStride (smul (tensorStride_ i) ratio_s) i)
           else
             DIP_THROW_IF (dim =? nDims)%nat cast_error ;;;
             let ratio := udiv outSize inSize in
             let ratio_s := to_sint ratio in
             i0 <- get ;;
             DIP_THROW_IF (negb (umod (at_ (sizes_ i0) dim) ratio =? 0)) cast_error ;;;
             for_ nDims 0 (fun ii =>
               if negb (ii =? dim)%nat then
                 i <- get ;;
                 DIP_THROW_IF (negb (srem (at_ (strides_ i) ii) ratio_s =? 0)) cast_error
               else ret tt) ;;;
             modify (fun i => set_sizes
                       (<[ dim := udiv (at_ (sizes_ i) dim) ratio ]> (sizes_ i)) i) ;;;
             for_ nDims 0 (fun ii =>
               if negb (ii =? dim)%nat then
                 modify (fun i => set_strides
                           (<[ ii := sdiv (at_ (strides_ i) ii) ratio_s ]> (strides_ i)) i)
               else ret tt) ;;;
             modify (fun i => set_tensorStride (sdiv (tensorStride_ i) ratio_s) i)).
Proof.
  intros Hf H. unfold ReinterpretCast in H.
  throw_step H; [discriminate H |]. unfold get in Hrun; injection Hrun as <- <-.
  throw_step H.
  { apply DIP_THROW_IF_Throw_inv in H. rewrite Hf in H. destruct H; discriminate. }
  apply DIP_THROW_IF_Ok_inv in Hrun. destruct Hrun as [_ ->].
  destruct (DataType_eqb dataType (dataType_ img)); [discriminate H |].
  throw_step H; [| discriminate H].
  destruct (SizeOf (dataType_ img) =? SizeOf dataType) eqn:Eeq; simpl in H;
    [discriminate H |].
  split; [reflexivity |]. split; [apply Z.eqb_neq; exact Eeq |].
  eexists. split; [exact H | reflexivity].
Qed.

(** The narrowing branch, and a cast between types of one size, never
    throw. *)
Lemma ReinterpretCast_narrowing_total (InsertDimension : nat -> PixelSize -> PixelSize)
    (dataType : DataType) (img img' : Image) (e : Error) :
  IsForged img = true ->
  SizeOf dataType <= SizeOf (dataType_ img) ->
  ReinterpretCast InsertDimension dataType img <> (Throw e, img').
Proof.
  intros Hf Hle H.
  destruct (ReinterpretCast_Throw_body _ _ _ _ _ Hf H) as (_ & Hne & body & Hb & ->).
  cbv zeta in Hb.
  replace (SizeOf dataType <? SizeOf (dataType_ img)) with true in Hb
    by (symmetry; apply Z.ltb_lt; lia).
  throw_step Hb.
  - destruct (find_unit_stride (Dimensionality img) 0 (sizes_ img) (strides_ img)
              =? Dimensionality img)%nat; [| discriminate Hb].
    throw_step Hb.
    + destruct (AddSingleton_total InsertDimension img Hf) as [i1 Hi1]. congruence.
    + throw_step Hb; discriminate Hb.
  - throw_step Hb; [discriminate Hb |].
    throw_step Hb; [| discriminate Hb].
    match type of Hb with
    | for_ ?n ?lo (fun ii => if negb (ii =? ?d)%nat then modify (@?f ii) else ret tt) ?s = _ =>
        destruct (for_modify_total (fun ii => negb (ii =? d)%nat) f n lo s) as [s' Hs]
    end.
    congruence.
Qed.

(** The widening branch throws only from its checks, which come first. *)
Lemma ReinterpretCast_widening_checks (InsertDimension : nat -> PixelSize -> PixelSize)
    (dataType : DataType) (img img' : Image) (e : Error) :
  IsForged img = true ->
  SizeOf (dataType_ img) < SizeOf dataType ->
  ReinterpretCast InsertDimension dataType img = (Throw e, img') ->
  img' = img
  /\ e = cast_error
  /\ let nDims := Dimensionality img in
     let dim := find_unit_stride nDims 0 (sizes_ img) (strides_ img) in
     let ratio := SizeOf dataType / SizeOf (dataType_ img) in
     dim = nDims
     \/ (at_ (sizes_ img) dim) mod ratio <> 0
     \/ exists ii, (ii < nDims)%nat /\ ii <> dim
                   /\ Z.rem (at_ (strides_ img) ii) (to_sint ratio) <> 0.
Proof.
  intros Hf Hlt H.
  destruct (ReinterpretCast_Throw_body _ _ _ _ _ Hf H) as (_ & _ & body & Hb & ->).
  clear H. rename Hb into H. cbv zeta in H.
  replace (SizeOf dataType <? SizeOf (dataType_ img)) with false in H
    by (symmetry; apply Z.ltb_ge; lia).
  set (nDims := Dimensionality img) in *.
  set (dim := find_unit_stride nDims 0 (sizes_ img) (strides_ img)) in *.
  throw_step H.
  { apply DIP_THROW_IF_Throw_inv in H. destruct H as (Hd & -> & ->).
    repeat split. left. apply Nat.eqb_eq. exact Hd. }
  apply DIP_THROW_IF_Ok_inv in Hrun. destruct Hrun as [Hd ->].
  throw_step H; [discriminate H |]. unfold get in Hrun; injection Hrun as <- <-.
  throw_step H.
  { apply DIP_THROW_IF_Throw_inv in H. destruct H as (Hs & -> & ->).
    repeat split. right. left.
    apply negb_true_iff, Z.eqb_neq in Hs. exact Hs. }
  apply DIP_THROW_IF_Ok_inv in Hrun. destruct Hrun as [Hs ->].
  throw_step H.
  { pose proof (for_check (fun ii => negb (ii =? dim)%nat)
                  (fun i ii => negb (srem (at_ (strides_ i) ii)
                     (to_sint (udiv (SizeOf dataType) (SizeOf (dataType_ img)))) =? 0))
                  cast_error nDims 0 img) as Hc.
    cbv zeta in Hc. destruct Hc as [[Hc _] | [Hc (ii & Hii & Hne & Hrem)]].
    - rewrite Hc in H. discriminate H.
    - rewrite Hc in H. inversion H; subst.
      repeat split. right. right.
      exists ii. split; [lia |]. split.
      + apply negb_true_iff, Nat.eqb_neq in Hne. exact Hne.
      + apply negb_true_iff, Z.eqb_neq in Hrem. exact Hrem. }
  exfalso.
  throw_step H; [discriminate H |].
  throw_step H; [| discriminate H].
  match type of H with
  | for_ ?n ?lo (fun ii => if negb (ii =? ?d)%nat then modify (@?f ii) else ret tt) ?s = _ =>
      destruct (for_modify_total (fun ii => negb (ii =? d)%nat) f n lo s) as [s' Hs']
  end.
  congruence.
Qed.

(** C5.  A failing [ReinterpretCast] on a forged image changes nothing: the
    image after the throw is the image before it, in every field (sizes,
    strides, tensor stride, data type, origin and the rest).  The failure is
    the one of the widening branch: the new sample is larger and either no
    dimension of size above 1 has stride 1, or the size of the first such
    dimension is not a multiple of the byte-size ratio, or the stride of
    another dimension is not. *)
Theorem ReinterpretCast_failure_leaves_image (InsertDimension : nat -> PixelSize -> PixelSize)
    (dataType : DataType) (img img' : Image) (e : Error) :
  IsForged img = true ->
  ReinterpretCast InsertDimension dataType img = (Throw e, img') ->
  img' = img
  /\ e = cast_error
  /\ SizeOf (dataType_ img) < SizeOf dataType
  /\ let nDims := Dimensionality img in
     let dim := find_unit_stride nDims 0 (sizes_ img) (strides_ img) in
     let ratio := SizeOf dataType / SizeOf (dataType_ img) in
     dim = nDims
     \/ (at_ (sizes_ img) dim) mod ratio <> 0
     \/ exists ii, (ii < nDims)%nat /\ ii <> dim
                   /\ Z.rem (at_ (strides_ img) ii) (to_sint ratio) <> 0.
Proof.
  intros Hf H.
  destruct (Z.lt_ge_cases (SizeOf (dataType_ img)) (SizeOf dataType)) as [Hlt | Hge].
  - destruct (ReinterpretCast_widening_checks InsertDimension dataType img img' e Hf Hlt H)
      as (Himg & He & Hwhy).
    split; [exact Himg |]. split; [exact He |]. split; [exact Hlt |]. exact Hwhy.
  - exfalso.
    exact (ReinterpretCast_narrowing_total InsertDimension dataType img img' e Hf Hge H).
Qed.

(** The ReinterpretCast doctest: casting the 7x8 32-bit image to a 64-bit
    type fails (7 is odd) and leaves the image as it was; after cropping to
    6x8 the cast still fails, on the stride 7 of the second dimension. *)
Lemma ReinterpretCast_failure_witness :
  ReinterpretCast unit_pixel_size DT_DFLOAT img_cast_test = (Throw cast_error, img_cast_test)
  /\ img_cast_test = img_cast_test
  /\ cast_error = cast_error
  /\ SizeOf (dataType_ img_cast_test) < SizeOf DT_DFLOAT.
Proof.
  assert (Hrun : ReinterpretCast unit_pixel_size DT_DFLOAT img_cast_test
                 = (Throw cast_error, img_cast_test)) by (vm_compute; reflexivity).
  split; [exact Hrun |].
  destruct (ReinterpretCast_failure_leaves_image unit_pixel_size DT_DFLOAT
              img_cast_test img_cast_test cast_error eq_refl Hrun) as (H1 & H2 & H3 & _).
  auto.
Defined.

Example ReinterpretCast_doctest_strides :
  ReinterpretCast unit_pixel_size DT_DFLOAT (set_sizes [6; 8] img_cast_test)
  = (Throw cast_error, set_sizes [6; 8] img_cast_test).
Proof. vm_compute. reflexivity. Qed.

(** The narrowing and widening casts of the same doctest succeed. *)
Example ReinterpretCast_doctest_narrow :
  let i := set_dataType DT_UINT16 (set_tensorStride 2 (set_strides [1; 14] (set_sizes [14; 8] img_cast_test))) in
  ReinterpretCast unit_pixel_size DT_UINT16 img_cast_test = (Ok tt, i)
  /\ ReinterpretCast unit_pixel_size DT_SINT32 i = (Ok tt, img_cast_test).
Proof. split; vm_compute; reflexivity. Qed.

(** ** [Image::SwapBytesInSample] *)

Ltac case_eqb :=
  repeat match goal with
         | |- context [Z.eqb ?x ?y] => destruct (Z.eqb_spec x y)
         | |- context [Z.leb ?x ?y] => destruct (Z.leb_spec x y)
         | |- context [Z.ltb ?x ?y] => destruct (Z.ltb_spec x y)
         end.

Lemma swap_sample_spec (size c : Z) (m : Memory) (a : Z) :
  size = 2 \/ size = 4 \/ size = 8 ->
  swap_sample size c m a = m (rev_addr size c a).
Proof.
  intros [-> | [-> | ->]];
    unfold swap_sample, rev_addr; simpl; unfold swap_bytes, store; simpl;
    case_eqb; simpl; try lia; f_equal; lia.
Qed.

Lemma rev_addr_involutive (size c a : Z) :
  rev_addr size c (rev_addr size c a) = a.
Proof.
  unfold rev_addr.
  destruct (Z.leb_spec c a), (Z.ltb_spec a (c + size)); simpl; case_eqb; simpl; lia.
Qed.


Lemma rev_addr_comm (size c1 c2 a : Z) :
  apart size c1 c2 ->
  rev_addr size c1 (rev_addr size c2 a) = rev_addr size c2 (rev_addr size c1 a).
Proof.
  intros [-> | H]; [reflexivity |].
  unfold rev_addr.
  destruct (Z.leb_spec c1 a), (Z.ltb_spec a (c1 + size)),
           (Z.leb_spec c2 a), (Z.ltb_spec a (c2 + size)); simpl; case_eqb; simpl; lia.
Qed.


Lemma fold_swap_sample_spec (size : Z) (cs : list Z) (m : Memory) (a : Z) :
  size = 2 \/ size = 4 \/ size = 8 ->
  fold_left (fun m c => swap_sample size c m) cs m a = m (rev_addrs size cs a).
Proof.
  intros Hs. revert m. induction cs as [| c cs IH]; intros m; simpl.
  - reflexivity.
  - rewrite IH. apply swap_sample_spec. exact Hs.
Qed.

Lemma rev_addrs_comm (size c : Z) (cs : list Z) (a : Z) :
  Forall (apart size c) cs ->
  rev_addrs size cs (rev_addr size c a) = rev_addr size c (rev_addrs size cs a).
Proof.
  induction 1 as [| c' cs Hc _ IH]; simpl.
  - reflexivity.
  - rewrite IH. symmetry. apply rev_addr_comm. exact Hc.
Qed.

Lemma rev_addrs_involutive (size : Z) (cs : list Z) (a : Z) :
  (forall c1 c2, In c1 cs -> In c2 cs -> apart size c1 c2) ->
  rev_addrs size cs (rev_addrs size cs a) = a.
Proof.
  induction cs as [| c cs IH]; intros H; simpl.
  - reflexivity.
  - rewrite rev_addrs_comm.
    + rewrite rev_addr_involutive. apply IH.
      intros c1 c2 H1 H2. apply H; right; assumption.
    + apply Forall_forall. intros c' Hc'.
      apply H; [left; reflexivity | right]. apply list_elem_of_In. exact Hc'.
Qed.

Lemma Pointer_aligned (img : Image) (offset : Z) :
  SizeOf (dataType_ img) = 2 \/ SizeOf (dataType_ img) = 4 \/ SizeOf (dataType_ img) = 8 ->
  Pointer img offset mod SizeOf (dataType_ img) = origin_ img mod SizeOf (dataType_ img).
Proof.
  intros Hs. unfold Pointer, ptr_add, smul, to_sint.
  set (sz := SizeOf (dataType_ img)) in *.
  assert (Hdiv : (sz | 2 ^ 64)).
  { destruct Hs as [-> | [-> | ->]]; [exists (2 ^ 63) | exists (2 ^ 62) | exists (2 ^ 61)]; reflexivity. }
  assert (Hpos : 0 < sz) by lia.
  assert (Hw : forall x, wrap_uint x mod sz = x mod sz).
  { intros x. unfold wrap_uint. apply Z.mod_mod_divide. exact Hdiv. }
  assert (Hsi : forall x, wrap_sint x mod sz = x mod sz).
  { intros x. rewrite <- (Hw (wrap_sint x)), <- (Hw x). f_equal.
    unfold wrap_uint. apply wrap_sint_eqm. }
  rewrite Hw. rewrite <- Zplus_mod_idemp_r, Hsi.
  rewrite <- Zmult_mod_idemp_r, Hsi, Z_mod_same_full, Z.mul_0_r.
  rewrite Zmod_0_l, Z.add_0_r. reflexivity.
Qed.

Lemma aligned_apart (size c1 c2 : Z) :
  size = 2 \/ size = 4 \/ size = 8 ->
  c1 mod size = c2 mod size -> apart size c1 c2.
Proof.
  intros [-> | [-> | ->]] H; unfold apart; Z.div_mod_to_equations; lia.
Qed.

Lemma fold_swap_sample_map {A : Type} (size : Z) (f : A -> Z) (l : list A) (m : Memory) :
  fold_left (fun m x => swap_sample size (f x) m) l m
  = fold_left (fun m c => swap_sample size c m) (map f l) m.
Proof.
  revert m. induction l as [| x l IH]; intros m; simpl; [reflexivity | apply IH].
Qed.

Section SwapBytesFacts.
Variable InsertDimension : nat -> PixelSize -> PixelSize.
Variable ImageIterator : Image -> Z * list Z.

Lemma InternSwapBytesInSample_spec (size : Z) (img : Image) (m : Memory) (a : Z) :
size = 2 \/ size = 4 \/ size = 8 ->
InternSwapBytesInSample ImageIterator size img m a
= m (rev_addrs size (visited_pointers ImageIterator img) a).
Proof.
intros Hs. unfold InternSwapBytesInSample, visited_pointers.
rewrite fold_swap_sample_map, fold_swap_sample_spec by exact Hs.
simpl. apply swap_sample_spec. exact Hs.
Qed.

Lemma visited_pointers_apart (img : Image) (c1 c2 : Z) :
SizeOf (dataType_ img) = 2 \/ SizeOf (dataType_ img) = 4 \/ SizeOf (dataType_ img) = 8 ->
In c1 (visited_pointers ImageIterator img) ->
In c2 (visited_pointers ImageIterator img) ->
apart (SizeOf (dataType_ img)) c1 c2.
Proof.
intros Hs H1 H2. unfold visited_pointers in *.
apply in_map_iff in H1. destruct H1 as (o1 & <- & _).
apply in_map_iff in H2. destruct H2 as (o2 & <- & _).
apply aligned_apart; [exact Hs |].
rewrite !Pointer_aligned by exact Hs. reflexivity.
Qed.

(** Reversing the bytes of every visited sample twice restores memory. *)
Lemma InternSwapBytesInSample_twice (img : Image) (m : Memory) (a : Z) :
SizeOf (dataType_ img) = 2 \/ SizeOf (dataType_ img) = 4 \/ SizeOf (dataType_ img) = 8 ->
let size := SizeOf (dataType_ img) in
InternSwapBytesInSample ImageIterator size img
(InternSwapBytesInSample ImageIterator size img m) a = m a.
Proof.
intros Hs size. unfold size.
rewrite !InternSwapBytesInSample_spec by exact Hs.
rewrite rev_addrs_involutive; [reflexivity |].
intros c1 c2. apply visited_pointers_apart. exact Hs.
Qed.
End SwapBytesFacts.

Lemma for_modify {St : Type} (f : nat -> St -> St) (n lo : nat) (s : St) :
  for_ n lo (fun ii => modify (f ii)) s = (Ok tt, loop n lo f s).
Proof.
  revert lo s. induction n as [| n IH]; intros lo s; simpl.
  - reflexivity.
  - rewrite (bind_Ok _ _ s (f lo s) tt) by reflexivity. apply IH.
Qed.

Lemma loop_set_strides (upd : nat -> list Z -> list Z) (n lo : nat) (i0 : Image) :
  loop n lo (fun ii i => set_strides (upd ii (strides_ i)) i) i0
  = set_strides (loop n lo upd (strides_ i0)) i0.
Proof.
  revert lo i0. induction n as [| n IH]; intros lo i0; simpl.
  - destruct i0; reflexivity.
  - rewrite IH. reflexivity.
Qed.

Lemma at_default (l : list Z) (i : nat) : (length l <= i)%nat -> at_ l i = 0.
Proof. intros H. unfold at_. apply nth_overflow. exact H. Qed.

Lemma at_loop_update (g : Z -> Z) (n lo : nat) (l : list Z) (i : nat) :
  at_ (loop n lo (fun ii l => <[ ii := g (at_ l ii) ]> l) l) i =
  if ((lo <=? i) && (i <? lo + n) && (i <? length l))%nat then g (at_ l i) else at_ l i.
Proof.
  revert lo l. induction n as [| n IH]; intros lo l; simpl.
  - replace ((lo <=? i) && (i <? lo + 0))%nat with false; [reflexivity |].
    symmetry. apply andb_false_iff.
    destruct (Nat.leb_spec lo i); [right; apply Nat.ltb_ge; lia | left; reflexivity].
  - rewrite IH, length_insert.
    destruct (Nat.lt_trichotomy i lo) as [Hlt | [Heq | Hgt]].
    + replace (S lo <=? i)%nat with false by (symmetry; apply Nat.leb_gt; lia).
      replace (lo <=? i)%nat with false by (symmetry; apply Nat.leb_gt; lia).
      simpl. apply at_insert_ne. lia.
    + subst i.
      replace (S lo <=? lo)%nat with false by (symmetry; apply Nat.leb_gt; lia).
      replace (lo <=? lo)%nat with true by (symmetry; apply Nat.leb_le; lia).
      replace (lo <? lo + S n)%nat with true by (symmetry; apply Nat.ltb_lt; lia).
      simpl. destruct (Nat.ltb_spec lo (length l)).
      * apply at_insert_eq. lia.
      * rewrite list_insert_ge by lia. reflexivity.
    + replace (S lo <=? i)%nat with true by (symmetry; apply Nat.leb_le; lia).
      replace (lo <=? i)%nat with true by (symmetry; apply Nat.leb_le; lia).
      replace (i <? S lo + n)%nat with (i <? lo + S n)%nat by (f_equal; lia).
      simpl. rewrite !at_insert_ne by lia. reflexivity.
Qed.

Lemma wrap_sint_even (x : Z) : Z.rem (wrap_sint (x * 2)) 2 = 0.
Proof.
  apply Z.rem_divide; [lia |]. apply Z.mod_divide; [lia |].
  assert (H : wrap_sint (x * 2) mod 2 = (x * 2) mod 2).
  { rewrite <- (Z.mod_mod_divide (wrap_sint (x * 2)) (2 ^ 64) 2) by (exists (2 ^ 63); reflexivity).
    rewrite <- (Z.mod_mod_divide (x * 2) (2 ^ 64) 2) by (exists (2 ^ 63); reflexivity).
    f_equal. apply wrap_sint_eqm. }
  rewrite H. apply Z_mod_mult.
Qed.

Lemma DataType_eqb_eq (a b : DataType) : DataType_eqb a b = true <-> a = b.
Proof. split; [destruct a, b; simpl; congruence | intros ->; destruct b; reflexivity]. Qed.

Section SwapBytesRun.
Variable InsertDimension : nat -> PixelSize -> PixelSize.

Lemma ReinterpretCast_Ok_dataType (dt : DataType) (img img' : Image) (u : unit) :
ReinterpretCast InsertDimension dt img = (Ok u, img') -> dataType_ img' = dt.
Proof.
intros H. unfold ReinterpretCast in H.
apply bind_Ok_inv in H. destruct H as (a & s1 & Hrun & H).
unfold get in Hrun. injection Hrun as <- <-.
apply bind_Ok_inv in H. destruct H as (a & s1 & Hrun & H).
apply DIP_THROW_IF_Ok_inv in Hrun. destruct Hrun as [_ ->].
destruct (DataType_eqb dt (dataType_ img)) eqn:E.
- unfold ret in H. injection H as _ <-. symmetry. apply DataType_eqb_eq. exact E.
- apply bind_Ok_inv in H. destruct H as (a' & s1 & _ & H).
unfold modify in H. injection H as H. subst img'. reflexivity.
Qed.

Lemma TensorToSpatial_run (img : Image) :
IsForged img = true ->
exists img', TensorToSpatial InsertDimension (Dimensionality img) img = (Ok tt, img')
       /\ IsForged img' = true /\ dataType_ img' = dataType_ img.
Proof.
intros Hf. unfold TensorToSpatial, bind, get, DIP_THROW_IF, modify, ret, throw,
ResetColorSpace, Dimensionality.
rewrite Hf, Nat.ltb_irrefl. simpl. eexists. split; [reflexivity |].
split; [exact Hf | reflexivity].
Qed.

Lemma SplitComplex_run (img : Image) :
IsForged img = true ->
dataType_ img = DT_SCOMPLEX ->
exists img' strides',
SplitComplex InsertDimension 0 img = (Ok tt, img')
/\ IsForged img' = true /\ dataType_ img' = DT_SFLOAT
/\ sizes_ img' = 2 :: sizes_ img
/\ strides_ img' = 1 :: strides'
/\ forall j, (j < length (sizes_ img))%nat -> Z.rem (at_ strides' j) 2 = 0.
Proof.
intros Hf Hdt. unfold SplitComplex.
rewrite (bind_Ok _ _ img img img) by reflexivity.
rewrite (bind_Ok _ _ img img tt) by (unfold DIP_THROW_IF; rewrite Hf; reflexivity).
rewrite (bind_Ok _ _ img img tt) by (unfold DIP_THROW_IF; rewrite Hdt; reflexivity).
rewrite (bind_Ok _ _ img img tt) by reflexivity.
erewrite bind_Ok by reflexivity.
erewrite bind_Ok by apply for_modify.
rewrite (loop_set_strides (fun ii l => <[ ii := smul (at_ l ii) 2 ]> l)).
unfold bind, modify. simpl.
eexists. exists (loop (length (sizes_ img)) 0 (fun ii l => <[ ii := smul (at_ l ii) 2 ]> l) (strides_ img)).
split; [reflexivity |].
split; [exact Hf |]. split; [rewrite Hdt; reflexivity |].
split; [reflexivity |]. split; [reflexivity |].
intros j Hj.
rewrite (at_loop_update (fun s => smul s 2)).
destruct ((0 <=? j) && (j <? 0 + length (sizes_ img)) && (j <? length (strides_ img)))%nat eqn:E.
- apply wrap_sint_even.
- rewrite !andb_false_iff in E. destruct E as [[E | E] | E].
+ apply Nat.leb_gt in E. lia.
+ apply Nat.ltb_ge in E. lia.
+ apply Nat.ltb_ge in E. rewrite at_default by exact E. reflexivity.
Qed.
End SwapBytesRun.

Section SwapBytesRun2.
Variable InsertDimension : nat -> PixelSize -> PixelSize.
Variable ImageIterator : Image -> Z * list Z.

Lemma ReinterpretCast_same_size (dt : DataType) (img : Image) :
IsForged img = true ->
SizeOf (dataType_ img) = SizeOf dt ->
exists img', ReinterpretCast InsertDimension dt img = (Ok tt, img') /\ dataType_ img' = dt.
Proof.
intros Hf Hs.
destruct (ReinterpretCast InsertDimension dt img) as [[[] | e] img'] eqn:E.
- exists img'. split; [reflexivity |]. eapply ReinterpretCast_Ok_dataType. exact E.
- exfalso. apply (ReinterpretCast_narrowing_total InsertDimension dt img img' e Hf); [lia | exact E].
Qed.

Lemma ReinterpretCast_merge_pairs (img : Image) (sizes strides : list Z) :
IsForged img = true ->
dataType_ img = DT_SFLOAT ->
sizes_ img = 2 :: sizes ->
strides_ img = 1 :: strides ->
(forall j, (j < length sizes)%nat -> Z.rem (at_ strides j) 2 = 0) ->
exists img', ReinterpretCast InsertDimension DT_UINT64 img = (Ok tt, img')
       /\ dataType_ img' = DT_UINT64.
Proof.
intros Hf Hdt Hsz Hst Heven.
destruct (ReinterpretCast InsertDimension DT_UINT64 img) as [[[] | e] img'] eqn:E.
- exists img'. split; [reflexivity |]. eapply ReinterpretCast_Ok_dataType. exact E.
- exfalso.
apply ReinterpretCast_widening_checks in E; [| exact Hf | rewrite Hdt; reflexivity].
destruct E as (_ & _ & E). cbv zeta in E.
unfold Dimensionality in E. rewrite Hsz, Hst, Hdt in E. simpl in E.
destruct E as [E | [E | (ii & Hii & Hne & E)]].
+ discriminate E.
+ apply E. reflexivity.
+ destruct ii as [| j]; [congruence |].
apply E. change (at_ (1 :: strides) (S j)) with (at_ strides j).
apply Heven. lia.
Qed.

Lemma on_tmp_Ok (c : M Image unit) (tmp tmp' : Image) (m : Memory) :
c tmp = (Ok tt, tmp') -> on_tmp c tmp m = (Ok tmp', m).
Proof. unfold on_tmp. intros ->. reflexivity. Qed.

(** What [SwapBytesInSample] does on a forged image with samples of 2, 4
or 8 bytes: it reverses the bytes of the samples of a view [tmp] of the
image whose samples have that size. *)
Lemma SwapBytesInSample_run (this : Image) :
IsForged this = true ->
let size := SizeOf (dataType_ this) in
size = 2 \/ size = 4 \/ size = 8 ->
exists tmp, SizeOf (dataType_ tmp) = size
/\ forall m, SwapBytesInSample InsertDimension ImageIterator this m
         = (Ok tt, InternSwapBytesInSample ImageIterator size tmp m).
Proof.
intros Hf size Hs. unfold SwapBytesInSample.
(* the tensor dimension *)
assert (H1 : exists tmp1, IsForged tmp1 = true /\ dataType_ tmp1 = dataType_ this
    /\ forall m, (if negb (IsScalar (QuickCopy this))
                  then on_tmp (TensorToSpatial InsertDimension
                                 (Dimensionality (QuickCopy this))) (QuickCopy this)
                  else ret (QuickCopy this)) m = (Ok tmp1, m)).
{ destruct (IsScalar (QuickCopy this)); simpl.
- exists (QuickCopy this). repeat split; assumption.
- destruct (TensorToSpatial_run InsertDimension (QuickCopy this) Hf)
as (tmp1 & Hrun & Hf1 & Hd1).
exists tmp1. split; [exact Hf1 |]. split; [exact Hd1 |].
intros m. apply on_tmp_Ok. exact Hrun. }
destruct H1 as (tmp1 & Hf1 & Hd1 & Hrun1).
(* the complex samples, and the cast *)
assert (H2 : forall dt, SizeOf dt = size ->
    (size = 8 -> dt = DT_UINT64) ->
    exists tmp, dataType_ tmp = dt /\
      forall m, (tmp2 <- (if IsComplex (dataType_ tmp1)
                          then on_tmp (SplitComplex InsertDimension 0) tmp1
                          else ret tmp1) ;;
                 tmp3 <- on_tmp (ReinterpretCast InsertDimension dt) tmp2 ;;
                 modify (InternSwapBytesInSample ImageIterator size tmp3)) m
                = (Ok tt, InternSwapBytesInSample ImageIterator size tmp m)).
{ intros dt Hdt H8. rewrite Hd1.
destruct (IsComplex (dataType_ this)) eqn:Ec.
- assert (Hsc : dataType_ this = DT_SCOMPLEX).
{ unfold size in Hs. destruct (dataType_ this); simpl in *; try discriminate; try lia.
reflexivity. }
assert (Hsz8 : size = 8) by (unfold size; rewrite Hsc; reflexivity).
rewrite (H8 Hsz8).
destruct (SplitComplex_run InsertDimension tmp1 Hf1 ltac:(congruence))
as (tmp2 & st & Hrun2 & Hf2 & Hd2 & Hsz2 & Hst2 & Hev).
destruct (ReinterpretCast_merge_pairs tmp2 _ _ Hf2 Hd2 Hsz2 Hst2 Hev)
as (tmp3 & Hrun3 & Hd3).
exists tmp3. split; [exact Hd3 |]. intros m.
rewrite (bind_Ok _ _ m m tmp2) by (apply on_tmp_Ok; exact Hrun2).
rewrite (bind_Ok _ _ m m tmp3) by (apply on_tmp_Ok; exact Hrun3).
reflexivity.
- destruct (ReinterpretCast_same_size dt tmp1 Hf1 ltac:(rewrite Hd1; symmetry; exact Hdt))
as (tmp3 & Hrun3 & Hd3).
exists tmp3. split; [exact Hd3 |]. intros m.
rewrite (bind_Ok _ _ m m tmp1) by reflexivity.
rewrite (bind_Ok _ _ m m tmp3) by (apply on_tmp_Ok; exact Hrun3).
reflexivity. }
fold size.
assert (Hstart : forall m : Memory,
     DIP_THROW_IF (negb (IsForged this)) IMAGE_NOT_FORGED m = (Ok tt, m)).
{ intros m. rewrite Hf. reflexivity. }
destruct Hs as [Hs | [Hs | Hs]].
- destruct (H2 DT_UINT16 ltac:(rewrite Hs; reflexivity) ltac:(lia)) as (tmp & Hd & Hrun).
exists tmp. split; [rewrite Hd, Hs; reflexivity |]. intros m.
rewrite (bind_Ok _ _ m m tt) by apply Hstart.
rewrite Hs in *. simpl.
rewrite (bind_Ok _ _ m m tmp1) by apply Hrun1.
rewrite <- Hrun. unfold bind. destruct (IsComplex (dataType_ tmp1)); reflexivity.
- destruct (H2 DT_UINT32 ltac:(rewrite Hs; reflexivity) ltac:(lia)) as (tmp & Hd & Hrun).
exists tmp. split; [rewrite Hd, Hs; reflexivity |]. intros m.
rewrite (bind_Ok _ _ m m tt) by apply Hstart.
rewrite Hs in *. simpl.
rewrite (bind_Ok _ _ m m tmp1) by apply Hrun1.
rewrite <- Hrun. unfold bind. destruct (IsComplex (dataType_ tmp1)); reflexivity.
- destruct (H2 DT_UINT64 ltac:(rewrite Hs; reflexivity) ltac:(reflexivity)) as (tmp & Hd & Hrun).
exists tmp. split; [rewrite Hd, Hs; reflexivity |]. intros m.
rewrite (bind_Ok _ _ m m tt) by apply Hstart.
rewrite Hs in *. simpl.
rewrite (bind_Ok _ _ m m tmp1) by apply Hrun1.
rewrite <- Hrun. unfold bind. destruct (IsComplex (dataType_ tmp1)); reflexivity.
Qed.
End SwapBytesRun2.

(** C10.  On a forged image whose samples are 1, 2, 4 or 8 bytes wide,
    [SwapBytesInSample] succeeds, and a second application on the result
    gives back the memory the first one started from, byte for byte; when the
    samples are 1 byte wide a single application already leaves memory as it
    is. *)
Theorem SwapBytesInSample_twice (InsertDimension : nat -> PixelSize -> PixelSize)
    (ImageIterator : Image -> Z * list Z) (this : Image) (m : Memory) :
  IsForged this = true ->
  SizeOf (dataType_ this) = 1 \/ SizeOf (dataType_ this) = 2
  \/ SizeOf (dataType_ this) = 4 \/ SizeOf (dataType_ this) = 8 ->
  exists m1 m2 : Memory,
    SwapBytesInSample InsertDimension ImageIterator this m = (Ok tt, m1)
    /\ SwapBytesInSample InsertDimension ImageIterator this m1 = (Ok tt, m2)
    /\ (forall a : Z, m2 a = m a)
    /\ (SizeOf (dataType_ this) = 1 -> m1 = m).
Proof.
  intros Hf [Hs | Hs].
  - exists m, m. unfold SwapBytesInSample, bind, DIP_THROW_IF, ret.
    rewrite Hf, Hs. simpl. repeat split; reflexivity.
  - destruct (SwapBytesInSample_run InsertDimension ImageIterator this Hf Hs)
      as (tmp & Hsz & Hrun).
    exists (InternSwapBytesInSample ImageIterator (SizeOf (dataType_ this)) tmp m).
    exists (InternSwapBytesInSample ImageIterator (SizeOf (dataType_ this)) tmp
              (InternSwapBytesInSample ImageIterator (SizeOf (dataType_ this)) tmp m)).
    split; [apply Hrun |]. split; [apply Hrun |]. split.
    + intros a. rewrite <- Hsz.
      apply (InternSwapBytesInSample_twice ImageIterator tmp m a). rewrite Hsz. exact Hs.
    + intros H1. lia.
Qed.

Lemma SwapBytesInSample_twice_witness :
  exists m1 m2 : Memory,
    SwapBytesInSample unit_pixel_size line_iterator img_swap_test mem_swap_test = (Ok tt, m1)
    /\ SwapBytesInSample unit_pixel_size line_iterator img_swap_test m1 = (Ok tt, m2)
    /\ (forall a : Z, m2 a = mem_swap_test a)
    /\ (SizeOf (dataType_ img_swap_test) = 1 -> m1 = mem_swap_test).
Proof.
  apply (SwapBytesInSample_twice unit_pixel_size line_iterator img_swap_test mem_swap_test).
  - reflexivity.
  - right. left. reflexivity.
Defined.

(** The SwapBytesInSample doctest: a 16-bit sample holding 5 holds 5 * 256
    after one application and 5 again after two. *)
Example SwapBytesInSample_doctest :
  let read16 (m : Memory) (a : Z) := m a + 256 * m (a + 1) in
  match SwapBytesInSample unit_pixel_size line_iterator img_swap_test mem_swap_test with
  | (Ok _, m1) =>
      read16 mem_swap_test 4100 = 5 /\ read16 m1 4100 = 5 * 256
      /\ match SwapBytesInSample unit_pixel_size line_iterator img_swap_test m1 with
         | (Ok _, m2) => read16 m2 4100 = 5
         | _ => False
         end
  | _ => False
  end.
Proof. vm_compute. repeat split; reflexivity. Qed.

(** ** [Image::Convert] *)

(** C8.  Converting a forged binary image to [uint8] or [sint8] succeeds and
    changes the data-type tag only: the image otherwise keeps every field
    (sizes, strides, tensor, tensor stride, origin, data segment), the bytes
    of memory are the same and no sample has been read or written.  Whether
    the data segment is shared plays no role. *)
Theorem Convert_bin_to_8bit (IsShared : World -> bool)
    (CopyBuffer_in_place convert_by_copy : DataType -> M World unit)
    (w : World) (dt : DataType) :
  IsForged (w_image w) = true ->
  dataType_ (w_image w) = DT_BIN ->
  dt = DT_UINT8 \/ dt = DT_SINT8 ->
  exists w',
    Convert IsShared CopyBuffer_in_place convert_by_copy dt w = (Ok tt, w')
    /\ w_image w' = set_dataType dt (w_image w)
    /\ w_bytes w' = w_bytes w
    /\ w_accesses w' = w_accesses w
    /\ dataType_ (w_image w') = dt
    /\ sizes_ (w_image w') = sizes_ (w_image w)
    /\ strides_ (w_image w') = strides_ (w_image w)
    /\ tensor_ (w_image w') = tensor_ (w_image w)
    /\ tensorStride_ (w_image w') = tensorStride_ (w_image w)
    /\ origin_ (w_image w') = origin_ (w_image w)
    /\ dataBlock_ (w_image w') = dataBlock_ (w_image w).
Proof.
  intros Hf Hdt Hcase.
  exists (on_image (set_dataType dt) w).
  split.
  - unfold Convert, bind, get, DIP_THROW_IF, modify, ret.
    rewrite Hf, Hdt. destruct Hcase as [-> | ->]; reflexivity.
  - repeat split; reflexivity.
Qed.

Lemma Convert_bin_to_8bit_witness :
  exists w',
    Convert (fun _ => true) failing_pass failing_pass DT_UINT8 world_bin_test = (Ok tt, w')
    /\ w_image w' = set_dataType DT_UINT8 (w_image world_bin_test)
    /\ w_bytes w' = w_bytes world_bin_test
    /\ w_accesses w' = w_accesses world_bin_test.
Proof.
  destruct (Convert_bin_to_8bit (fun _ => true) failing_pass failing_pass
              world_bin_test DT_UINT8 eq_refl eq_refl (or_introl eq_refl))
    as (w' & H1 & H2 & H3 & H4 & _).
  exists w'. auto.
Defined.

(** ** [ChainCode::ConvertTo8Connected] and [ChainCode::Polygon] *)

Lemma drop_cons_inv {A : Type} (l : list A) (i : nat) (x : A) (r : list A) (d : A) :
  drop i l = x :: r -> nth i l d = x /\ drop (S i) l = r /\ (i < length l)%nat.
Proof.
  intros H.
  assert (Hl : l !! i = Some x).
  { replace i with (i + 0)%nat by lia. rewrite <- lookup_drop, H. reflexivity. }
  split; [apply nth_lookup_Some; exact Hl |].
  split.
  - rewrite (drop_S l x i Hl) in H. injection H as H. exact H.
  - apply lookup_lt_Some in Hl. exact Hl.
Qed.


Section ConvertFacts.
Variable deltas4 : Z -> VertexInteger.
Variable default_is8connected : bool.

Lemma convert_loop_scan (fuel : nat) (cs : list Code) (ii : nat) (out : list Code) :
(ii <= length cs)%nat -> (length cs - ii <= fuel)%nat ->
convert_loop fuel cs ii out
= ((length cs - length (snd (scan_pairs (drop ii cs))))%nat,
 out ++ fst (scan_pairs (drop ii cs))).
Proof.
revert ii out. induction fuel as [| fuel IH]; intros ii out Hii Hfuel.
- assert (ii = length cs) by lia. subst ii.
rewrite drop_all. simpl. rewrite app_nil_r. f_equal. lia.
- simpl. destruct (drop ii cs) as [| c [| c' r]] eqn:Ed.
+ assert (length (drop ii cs) = 0%nat) by (rewrite Ed; reflexivity).
rewrite length_drop in H.
replace (ii <? length cs - 1)%nat with false by (symmetry; apply Nat.ltb_ge; lia).
simpl. rewrite app_nil_r. f_equal. lia.
+ assert (length (drop ii cs) = 1%nat) by (rewrite Ed; reflexivity).
rewrite length_drop in H.
replace (ii <? length cs - 1)%nat with false by (symmetry; apply Nat.ltb_ge; lia).
simpl. rewrite app_nil_r. f_equal. lia.
+ assert (length (drop ii cs) = S (S (length r))) by (rewrite Ed; reflexivity).
rewrite length_drop in H.
replace (ii <? length cs - 1)%nat with true by (symmetry; apply Nat.ltb_lt; lia).
destruct (drop_cons_inv cs ii c (c' :: r) (mkCode 0 false) Ed) as (Hc & Hd & _).
destruct (drop_cons_inv cs (S ii) c' r (mkCode 0 false) Hd) as (Hc' & Hd' & _).
unfold code_at. replace (ii + 1)%nat with (S ii) by lia. rewrite Hc, Hc'.
cbn [scan_pairs].
destruct (diagonal_pair c c').
* rewrite IH by lia. rewrite Hd'. simpl. rewrite <- app_assoc. reflexivity.
* rewrite IH by lia. rewrite Hd. simpl. rewrite <- app_assoc. reflexivity.
Qed.
End ConvertFacts.


Lemma scan_pairs_merge (l : list Code) :
  code_numbers (fst (scan_pairs l) ++ map double_code (snd (scan_pairs l)))
  = merge_pairs (code_numbers l).
Proof.
  assert (H : forall n l, (length l <= n)%nat ->
           code_numbers (fst (scan_pairs l) ++ map double_code (snd (scan_pairs l)))
           = merge_pairs (code_numbers l)).
  { clear l. induction n as [| n IH]; intros l Hl.
    - destruct l; simpl in *; [reflexivity | lia].
    - destruct l as [| c [| c' r]]; simpl in *; try reflexivity.
      unfold diagonal_pair. destruct ((code_number c + 1) mod 4 =? code_number c'); simpl.
      + f_equal. apply IH. lia.
      + f_equal. apply (IH (c' :: r)). simpl. lia. }
  apply (H (length l)). lia.
Qed.

Lemma scan_pairs_cons2 (c c' : Code) (r : list Code) :
  scan_pairs (c :: c' :: r)
  = if diagonal_pair c c'
    then (mkCode (code_number c * 2 + 1) false :: fst (scan_pairs r), snd (scan_pairs r))
    else (mkCode (code_number c * 2) (IsBorder c) :: fst (scan_pairs (c' :: r)),
          snd (scan_pairs (c' :: r))).
Proof. reflexivity. Qed.

Lemma back_cons2 (c c' : Code) (r : list Code) : back (c :: c' :: r) = back (c' :: r).
Proof. reflexivity. Qed.

(** What the scan leaves unread is nothing, or the last code; in the first
    case the last code pushed is a diagonal (odd) one. *)
Lemma scan_pairs_rest (l : list Code) :
  l <> [] ->
  (snd (scan_pairs l) = [back l])
  \/ (snd (scan_pairs l) = []
      /\ exists e c, fst (scan_pairs l) = e ++ [mkCode (c * 2 + 1) false]).
Proof.
  assert (H : forall n l, (length l <= n)%nat -> l <> [] ->
           (snd (scan_pairs l) = [back l])
           \/ (snd (scan_pairs l) = []
               /\ exists e c, fst (scan_pairs l) = e ++ [mkCode (c * 2 + 1) false])).
  { clear l. induction n as [| n IH]; intros l Hl Hne.
    - destruct l; simpl in *; [congruence | lia].
    - destruct l as [| c [| c' r]]; [congruence | left; reflexivity |].
      rewrite scan_pairs_cons2, back_cons2. destruct (diagonal_pair c c').
      + destruct r as [| c'' r].
        * right. simpl. split; [reflexivity |]. exists [], (code_number c). reflexivity.
        * rewrite back_cons2.
          destruct (IH (c'' :: r)) as [H | (H & e & x & He)]; [simpl in *; lia | congruence | |].
          -- left. exact H.
          -- right. split; [exact H |]. cbn [fst]. rewrite He.
             eexists (_ :: e), x. reflexivity.
      + destruct (IH (c' :: r)) as [H | (H & e & x & He)]; [simpl in *; lia | congruence | |].
        * left. exact H.
        * right. split; [exact H |]. cbn [fst]. rewrite He.
          eexists (_ :: e), x. reflexivity. }
  intros Hne. apply (H (length l)); [lia | exact Hne].
Qed.

Lemma code_at_last (cs : list Code) :
  cs <> [] -> code_at cs (length cs - 1) = back cs.
Proof.
  intros Hne. unfold code_at, back.
  destruct (exists_last Hne) as (l & x & ->).
  rewrite last_last, length_app. simpl.
  replace (length l + 1 - 1)%nat with (length l) by lia.
  rewrite nth_middle. reflexivity.
Qed.

Section ConvertFacts2.
Variable deltas4 : Z -> VertexInteger.
Variable default_is8connected : bool.

Lemma ConvertTo8Connected_short (this : ChainCode) :
is8connected this = false -> (length (codes this) < 3)%nat ->
codes (ConvertTo8Connected deltas4 default_is8connected this)
= map double_code (codes this).
Proof.
intros H8 Hlen. unfold ConvertTo8Connected. rewrite H8.
replace (length (codes this) <? 3)%nat with true by (symmetry; apply Nat.ltb_lt; lia).
reflexivity.
Qed.

Lemma ConvertTo8Connected_long (this : ChainCode) :
is8connected this = false -> (3 <= length (codes this))%nat ->
codes (ConvertTo8Connected deltas4 default_is8connected this)
= if diagonal_pair (back (codes this)) (code_at (codes this) 0)
then mkCode (code_number (back (codes this)) * 2 + 1) false
 :: fst (scan_pairs (drop 1 (codes this)))
else fst (scan_pairs (codes this)) ++ map double_code (snd (scan_pairs (codes this))).
Proof.
intros H8 Hlen. unfold ConvertTo8Connected. rewrite H8.
replace (length (codes this) <? 3)%nat with false by (symmetry; apply Nat.ltb_ge; lia).
set (cs := codes this) in *.
destruct (diagonal_pair (back cs) (code_at cs 0)).
- rewrite convert_loop_scan by lia. simpl.
rewrite andb_false_r. reflexivity.
- rewrite convert_loop_scan by lia. rewrite drop_0. simpl.
rewrite andb_true_r.
assert (Hne : cs <> []) by (destruct cs; simpl in *; [lia | congruence]).
destruct (scan_pairs_rest cs Hne) as [Hr | (Hr & _)]; rewrite Hr; simpl.
+ replace (length cs - 1 <? length cs)%nat with true by (symmetry; apply Nat.ltb_lt; lia).
rewrite code_at_last by exact Hne. reflexivity.
+ replace (length cs - 0 <? length cs)%nat with false by (symmetry; apply Nat.ltb_ge; lia).
rewrite app_nil_r. reflexivity.
Qed.
End ConvertFacts2.

Lemma code_numbers_back (cs : list Code) :
  List.last (code_numbers cs) 0 = code_number (back cs).
Proof.
  unfold back. induction cs as [| c [| c' r] IH]; [reflexivity | reflexivity |].
  exact IH.
Qed.

Lemma code_numbers_first (cs : list Code) :
  hd 0 (code_numbers cs) = code_number (code_at cs 0).
Proof. destruct cs; reflexivity. Qed.

Lemma code_numbers_tail (cs : list Code) :
  tl (code_numbers cs) = code_numbers (drop 1 cs).
Proof. destruct cs; reflexivity. Qed.

Lemma code_numbers_double (cs : list Code) :
  code_numbers (map double_code cs) = map (fun c => c * 2) (code_numbers cs).
Proof. unfold code_numbers. rewrite !map_map. reflexivity. Qed.

(** C3 (amended).  For a 4-connected chain code:
    - with fewer than three codes, every code is doubled and nothing is
      merged;
    - with three codes or more, when the last code followed by the first is
      not a diagonal pair, the output is the left-to-right scan that merges a
      code [cur] and its successor [next] into [cur * 2 + 1] when
      [next = (cur + 1) mod 4] and doubles [cur] otherwise;
    - with three codes or more, when the last code followed by the first is a
      diagonal pair, and the scan of the codes after the first leaves the
      last code unmerged, the output is [last * 2 + 1] followed by the scan
      of the codes strictly between the first and the last. *)
Theorem ConvertTo8Connected_merges (deltas4 : Z -> VertexInteger)
    (default_is8connected : bool) (this : ChainCode) :
  is8connected this = false ->
  forallb is_4connected_code (codes this) = true ->
  let l := code_numbers (codes this) in
  let out := code_numbers (codes (ConvertTo8Connected deltas4 default_is8connected this)) in
  ((length l < 3)%nat -> out = map (fun c => c * 2) l)
  /\ ((3 <= length l)%nat -> (List.last l 0 + 1) mod 4 <> hd 0 l -> out = merge_pairs l)
  /\ ((3 <= length l)%nat -> (List.last l 0 + 1) mod 4 = hd 0 l ->
      merge_pairs (tl l) = merge_pairs (removelast (tl l)) ++ [List.last l 0 * 2] ->
      out = (List.last l 0 * 2 + 1) :: merge_pairs (removelast (tl l))).
Proof.
  intros H8 _ l out. unfold l, out. clear l out.
  assert (Hlen : length (code_numbers (codes this)) = length (codes this))
    by apply length_map.
  rewrite Hlen, code_numbers_back, code_numbers_first, code_numbers_tail.
  split; [| split].
  - intros Hshort. rewrite ConvertTo8Connected_short by assumption.
    apply code_numbers_double.
  - intros Hlong Hnw. rewrite ConvertTo8Connected_long by assumption.
    unfold diagonal_pair.
    replace ((code_number (back (codes this)) + 1) mod 4 =? code_number (code_at (codes this) 0))
      with false by (symmetry; apply Z.eqb_neq; exact Hnw).
    apply scan_pairs_merge.
  - intros Hlong Hw Hscan. rewrite ConvertTo8Connected_long by assumption.
    unfold diagonal_pair.
    replace ((code_number (back (codes this)) + 1) mod 4 =? code_number (code_at (codes this) 0))
      with true by (symmetry; apply Z.eqb_eq; exact Hw).
    change (code_numbers (?c :: ?r)) with (code_number c :: code_numbers r).
    cbn [code_number]. f_equal.
    set (t := drop 1 (codes this)) in *.
    assert (Hne : t <> []).
    { unfold t. destruct (codes this) as [| c [| c' r]]; simpl in *; try lia. congruence. }
    pose proof (scan_pairs_merge t) as Hm. rewrite Hscan in Hm.
    unfold code_numbers in Hm. rewrite map_app in Hm. fold code_numbers in Hm.
    destruct (scan_pairs_rest t Hne) as [Hr | (Hr & e & x & He)]; rewrite Hr in Hm.
    + simpl in Hm. apply app_inj_tail in Hm. tauto.
    + simpl in Hm. rewrite app_nil_r in Hm. rewrite He in Hm.
      unfold code_numbers in Hm. rewrite map_app in Hm. simpl in Hm.
      apply app_inj_tail in Hm. lia.
Qed.


Section PolygonFacts.
Variable deltas4 deltas8 : Z -> VertexInteger.
Variable default_is8connected : bool.


End PolygonFacts.

(** The doctest of chain_code.cpp: the 4-connected chain code of the little
    circle converts to its 8-connected chain code, and the two have the same
    polygon. *)
Example ConvertTo8Connected_doctest :
  code_numbers (codes (ConvertTo8Connected freeman4 true cc4_test))
  = code_numbers (codes cc8_test).
Proof. vm_compute. reflexivity. Qed.

Example Polygon_doctest :
  Polygon freeman4 freeman8 true cc4_test = Polygon freeman4 freeman8 true cc8_test.
Proof. vm_compute. reflexivity. Qed.

Lemma ConvertTo8Connected_merges_witness :
  code_numbers (codes (ConvertTo8Connected freeman4 true cc4_test))
  = merge_pairs (code_numbers (codes cc4_test)).
Proof.
  destruct (ConvertTo8Connected_merges freeman4 true cc4_test eq_refl eq_refl)
    as (_ & H & _).
  apply H.
  - vm_compute. lia.
  - vm_compute. intros Heq. discriminate Heq.
Defined.

(** C3 as stated does not hold: the two codes 0, 1 form a diagonal pair, yet
    a chain code shorter than three codes is only doubled. *)
Lemma ConvertTo8Connected_claim_counterexample :
  ~ (forall (deltas4 : Z -> VertexInteger) (default_is8connected : bool) (this : ChainCode),
        is8connected this = false ->
        forallb is_4connected_code (codes this) = true ->
        code_numbers (codes (ConvertTo8Connected deltas4 default_is8connected this))
        = merge_pairs_cyclic (code_numbers (codes this))).
Proof.
  intros H.
  specialize (H freeman4 true cc_short_test eq_refl eq_refl).
  vm_compute in H. discriminate H.
Qed.

(** On the codes 1, 3, 0 the last code is read twice: merged with the first
    code into 1, and merged with its predecessor into 7, where the codes
    between the first and the last alone give 6. *)
Example ConvertTo8Connected_last_code_twice :
  code_numbers (codes (ConvertTo8Connected freeman4 true cc_wrap_test)) = [1; 7]
  /\ merge_pairs_cyclic (code_numbers (codes cc_wrap_test)) = [1; 6].
Proof. split; vm_compute; reflexivity. Qed.

(** ** The two chain codes of one boundary *)







Lemma freeman8_moves (pos : VertexInteger) (c : Z) : step_to pos (freeman8 c) <> pos.
Proof.
  destruct pos as [x y]. unfold step_to, freeman8.
  repeat match goal with |- context [if ?b then _ else _] => destruct b end;
    simpl; intros E; injection E; intros; lia.
Qed.
















(** ** [CopyTo] *)

Lemma lockstep_spec (bits : list bool) (left : nat) :
  lockstep bits left
  = if (count_set bits <=? left)%nat then Some (left - count_set bits)%nat else None.
Proof.
  revert left. induction bits as [| b bits IH]; intros left; simpl.
  - f_equal. lia.
  - destruct b.
    + destruct left as [| left].
      * reflexivity.
      * rewrite IH. simpl. reflexivity.
    + rewrite IH. reflexivity.
Qed.

Lemma loop_outside (F : nat -> Memory -> Memory) (a : Z) (n lo : nat) (m : Memory) :
  (forall ii m, (lo <= ii < lo + n)%nat -> F ii m a = m a) ->
  loop n lo F m a = m a.
Proof.
  revert lo m. induction n as [| n IH]; intros lo m H; simpl.
  - reflexivity.
  - rewrite IH.
    + apply H. lia.
    + intros ii m' Hii. apply H. lia.
Qed.

Lemma it_left_next (it : Iterator) :
  it_left (it_next it) = (it_left it - 1)%nat.
Proof. destruct it as [[o [| x r]] |]; simpl; lia. Qed.

Lemma it_valid_left (it : Iterator) : it_valid it = negb (it_left it =? 0)%nat.
Proof. destruct it as [[o r] |]; reflexivity. Qed.

Section CopyToFacts.
Variable GenericImageIterator : Image -> Z * list Z.
Variable GenericJointImageIterator : Image -> Image -> (Z * Z) * list (Z * Z).
Variable CheckIsMask : Image -> list Z -> Res unit.
Variable convert_sample : DataType -> DataType -> list Z -> list Z.

(** Copying a pixel leaves the bytes outside the written ranges alone. *)
Lemma copy_pixel_outside (dest src : Image) (d s : Z) (m : Memory) (a : Z) :
forallb (fun r => negb (in_range a r)) (written dest src d) = true ->
copy_pixel convert_sample dest src d s m a = m a.
Proof.
unfold written, copy_pixel. intros H.
destruct (DataType_eqb (dataType_ dest) (dataType_ src)).
- destruct (copy_telems dest src =? 1).
+ simpl in H. rewrite andb_true_r in H. apply negb_true_iff in H.
unfold memcpy. unfold in_range in H. simpl in H. rewrite H. reflexivity.
+ apply loop_outside. intros ii m' Hii.
rewrite forallb_forall in H.
specialize (H (element_pointer dest d ii, copy_bytes dest src)).
unfold memcpy. unfold in_range in H. simpl in H.
rewrite (proj1 (negb_true_iff _) (H ltac:(apply in_map_iff; exists ii; split;
         [reflexivity | apply in_seq; lia]))).
reflexivity.
- apply loop_outside. intros ii m' Hii.
rewrite forallb_forall in H.
specialize (H (element_pointer dest d ii, SizeOf (dataType_ dest))).
unfold write_bytes. unfold in_range in H. simpl in H.
rewrite (proj1 (negb_true_iff _) (H ltac:(apply in_map_iff; exists ii; split;
       [reflexivity | apply in_seq; lia]))).
reflexivity.
Qed.

Section MaskLoop.
Variables dest src destMask : Image.
Variable m0 : Memory.

Let bit (p : Z * Z) : bool := mask_set destMask (snd p) m0.

Lemma CopyTo_mask_loop_unfold (cur : Z * Z) (rest : list (Z * Z)) (srcIt : Iterator) :
  CopyTo_mask_loop convert_sample dest src destMask cur rest srcIt
  = (srcIt <- (m <- get ;;
   if mask_set destMask (snd cur) m then
 DIP_THROW_IF (negb (it_valid srcIt)) SIZES_DONT_MATCH ;;;
 modify (copy_pixel convert_sample dest src (fst cur) (it_offset srcIt)) ;;;
 ret (it_next srcIt)
   else ret srcIt) ;;
 match rest with
 | [] => ret srcIt
 | next :: rest' => CopyTo_mask_loop convert_sample dest src destMask next rest' srcIt
 end).
Proof. destruct rest; reflexivity. Qed.

Lemma lockstep_cons (b : bool) (bits : list bool) (n : nat) :
  lockstep (b :: bits) n
  = if b then match n with O => None | S n' => lockstep bits n' end else lockstep bits n.
Proof. reflexivity. Qed.

(** One round of the loop body, with the mask bit read from the initial
memory. *)
Lemma mask_body_run (cur : Z * Z) (srcIt : Iterator) (m : Memory) :
  m (Pointer destMask (snd cur)) = m0 (Pointer destMask (snd cur)) ->
  (m <- get ;;
   if mask_set destMask (snd cur) m then
 DIP_THROW_IF (negb (it_valid srcIt)) SIZES_DONT_MATCH ;;;
 modify (copy_pixel convert_sample dest src (fst cur) (it_offset srcIt)) ;;;
 ret (it_next srcIt)
   else ret srcIt) m
  = if bit cur then
  match srcIt with
  | None => (Throw SIZES_DONT_MATCH, m)
  | Some _ => (Ok (it_next srcIt),
   copy_pixel convert_sample dest src (fst cur) (it_offset srcIt) m)
  end
else (Ok srcIt, m).
Proof.
  intros Hm. unfold bind at 1, get.
  replace (mask_set destMask (snd cur) m) with (bit cur)
by (unfold bit, mask_set; rewrite Hm; reflexivity).
  destruct (bit cur); [| reflexivity].
  destruct srcIt as [[o r] |]; reflexivity.
Qed.

Lemma CopyTo_mask_loop_lockstep (rest : list (Z * Z)) (cur : Z * Z)
(srcIt : Iterator) (m : Memory) :
  (forall pm, In pm (cur :: rest) ->
 m (Pointer destMask (snd pm)) = m0 (Pointer destMask (snd pm))) ->
  (forall pm pd, In pm (cur :: rest) -> In pd (cur :: rest) ->
 forallb (fun r => negb (in_range (Pointer destMask (snd pm)) r))
 (written dest src (fst pd)) = true) ->
  match lockstep (map bit (cur :: rest)) (it_left srcIt) with
  | None => exists m',
  CopyTo_mask_loop convert_sample dest src destMask cur rest srcIt m
  = (Throw SIZES_DONT_MATCH, m')
  | Some n => exists m' srcIt',
  CopyTo_mask_loop convert_sample dest src destMask cur rest srcIt m
  = (Ok srcIt', m') /\ it_left srcIt' = n
  end.
Proof.
  revert cur srcIt m. induction rest as [| next rest IH]; intros cur srcIt m Hm Hap;
rewrite CopyTo_mask_loop_unfold, map_cons, lockstep_cons;
pose proof (mask_body_run cur srcIt m (Hm cur (or_introl eq_refl))) as Hbody.
  - (* the last pixel *)
destruct (bit cur).
+ destruct srcIt as [[o r] |].
  * rewrite (bind_Ok _ _ _ _ _ Hbody). cbn [it_left map lockstep].
eexists. eexists. split; [reflexivity |]. destruct r; reflexivity.
  * rewrite (bind_Throw _ _ _ _ _ Hbody). exists m. reflexivity.
+ rewrite (bind_Ok _ _ _ _ _ Hbody). exists m, srcIt. split; reflexivity.
  - assert (Hap' : forall pm pd, In pm (next :: rest) -> In pd (next :: rest) ->
   forallb (fun r => negb (in_range (Pointer destMask (snd pm)) r))
       (written dest src (fst pd)) = true).
{ intros pm pd H1 H2. apply Hap; right; assumption. }
destruct (bit cur).
+ destruct srcIt as [[o r] |].
  * rewrite (bind_Ok _ _ _ _ _ Hbody).
set (m1 := copy_pixel convert_sample dest src (fst cur) (it_offset (Some (o, r))) m).
specialize (IH next (it_next (Some (o, r))) m1).
rewrite it_left_next in IH. cbn [it_left] in *.
replace (S (length r) - 1)%nat with (length r) in IH by lia.
apply IH; [| exact Hap'].
intros pm Hpm. unfold m1. rewrite copy_pixel_outside.
-- apply Hm. right. exact Hpm.
-- apply Hap; [right; exact Hpm | left; reflexivity].
  * rewrite (bind_Throw _ _ _ _ _ Hbody). exists m. reflexivity.
+ rewrite (bind_Ok _ _ _ _ _ Hbody).
  apply IH; [| exact Hap'].
  intros pm Hpm. apply Hm. right. exact Hpm.
Qed.
End MaskLoop.

Lemma mask_apart_spec (dest src destMask : Image) :
mask_apart GenericJointImageIterator dest src destMask = true ->
let destIt := GenericJointImageIterator dest destMask in
forall pm pd, In pm (fst destIt :: snd destIt) -> In pd (fst destIt :: snd destIt) ->
forallb (fun r => negb (in_range (Pointer destMask (snd pm)) r))
    (written dest src (fst pd)) = true.
Proof.
unfold mask_apart. cbv zeta. intros H pm pd Hpm Hpd.
rewrite forallb_forall in H. specialize (H pm Hpm).
rewrite forallb_forall in H. exact (H pd Hpd).
Qed.

(** C2.  With a forged source and destination of equal tensor-element
counts: the mask form of [CopyTo] (given a forged mask that passes
[CheckIsMask] and whose samples are not among the bytes written) throws
[SIZES_DONT_MATCH] whenever the number of set mask pixels differs from
the number of source pixels, be it larger or smaller, and succeeds when
they are equal; the offset form throws, before it writes anything,
whenever the number of source pixels differs from the length of the
offset list. *)
Theorem CopyTo_counts_in_lockstep (src dest destMask : Image) (destOffsets : list Z)
(m : Memory) :
IsForged src = true ->
IsForged dest = true ->
TensorElements src = TensorElements dest ->
(IsForged destMask = true ->
 CheckIsMask destMask (sizes_ dest) = Ok tt ->
 NumberOfPixels src = Z.of_nat (S (length (snd (GenericImageIterator src)))) ->
 mask_apart GenericJointImageIterator dest src destMask = true ->
 let set_pixels := count_set (mask_bits GenericJointImageIterator dest destMask m) in
 (Z.of_nat set_pixels <> NumberOfPixels src ->
exists m', CopyTo_mask GenericImageIterator GenericJointImageIterator CheckIsMask
         convert_sample src dest destMask m = (Throw SIZES_DONT_MATCH, m'))
 /\ (Z.of_nat set_pixels = NumberOfPixels src ->
 exists m', CopyTo_mask GenericImageIterator GenericJointImageIterator CheckIsMask
            convert_sample src dest destMask m = (Ok tt, m')))
/\ (NumberOfPixels src <> Z.of_nat (length destOffsets) ->
exists e, CopyTo_offsets GenericImageIterator convert_sample src dest destOffsets m
        = (Throw e, m)).
Proof.
intros Hfs Hfd Hte. split.
- intros Hfm Hcheck Hn Hapart set_pixels.
pose proof (CopyTo_mask_loop_lockstep dest src destMask m
          (snd (GenericJointImageIterator dest destMask))
          (fst (GenericJointImageIterator dest destMask))
          (Some (GenericImageIterator src)) m
          (fun pm _ => eq_refl)
          (mask_apart_spec dest src destMask Hapart)) as Hloop.
rewrite lockstep_spec in Hloop.
change (map (fun p : Z * Z => mask_set destMask (snd p) m)
        (fst (GenericJointImageIterator dest destMask)
         :: snd (GenericJointImageIterator dest destMask)))
with (mask_bits GenericJointImageIterator dest destMask m) in Hloop.
fold set_pixels in Hloop.
assert (Hleft : it_left (Some (GenericImageIterator src))
            = S (length (snd (GenericImageIterator src)))).
{ destruct (GenericImageIterator src). reflexivity. }
rewrite Hleft in Hloop.
set (N := S (length (snd (GenericImageIterator src)))) in *.
assert (Hstart :
      CopyTo_mask GenericImageIterator GenericJointImageIterator CheckIsMask
        convert_sample src dest destMask m
      = (srcIt <- CopyTo_mask_loop convert_sample dest src destMask
                    (fst (GenericJointImageIterator dest destMask))
                    (snd (GenericJointImageIterator dest destMask))
                    (Some (GenericImageIterator src)) ;;
         DIP_THROW_IF (it_valid srcIt) SIZES_DONT_MATCH) m).
{ unfold CopyTo_mask.
rewrite (bind_Ok _ _ m m tt) by (rewrite Hfs, Hfd; reflexivity).
rewrite (bind_Ok _ _ m m tt)
by (rewrite Hte, Z.eqb_refl; reflexivity).
rewrite (bind_Ok _ _ m m tt) by (rewrite Hfm; reflexivity).
rewrite (bind_Ok _ _ m m tt) by (rewrite Hcheck; reflexivity).
reflexivity. }
rewrite Hstart. clear Hstart.
destruct (Nat.leb_spec set_pixels N) as [Hle | Hgt].
+ destruct Hloop as (m' & srcIt' & Hrun & Hl).
rewrite (bind_Ok _ _ _ _ _ Hrun). rewrite it_valid_left, Hl.
split.
* intros Hne. exists m'.
replace (N - set_pixels =? 0)%nat with false by (symmetry; apply Nat.eqb_neq; lia).
reflexivity.
* intros Heq. exists m'.
replace (N - set_pixels =? 0)%nat with true by (symmetry; apply Nat.eqb_eq; lia).
reflexivity.
+ destruct Hloop as (m' & Hrun).
rewrite (bind_Throw _ _ _ _ _ Hrun).
split.
* intros _. exists m'. reflexivity.
* intros Heq. lia.
- intros Hne. unfold CopyTo_offsets.
rewrite (bind_Ok _ _ m m tt) by (rewrite Hfs, Hfd; reflexivity).
rewrite (bind_Ok _ _ m m tt) by (rewrite Hte, Z.eqb_refl; reflexivity).
destruct (length destOffsets =? 0)%nat eqn:Eempty.
+ exists ARRAY_PARAMETER_EMPTY. reflexivity.
+ rewrite (bind_Ok _ _ m m tt) by reflexivity.
exists offsets_error. apply bind_Throw.
replace (NumberOfPixels src =? Z.of_nat (length destOffsets)) with false
by (symmetry; apply Z.eqb_neq; exact Hne).
reflexivity.
Qed.
End CopyToFacts.

(** A mask of three set pixels against a source of two pixels, and an offset
    list of three offsets against the same source: both forms throw. *)
Lemma CopyTo_counts_in_lockstep_witness :
  (exists m', CopyTo_mask line_iterator joint_line_iterator any_mask same_bytes
                img_copy_src img_copy_dest img_copy_mask mem_copy_test
              = (Throw SIZES_DONT_MATCH, m'))
  /\ (exists e, CopyTo_offsets line_iterator same_bytes
                  img_copy_src img_copy_dest [0; 1; 2] mem_copy_test
                = (Throw e, mem_copy_test)).
Proof.
  destruct (CopyTo_counts_in_lockstep line_iterator joint_line_iterator any_mask same_bytes
              img_copy_src img_copy_dest img_copy_mask [0; 1; 2] mem_copy_test
              eq_refl eq_refl eq_refl) as [Hmask Hoffsets].
  split.
  - apply Hmask.
    + reflexivity.
    + reflexivity.
    + vm_compute. reflexivity.
    + vm_compute. reflexivity.
    + vm_compute. discriminate.
  - apply Hoffsets. vm_compute. discriminate.
Defined.

(** With one pixel of the mask cleared the counts agree and the copy goes
    through: the two source bytes land on the first and the last pixel of the
    destination. *)
Example CopyTo_mask_copies :
  match CopyTo_mask line_iterator joint_line_iterator any_mask same_bytes
          img_copy_src img_copy_dest img_copy_mask (store mem_copy_test 301 0) with
  | (Ok _, m') => m' 200 = 7 /\ m' 201 = 0 /\ m' 202 = 8
  | _ => False
  end.
Proof. vm_compute. repeat split; reflexivity. Qed.

(* ===================================================================== *)
(** * Rounding to a floating-point format *)

Lemma prec_pos (t : FloatType) : 0 < prec t.
Proof. destruct t; reflexivity. Qed.

Lemma pow2_pos (e : Z) : (0 < pow2 e)%Q.
Proof. unfold pow2. apply Qpower_0_lt. reflexivity. Qed.

Lemma pow2_add (a b : Z) : (pow2 (a + b) == pow2 a * pow2 b)%Q.
Proof. unfold pow2. apply Qpower_plus. discriminate. Qed.

Lemma pow2_sub (a b : Z) : (pow2 (a - b) == pow2 a / pow2 b)%Q.
Proof. unfold pow2. apply Qpower_minus. discriminate. Qed.

Lemma pow2_le (a b : Z) : a <= b -> (pow2 a <= pow2 b)%Q.
Proof. intros H. unfold pow2. apply Qpower_le_compat_l; [exact H | discriminate]. Qed.

Lemma pow2_lt (a b : Z) : a < b -> (pow2 a < pow2 b)%Q.
Proof. intros H. unfold pow2. apply Qpower_lt_compat_l; [exact H | reflexivity]. Qed.

Lemma pow2_lt_inv (a b : Z) : (pow2 a < pow2 b)%Q -> a < b.
Proof. intros H. apply (Qpower_lt_compat_l_inv 2); [exact H | reflexivity]. Qed.

Lemma pow2_int (e : Z) : 0 <= e -> (pow2 e == inject_Z (2 ^ e))%Q.
Proof. intros H. unfold pow2. rewrite Zpower_Qpower by exact H. reflexivity. Qed.

Lemma pow2_0 : (pow2 0 == 1)%Q.
Proof. reflexivity. Qed.

(** A multiple of [2 ^ a] is a multiple of [2 ^ b] for [b <= a]. *)
Lemma pow2_multiple (a b : Z) (z : Z) :
  b <= a -> (inject_Z z * pow2 a == inject_Z (z * 2 ^ (a - b)) * pow2 b)%Q.
Proof.
  intros H. replace a with ((a - b) + b) at 1 by lia.
  rewrite pow2_add, pow2_int by lia. rewrite inject_Z_mult. ring.
Qed.

(** ** [mag] *)

Lemma Qabs_ratio (q : Q) : (Qabs q == inject_Z (Z.abs (Qnum q)) / inject_Z (Z.pos (Qden q)))%Q.
Proof.
  destruct q as [n d]. unfold Qabs. cbn [Qnum Qden].
  rewrite (Qmake_Qdiv (Z.abs n) d). reflexivity.
Qed.

Lemma ratio_lt_pow2 (n d a b : Z) :
  0 < d -> 0 <= a -> 0 <= b -> n * 2 ^ b < 2 ^ a * d ->
  (inject_Z n / inject_Z d < pow2 (a - b))%Q.
Proof.
  intros Hd Ha Hb H. rewrite pow2_sub, !pow2_int by assumption.
  assert (Hd' : (0 < inject_Z d)%Q) by (rewrite <- (Zlt_Qlt 0); exact Hd).
  assert (Hb' : (0 < inject_Z (2 ^ b))%Q) by (rewrite <- (Zlt_Qlt 0); lia).
  apply Qlt_shift_div_r; [exact Hd' |].
  unfold Qdiv. rewrite <- Qmult_assoc, (Qmult_comm (/ _)), Qmult_assoc.
  apply Qlt_shift_div_l; [exact Hb' |].
  rewrite <- !inject_Z_mult, <- Zlt_Qlt. exact H.
Qed.

Lemma pow2_lt_ratio (n d a b : Z) :
  0 < d -> 0 <= a -> 0 <= b -> 2 ^ a * d < n * 2 ^ b ->
  (pow2 (a - b) < inject_Z n / inject_Z d)%Q.
Proof.
  intros Hd Ha Hb H. rewrite pow2_sub, !pow2_int by assumption.
  assert (Hd' : (0 < inject_Z d)%Q) by (rewrite <- (Zlt_Qlt 0); exact Hd).
  assert (Hb' : (0 < inject_Z (2 ^ b))%Q) by (rewrite <- (Zlt_Qlt 0); lia).
  apply Qlt_shift_div_l; [exact Hd' |].
  unfold Qdiv. rewrite <- Qmult_assoc, (Qmult_comm (/ _)), Qmult_assoc.
  apply Qlt_shift_div_r; [exact Hb' |].
  rewrite <- !inject_Z_mult, <- Zlt_Qlt. exact H.
Qed.

Lemma mag_spec (q : Q) :
  ~ (q == 0)%Q -> (pow2 (mag q - 1) <= Qabs q)%Q /\ (Qabs q < pow2 (mag q))%Q.
Proof.
  intros Hq. unfold mag.
  assert (Hn : Qnum q <> 0).
  { intros H. apply Hq. destruct q as [n d]. simpl in H. subst n. reflexivity. }
  replace (Qnum q =? 0) with false by (symmetry; apply Z.eqb_neq; exact Hn).
  set (n := Z.abs (Qnum q)). set (d := Z.pos (Qden q)).
  assert (Hnpos : 0 < n) by (unfold n; lia).
  assert (Hdpos : 0 < d) by (unfold d; lia).
  pose proof (Z.log2_spec n Hnpos) as [Hn1 Hn2].
  pose proof (Z.log2_spec d Hdpos) as [Hd1 Hd2].
  pose proof (Z.log2_nonneg n) as Ha. pose proof (Z.log2_nonneg d) as Hb.
  set (a := Z.log2 n) in *. set (b := Z.log2 d) in *.
  rewrite Z.pow_succ_r in Hn2, Hd2 by assumption.
  assert (Hup : (Qabs q < pow2 (a - b + 1))%Q).
  { rewrite Qabs_ratio. fold n d. replace (a - b + 1) with ((a + 1) - b) by lia.
    apply ratio_lt_pow2; [lia | lia | lia |].
    rewrite Z.pow_add_r by lia. change (2 ^ 1) with 2. nia. }
  assert (Hdown : (pow2 (a - b - 1) < Qabs q)%Q).
  { rewrite Qabs_ratio. fold n d. replace (a - b - 1) with (a - (b + 1)) by lia.
    apply pow2_lt_ratio; [lia | lia | lia |].
    rewrite Z.pow_add_r by lia. change (2 ^ 1) with 2. nia. }
  destruct (Qle_bool (pow2 (a - b)) (Qabs q)) eqn:E.
  - apply Qle_bool_iff in E. replace (a - b + 1 - 1) with (a - b) by lia.
    split; assumption.
  - split; [apply Qlt_le_weak; exact Hdown |].
    apply Qnot_le_lt. intros H. apply Qle_bool_iff in H. congruence.
Qed.

Lemma mag_unique (q : Q) (k : Z) :
  (pow2 (k - 1) <= Qabs q)%Q -> (Qabs q < pow2 k)%Q -> mag q = k.
Proof.
  intros H1 H2.
  assert (Hq : ~ (q == 0)%Q).
  { intros H. assert (H0 : (Qabs q == 0)%Q) by (rewrite H; reflexivity).
    pose proof (pow2_pos (k - 1)). lra. }
  destruct (mag_spec q Hq) as [H3 H4].
  assert (Ha : mag q - 1 < k) by (apply pow2_lt_inv; lra).
  assert (Hb : k - 1 < mag q) by (apply pow2_lt_inv; lra).
  lia.
Qed.

Lemma mag_comp (x y : Q) : (x == y)%Q -> mag x = mag y.
Proof.
  intros H. destruct (Qeq_dec x 0) as [Hx | Hx].
  - assert (Hy : (y == 0)%Q) by (rewrite <- H; exact Hx).
    unfold mag.
    replace (Qnum x) with 0 by (destruct x as [n d]; unfold Qeq in Hx; simpl in *; lia).
    replace (Qnum y) with 0 by (destruct y as [n d]; unfold Qeq in Hy; simpl in *; lia).
    reflexivity.
  - destruct (mag_spec x Hx) as [H1 H2]. symmetry. apply mag_unique; rewrite <- H; assumption.
Qed.

Lemma mag_opp (x : Q) : mag (- x) = mag x.
Proof.
  destruct (Qeq_dec x 0) as [Hx | Hx].
  - apply mag_comp. rewrite Hx. reflexivity.
  - destruct (mag_spec x Hx) as [H1 H2]. apply mag_unique; rewrite Qabs_opp; assumption.
Qed.

Lemma mag_le (x y : Q) : ~ (x == 0)%Q -> (Qabs x <= Qabs y)%Q -> mag x <= mag y.
Proof.
  intros Hx Hxy.
  destruct (mag_spec x Hx) as [H1 H2].
  assert (Hy : ~ (y == 0)%Q).
  { intros H. assert (H0 : (Qabs y == 0)%Q) by (rewrite H; reflexivity).
    pose proof (pow2_pos (mag x - 1)). lra. }
  destruct (mag_spec y Hy) as [H3 H4].
  assert (mag x - 1 < mag y) by (apply pow2_lt_inv; lra). lia.
Qed.

(** ** [rne] *)

Lemma Qfloor_unique (q : Q) (z : Z) :
  (inject_Z z <= q)%Q -> (q < inject_Z z + 1)%Q -> Qfloor q = z.
Proof.
  intros H1 H2. pose proof (Qfloor_le q) as H3. pose proof (Qlt_floor q) as H4.
  rewrite inject_Z_plus in H4. change (inject_Z 1) with 1%Q in H4.
  assert (Ha : (inject_Z (Qfloor q) < inject_Z (z + 1))%Q)
    by (rewrite inject_Z_plus; change (inject_Z 1) with 1%Q; lra).
  assert (Hb : (inject_Z z < inject_Z (Qfloor q + 1))%Q)
    by (rewrite inject_Z_plus; change (inject_Z 1) with 1%Q; lra).
  rewrite <- Zlt_Qlt in Ha, Hb. lia.
Qed.

Lemma rne_cases (q : Q) :
  let f := Qfloor q in
  let r := (q - inject_Z f)%Q in
  (0 <= r)%Q /\ (r < 1)%Q
  /\ (((r < 1 # 2)%Q /\ rne q = f)
      \/ ((1 # 2 < r)%Q /\ rne q = f + 1)
      \/ ((r == 1 # 2)%Q /\ rne q = if Z.even f then f else f + 1)).
Proof.
  cbv zeta. pose proof (Qfloor_le q) as H1. pose proof (Qlt_floor q) as H2.
  rewrite inject_Z_plus in H2. change (inject_Z 1) with 1%Q in H2.
  split; [lra |]. split; [lra |].
  unfold rne. destruct (q - inject_Z (Qfloor q) ?= 1 # 2)%Q eqn:E.
  - right. right. apply Qeq_alt in E. split; [exact E | reflexivity].
  - left. apply Qlt_alt in E. split; [exact E | reflexivity].
  - right. left. apply Qgt_alt in E. split; [exact E | reflexivity].
Qed.

Lemma rne_comp (x y : Q) : (x == y)%Q -> rne x = rne y.
Proof.
  intros H. unfold rne. rewrite (Qfloor_comp x y H).
  assert (Hc : (x - inject_Z (Qfloor y) ?= 1 # 2)%Q = (y - inject_Z (Qfloor y) ?= 1 # 2)%Q)
    by (apply Qcompare_comp; [rewrite H; reflexivity | reflexivity]).
  rewrite Hc. reflexivity.
Qed.

Lemma rne_Z (z : Z) : rne (inject_Z z) = z.
Proof.
  destruct (rne_cases (inject_Z z)) as (_ & _ & H). rewrite Qfloor_Z in H.
  destruct H as [[_ H] | [[H _] | [H _]]]; [exact H | lra | lra].
Qed.

Lemma rne_le (x y : Q) : (x <= y)%Q -> rne x <= rne y.
Proof.
  intros Hxy. pose proof (Qfloor_resp_le x y Hxy) as Hf.
  destruct (rne_cases x) as (Hx0 & Hx1 & Hx). destruct (rne_cases y) as (Hy0 & Hy1 & Hy).
  destruct (Z.eq_dec (Qfloor x) (Qfloor y)) as [Heq | Hne].
  - rewrite Heq in *.
    destruct Hx as [[Hx ->] | [[Hx ->] | [Hx ->]]];
      destruct Hy as [[Hy ->] | [[Hy ->] | [Hy ->]]];
      try lia; try lra; destruct (Z.even (Qfloor y)); lia.
  - assert (Hlt : Qfloor x < Qfloor y) by lia.
    destruct Hx as [[Hx ->] | [[Hx ->] | [Hx ->]]];
      destruct Hy as [[Hy ->] | [[Hy ->] | [Hy ->]]];
      try lia; try (destruct (Z.even (Qfloor x))); try (destruct (Z.even (Qfloor y))); lia.
Qed.

Lemma rne_opp (x : Q) : rne (- x) = - rne x.
Proof.
  destruct (rne_cases x) as (Hx0 & Hx1 & Hx).
  set (f := Qfloor x) in *.
  destruct (Qeq_dec x (inject_Z f)) as [Hint | Hfrac].
  - rewrite (rne_comp (- x) (inject_Z (- f))) by (rewrite inject_Z_opp, Hint; reflexivity).
    rewrite (rne_comp x (inject_Z f)) by exact Hint. rewrite !rne_Z. reflexivity.
  - assert (Hpos : (0 < x - inject_Z f)%Q).
    { destruct (Qlt_le_dec 0 (x - inject_Z f)) as [H | H]; [exact H |].
      exfalso. apply Hfrac. lra. }
    assert (Hfl : Qfloor (- x) = - f - 1).
    { apply Qfloor_unique.
      - unfold Z.sub. rewrite inject_Z_plus, !inject_Z_opp. change (inject_Z 1) with 1%Q. lra.
      - unfold Z.sub. rewrite inject_Z_plus, !inject_Z_opp. change (inject_Z 1) with 1%Q. lra. }
    destruct (rne_cases (- x)) as (Hy0 & Hy1 & Hy). rewrite Hfl in Hy0, Hy1, Hy.
    assert (Hr : (- x - inject_Z (- f - 1) == 1 - (x - inject_Z f))%Q).
    { unfold Z.sub. rewrite inject_Z_plus, !inject_Z_opp. change (inject_Z 1) with 1%Q. ring. }
    rewrite Hr in Hy0, Hy1, Hy.
    assert (Hev : Z.even (- f - 1) = negb (Z.even f)).
    { replace (- f - 1) with (- (f + 1)) by lia.
      rewrite Z.even_opp, Z.even_add. destruct (Z.even f); reflexivity. }
    rewrite Hev in Hy.
    destruct Hx as [[Hx ->] | [[Hx ->] | [Hx ->]]];
      destruct Hy as [[Hy ->] | [[Hy ->] | [Hy ->]]];
      try lia; try lra; destruct (Z.even f); simpl; lia.
Qed.

Lemma rne_nonneg (x : Q) : (0 <= x)%Q -> 0 <= rne x.
Proof. intros H. rewrite <- (rne_Z 0). apply rne_le. exact H. Qed.

(** ** Rounding on the grid of the multiples of [2 ^ e] *)

Lemma on_grid_le (e : Z) (x y : Q) : (x <= y)%Q -> (on_grid e x <= on_grid e y)%Q.
Proof.
  intros H. unfold on_grid. pose proof (pow2_pos e) as Hp.
  apply Qmult_le_compat_r; [| lra].
  rewrite <- Zle_Qle. apply rne_le.
  unfold Qdiv. apply Qmult_le_compat_r; [exact H |].
  apply Qlt_le_weak, Qinv_lt_0_compat. exact Hp.
Qed.

Lemma on_grid_multiple (e : Z) (z : Z) :
  (on_grid e (inject_Z z * pow2 e) == inject_Z z * pow2 e)%Q.
Proof.
  unfold on_grid. pose proof (pow2_pos e) as Hp.
  rewrite (rne_comp _ (inject_Z z)); [rewrite rne_Z; reflexivity |].
  field. lra.
Qed.

Lemma on_grid_comp (e : Z) (x y : Q) : (x == y)%Q -> (on_grid e x == on_grid e y)%Q.
Proof.
  intros H. unfold on_grid.
  rewrite (rne_comp (x / pow2 e) (y / pow2 e)) by (rewrite H; reflexivity). reflexivity.
Qed.

Lemma on_grid_opp (e : Z) (x : Q) : (on_grid e (- x) == - on_grid e x)%Q.
Proof.
  unfold on_grid. pose proof (pow2_pos e) as Hp.
  rewrite (rne_comp (- x / pow2 e) (- (x / pow2 e))) by (field; lra).
  rewrite rne_opp, inject_Z_opp. ring.
Qed.

(** ** [round_to] *)

Lemma round_to_grid (t : FloatType) (q : Q) : round_to t q = on_grid (cexp t q) q.
Proof. reflexivity. Qed.

Lemma cexp_comp (t : FloatType) (x y : Q) : (x == y)%Q -> cexp t x = cexp t y.
Proof. intros H. unfold cexp. rewrite (mag_comp x y H). reflexivity. Qed.

Lemma round_to_comp (t : FloatType) (x y : Q) : (x == y)%Q -> (round_to t x == round_to t y)%Q.
Proof.
  intros H. rewrite !round_to_grid, (cexp_comp t x y H). apply on_grid_comp. exact H.
Qed.

Lemma round_to_opp (t : FloatType) (x : Q) : (round_to t (- x) == - round_to t x)%Q.
Proof.
  rewrite !round_to_grid. unfold cexp. rewrite mag_opp. apply on_grid_opp.
Qed.

Lemma round_to_0 (t : FloatType) : (round_to t 0 == 0)%Q.
Proof.
  rewrite round_to_grid. rewrite (on_grid_comp _ 0 (inject_Z 0 * pow2 (cexp t 0))) by ring.
  rewrite on_grid_multiple. ring.
Qed.

Lemma round_to_nonneg (t : FloatType) (x : Q) : (0 <= x)%Q -> (0 <= round_to t x)%Q.
Proof.
  intros H. rewrite round_to_grid. unfold on_grid. pose proof (pow2_pos (cexp t x)) as Hp.
  apply Qmult_le_0_compat; [| lra].
  change 0%Q with (inject_Z 0). rewrite <- Zle_Qle. apply rne_nonneg.
  unfold Qdiv. apply Qmult_le_0_compat; [exact H |].
  apply Qlt_le_weak, Qinv_lt_0_compat. exact Hp.
Qed.

(** Rounding is monotone: first for positive numbers. *)
Lemma round_to_le_pos (t : FloatType) (x y : Q) :
  (0 < x)%Q -> (x <= y)%Q -> (round_to t x <= round_to t y)%Q.
Proof.
  intros Hx Hxy. pose proof (prec_pos t) as Hprec.
  assert (Hx0 : ~ (x == 0)%Q) by (intros H; lra).
  assert (Hy0 : ~ (y == 0)%Q) by (intros H; lra).
  assert (Hax : (Qabs x == x)%Q) by (apply Qabs_pos; lra).
  assert (Hay : (Qabs y == y)%Q) by (apply Qabs_pos; lra).
  assert (Hmag : mag x <= mag y) by (apply mag_le; [exact Hx0 | lra]).
  rewrite !round_to_grid.
  destruct (Z.eq_dec (cexp t x) (cexp t y)) as [Heq | Hne].
  - rewrite Heq. apply on_grid_le. exact Hxy.
  - assert (Hlt : cexp t x < cexp t y) by (unfold cexp in *; lia).
    assert (Hcy : cexp t y = mag y - prec t) by (unfold cexp in *; lia).
    assert (Hmlt : mag x < mag y) by (unfold cexp in *; lia).
    destruct (mag_spec x Hx0) as [_ Hxup]. destruct (mag_spec y Hy0) as [Hylow _].
    set (B := pow2 (mag y - 1)).
    assert (HxB : (x <= B)%Q).
    { pose proof (pow2_le (mag x) (mag y - 1) ltac:(lia)). unfold B. lra. }
    assert (HBy : (B <= y)%Q) by (unfold B; lra).
    assert (HBx : (B == inject_Z (1 * 2 ^ (mag y - 1 - cexp t x)) * pow2 (cexp t x))%Q).
    { unfold B. rewrite <- pow2_multiple by lia. change (inject_Z 1) with 1%Q. ring. }
    assert (HBy' : (B == inject_Z (1 * 2 ^ (mag y - 1 - cexp t y)) * pow2 (cexp t y))%Q).
    { unfold B. rewrite <- pow2_multiple by lia. change (inject_Z 1) with 1%Q. ring. }
    assert (Hgx : (on_grid (cexp t x) B == B)%Q)
      by (rewrite (on_grid_comp _ B _ HBx), on_grid_multiple, <- HBx; reflexivity).
    assert (Hgy : (on_grid (cexp t y) B == B)%Q)
      by (rewrite (on_grid_comp _ B _ HBy'), on_grid_multiple, <- HBy'; reflexivity).
    pose proof (on_grid_le (cexp t x) x B HxB) as H1.
    pose proof (on_grid_le (cexp t y) B y HBy) as H2.
    lra.
Qed.

Lemma round_to_le (t : FloatType) (x y : Q) : (x <= y)%Q -> (round_to t x <= round_to t y)%Q.
Proof.
  intros Hxy. destruct (Qlt_le_dec 0 x) as [Hx | Hx].
  - apply round_to_le_pos; assumption.
  - destruct (Qlt_le_dec y 0) as [Hy | Hy].
    + assert (H : (round_to t (- y) <= round_to t (- x))%Q)
        by (apply round_to_le_pos; lra).
      rewrite !round_to_opp in H. lra.
    + assert (H1 : (0 <= round_to t y)%Q) by (apply round_to_nonneg; exact Hy).
      assert (H2 : (0 <= round_to t (- x))%Q) by (apply round_to_nonneg; lra).
      rewrite round_to_opp in H2. lra.
Qed.

(** ** The values of a format and their order *)

Lemma max_value_pos (t : FloatType) : (0 < max_value t)%Q.
Proof. destruct t; reflexivity. Qed.

Lemma round_to_max (t : FloatType) : (round_to t (max_value t) == max_value t)%Q.
Proof. destruct t; apply Qeq_bool_eq; vm_compute; reflexivity. Qed.

Lemma round_to_inside (t : FloatType) (q : Q) :
  (- max_value t <= q <= max_value t)%Q ->
  (- max_value t <= round_to t q <= max_value t)%Q.
Proof.
  intros [H1 H2]. pose proof (round_to_le t _ _ H1) as H3.
  pose proof (round_to_le t _ _ H2) as H4.
  rewrite round_to_opp, round_to_max in H3. rewrite round_to_max in H4. split; assumption.
Qed.

Lemma Qle_bool_true (x y : Q) : (x <= y)%Q -> Qle_bool x y = true.
Proof. apply Qle_bool_iff. Qed.

Lemma Qle_bool_false (x y : Q) : (y < x)%Q -> Qle_bool x y = false.
Proof.
  intros H. destruct (Qle_bool x y) eqn:E; [| reflexivity].
  apply Qle_bool_iff in E. lra.
Qed.

Lemma Qle_bool_false_inv (x y : Q) : Qle_bool x y = false -> (y < x)%Q.
Proof.
  intros E. apply Qnot_le_lt. intros H. apply Qle_bool_iff in H. congruence.
Qed.

Lemma this_Q2Qc (q : Q) : (this (Q2Qc q) == q)%Q.
Proof. simpl. apply Qred_correct. Qed.

(** What [rounded] gives, by the size of the rounded number. *)
Lemma rounded_cases (t : FloatType) (q : Q) :
  ((- max_value t <= round_to t q <= max_value t)%Q
   /\ rounded t q = Fin (Q2Qc (round_to t q)))
  \/ ((max_value t < round_to t q)%Q /\ rounded t q = PInf)
  \/ ((round_to t q < - max_value t)%Q /\ rounded t q = NInf).
Proof.
  unfold rounded. cbv zeta. pose proof (max_value_pos t) as Hmax.
  destruct (Qle_bool (round_to t q) (max_value t)) eqn:E1.
  - apply Qle_bool_iff in E1.
    destruct (Qle_bool (- max_value t) (round_to t q)) eqn:E2.
    + apply Qle_bool_iff in E2. left. split; [split; assumption | reflexivity].
    + apply Qle_bool_false_inv in E2. right. right. split; [exact E2 | reflexivity].
  - apply Qle_bool_false_inv in E1. right. left. split; [exact E1 | reflexivity].
Qed.

Lemma rounded_inside (t : FloatType) (q : Q) :
  (- max_value t <= q <= max_value t)%Q -> rounded t q = Fin (Q2Qc (round_to t q)).
Proof.
  intros H. pose proof (round_to_inside t q H) as Hr.
  destruct (rounded_cases t q) as [[_ E] | [[H1 _] | [H1 _]]]; [exact E | lra | lra].
Qed.

Lemma rounded_exact (t : FloatType) (q : Qc) :
  representable t q -> rounded t q = Fin q.
Proof.
  intros [Hr Hq]. pose proof (max_value_pos t).
  rewrite rounded_inside.
  - f_equal. apply Qc_is_canon. rewrite this_Q2Qc. exact Hr.
  - apply Qabs_Qle_condition. exact Hq.
Qed.

Lemma rounded_comp (t : FloatType) (x y : Q) : (x == y)%Q -> rounded t x = rounded t y.
Proof.
  intros H. pose proof (round_to_comp t x y H) as Hr. pose proof (max_value_pos t) as Hmax.
  destruct (rounded_cases t x) as [[Hx ->] | [[Hx ->] | [Hx ->]]];
    destruct (rounded_cases t y) as [[Hy ->] | [[Hy ->] | [Hy ->]]];
    try reflexivity; try lra.
  f_equal. apply Qc_is_canon. rewrite !this_Q2Qc. exact Hr.
Qed.

Lemma rounded_0 (t : FloatType) : rounded t 0 = Fin 0%Qc.
Proof.
  pose proof (max_value_pos t). rewrite rounded_inside by lra.
  f_equal. apply Qc_is_canon. rewrite this_Q2Qc. apply round_to_0.
Qed.

Lemma rounded_le (t : FloatType) (x y : Q) :
  (x <= y)%Q -> fp_leb (rounded t x) (rounded t y) = true.
Proof.
  intros H. pose proof (round_to_le t x y H) as Hr. pose proof (max_value_pos t) as Hmax.
  destruct (rounded_cases t x) as [[Hx ->] | [[Hx ->] | [Hx ->]]];
    destruct (rounded_cases t y) as [[Hy ->] | [[Hy ->] | [Hy ->]]];
    simpl; try reflexivity; try lra.
  apply Qle_bool_true. rewrite !Qred_correct. exact Hr.
Qed.

Lemma rounded_opp (t : FloatType) (q : Q) : rounded t (- q) = fp_neg (rounded t q).
Proof.
  pose proof (round_to_opp t q) as Hr. pose proof (max_value_pos t) as Hmax.
  destruct (rounded_cases t q) as [[Hx ->] | [[Hx ->] | [Hx ->]]];
    destruct (rounded_cases t (- q)) as [[Hy ->] | [[Hy ->] | [Hy ->]]];
    simpl; try reflexivity; try lra.
  f_equal. apply Qc_is_canon. simpl. rewrite !Qred_correct. exact Hr.
Qed.

Lemma rounded_not_NaN (t : FloatType) (q : Q) : rounded t q <> NaN.
Proof.
  destruct (rounded_cases t q) as [[_ ->] | [[_ ->] | [_ ->]]]; discriminate.
Qed.

Lemma rounded_nonneg (t : FloatType) (q : Q) :
  (0 <= q)%Q -> fp_leb (Fin 0%Qc) (rounded t q) = true.
Proof. intros H. rewrite <- (rounded_0 t). apply rounded_le. exact H. Qed.

Lemma fp_leb_refl (x : floating) : x <> NaN -> fp_leb x x = true.
Proof.
  destruct x as [q | | |]; intros H; try reflexivity; [| contradiction].
  simpl. apply Qle_bool_true. apply Qle_refl.
Qed.

Lemma fp_leb_trans (x y z : floating) :
  fp_leb x y = true -> fp_leb y z = true -> fp_leb x z = true.
Proof.
  destruct x as [a | | |], y as [b | | |], z as [c | | |]; simpl;
    intros H1 H2; try reflexivity; try discriminate.
  apply Qle_bool_iff in H1, H2. apply Qle_bool_true. lra.
Qed.

Lemma fp_leb_total (x y : floating) :
  x <> NaN -> y <> NaN -> fp_leb x y = false -> fp_leb y x = true.
Proof.
  destruct x as [a | | |], y as [b | | |]; simpl; intros Hx Hy H;
    try reflexivity; try discriminate; try contradiction.
  apply Qle_bool_false_inv in H. apply Qle_bool_true. lra.
Qed.

Lemma fp_leb_not_NaN (x y : floating) : fp_leb x y = true -> x <> NaN /\ y <> NaN.
Proof. destruct x, y; simpl; intros H; split; discriminate. Qed.

Lemma fp_leb_neg (x y : floating) : fp_leb x y = fp_geb (fp_neg x) (fp_neg y).
Proof.
  unfold fp_geb. destruct x as [a | | |], y as [b | | |]; simpl; try reflexivity.
  destruct (Qle_bool (this a) (this b)) eqn:E.
  - symmetry. apply Qle_bool_iff in E. apply Qle_bool_true. rewrite !Qred_correct. lra.
  - symmetry. apply Qle_bool_false_inv in E. apply Qle_bool_false. rewrite !Qred_correct. lra.
Qed.

Lemma fp_neg_neg (x : floating) : fp_neg (fp_neg x) = x.
Proof. destruct x as [q | | |]; simpl; try reflexivity. f_equal. ring. Qed.

Lemma fp_add_neg (t : FloatType) (x p : floating) :
  fp_add t x p = fp_neg (fp_sub t (fp_neg x) p).
Proof.
  destruct x as [a | | |], p as [b | | |]; simpl; try reflexivity.
  rewrite <- rounded_opp. apply rounded_comp. rewrite Qred_correct. ring.
Qed.

Lemma fp_neg_max (t : FloatType) : fp_neg (fp_max t) = fp_lowest t.
Proof.
  unfold fp_max, fp_lowest. simpl. f_equal. apply Qc_is_canon. simpl.
  rewrite !Qred_correct. reflexivity.
Qed.

(** ** [WriteSamples] and [clamp_cast] *)

Lemma nth_loop_insert {A : Type} (f : nat -> A) (d : A) (n lo : nat) (l : list A) (i : nat) :
  (lo + n <= length l)%nat ->
  nth i (loop n lo (fun k l => <[ k := f k ]> l) l) d =
  if ((lo <=? i) && (i <? lo + n))%nat then f i else nth i l d.
Proof.
  revert lo l. induction n as [| n IH]; intros lo l Hlen; simpl.
  - replace ((lo <=? i) && (i <? lo + 0))%nat with false; [reflexivity |].
    symmetry. apply andb_false_iff.
    destruct (Nat.leb_spec lo i); [right; apply Nat.ltb_ge; lia | left; reflexivity].
  - rewrite IH by (rewrite length_insert; lia).
    destruct (Nat.lt_trichotomy i lo) as [Hlt | [Heq | Hgt]].
    + replace (S lo <=? i)%nat with false by (symmetry; apply Nat.leb_gt; lia).
      replace (lo <=? i)%nat with false by (symmetry; apply Nat.leb_gt; lia).
      simpl. rewrite !nth_lookup, list_lookup_insert_ne by lia. reflexivity.
    + subst i.
      replace (S lo <=? lo)%nat with false by (symmetry; apply Nat.leb_gt; lia).
      replace (lo <=? lo)%nat with true by (symmetry; apply Nat.leb_le; lia).
      replace (lo <? lo + S n)%nat with true by (symmetry; apply Nat.ltb_lt; lia).
      simpl. apply nth_lookup_Some, list_lookup_insert_eq. lia.
    + replace (S lo <=? i)%nat with true by (symmetry; apply Nat.leb_le; lia).
      replace (lo <=? i)%nat with true by (symmetry; apply Nat.leb_le; lia).
      replace (i <? S lo + n)%nat with (i <? lo + S n)%nat by (f_equal; lia).
      simpl. destruct (i <? lo + S n)%nat; [reflexivity |].
      rewrite !nth_lookup, list_lookup_insert_ne by lia. reflexivity.
Qed.

Lemma Qtruncate_between (lo hi : Z) (v : Q) :
  (inject_Z lo <= v)%Q -> (v <= inject_Z hi)%Q -> lo <= Qtruncate v <= hi.
Proof.
  unfold Qle, Qtruncate. destruct v as [n d]. simpl. intros Hlo Hhi.
  rewrite Z.mul_1_r in *.
  split.
  - rewrite <- (Z.quot_mul lo (Z.pos d)) by lia. apply Z.quot_le_mono; lia.
  - rewrite <- (Z.quot_mul hi (Z.pos d)) by lia. apply Z.quot_le_mono; lia.
Qed.

Lemma clamp_between (lo hi mid v : Q) :
  (lo < hi)%Q -> ((lo <= v <= hi)%Q -> (lo <= mid <= hi)%Q) ->
  let r := if Qle_bool hi v then hi else if Qle_bool v lo then lo else mid in
  ((hi < v)%Q -> r = hi) /\ ((v < lo)%Q -> r = lo) /\ (lo <= r <= hi)%Q.
Proof.
  intros Hord Hmid. cbv zeta.
  destruct (Qle_bool hi v) eqn:E1.
  - apply Qle_bool_iff in E1. split; [reflexivity |]. split; [intros H; lra | lra].
  - apply Qle_bool_false_inv in E1. destruct (Qle_bool v lo) eqn:E2.
    + apply Qle_bool_iff in E2. split; [intros H; lra |]. split; [reflexivity | lra].
    + apply Qle_bool_false_inv in E2. split; [intros H; lra |]. split; [intros H; lra |].
      apply Hmid. lra.
Qed.

Lemma type_range_ordered (T : DataType) : (fst (type_range T) < snd (type_range T))%Q.
Proof. destruct T; reflexivity. Qed.

(** What a value inside the range of the type converts to. *)
Lemma clamp_inside (T : DataType) (v : Q) :
  (fst (type_range T) <= v <= snd (type_range T))%Q ->
  (fst (type_range T)
   <= match float_of T with
      | Some t => round_to t v
      | None => inject_Z (Qtruncate v)
      end
   <= snd (type_range T))%Q.
Proof.
  intros H.
  assert (Hint : forall a b : Z, (inject_Z a <= v <= inject_Z b)%Q ->
                   (inject_Z a <= inject_Z (Qtruncate v) <= inject_Z b)%Q).
  { intros a b [Ha Hb]. rewrite <- !Zle_Qle. apply Qtruncate_between; assumption. }
  destruct T; cbn [type_range float_of fst snd] in *;
    first [apply Hint; exact H | apply round_to_inside; exact H].
Qed.

(** C6.  Every sample type has a least value [lo] and a largest value [hi]:
    a value above [hi] converts to [hi]; a value below [lo] converts to
    [lo], but for the binary type; every value converts to a value between
    [lo] and [hi], so nothing wraps around; 300 converts to 255 as [uint8];
    the binary type takes every non-zero value to true; the conversion is a
    total function (it raises no error), and [WriteSamples] applies it to
    each of the [n] samples. *)
Theorem clamp_cast_saturates (T : DataType) (v : Q) :
  let lo := fst (type_range T) in
  let hi := snd (type_range T) in
  ((hi < v)%Q -> clamp_cast T v = hi)
  /\ (T <> DT_BIN -> (v < lo)%Q -> clamp_cast T v = lo)
  /\ (lo <= clamp_cast T v <= hi)%Q
  /\ (~ (v == 0)%Q -> clamp_cast DT_BIN v = inject_Z 1)
  /\ clamp_cast DT_UINT8 (inject_Z 300) = inject_Z 255
  /\ forall (src dest : list Q) (n i : nat),
       (i < n)%nat -> (n <= length dest)%nat ->
       nth i (WriteSamples T src dest n) 0%Q = clamp_cast T (nth i src 0%Q).
Proof.
  cbv zeta.
  assert (Hbin : ~ (v == 0)%Q -> clamp_cast DT_BIN v = inject_Z 1).
  { intros Hv. unfold clamp_cast. destruct (Qeq_bool v 0) eqn:E; [| reflexivity].
    apply Qeq_bool_iff in E. contradiction. }
  assert (Hgen : T <> DT_BIN ->
                 clamp_cast T v
                 = if Qle_bool (snd (type_range T)) v then snd (type_range T)
                   else if Qle_bool v (fst (type_range T)) then fst (type_range T)
                   else match float_of T with
                        | Some t => round_to t v
                        | None => inject_Z (Qtruncate v)
                        end).
  { intros HT. destruct T; try reflexivity. contradiction. }
  assert (Hw : forall (src dest : list Q) (n i : nat),
             (i < n)%nat -> (n <= length dest)%nat ->
             nth i (WriteSamples T src dest n) 0%Q = clamp_cast T (nth i src 0%Q)).
  { intros src dest n i Hi Hn. unfold WriteSamples.
    rewrite (nth_loop_insert (fun k => clamp_cast T (nth k src 0%Q))) by lia.
    replace ((0 <=? i) && (i <? 0 + n))%nat with true; [reflexivity |].
    symmetry. apply andb_true_iff. split; [apply Nat.leb_le | apply Nat.ltb_lt]; lia. }
  destruct (DataType_eqb T DT_BIN) eqn:ET.
  - assert (T = DT_BIN) by (destruct T; try discriminate ET; reflexivity). subst T.
    cbn [type_range fst snd].
    split; [intros Hv; apply Hbin; intros H0; rewrite H0 in Hv; discriminate Hv |].
    split; [intros HT; contradiction |].
    split; [| split; [exact Hbin | split; [reflexivity | exact Hw]]].
    unfold clamp_cast. destruct (Qeq_bool v 0); split; discriminate.
  - assert (HT : T <> DT_BIN) by (intros ->; discriminate ET).
    rewrite (Hgen HT).
    destruct (clamp_between (fst (type_range T)) (snd (type_range T))
                (match float_of T with
                 | Some t => round_to t v
                 | None => inject_Z (Qtruncate v)
                 end) v (type_range_ordered T) (clamp_inside T v)) as (H1 & H2 & H3).
    split; [exact H1 |]. split; [intros _; exact H2 |]. split; [exact H3 |].
    split; [exact Hbin |]. split; [reflexivity | exact Hw].
Qed.

Lemma clamp_cast_saturates_witness :
  clamp_cast DT_SINT16 (- (100000 # 3)) = inject_Z (- 2 ^ 15)
  /\ clamp_cast DT_SINT16 (100000 # 3) = inject_Z (2 ^ 15 - 1)
  /\ clamp_cast DT_SFLOAT (inject_Z (10 ^ 40)) = max_value SFLOAT.
Proof.
  destruct (clamp_cast_saturates DT_SINT16 (- (100000 # 3))) as (_ & Hlow & _).
  destruct (clamp_cast_saturates DT_SINT16 (100000 # 3)) as (Hhigh & _).
  destruct (clamp_cast_saturates DT_SFLOAT (inject_Z (10 ^ 40))) as (Hfloat & _).
  split; [apply Hlow; [discriminate | reflexivity] |].
  split; [apply Hhigh; reflexivity | apply Hfloat; reflexivity].
Defined.

(** Values in range lose their fraction, or the digits that the format does
    not keep; the conversions of the spec. *)
Example clamp_cast_examples :
  clamp_cast DT_UINT8 (inject_Z 300) = inject_Z 255
  /\ clamp_cast DT_UINT8 (inject_Z (-7)) = inject_Z 0
  /\ clamp_cast DT_UINT8 (7 # 2) = inject_Z 3
  /\ clamp_cast DT_SINT8 (- (7 # 2)) = inject_Z (-3)
  /\ clamp_cast DT_BIN (- (1 # 3)) = inject_Z 1
  /\ (clamp_cast DT_SFLOAT (1 # 10) == 13421773 # 134217728)%Q
  /\ (clamp_cast DT_DFLOAT (- inject_Z (10 ^ 400)) == - max_value DFLOAT)%Q
  /\ WriteSamples DT_UINT8 [inject_Z 300; inject_Z (-1); 5 # 2] [0; 0; 0]%Q 3
     = [inject_Z 255; inject_Z 0; inject_Z 2].
Proof. repeat split; vm_compute; reflexivity. Qed.

(** ** Parabolic dilation of a line with one spike

    First for any sample type whose order and arithmetic behave as the
    hypotheses of the section say, then for real samples. *)

Section Spike.

Variable TPI : Type.
Variables sub mul : TPI -> TPI -> TPI.
Variable geb : TPI -> TPI -> bool.
Variable lowest : TPI.
Variable of_sint : Z -> TPI.
Variables lambda h zero : TPI.
Variables n p : nat.

Local Abbreviation pen := (pen TPI mul of_sint lambda).
Local Abbreviation spike_value := (spike_value TPI sub mul of_sint lambda h).
Local Abbreviation alive := (alive TPI sub mul geb of_sint lambda h zero).
Local Abbreviation closed_form := (closed_form TPI sub mul geb of_sint lambda h zero).
Local Abbreviation left_form := (left_form TPI sub mul geb of_sint lambda h zero p).
Local Abbreviation left_index := (left_index TPI sub mul geb of_sint lambda h zero p).
Local Abbreviation final_form := (final_form TPI sub mul geb of_sint lambda h zero p).
Local Abbreviation right_index := (right_index TPI sub mul geb of_sint lambda h zero p).


(** What the proofs use of the order and the arithmetic of the sample type;
a floating-point type has it for numbers that are no NaN. *)
Hypothesis zero_refl : geb zero zero = true.
Hypothesis geb_trans : forall x y z, geb x y = true -> geb y z = true -> geb x z = true.
Hypothesis spike_total : forall k, 0 <= k < Z.of_nat n ->
geb zero (spike_value k) = false -> geb (spike_value k) zero = true.
Hypothesis no_penalty_spike : sub h (pen 0) = h.
Hypothesis no_penalty_zero : sub zero (pen 0) = zero.
Hypothesis background : forall j, 0 < Z.abs j < Z.of_nat n ->
geb zero (sub zero (pen j)) = true.
Hypothesis zero_above_lowest : geb zero lowest = true.
Hypothesis spike_above : geb zero h = false.
Hypothesis decreasing : forall j k, 0 <= j <= k -> k < Z.of_nat n ->
geb (spike_value j) (spike_value k) = true.

Lemma pen_opp (j : Z) : pen (- j) = pen j.
Proof. unfold pen, smul. do 3 f_equal. ring. Qed.

Lemma spike_value_0 : spike_value 0 = h.
Proof. apply no_penalty_spike. Qed.

Lemma closed_form_0 : closed_form 0 = h.
Proof. unfold closed_form. rewrite spike_value_0, spike_above. reflexivity. Qed.


Lemma alive_mono (j k : Z) :
0 <= j <= k -> k < Z.of_nat n -> alive k = true -> alive j = true.
Proof.
unfold alive. intros Hjk Hk Hal. apply negb_true_iff in Hal. apply negb_true_iff.
destruct (geb zero (spike_value j)) eqn:E; [| reflexivity].
rewrite <- Hal. symmetry. eapply geb_trans; [exact E | apply decreasing; assumption].
Qed.

Lemma closed_form_alive (k : Z) : alive k = true -> closed_form k = spike_value k.
Proof. unfold alive, closed_form. intros H. apply negb_true_iff in H. rewrite H. reflexivity. Qed.

Lemma closed_form_dead (k : Z) : alive k = false -> closed_form k = zero.
Proof. unfold alive, closed_form. intros H. apply negb_false_iff in H. rewrite H. reflexivity. Qed.

Lemma closed_form_decreasing (k : Z) :
0 <= k -> k + 1 < Z.of_nat n -> geb (closed_form k) (closed_form (k + 1)) = true.
Proof.
intros Hk Hn. destruct (alive (k + 1)) eqn:E1.
- rewrite (closed_form_alive _ E1), (closed_form_alive k).
+ apply decreasing; lia.
+ apply (alive_mono k (k + 1)); [lia | lia | exact E1].
- rewrite (closed_form_dead _ E1). destruct (alive k) eqn:E0.
+ rewrite (closed_form_alive _ E0). apply spike_total; [lia |].
unfold alive in E0. apply negb_true_iff in E0. exact E0.
+ rewrite (closed_form_dead _ E0). apply zero_refl.
Qed.

(** The rounds of the inner loop over background samples, the last one at
offset 0: they leave a best value above the background alone. *)
Lemma search_background_alive (get : Z -> TPI) (step : Z) (m : nat) (best : TPI) (index : Z) :
step = 1 \/ step = -1 ->
Z.of_nat m <= Z.of_nat n ->
(forall t, 0 <= t < Z.of_nat m -> get (- step * t) = zero) ->
geb zero best = false ->
search TPI mul of_sint geb sub lambda get step m (- step * (Z.of_nat m - 1)) best index
= (best, index).
Proof.
intros Hstep. revert best index. induction m as [| m IH]; intros best index Hm Hget Hbest.
- reflexivity.
- cbn [search].
rewrite Hget by lia.
set (jj := - step * (Z.of_nat (S m) - 1)).
fold (pen jj). set (val := sub zero (pen jj)).
assert (Hval : geb val best = false).
{ destruct (geb val best) eqn:E; [| reflexivity].
rewrite <- Hbest. symmetry.
destruct (Z.eq_dec (Z.of_nat m) 0) as [H0 | H0].
- unfold val in E. replace jj with 0 in E by (unfold jj; lia).
  rewrite no_penalty_zero in E. exact E.
- eapply geb_trans; [| exact E]. apply background. unfold jj. lia. }
rewrite Hval.
replace (jj + step) with (- step * (Z.of_nat m - 1))
by (unfold jj; destruct Hstep; subst; lia).
apply IH; [lia | intros t Ht; apply Hget; lia | exact Hbest].
Qed.

(** ... and they end on the background, at offset 0, when the best value so
far does not exceed it. *)
Lemma search_background_dead (get : Z -> TPI) (step : Z) (m : nat) (best : TPI) (index : Z) :
step = 1 \/ step = -1 ->
(0 < m)%nat ->
Z.of_nat m <= Z.of_nat n ->
(forall t, 0 <= t < Z.of_nat m -> get (- step * t) = zero) ->
geb zero best = true ->
search TPI mul of_sint geb sub lambda get step m (- step * (Z.of_nat m - 1)) best index
= (zero, 0).
Proof.
intros Hstep. revert best index. induction m as [| m IH]; intros best index Hpos Hm Hget Hbest.
- lia.
- cbn [search]. rewrite Hget by lia.
destruct (Z.eq_dec (Z.of_nat m) 0) as [H0 | H0].
+ assert (m = 0%nat) by lia. subst m.
replace (- step * (Z.of_nat 1 - 1)) with 0 by lia.
fold (pen 0). rewrite no_penalty_zero, Hbest. reflexivity.
+ replace (- step * (Z.of_nat (S m) - 1) + step) with (- step * (Z.of_nat m - 1))
  by (destruct Hstep; subst; lia).
set (jj := - step * (Z.of_nat (S m) - 1)).
fold (pen jj). set (val := sub zero (pen jj)).
destruct (geb val best) eqn:E.
* apply IH; [lia | lia | intros t Ht; apply Hget; lia |].
  apply background. unfold jj. lia.
* apply IH; [lia | lia | intros t Ht; apply Hget; lia | exact Hbest].
Qed.

(** The inner loop at distance [k] from the spike, when the window reaches
back to the spike. *)
Lemma search_spike (get : Z -> TPI) (step : Z) (k : nat) :
step = 1 \/ step = -1 ->
(0 < k)%nat -> Z.of_nat k < Z.of_nat n ->
get (- step * Z.of_nat k) = h ->
(forall t, 0 <= t < Z.of_nat k -> get (- step * t) = zero) ->
search TPI mul of_sint geb sub lambda get step (S k) (- step * Z.of_nat k)
   lowest (- step * Z.of_nat k)
= (closed_form (Z.of_nat k),
 if alive (Z.of_nat k) then - step * Z.of_nat k else 0).
Proof.
intros Hstep Hk Hn Hspike Hzero. cbn [search]. rewrite Hspike.
assert (Hpen : pen (- step * Z.of_nat k) = pen (Z.of_nat k)).
{ destruct Hstep as [-> | ->].
- replace (- (1) * Z.of_nat k) with (- Z.of_nat k) by lia. apply pen_opp.
- f_equal. lia. }
fold (pen (- step * Z.of_nat k)). rewrite Hpen. fold (spike_value (Z.of_nat k)).
replace (- step * Z.of_nat k + step) with (- step * (Z.of_nat k - 1))
by (destruct Hstep; subst; lia).
destruct (geb (spike_value (Z.of_nat k)) lowest) eqn:Elow.
- destruct (alive (Z.of_nat k)) eqn:E.
+ rewrite (closed_form_alive _ E).
apply search_background_alive; [exact Hstep | lia | exact Hzero |].
unfold alive in E. apply negb_true_iff in E. exact E.
+ rewrite (closed_form_dead _ E).
apply search_background_dead; [exact Hstep | exact Hk | lia | exact Hzero |].
unfold alive in E. apply negb_false_iff in E. exact E.
- (* the candidate of the spike is below [lowest]: the background wins *)
assert (E : alive (Z.of_nat k) = false).
{ unfold alive. apply negb_false_iff.
destruct (geb zero (spike_value (Z.of_nat k))) eqn:E0; [reflexivity |].
rewrite <- Elow.
eapply geb_trans; [apply spike_total; [lia | exact E0] | exact zero_above_lowest]. }
rewrite E, (closed_form_dead _ E).
apply search_background_dead; [exact Hstep | exact Hk | lia | exact Hzero |].
exact zero_above_lowest.
Qed.


Variable input : list TPI.
Hypothesis input_length : length input = n.
Hypothesis input_spike : forall i, (i < n)%nat ->
nth i input lowest = if (i =? p)%nat then h else zero.
Hypothesis spike_inside : (p < n)%nat.



Lemma spike_over : geb h zero = true.
Proof. rewrite <- spike_value_0. apply spike_total; [lia |]. rewrite spike_value_0. exact spike_above. Qed.

Lemma sample_nat (l : list TPI) (i : nat) : sample TPI lowest l (Z.of_nat i) = nth i l lowest.
Proof. unfold sample. rewrite Nat2Z.id. reflexivity. Qed.

Lemma first_pass_round (ii : nat) (buf : list TPI) :
(1 <= ii)%nat -> (ii < n)%nat ->
nth (ii - 1) buf lowest = left_form (ii - 1) ->
(if geb (sample TPI lowest input (Z.of_nat ii)) (sample TPI lowest buf (Z.of_nat ii - 1))
 then (sample TPI lowest input (Z.of_nat ii), 0)
 else search TPI mul of_sint geb sub lambda
         (fun jj => sample TPI lowest input (Z.of_nat ii + jj)) 1
         (Z.to_nat (0 - (left_index (ii - 1) - 1) + 1)) (left_index (ii - 1) - 1)
         lowest (left_index (ii - 1) - 1))
= (left_form ii, left_index ii).
Proof.
intros H1 Hn Hbuf.
replace (Z.of_nat ii - 1) with (Z.of_nat (ii - 1)) by lia.
rewrite !sample_nat, Hbuf, input_spike by lia.
unfold left_form, left_index.
destruct (Nat.lt_trichotomy ii p) as [Hlt | [Heq | Hgt]].
- (* left of the spike *)
replace (ii =? p)%nat with false by (symmetry; apply Nat.eqb_neq; lia).
replace (ii - 1 <? p)%nat with true by (symmetry; apply Nat.ltb_lt; lia).
replace (ii <? p)%nat with true by (symmetry; apply Nat.ltb_lt; lia).
rewrite zero_refl. reflexivity.
- (* at the spike *)
subst ii.
rewrite Nat.eqb_refl, Nat.ltb_irrefl.
replace (p - 1 <? p)%nat with true by (symmetry; apply Nat.ltb_lt; lia).
rewrite spike_over.
replace (Z.of_nat p - Z.of_nat p) with 0 by lia.
rewrite closed_form_0. unfold alive. rewrite spike_value_0, spike_above. reflexivity.
- (* right of the spike, at distance k *)
replace (ii =? p)%nat with false by (symmetry; apply Nat.eqb_neq; lia).
replace (ii - 1 <? p)%nat with false by (symmetry; apply Nat.ltb_ge; lia).
replace (ii <? p)%nat with false by (symmetry; apply Nat.ltb_ge; lia).
set (k := (ii - p)%nat).
replace (Z.of_nat (ii - 1) - Z.of_nat p) with (Z.of_nat k - 1) by lia.
replace (Z.of_nat ii - Z.of_nat p) with (Z.of_nat k) by lia.
destruct (alive (Z.of_nat k - 1)) eqn:Eprev.
+ rewrite (closed_form_alive _ Eprev).
pose proof Eprev as Hdom. unfold alive in Hdom. apply negb_true_iff in Hdom.
rewrite Hdom.
replace (0 - (- (Z.of_nat k - 1) - 1) + 1) with (Z.of_nat (S k)) by lia.
rewrite Nat2Z.id.
replace (- (Z.of_nat k - 1) - 1) with (- (1) * Z.of_nat k) by lia.
rewrite search_spike.
* replace (- (1) * Z.of_nat k) with (- Z.of_nat k) by lia. reflexivity.
* left. reflexivity.
* lia.
* lia.
* replace (Z.of_nat ii + - (1) * Z.of_nat k) with (Z.of_nat p) by lia.
  rewrite sample_nat, input_spike, Nat.eqb_refl by lia. reflexivity.
* intros t Ht.
  replace (Z.of_nat ii + - (1) * t) with (Z.of_nat (ii - Z.to_nat t)) by lia.
  rewrite sample_nat, input_spike by lia.
  replace (ii - Z.to_nat t =? p)%nat with false by (symmetry; apply Nat.eqb_neq; lia).
  reflexivity.
+ rewrite (closed_form_dead _ Eprev), zero_refl.
assert (Ek : alive (Z.of_nat k) = false).
{ destruct (alive (Z.of_nat k)) eqn:E; [| reflexivity].
  rewrite <- Eprev. symmetry.
  apply (alive_mono (Z.of_nat k - 1) (Z.of_nat k)); [lia | lia | exact E]. }
rewrite (closed_form_dead _ Ek), Ek. reflexivity.
Qed.

Lemma first_pass_spec (rounds ii : nat) (buf : list TPI) :
(1 <= ii)%nat -> (ii + rounds = n)%nat ->
length buf = ii ->
(forall i, (i < ii)%nat -> nth i buf lowest = left_form i) ->
let result := first_pass TPI mul lowest of_sint geb sub lowest lambda input rounds ii buf
                     (left_index (ii - 1)) in
length result = n /\ forall i, (i < n)%nat -> nth i result lowest = left_form i.
Proof.
revert ii buf. induction rounds as [| rounds IH]; intros ii buf H1 Hn Hlen Hbuf; cbv zeta.
- simpl. split; [lia |]. intros i Hi. apply Hbuf. lia.
- cbn [first_pass].
rewrite first_pass_round by (try lia; apply Hbuf; lia).
cbn [fst snd].
replace (left_index ii) with (left_index (S ii - 1)) by (f_equal; lia).
apply IH.
+ lia.
+ lia.
+ rewrite length_app. simpl. lia.
+ intros i Hi. destruct (Nat.eq_dec i ii) as [-> | Hne].
* rewrite <- Hlen. rewrite nth_middle. reflexivity.
* rewrite app_nth1 by lia. apply Hbuf. lia.
Qed.



Lemma second_pass_round (q : nat) (buf out : list TPI) :
(q + 1 < n)%nat ->
(forall i, (i < n)%nat -> nth i buf lowest = left_form i) ->
nth 0 out lowest = final_form (q + 1) ->
(if geb (sample TPI lowest buf (Z.of_nat q)) (sample TPI lowest out 0)
 then (sample TPI lowest buf (Z.of_nat q), 0)
 else search TPI mul of_sint geb sub lambda
         (fun jj => sample TPI lowest buf (Z.of_nat q + jj)) (-1)
         (Z.to_nat (right_index (q + 1) + 1 + 1)) (right_index (q + 1) + 1)
         lowest (right_index (q + 1) + 1))
= (final_form q, right_index q).
Proof.
intros Hn Hbuf Hout.
change 0 with (Z.of_nat 0) at 1. rewrite !sample_nat, Hout, Hbuf by lia.
unfold left_form, final_form, right_index.
destruct (Nat.lt_ge_cases q p) as [Hlt | Hge].
- (* left of the spike, at distance k *)
replace (q <? p)%nat with true by (symmetry; apply Nat.ltb_lt; lia).
replace (p <? q + 1)%nat with false by (symmetry; apply Nat.ltb_ge; lia).
replace (p <? q)%nat with false by (symmetry; apply Nat.ltb_ge; lia).
set (k := (p - q)%nat).
replace (Z.abs (Z.of_nat (q + 1) - Z.of_nat p)) with (Z.of_nat k - 1) by lia.
replace (Z.abs (Z.of_nat q - Z.of_nat p)) with (Z.of_nat k) by lia.
replace (Z.of_nat p - Z.of_nat (q + 1)) with (Z.of_nat k - 1) by lia.
replace (Z.of_nat p - Z.of_nat q) with (Z.of_nat k) by lia.
destruct (alive (Z.of_nat k - 1)) eqn:Eprev.
+ rewrite (closed_form_alive _ Eprev).
pose proof Eprev as Hdom. unfold alive in Hdom. apply negb_true_iff in Hdom.
rewrite Hdom.
replace (Z.of_nat k - 1 + 1 + 1) with (Z.of_nat (S k)) by lia.
rewrite Nat2Z.id.
replace (Z.of_nat k - 1 + 1) with (- (-1) * Z.of_nat k) by lia.
rewrite search_spike.
* replace (- (-1) * Z.of_nat k) with (Z.of_nat k) by lia. reflexivity.
* right. reflexivity.
* lia.
* lia.
* replace (Z.of_nat q + - (-1) * Z.of_nat k) with (Z.of_nat p) by lia.
  rewrite sample_nat, Hbuf by lia. unfold left_form.
  rewrite Nat.ltb_irrefl.
  replace (Z.of_nat p - Z.of_nat p) with 0 by lia. apply closed_form_0.
* intros t Ht.
  replace (Z.of_nat q + - (-1) * t) with (Z.of_nat (q + Z.to_nat t)) by lia.
  rewrite sample_nat, Hbuf by lia. unfold left_form.
  replace (q + Z.to_nat t <? p)%nat with true by (symmetry; apply Nat.ltb_lt; lia).
  reflexivity.
+ rewrite (closed_form_dead _ Eprev), zero_refl.
assert (Ek : alive (Z.of_nat k) = false).
{ destruct (alive (Z.of_nat k)) eqn:E; [| reflexivity].
  rewrite <- Eprev. symmetry.
  apply (alive_mono (Z.of_nat k - 1) (Z.of_nat k)); [lia | lia | exact E]. }
rewrite (closed_form_dead _ Ek), Ek. reflexivity.
- (* at the spike or right of it *)
replace (q <? p)%nat with false by (symmetry; apply Nat.ltb_ge; lia).
replace (Z.abs (Z.of_nat (q + 1) - Z.of_nat p)) with (Z.of_nat q - Z.of_nat p + 1) by lia.
replace (Z.abs (Z.of_nat q - Z.of_nat p)) with (Z.of_nat q - Z.of_nat p) by lia.
rewrite closed_form_decreasing by lia.
f_equal.
destruct (Nat.ltb_spec p q) as [Hpq | Hpq]; [reflexivity |].
assert (q = p) by lia. subst q.
replace (Z.of_nat p - Z.of_nat p) with 0 by lia.
destruct (alive 0); reflexivity.
Qed.

Lemma second_pass_spec (buf : list TPI) (rounds : nat) (out : list TPI) :
(forall i, (i < n)%nat -> nth i buf lowest = left_form i) ->
(rounds < n)%nat ->
length out = (n - rounds)%nat ->
(forall t, (t < length out)%nat -> nth t out lowest = final_form (rounds + t)) ->
let result := second_pass TPI mul lowest of_sint geb sub lowest lambda buf rounds
                      (rounds - 1) out (right_index rounds) in
length result = n /\ forall i, (i < n)%nat -> nth i result lowest = final_form i.
Proof.
intros Hbuf. revert out. induction rounds as [| rounds IH]; intros out Hn Hlen Hout; cbv zeta.
- simpl. split; [lia |]. intros i Hi. apply (Hout i). lia.
- cbn [second_pass].
replace (S rounds - 1)%nat with rounds by lia.
replace (right_index (S rounds)) with (right_index (rounds + 1)) by (f_equal; lia).
rewrite second_pass_round; [| lia | exact Hbuf |].
2:{ rewrite (Hout 0%nat) by lia. f_equal. lia. }
cbn [fst snd].
apply IH.
+ lia.
+ simpl. lia.
+ intros t Ht. destruct t as [| t].
* simpl. f_equal. lia.
* simpl. simpl in Ht. rewrite (Hout t) by lia. f_equal. lia.
Qed.

(** The dilation of the spike line: [h - lambda * k * k] at distance [k] from
the spike where that exceeds the background, the background elsewhere. *)
Lemma two_passes_spike :
let result := two_passes TPI mul lowest of_sint geb sub lowest lambda input in
length result = n /\ forall i, (i < n)%nat -> nth i result lowest = final_form i.
Proof.
cbv zeta. unfold two_passes. rewrite input_length.
assert (Hidx0 : left_index (1 - 1) = 0).
{ unfold left_index. simpl. destruct (0 <? p)%nat eqn:E; [reflexivity |].
apply Nat.ltb_ge in E. replace (Z.of_nat 0 - Z.of_nat p) with 0 by lia.
destruct (alive 0); reflexivity. }
pose proof (first_pass_spec (n - 1) 1 [sample TPI lowest input 0]
          ltac:(lia) ltac:(lia) eq_refl) as Hfirst.
rewrite Hidx0 in Hfirst. cbv zeta in Hfirst.
destruct Hfirst as [Hlen1 Hbuf].
{ intros i Hi. assert (i = 0%nat) by lia. subst i. simpl.
change 0 with (Z.of_nat 0). rewrite sample_nat, input_spike by lia.
unfold left_form. destruct p as [| p'] eqn:Ep; simpl.
- symmetry. apply closed_form_0.
- reflexivity. }
set (buf := first_pass TPI mul lowest of_sint geb sub lowest lambda input (n - 1) 1
                   [sample TPI lowest input 0] 0) in *.
assert (Hidx1 : right_index (n - 1) = 0).
{ unfold right_index. destruct (Nat.ltb_spec p (n - 1)); [reflexivity |].
replace (Z.of_nat p - Z.of_nat (n - 1)) with 0 by lia.
destruct (alive 0); reflexivity. }
pose proof (second_pass_spec buf (n - 1) [sample TPI lowest buf (Z.of_nat n - 1)]
          Hbuf ltac:(lia) ltac:(simpl; lia)) as Hsecond.
rewrite Hidx1 in Hsecond. cbv zeta in Hsecond.
replace (n - 1 - 1)%nat with (n - 2)%nat in Hsecond by lia.
apply Hsecond.
intros t Ht. simpl in Ht. assert (t = 0%nat) by lia. subst t. simpl.
replace (Z.of_nat n - 1) with (Z.of_nat (n - 1)) by lia.
rewrite sample_nat, Hbuf by lia. unfold left_form, final_form.
replace (n - 1 <? p)%nat with false by (symmetry; apply Nat.ltb_ge; lia).
f_equal. lia.
Qed.

End Spike.

(** ** The inner loop keeps the last of the best candidates *)

Section SearchOrder.

Variable TPI : Type.
Variables sub mul : TPI -> TPI -> TPI.
Variable geb : TPI -> TPI -> bool.
Variable of_sint : Z -> TPI.
Variable lambda : TPI.
Variable get : Z -> TPI.
Variable step : Z.

Hypothesis geb_trans : forall x y z, geb x y = true -> geb y z = true -> geb x z = true.

Local Abbreviation val := (candidate TPI sub mul of_sint lambda get).
Local Abbreviation run := (search TPI mul of_sint geb sub lambda get step).

Lemma search_unfold (m : nat) (jj : Z) (best : TPI) (index : Z) :
run (S m) jj best index
= if geb (val jj) best then run m (jj + step) (val jj) jj
else run m (jj + step) best index.
Proof. reflexivity. Qed.

(** What is at least the value returned is at least the value the loop
started from. *)
Lemma search_above_best (m : nat) (jj : Z) (best : TPI) (index : Z) (x : TPI) :
geb x (fst (run m jj best index)) = true -> geb x best = true.
Proof.
revert jj best index. induction m as [| m IH]; intros jj best index Hx.
- exact Hx.
- rewrite search_unfold in Hx. destruct (geb (val jj) best) eqn:E.
+ eapply geb_trans; [apply (IH _ _ _ Hx) | exact E].
+ apply (IH _ _ _ Hx).
Qed.

(** The index returned is the one the loop started from or that of a round. *)
Lemma search_index (m : nat) (jj : Z) (best : TPI) (index : Z) :
snd (run m jj best index) = index \/
exists t, (t < m)%nat /\ snd (run m jj best index) = jj + step * Z.of_nat t.
Proof.
revert jj best index. induction m as [| m IH]; intros jj best index.
- left. reflexivity.
- rewrite search_unfold. destruct (geb (val jj) best) eqn:E.
+ right. destruct (IH (jj + step) (val jj) jj) as [H | [t [Ht H]]].
* exists 0%nat. split; [lia |]. rewrite H. lia.
* exists (S t). split; [lia |]. rewrite H. lia.
+ destruct (IH (jj + step) best index) as [H | [t [Ht H]]].
* left. exact H.
* right. exists (S t). split; [lia |]. rewrite H. lia.
Qed.

(** No round after the one whose index is returned had a candidate as good
as the value returned: among equal candidates the last one visited gives
the index. *)
Lemma search_keeps_last (m : nat) (jj : Z) (best : TPI) (index : Z) (t : nat) :
(t < m)%nat ->
geb (val (jj + step * Z.of_nat t)) (fst (run m jj best index)) = true ->
exists t', (t <= t' < m)%nat /\ snd (run m jj best index) = jj + step * Z.of_nat t'.
Proof.
revert jj best index t. induction m as [| m IH]; intros jj best index t Ht Hbest.
- lia.
- rewrite search_unfold in Hbest |- *.
destruct t as [| t].
+ replace (jj + step * Z.of_nat 0) with jj in Hbest by lia.
destruct (geb (val jj) best) eqn:E.
* destruct (search_index m (jj + step) (val jj) jj) as [H | [t' [Ht' H]]].
  -- exists 0%nat. split; [lia |]. rewrite H. lia.
  -- exists (S t'). split; [lia |]. rewrite H. lia.
* exfalso. apply not_true_iff_false in E. apply E.
  apply (search_above_best _ _ _ _ _ Hbest).
+ replace (jj + step * Z.of_nat (S t)) with (jj + step + step * Z.of_nat t) in Hbest by lia.
destruct (geb (val jj) best) eqn:E.
* destruct (IH _ _ _ t ltac:(lia) Hbest) as [t' [Ht' H]].
  exists (S t'). split; [lia |]. rewrite H. lia.
* destruct (IH _ _ _ t ltac:(lia) Hbest) as [t' [Ht' H]].
  exists (S t'). split; [lia |]. rewrite H. lia.
Qed.

End SearchOrder.

(** ** The filter on floating-point samples *)

Lemma square_is_sint (k : Z) : Z.abs k <= 2 ^ 31 -> is_sint (k * k).
Proof. unfold is_sint. intros H. nia. Qed.

Lemma square_below_max (t : FloatType) (z : Z) :
  0 <= z <= 2 ^ 62 -> (- max_value t <= inject_Z z <= max_value t)%Q.
Proof.
  intros Hz. pose proof (max_value_pos t) as Hmax.
  assert (H0 : (inject_Z 0 <= inject_Z z)%Q) by (rewrite <- Zle_Qle; lia).
  assert (H1 : (inject_Z z <= inject_Z (2 ^ 62))%Q) by (rewrite <- Zle_Qle; lia).
  assert (H2 : (inject_Z (2 ^ 62) <= max_value t)%Q) by (destruct t; discriminate).
  change (inject_Z 0) with 0%Q in H0. split; lra.
Qed.

Lemma not_negative_cases (x : floating) :
  not_negative x -> (exists q : Qc, x = Fin q /\ (0 <= this q)%Q) \/ x = PInf.
Proof.
  unfold not_negative. destruct x as [q | | |]; simpl; intros H; try discriminate.
  - left. exists q. split; [reflexivity |]. apply Qle_bool_iff in H. exact H.
  - right. reflexivity.
Qed.

Lemma rounded_not_negative (t : FloatType) (q : Q) : (0 <= q)%Q -> not_negative (rounded t q).
Proof. apply rounded_nonneg. Qed.

Lemma fp_leb_NInf (x : floating) : x <> NaN -> fp_leb NInf x = true.
Proof. destruct x; intros H; try reflexivity. contradiction. Qed.

Lemma fp_leb_PInf (x : floating) : x <> NaN -> fp_leb x PInf = true.
Proof. destruct x; intros H; try reflexivity. contradiction. Qed.

(** [static_cast< TPI >( jj * jj )] is a number that is not negative, and
    grows with the offset. *)
Lemma fp_of_sint_square (t : FloatType) (j : Z) :
  Z.abs j <= 2 ^ 31 ->
  fp_of_sint t (smul j j) = Fin (Q2Qc (round_to t (inject_Z (j * j)))).
Proof.
  intros Hj. unfold fp_of_sint, smul. rewrite (wrap_sint_id _ (square_is_sint j Hj)).
  apply rounded_inside. apply square_below_max. nia.
Qed.

Lemma fp_of_sint_0 (t : FloatType) : fp_of_sint t 0 = Fin 0%Qc.
Proof. unfold fp_of_sint. apply rounded_0. Qed.

Section FloatSpike.

Variable t : FloatType.
Variables l h : Qc.
Hypothesis l_nonneg : (0 <= this l)%Q.
Hypothesis h_float : representable t h.
Hypothesis h_pos : (0 < this h)%Q.

Local Abbreviation penf := (pen floating (fp_mul t) (fp_of_sint t) (Fin l)).
Local Abbreviation spike := (spike_value floating (fp_sub t) (fp_mul t) (fp_of_sint t) (Fin l) (Fin h)).

Lemma penf_eq (j : Z) :
  Z.abs j <= 2 ^ 31 ->
  penf j = rounded t (this l * round_to t (inject_Z (j * j)))%Q.
Proof.
  intros Hj. unfold pen. rewrite fp_of_sint_square by exact Hj.
  cbn [fp_mul]. apply rounded_comp. rewrite this_Q2Qc. reflexivity.
Qed.

Lemma penf_0 : penf 0 = Fin 0%Qc.
Proof.
  rewrite penf_eq by (simpl; lia). rewrite <- (rounded_0 t). apply rounded_comp.
  change (0 * 0) with 0. change (inject_Z 0) with 0%Q. rewrite round_to_0. ring.
Qed.

Lemma penf_not_negative (j : Z) : Z.abs j <= 2 ^ 31 -> not_negative (penf j).
Proof.
  intros Hj. rewrite penf_eq by exact Hj. apply rounded_not_negative.
  apply Qmult_le_0_compat; [exact l_nonneg |].
  apply round_to_nonneg. change 0%Q with (inject_Z 0). rewrite <- Zle_Qle. nia.
Qed.

Lemma penf_le (j k : Z) :
  Z.abs j <= Z.abs k -> Z.abs k <= 2 ^ 31 -> fp_leb (penf j) (penf k) = true.
Proof.
  intros Hjk Hk. rewrite !penf_eq by lia. apply rounded_le.
  assert (H : (round_to t (inject_Z (j * j)) <= round_to t (inject_Z (k * k)))%Q).
  { apply round_to_le. rewrite <- Zle_Qle. nia. }
  assert (H0 : (0 <= round_to t (inject_Z (j * j)))%Q).
  { apply round_to_nonneg. change 0%Q with (inject_Z 0). rewrite <- Zle_Qle. nia. }
  nra.
Qed.

(** A difference falls when what is taken off grows. *)
Lemma fp_sub_antitone (a : Qc) (y y' : floating) :
  fp_leb y y' = true -> fp_leb (fp_sub t (Fin a) y') (fp_sub t (Fin a) y) = true.
Proof.
  destruct y as [b | | |], y' as [b' | | |]; simpl; intros H;
    try discriminate; try reflexivity.
  - apply Qle_bool_iff in H. apply rounded_le. lra.
  - apply fp_leb_NInf. apply rounded_not_NaN.
  - apply fp_leb_PInf. apply rounded_not_NaN.
Qed.

Lemma fp_sub_number (a : Qc) (y : floating) : not_negative y -> fp_sub t (Fin a) y <> NaN.
Proof.
  intros Hy. destruct (not_negative_cases y Hy) as [(q & -> & _) | ->]; simpl.
  - apply rounded_not_NaN.
  - discriminate.
Qed.

Lemma fp_sub_0 (a : Qc) : representable t a -> fp_sub t (Fin a) (Fin 0%Qc) = Fin a.
Proof.
  intros Ha. cbn [fp_sub]. transitivity (rounded t a); [| apply rounded_exact; exact Ha].
  apply rounded_comp. change (this 0%Qc) with 0%Q. ring.
Qed.

Lemma representable_0 (t' : FloatType) : representable t' 0%Qc.
Proof.
  split.
  - apply round_to_0.
  - pose proof (max_value_pos t'). change (Qabs (this 0%Qc)) with 0%Q. lra.
Qed.

Lemma spike_number (k : Z) : Z.abs k <= 2 ^ 31 -> spike k <> NaN.
Proof. intros Hk. unfold spike_value. apply fp_sub_number. apply penf_not_negative. exact Hk. Qed.

Lemma spike_le (j k : Z) :
  Z.abs j <= Z.abs k -> Z.abs k <= 2 ^ 31 -> fp_geb (spike j) (spike k) = true.
Proof.
  intros Hjk Hk. unfold fp_geb, spike_value. apply fp_sub_antitone. apply penf_le; assumption.
Qed.

Lemma background_le (j : Z) :
  Z.abs j <= 2 ^ 31 -> fp_geb (Fin 0%Qc) (fp_sub t (Fin 0%Qc) (penf j)) = true.
Proof.
  intros Hj. unfold fp_geb.
  rewrite <- (fp_sub_0 0%Qc (representable_0 t)) at 2.
  apply fp_sub_antitone. apply penf_not_negative. exact Hj.
Qed.

Lemma fp_geb_trans (x y z : floating) :
  fp_geb x y = true -> fp_geb y z = true -> fp_geb x z = true.
Proof. unfold fp_geb. intros H1 H2. exact (fp_leb_trans _ _ _ H2 H1). Qed.

Lemma zero_above_fp_lowest : fp_geb (Fin 0%Qc) (fp_lowest t) = true.
Proof.
  unfold fp_geb, fp_lowest, fp_leb. apply Qle_bool_true. rewrite this_Q2Qc.
  change (this 0%Qc) with 0%Q. pose proof (max_value_pos t). lra.
Qed.

Lemma spike_line_length (n p : nat) (x : floating) : length (spike_line n p x) = n.
Proof. unfold spike_line. rewrite length_map, length_seq. reflexivity. Qed.

Lemma spike_line_nth (n p : nat) (x d : floating) (i : nat) :
  (i < n)%nat -> nth i (spike_line n p x) d = if (i =? p)%nat then x else Fin 0%Qc.
Proof.
  intros Hi. unfold spike_line.
  rewrite (nth_indep _ d ((fun i => if (i =? p)%nat then x else Fin 0%Qc) 0%nat))
    by (rewrite length_map, length_seq; exact Hi).
  rewrite (map_nth (fun i => if (i =? p)%nat then x else Fin 0%Qc)), seq_nth by exact Hi.
  reflexivity.
Qed.

(** The dilation of the spike line, for the [lambda] given. *)
Lemma two_passes_float_spike (n p i : nat) :
  (p < n)%nat -> Z.of_nat n <= 2 ^ 31 -> (i < n)%nat ->
  nth i (two_passes floating (fp_mul t) (fp_lowest t) (fp_of_sint t) fp_geb (fp_sub t)
           (fp_lowest t) (Fin l) (spike_line n p (Fin h))) (fp_lowest t)
  = let v := parabola t (Fin l) (Fin h) (Z.of_nat i - Z.of_nat p) in
    if fp_geb (Fin 0%Qc) v then Fin 0%Qc else v.
Proof.
  intros Hp Hn Hi.
  pose proof (two_passes_spike floating (fp_sub t) (fp_mul t) fp_geb (fp_lowest t)
                (fp_of_sint t) (Fin l) (Fin h) (Fin 0%Qc) n p) as H.
  destruct H with (input := spike_line n p (Fin h)) as [_ Hnth].
  - apply fp_leb_refl. discriminate.
  - apply fp_geb_trans.
  - intros k Hk E. unfold fp_geb in *. apply fp_leb_total; [| discriminate | exact E].
    apply spike_number. lia.
  - rewrite penf_0. apply fp_sub_0. exact h_float.
  - rewrite penf_0. apply fp_sub_0. apply representable_0.
  - intros j Hj. apply background_le. lia.
  - apply zero_above_fp_lowest.
  - unfold fp_geb. simpl. apply Qle_bool_false. exact h_pos.
  - intros j k Hjk Hk. apply spike_le; lia.
  - apply spike_line_length.
  - intros i' Hi'. apply spike_line_nth. exact Hi'.
  - exact Hp.
  - rewrite (Hnth i Hi). unfold final_form, closed_form, spike_value, pen, parabola. cbv zeta.
    set (k := Z.of_nat i - Z.of_nat p).
    assert (Hsq : smul (Z.abs k) (Z.abs k) = k * k).
    { unfold smul. rewrite wrap_sint_id by (apply square_is_sint; lia). nia. }
    rewrite Hsq. reflexivity.
Qed.

End FloatSpike.

(** [lambda] is no negative number. *)
Lemma lambda_of_not_negative (t : FloatType) (param : floating) (l : Qc) :
  lambda_of t param = Fin l -> (0 <= this l)%Q.
Proof.
  unfold lambda_of. intros H.
  assert (Hm : fp_mul DFLOAT param param = NaN \/ not_negative (fp_mul DFLOAT param param)).
  { destruct param as [s | | |]; simpl.
    - right. apply rounded_not_negative. nra.
    - right. reflexivity.
    - right. reflexivity.
    - left. reflexivity. }
  assert (Hd : fp_div DFLOAT (Fin 1%Qc) (fp_mul DFLOAT param param) = NaN
               \/ not_negative (fp_div DFLOAT (Fin 1%Qc) (fp_mul DFLOAT param param))).
  { destruct Hm as [-> | Hm]; [left; reflexivity |].
    destruct (not_negative_cases _ Hm) as [(r & -> & Hr) | ->].
    - right. cbn [fp_div]. destruct (Qeq_bool (this r) 0) eqn:E.
      + reflexivity.
      + apply rounded_not_negative. unfold Qdiv.
        apply Qmult_le_0_compat; [discriminate | apply Qinv_le_0_compat; exact Hr].
    - right. apply fp_leb_refl. discriminate. }
  destruct Hd as [Hd | Hd]; [rewrite Hd in H; discriminate H |].
  destruct (not_negative_cases _ Hd) as [(r & Hr & Hr0) | Hr]; rewrite Hr in H.
  - cbn [fp_cast] in H.
    pose proof (rounded_not_negative t (this r) Hr0) as Hnn. rewrite H in Hnn.
    unfold not_negative in Hnn. simpl in Hnn. apply Qle_bool_iff in Hnn. exact Hnn.
  - discriminate H.
Qed.

Lemma is_value_eq (x : floating) (q : Q) : is_value x q = true -> x = Fin (Q2Qc q).
Proof.
  destruct x as [a | | |]; simpl; intros H; try discriminate.
  f_equal. apply Qc_is_canon. rewrite this_Q2Qc. apply Qeq_bool_eq. exact H.
Qed.

(** C9 (amended).  Parabolic dilation of a line of floating-point samples
    that is zero but for a spike of height [h > 0] at position [p] gives, at
    every offset [k = i - p] from the spike, the value [h - lambda * k * k]
    wherever that value exceeds the background, and the background elsewhere:
    the two passes with their shortcut compute exactly these values.  The
    value is the one the sample type computes: [k * k] converted to the type,
    the product and the difference each rounded to the nearest number of the
    type, with [lambda = 1 / (sigma * sigma)] computed in [dfloat] and
    converted to the sample type.  Among the candidates
    [val - lambda * offset * offset] that tie for the maximum, the inner loop
    with its [>=] keeps the offset of the one it visits last. *)
Theorem Filter_dilation_spike (t : FloatType) (param : floating) (lambda h : Qc)
    (n p i : nat) :
  lambda_of t param = Fin lambda ->
  representable t h -> (0 < this h)%Q ->
  (p < n)%nat -> (i < n)%nat -> Z.of_nat n <= 2 ^ 31 ->
  let v := parabola t (Fin lambda) (Fin h) (Z.of_nat i - Z.of_nat p) in
  nth i (Filter_float t true param (spike_line n p (Fin h))) (fp_lowest t)
  = (if fp_geb (Fin 0%Qc) v then Fin 0%Qc else v)
  /\ (forall lambda' get step m jj best index tt,
        (tt < m)%nat ->
        fp_geb (candidate_float t lambda' get (jj + step * Z.of_nat tt))
               (fst (search_float t lambda' get step m jj best index)) = true ->
        exists t', (tt <= t' < m)%nat
                   /\ snd (search_float t lambda' get step m jj best index)
                      = jj + step * Z.of_nat t').
Proof.
  intros Hlambda Hh Hpos Hp Hi Hn. cbv zeta. split.
  - unfold Filter_float, Filter. cbv zeta. fold (lambda_of t param). rewrite Hlambda.
    apply (two_passes_float_spike t lambda h
             (lambda_of_not_negative t param lambda Hlambda) Hh Hpos n p i Hp Hn Hi).
  - intros lambda' get step m jj best index tt Ht Htie.
    apply (search_keeps_last floating (fp_sub t) (fp_mul t) fp_geb (fp_of_sint t) lambda'
             get step fp_geb_trans m jj best index tt Ht).
    exact Htie.
Qed.

Lemma Filter_dilation_spike_witness :
  nth 33 (Filter_float DFLOAT true (of_Z 10) spike_test) (fp_lowest DFLOAT)
  = Fin (Q2Qc (2507942042491945 # 281474976710656)).
Proof.
  assert (Hlambda : lambda_of DFLOAT (of_Z 10)
                    = Fin (Q2Qc (5764607523034235 # 576460752303423488)))
    by (apply is_value_eq; vm_compute; reflexivity).
  destruct (Filter_dilation_spike DFLOAT (of_Z 10) _ (Q2Qc (inject_Z 9)) 61 30 33 Hlambda)
    as [H _].
  - split; [apply Qeq_bool_eq; vm_compute; reflexivity | vm_compute; discriminate].
  - reflexivity.
  - lia.
  - lia.
  - vm_compute. discriminate.
  - unfold spike_test. change (of_Z 9) with (Fin (Q2Qc (inject_Z 9))). rewrite H.
    apply is_value_eq. vm_compute. reflexivity.
Defined.

(** C9 as stated does not hold.  A spike of height 9 dilated with [sigma =
    10] gives, at offset 3, the [dfloat] nearest to [9 - 0.01 * 9] with the
    product rounded before, which is not [9 - 9 / 100].  And on the line 1, 0
    with [lambda = 1] the offsets -1 and 0 tie, and the loop, which visits 0
    last, returns the offset 0: the one of smaller magnitude. *)
Lemma Filter_dilation_counterexample :
  nth 33 (Filter_float DFLOAT true (of_Z 10) spike_test) (fp_lowest DFLOAT)
  <> Fin (Q2Qc (891 # 100))
  /\ ~ (forall t lambda get step m jj best index tt,
          (tt < m)%nat ->
          candidate_float t lambda get (jj + step * Z.of_nat tt)
          = fst (search_float t lambda get step m jj best index) ->
          Z.abs (jj + step * Z.of_nat tt)
          <= Z.abs (snd (search_float t lambda get step m jj best index))).
Proof.
  split.
  - assert (H : is_value (nth 33 (Filter_float DFLOAT true (of_Z 10) spike_test)
                             (fp_lowest DFLOAT)) (891 # 100) = false)
      by (vm_compute; reflexivity).
    intros E. rewrite E in H. vm_compute in H. discriminate H.
  - intros H.
    specialize (H DFLOAT (of_Z 1) tie_line 1 2%nat (-1) (fp_lowest DFLOAT) (-1) 0%nat
                  ltac:(lia)).
    assert (Htie : candidate_float DFLOAT (of_Z 1) tie_line (-1 + 1 * Z.of_nat 0)
                   = fst (search_float DFLOAT (of_Z 1) tie_line 1 2 (-1)
                            (fp_lowest DFLOAT) (-1))).
    { transitivity (Fin (Q2Qc 0)); [| symmetry]; apply is_value_eq; vm_compute; reflexivity. }
    specialize (H Htie).
    assert (Hidx : snd (search_float DFLOAT (of_Z 1) tie_line 1 2 (-1)
                          (fp_lowest DFLOAT) (-1)) = 0) by (vm_compute; reflexivity).
    rewrite Hidx in H. simpl in H. lia.
Qed.

(** The test of the filter: the spike stays in place, and the samples of the
    dilated line are those of [9 - ii * ii / 100] as [dfloat] computes them
    from the [lambda] of the filter; their sum is near that of the test. *)
Example Filter_doctest :
  let out := Filter_float DFLOAT true (of_Z 10) spike_test in
  nth 30 out (fp_lowest DFLOAT) = of_Z 9
  /\ is_value (nth 31 out (fp_lowest DFLOAT)) (5060920081257595 # 562949953421312) = true
  /\ is_value (nth 29 out (fp_lowest DFLOAT)) (5060920081257595 # 562949953421312) = true
  /\ is_value (nth 60 out (fp_lowest DFLOAT)) 0 = true.
Proof.
  cbv zeta. split; [| split; [| split]].
  - apply is_value_eq. vm_compute. reflexivity.
  - vm_compute. reflexivity.
  - vm_compute. reflexivity.
  - vm_compute. reflexivity.
Qed.

(** The arithmetic above and the Standard Library's specification of IEEE 754
    arithmetic give the same numbers on the sample operands, in both
    formats. *)
Example float_operations_agree :
  forallb (fun '(m1, e1, m2, e2) => agree DFLOAT m1 e1 m2 e2 && agree SFLOAT m1 e1 m2 e2)
          operands_test = true.
Proof. vm_compute. reflexivity. Qed.

(** ** [GetOptimalDFTSize] *)

Lemma increasing_nth (l : list Z) (i j : nat) :
  increasing l = true -> (i < j)%nat -> (j < length l)%nat -> nth i l 0 < nth j l 0.
Proof.
  revert i j. induction l as [| x l IH]; intros i j Hinc Hij Hj; simpl in Hj; [lia |].
  assert (Htail : increasing l = true).
  { destruct l; [reflexivity |]. simpl in Hinc. apply andb_true_iff in Hinc. apply Hinc. }
  destruct j as [| j]; [lia |]. destruct i as [| i].
  - simpl. clear Hij.
    revert x l IH Hinc Htail Hj. induction j as [| j IHj]; intros x l IH Hinc Htail Hj.
    + destruct l as [| y l]; simpl in Hj; [lia |].
      simpl in Hinc. apply andb_true_iff in Hinc. simpl. lia.
    + destruct l as [| y l]; simpl in Hj; [lia |].
      assert (Hxy : x < y)
        by (simpl in Hinc; apply andb_true_iff in Hinc; lia).
      assert (Hy : y < nth j l 0).
      { apply (IH 0%nat (S j)); [exact Htail | lia | simpl; lia]. }
      simpl. lia.
  - simpl. apply IH; [exact Htail | lia | lia].
Qed.

Section BinarySearchFacts.

Variable tab : list Z.
Hypothesis tab_increasing : increasing tab = true.
Hypothesis tab_small : Z.of_nat (length tab) < 2 ^ 62.

Lemma tab_at_mono (i j : Z) :
0 <= i -> i <= j -> j < Z.of_nat (length tab) -> tab_at tab i <= tab_at tab j.
Proof.
intros Hi Hij Hj. unfold tab_at.
destruct (Z.eq_dec i j) as [-> | Hne]; [lia |].
apply Z.lt_le_incl. apply increasing_nth; [exact tab_increasing | lia | lia].
Qed.

Lemma tab_at_In (i : Z) :
0 <= i < Z.of_nat (length tab) -> In (tab_at tab i) tab.
Proof. intros Hi. unfold tab_at. apply nth_In. lia. Qed.

Lemma In_tab_at (x : Z) :
In x tab -> exists i, 0 <= i < Z.of_nat (length tab) /\ tab_at tab i = x.
Proof.
intros Hx. destruct (In_nth tab x 0 Hx) as (n & Hn & Hnth).
exists (Z.of_nat n). split; [lia |]. unfold tab_at. rewrite Nat2Z.id. exact Hnth.
Qed.

Lemma midpoint (a b : Z) :
0 <= a -> a < b -> b < 2 ^ 62 ->
udiv (uadd a b) 2 = (a + b) / 2 /\ a <= (a + b) / 2 < b.
Proof.
intros Ha Hab Hb. unfold udiv, uadd. rewrite wrap_uint_id by (unfold is_uint; lia).
split; [reflexivity |]. pose proof (Z.div_mod (a + b) 2 ltac:(lia)) as Hdiv.
pose proof (Z.mod_pos_bound (a + b) 2 ltac:(lia)). lia.
Qed.

Lemma midpoint_up (a b : Z) :
0 <= a -> a < b -> b < 2 ^ 62 ->
udiv (uadd (uadd a b) 1) 2 = (a + b + 1) / 2 /\ a < (a + b + 1) / 2 <= b.
Proof.
intros Ha Hab Hb. unfold udiv, uadd.
rewrite (wrap_uint_id (a + b)) by (unfold is_uint; lia).
rewrite wrap_uint_id by (unfold is_uint; lia).
split; [reflexivity |]. pose proof (Z.div_mod (a + b + 1) 2 ltac:(lia)) as Hdiv.
pose proof (Z.mod_pos_bound (a + b + 1) 2 ltac:(lia)). lia.
Qed.

(** The first loop ends with [a = b], at the first entry that is at least
[size0]. *)
Lemma search_larger_spec (size0 : Z) (fuel : nat) (a b : Z) :
0 <= a -> a <= b -> b < Z.of_nat (length tab) ->
b - a <= Z.of_nat fuel ->
size0 <= tab_at tab b ->
(forall i, 0 <= i < a -> tab_at tab i < size0) ->
exists r, search_larger tab fuel size0 a b = (r, r)
        /\ 0 <= r < Z.of_nat (length tab)
        /\ size0 <= tab_at tab r
        /\ forall i, 0 <= i < r -> tab_at tab i < size0.
Proof.
revert a b. induction fuel as [| fuel IH]; intros a b Ha Hab Hb Hfuel Hhi Hlo.
- assert (a = b) by lia. subst b. exists a. simpl. repeat split; try lia; assumption.
- cbn [search_larger]. destruct (Z.ltb_spec a b) as [Hlt | Hge].
+ destruct (midpoint a b Ha Hlt ltac:(lia)) as [-> Hc].
  destruct (Z.leb_spec size0 (tab_at tab ((a + b) / 2))) as [Hle | Hgt].
  * apply IH; [lia | lia | lia | lia | exact Hle | exact Hlo].
  * unfold uadd. rewrite wrap_uint_id by (unfold is_uint; lia).
    apply IH; [lia | lia | lia | lia | exact Hhi |].
    intros i Hi. eapply Z.le_lt_trans; [| exact Hgt].
    apply tab_at_mono; lia.
+ assert (a = b) by lia. subst b. exists a. repeat split; try lia; assumption.
Qed.

(** The second loop ends with [a = b], at the last entry that is at most
[size0]. *)
Lemma search_smaller_spec (size0 : Z) (fuel : nat) (a b : Z) :
0 <= a -> a <= b -> b < Z.of_nat (length tab) ->
b - a <= Z.of_nat fuel ->
tab_at tab a <= size0 ->
(forall i, b < i < Z.of_nat (length tab) -> size0 < tab_at tab i) ->
exists r, search_smaller tab fuel size0 a b = (r, r)
        /\ 0 <= r < Z.of_nat (length tab)
        /\ tab_at tab r <= size0
        /\ forall i, r < i < Z.of_nat (length tab) -> size0 < tab_at tab i.
Proof.
revert a b. induction fuel as [| fuel IH]; intros a b Ha Hab Hb Hfuel Hlo Hhi.
- assert (a = b) by lia. subst b. exists a. simpl. repeat split; try lia; assumption.
- cbn [search_smaller]. destruct (Z.ltb_spec a b) as [Hlt | Hge].
+ destruct (midpoint_up a b Ha Hlt ltac:(lia)) as [-> Hc].
  destruct (Z.leb_spec (tab_at tab ((a + b + 1) / 2)) size0) as [Hle | Hgt].
  * apply IH; [lia | lia | lia | lia | exact Hle |].
    intros i Hi. apply Hhi. lia.
  * unfold usub. rewrite wrap_uint_id by (unfold is_uint; lia).
    apply IH; [lia | lia | lia | lia | exact Hlo |].
    intros i Hi. eapply Z.lt_le_trans; [exact Hgt |].
    apply tab_at_mono; lia.
+ assert (a = b) by lia. subst b. exists a. repeat split; try lia; assumption.
Qed.

Hypothesis tab_nonempty : (0 < length tab)%nat.

Lemma last_index : usub (Z.of_nat (length tab)) 1 = Z.of_nat (length tab) - 1.
Proof. unfold usub. apply wrap_uint_id. unfold is_uint. lia. Qed.

Lemma GetOptimalDFTSize_in_error (size0 : Z) (larger : bool) :
0 <= size0 ->
(tab_at tab (Z.of_nat (length tab) - 1) <? size0) || (size0 =? 0) = true ->
GetOptimalDFTSize_in tab size0 larger = 0.
Proof.
intros _ H. unfold GetOptimalDFTSize_in. cbv zeta. rewrite last_index, H. reflexivity.
Qed.

Lemma GetOptimalDFTSize_in_larger (size0 : Z) :
0 < size0 <= tab_at tab (Z.of_nat (length tab) - 1) ->
exists r, 0 <= r < Z.of_nat (length tab)
        /\ GetOptimalDFTSize_in tab size0 true = tab_at tab r
        /\ size0 <= tab_at tab r
        /\ forall i, 0 <= i < r -> tab_at tab i < size0.
Proof.
intros Hs. unfold GetOptimalDFTSize_in. cbv zeta. rewrite last_index.
replace ((tab_at tab (Z.of_nat (length tab) - 1) <? size0) || (size0 =? 0)) with false
by (symmetry; apply orb_false_iff; split; [apply Z.ltb_ge | apply Z.eqb_neq]; lia).
destruct (search_larger_spec size0 (Z.to_nat (Z.of_nat (length tab) - 1)) 0
          (Z.of_nat (length tab) - 1)) as (r & Hrun & Hr & Hge & Hlt);
[lia | lia | lia | lia | lia | intros i Hi; lia |].
exists r. rewrite Hrun. simpl. repeat split; try lia; assumption.
Qed.

Lemma GetOptimalDFTSize_in_smaller (size0 : Z) :
tab_at tab 0 <= size0 <= tab_at tab (Z.of_nat (length tab) - 1) ->
size0 <> 0 ->
exists r, 0 <= r < Z.of_nat (length tab)
        /\ GetOptimalDFTSize_in tab size0 false = tab_at tab r
        /\ tab_at tab r <= size0
        /\ forall i, r < i < Z.of_nat (length tab) -> size0 < tab_at tab i.
Proof.
intros Hs Hne. unfold GetOptimalDFTSize_in. cbv zeta. rewrite last_index.
replace ((tab_at tab (Z.of_nat (length tab) - 1) <? size0) || (size0 =? 0)) with false
by (symmetry; apply orb_false_iff; split; [apply Z.ltb_ge | apply Z.eqb_neq]; lia).
destruct (search_smaller_spec size0 (Z.to_nat (Z.of_nat (length tab) - 1)) 0
          (Z.of_nat (length tab) - 1)) as (r & Hrun & Hr & Hle & Hgt);
[lia | lia | lia | lia | lia | intros i Hi; lia |].
exists r. rewrite Hrun. simpl. repeat split; try lia; assumption.
Qed.

End BinarySearchFacts.

Lemma divide_out_spec (p : Z) (fuel : nat) (n : Z) :
  1 < p -> exists k : nat, 0 < n -> n = p ^ Z.of_nat k * divide_out fuel p n.
Proof.
  intros Hp. revert n. induction fuel as [| fuel IH]; intros n.
  - exists 0%nat. intros _. simpl. lia.
  - cbn [divide_out]. destruct ((0 <? n) && (n mod p =? 0)) eqn:E.
    + apply andb_true_iff in E. destruct E as [Hpos Hmod].
      apply Z.ltb_lt in Hpos. apply Z.eqb_eq in Hmod.
      destruct (IH (n / p)) as [k Hk]. exists (S k). intros _.
      assert (Hn : n = p * (n / p)).
      { pose proof (Z.div_mod n p ltac:(lia)). lia. }
      assert (Hq : 0 < n / p) by nia.
      specialize (Hk Hq).
      rewrite Nat2Z.inj_succ, Z.pow_succ_r by lia.
      rewrite <- Z.mul_assoc, <- Hk. exact Hn.
    + exists 0%nat. intros _. simpl. lia.
Qed.

Lemma is_nice_size_spec (n : Z) :
  is_nice_size n = true -> exists a b c : nat, n = 2 ^ Z.of_nat a * 3 ^ Z.of_nat b * 5 ^ Z.of_nat c.
Proof.
  unfold is_nice_size. intros H. apply Z.eqb_eq in H.
  destruct (divide_out_spec 2 64 n ltac:(lia)) as [a Ha].
  destruct (divide_out_spec 3 64 (divide_out 64 2 n) ltac:(lia)) as [b Hb].
  destruct (divide_out_spec 5 64 (divide_out 64 3 (divide_out 64 2 n)) ltac:(lia)) as [c Hc].
  rewrite H in Hc.
  exists a, b, c.
  assert (H5 : 0 < divide_out 64 3 (divide_out 64 2 n)).
  { destruct (Z.lt_ge_cases 0 (divide_out 64 3 (divide_out 64 2 n))) as [Hp | Hn]; [exact Hp |].
    exfalso. clear - H Hn.
    assert (Hfix : forall f x, x <= 0 -> divide_out f 5 x = x).
    { intros f x Hx. destruct f; simpl; [reflexivity |].
      replace (0 <? x) with false by (symmetry; apply Z.ltb_ge; lia). reflexivity. }
    rewrite Hfix in H by exact Hn. lia. }
  assert (H3 : 0 < divide_out 64 2 n).
  { destruct (Z.lt_ge_cases 0 (divide_out 64 2 n)) as [Hp | Hn]; [exact Hp |].
    exfalso. clear - H5 Hn.
    assert (Hfix : forall f x, x <= 0 -> divide_out f 3 x = x).
    { intros f x Hx. destruct f; simpl; [reflexivity |].
      replace (0 <? x) with false by (symmetry; apply Z.ltb_ge; lia). reflexivity. }
    rewrite Hfix in H5 by exact Hn. lia. }
  assert (H2 : 0 < n).
  { destruct (Z.lt_ge_cases 0 n) as [Hp | Hn]; [exact Hp |].
    exfalso. clear - H3 Hn.
    assert (Hfix : forall f x, x <= 0 -> divide_out f 2 x = x).
    { intros f x Hx. destruct f; simpl; [reflexivity |].
      replace (0 <? x) with false by (symmetry; apply Z.ltb_ge; lia). reflexivity. }
    rewrite Hfix in H3 by exact Hn. lia. }
  rewrite (Ha H2) at 1. rewrite (Hb H3) at 1. rewrite (Hc H5). ring.
Qed.

Lemma optimalDFTSizeTab_increasing : increasing optimalDFTSizeTab = true.
Proof. vm_compute. reflexivity. Qed.

Lemma optimalDFTSizeTab_length : length optimalDFTSizeTab = 1651%nat.
Proof. vm_compute. reflexivity. Qed.

Lemma optimalDFTSizeTab_last : tab_at optimalDFTSizeTab 1650 = 2125764000.
Proof. vm_compute. reflexivity. Qed.

Lemma optimalDFTSizeTab_first : tab_at optimalDFTSizeTab 0 = 1.
Proof. vm_compute. reflexivity. Qed.

Lemma optimalDFTSizeTab_nice : forallb is_nice_size optimalDFTSizeTab = true.
Proof. vm_compute. reflexivity. Qed.

Lemma optimalDFTSizeTab_small : Z.of_nat (length optimalDFTSizeTab) < 2 ^ 62.
Proof. rewrite optimalDFTSizeTab_length. reflexivity. Qed.

Lemma optimalDFTSizeTab_nonempty : (0 < length optimalDFTSizeTab)%nat.
Proof. rewrite optimalDFTSizeTab_length. lia. Qed.

Lemma In_below (tab : list Z) (x : Z) :
  increasing tab = true -> In x tab ->
  forall r, 0 <= r < Z.of_nat (length tab) ->
  (forall i, 0 <= i < r -> tab_at tab i <> x) -> tab_at tab r <= x.
Proof.
  intros Hinc Hx r Hr Hlow.
  destruct (In_tab_at tab x Hx) as (i & Hi & <-).
  destruct (Z.lt_ge_cases i r) as [Hlt | Hge].
  - exfalso. apply (Hlow i); [lia | reflexivity].
  - apply tab_at_mono; [exact Hinc | lia | lia | lia].
Qed.

Lemma In_above (tab : list Z) (x : Z) :
  increasing tab = true -> In x tab ->
  forall r, 0 <= r < Z.of_nat (length tab) ->
  (forall i, r < i < Z.of_nat (length tab) -> tab_at tab i <> x) -> x <= tab_at tab r.
Proof.
  intros Hinc Hx r Hr Hhigh.
  destruct (In_tab_at tab x Hx) as (i & Hi & <-).
  destruct (Z.lt_ge_cases r i) as [Hlt | Hge].
  - exfalso. apply (Hhigh i); [lia | reflexivity].
  - apply tab_at_mono; [exact Hinc | lia | lia | lia].
Qed.

(** X1.  With [larger], the size returned is the least entry of the table that is
    at least [size0]. *)
Theorem GetOptimalDFTSize_larger (size0 : Z) :
  0 < size0 <= 2125764000 ->
  let r := GetOptimalDFTSize size0 true in
  In r optimalDFTSizeTab
  /\ size0 <= r
  /\ forall x, In x optimalDFTSizeTab -> size0 <= x -> r <= x.
Proof.
  intros Hs. cbv zeta. unfold GetOptimalDFTSize.
  destruct (GetOptimalDFTSize_in_larger optimalDFTSizeTab optimalDFTSizeTab_increasing
              optimalDFTSizeTab_small optimalDFTSizeTab_nonempty size0)
    as (r & Hr & -> & Hge & Hlt).
  { rewrite optimalDFTSizeTab_length. change (Z.of_nat 1651 - 1) with 1650.
    rewrite optimalDFTSizeTab_last. exact Hs. }
  split; [apply tab_at_In; exact Hr |]. split; [exact Hge |].
  intros x Hx Hsx.
  apply (In_below _ _ optimalDFTSizeTab_increasing Hx r Hr).
  intros i Hi Heq. specialize (Hlt i Hi). lia.
Qed.

Lemma In_table (x : Z) : existsb (Z.eqb x) optimalDFTSizeTab = true -> In x optimalDFTSizeTab.
Proof.
  intros H. apply existsb_exists in H. destruct H as (y & Hy & Heq).
  apply Z.eqb_eq in Heq. subst y. exact Hy.
Qed.

Lemma GetOptimalDFTSize_larger_witness :
  1001 <= GetOptimalDFTSize 1001 true <= 1024.
Proof.
  destruct (GetOptimalDFTSize_larger 1001 ltac:(lia)) as (_ & Hge & Hleast).
  split; [exact Hge |].
  apply Hleast; [| lia]. apply In_table. vm_compute. reflexivity.
Defined.

(** X2.  Without [larger], the size returned is the greatest entry of the table
    that is at most [size0]. *)
Theorem GetOptimalDFTSize_smaller (size0 : Z) :
  0 < size0 <= 2125764000 ->
  let r := GetOptimalDFTSize size0 false in
  In r optimalDFTSizeTab
  /\ r <= size0
  /\ forall x, In x optimalDFTSizeTab -> x <= size0 -> x <= r.
Proof.
  intros Hs. cbv zeta. unfold GetOptimalDFTSize.
  destruct (GetOptimalDFTSize_in_smaller optimalDFTSizeTab optimalDFTSizeTab_increasing
              optimalDFTSizeTab_small optimalDFTSizeTab_nonempty size0)
    as (r & Hr & -> & Hle & Hgt).
  { rewrite optimalDFTSizeTab_length. change (Z.of_nat 1651 - 1) with 1650.
    rewrite optimalDFTSizeTab_last, optimalDFTSizeTab_first. lia. }
  { lia. }
  split; [apply tab_at_In; exact Hr |]. split; [exact Hle |].
  intros x Hx Hsx.
  apply (In_above _ _ optimalDFTSizeTab_increasing Hx r Hr).
  intros i Hi Heq. specialize (Hgt i Hi). lia.
Qed.

Lemma GetOptimalDFTSize_smaller_witness :
  1000 <= GetOptimalDFTSize 1023 false <= 1023.
Proof.
  destruct (GetOptimalDFTSize_smaller 1023 ltac:(lia)) as (_ & Hle & Hgreatest).
  split; [| exact Hle].
  apply Hgreatest; [| lia]. apply In_table. vm_compute. reflexivity.
Defined.

Lemma table_positive (x : Z) : In x optimalDFTSizeTab -> 0 < x.
Proof.
  intros Hx. destruct (In_tab_at _ _ Hx) as (i & Hi & <-).
  pose proof (tab_at_mono optimalDFTSizeTab optimalDFTSizeTab_increasing 0 i
                ltac:(lia) ltac:(lia) ltac:(lia)) as H.
  rewrite optimalDFTSizeTab_first in H. lia.
Qed.

Lemma GetOptimalDFTSize_In (size0 : Z) (larger : bool) :
  0 < size0 <= 2125764000 -> In (GetOptimalDFTSize size0 larger) optimalDFTSizeTab.
Proof.
  intros Hs. destruct larger.
  - destruct (GetOptimalDFTSize_in_larger optimalDFTSizeTab optimalDFTSizeTab_increasing
                optimalDFTSizeTab_small optimalDFTSizeTab_nonempty size0)
      as (r & Hr & Heq & _).
    + rewrite optimalDFTSizeTab_length. change (Z.of_nat 1651 - 1) with 1650.
      rewrite optimalDFTSizeTab_last. exact Hs.
    + unfold GetOptimalDFTSize. rewrite Heq. apply tab_at_In. exact Hr.
  - destruct (GetOptimalDFTSize_in_smaller optimalDFTSizeTab optimalDFTSizeTab_increasing
                optimalDFTSizeTab_small optimalDFTSizeTab_nonempty size0)
      as (r & Hr & Heq & _).
    + rewrite optimalDFTSizeTab_length. change (Z.of_nat 1651 - 1) with 1650.
      rewrite optimalDFTSizeTab_last, optimalDFTSizeTab_first. lia.
    + lia.
    + unfold GetOptimalDFTSize. rewrite Heq. apply tab_at_In. exact Hr.
Qed.

(** X3.  The error value 0 is returned for the size 0 and for sizes above the
    last entry of the table, 2125764000, and never otherwise. *)
Theorem GetOptimalDFTSize_error (size0 : Z) (larger : bool) :
  0 <= size0 ->
  (GetOptimalDFTSize size0 larger = 0 <-> size0 = 0 \/ 2125764000 < size0).
Proof.
  intros Hpos. split.
  - intros H0. destruct (Z.eq_dec size0 0) as [-> | Hne]; [left; reflexivity |].
    destruct (Z.lt_ge_cases 2125764000 size0) as [Hbig | Hsmall]; [right; exact Hbig |].
    exfalso. pose proof (GetOptimalDFTSize_In size0 larger ltac:(lia)) as Hin.
    apply table_positive in Hin. lia.
  - intros H. unfold GetOptimalDFTSize.
    apply (GetOptimalDFTSize_in_error optimalDFTSizeTab optimalDFTSizeTab_small
             optimalDFTSizeTab_nonempty size0 larger Hpos).
    rewrite optimalDFTSizeTab_length. change (Z.of_nat 1651 - 1) with 1650.
    rewrite optimalDFTSizeTab_last. apply orb_true_iff.
    destruct H as [-> | H]; [right; reflexivity | left; apply Z.ltb_lt; exact H].
Qed.

Lemma GetOptimalDFTSize_error_witness :
  GetOptimalDFTSize 0 true = 0 /\ GetOptimalDFTSize 2125764001 false = 0
  /\ GetOptimalDFTSize 2125764000 false <> 0.
Proof.
  split; [| split].
  - apply (GetOptimalDFTSize_error 0 true); [lia | left; reflexivity].
  - apply (GetOptimalDFTSize_error 2125764001 false); [lia | right; lia].
  - intros H. apply (GetOptimalDFTSize_error 2125764000 false) in H; lia.
Defined.

(** X4.  Every size returned, the error value apart, is a product of powers of 2,
    3 and 5, and is returned for itself: asking again, in either direction,
    changes nothing. *)
Theorem GetOptimalDFTSize_nice (size0 : Z) (larger : bool) :
  0 < size0 <= 2125764000 ->
  let r := GetOptimalDFTSize size0 larger in
  (exists a b c : nat, r = 2 ^ Z.of_nat a * 3 ^ Z.of_nat b * 5 ^ Z.of_nat c)
  /\ GetOptimalDFTSize r true = r
  /\ GetOptimalDFTSize r false = r.
Proof.
  intros Hs. cbv zeta.
  pose proof (GetOptimalDFTSize_In size0 larger Hs) as Hin.
  set (r := GetOptimalDFTSize size0 larger) in *.
  assert (Hr : 0 < r <= 2125764000).
  { split; [apply table_positive; exact Hin |].
    destruct (In_tab_at _ _ Hin) as (i & Hi & <-).
    rewrite <- optimalDFTSizeTab_last.
    rewrite optimalDFTSizeTab_length in Hi.
    apply tab_at_mono; [exact optimalDFTSizeTab_increasing | lia | lia |].
    rewrite optimalDFTSizeTab_length. lia. }
  split; [| split].
  - apply is_nice_size_spec.
    pose proof optimalDFTSizeTab_nice as Hnice. rewrite forallb_forall in Hnice.
    apply Hnice. exact Hin.
  - destruct (GetOptimalDFTSize_in_larger optimalDFTSizeTab optimalDFTSizeTab_increasing
                optimalDFTSizeTab_small optimalDFTSizeTab_nonempty r)
      as (k & Hk & Heq & Hge & Hlt).
    { rewrite optimalDFTSizeTab_length. change (Z.of_nat 1651 - 1) with 1650.
      rewrite optimalDFTSizeTab_last. exact Hr. }
    unfold GetOptimalDFTSize. rewrite Heq.
    apply Z.le_antisymm; [| exact Hge].
    apply (In_below _ _ optimalDFTSizeTab_increasing Hin k Hk).
    intros i Hi Habs. specialize (Hlt i Hi). lia.
  - destruct (GetOptimalDFTSize_in_smaller optimalDFTSizeTab optimalDFTSizeTab_increasing
                optimalDFTSizeTab_small optimalDFTSizeTab_nonempty r)
      as (k & Hk & Heq & Hle & Hgt).
    { rewrite optimalDFTSizeTab_length. change (Z.of_nat 1651 - 1) with 1650.
      rewrite optimalDFTSizeTab_last, optimalDFTSizeTab_first. lia. }
    { lia. }
    unfold GetOptimalDFTSize. rewrite Heq.
    apply Z.le_antisymm; [exact Hle |].
    apply (In_above _ _ optimalDFTSizeTab_increasing Hin k Hk).
    intros i Hi Habs. specialize (Hgt i Hi). lia.
Qed.

Lemma GetOptimalDFTSize_nice_witness :
  GetOptimalDFTSize (GetOptimalDFTSize 1001 true) false = GetOptimalDFTSize 1001 true.
Proof.
  destruct (GetOptimalDFTSize_nice 1001 true ltac:(lia)) as (_ & _ & H). exact H.
Defined.


(** ** Erosion is dilation upside down *)

Section Duality.

Variable TPI : Type.
Variables add sub mul : TPI -> TPI -> TPI.
Variables geb leb : TPI -> TPI -> bool.
Variables lowest highest : TPI.
Variable of_sint : Z -> TPI.
Variable neg : TPI -> TPI.
Variable lambda : TPI.

Hypothesis neg_neg : forall x, neg (neg x) = x.
Hypothesis leb_neg : forall x y, leb x y = geb (neg x) (neg y).
Hypothesis add_neg : forall x p, add x p = neg (sub (neg x) p).

Lemma sample_map_neg (d : TPI) (l : list TPI) (i : Z) :
(Z.to_nat i < length l)%nat ->
sample TPI (neg d) (map neg l) i = neg (sample TPI d l i).
Proof.
intros Hi. unfold sample.
rewrite (nth_indep (map neg l) (neg d) (neg (nth (Z.to_nat i) l d)))
by (rewrite length_map; exact Hi).
rewrite (nth_indep l d (nth (Z.to_nat i) l d)) at 2 by exact Hi.
apply (map_nth neg).
Qed.

(** The inner loop of the erosion on [get] runs as that of the dilation on
the negated samples. *)
Lemma search_dual (get get' : Z -> TPI) (step : Z) (m : nat) (jj : Z) (best : TPI)
(index : Z) :
(forall t, (t < m)%nat -> get' (jj + step * Z.of_nat t) = neg (get (jj + step * Z.of_nat t))) ->
search TPI mul of_sint leb add lambda get step m jj best index
= (neg (fst (search TPI mul of_sint geb sub lambda get' step m jj (neg best) index)),
 snd (search TPI mul of_sint geb sub lambda get' step m jj (neg best) index)).
Proof.
revert jj best index. induction m as [| m IH]; intros jj best index Hget.
- simpl. rewrite neg_neg. reflexivity.
- cbn [search].
pose proof (Hget 0%nat ltac:(lia)) as H0.
replace (jj + step * Z.of_nat 0) with jj in H0 by lia.
rewrite H0, leb_neg, add_neg, neg_neg.
assert (Hrest : forall t, (t < m)%nat ->
          get' (jj + step + step * Z.of_nat t) = neg (get (jj + step + step * Z.of_nat t))).
{ intros t Ht. specialize (Hget (S t) ltac:(lia)).
  replace (jj + step * Z.of_nat (S t)) with (jj + step + step * Z.of_nat t) in Hget by lia.
  exact Hget. }
destruct (geb (sub (neg (get jj)) (mul lambda (of_sint (smul jj jj)))) (neg best)).
+ rewrite IH by exact Hrest. rewrite neg_neg. reflexivity.
+ apply IH. exact Hrest.
Qed.

(** Samples in range do not depend on the default. *)
Lemma sample_neg (d d' : TPI) (l : list TPI) (i : Z) :
(Z.to_nat i < length l)%nat ->
sample TPI d' (map neg l) i = neg (sample TPI d l i).
Proof.
intros Hi. unfold sample.
rewrite (nth_indep (map neg l) d' (neg d)) by (rewrite length_map; exact Hi).
apply (map_nth neg).
Qed.

Lemma map_neg_neg (l : list TPI) : map neg (map neg l) = l.
Proof.
induction l as [| x l IH]; simpl; [reflexivity |]. rewrite neg_neg, IH. reflexivity.
Qed.

Lemma first_pass_dual (input : list TPI) (rounds ii : nat) (buf : list TPI) (index : Z) :
(1 <= ii)%nat -> (ii + rounds <= length input)%nat -> length buf = ii ->
first_pass TPI mul lowest of_sint leb add highest lambda input rounds ii buf index
= map neg (first_pass TPI mul (neg highest) of_sint geb sub (neg highest) lambda
                    (map neg input) rounds ii (map neg buf) index).
Proof.
revert ii buf index. induction rounds as [| rounds IH]; intros ii buf index H1 Hn Hlen.
- simpl. symmetry. apply map_neg_neg.
- cbn [first_pass].
rewrite !(sample_neg lowest (neg highest)) by lia.
rewrite <- leb_neg.
rewrite (search_dual (fun jj => sample TPI lowest input (Z.of_nat ii + jj))
           (fun jj => sample TPI (neg highest) (map neg input) (Z.of_nat ii + jj))).
2:{ intros t Ht. apply sample_neg. lia. }
destruct (leb (sample TPI lowest input (Z.of_nat ii))
              (sample TPI lowest buf (Z.of_nat ii - 1))).
+ cbn [fst snd]. rewrite IH by (try lia; rewrite length_app; simpl; lia).
  rewrite map_app. reflexivity.
+ cbn [fst snd]. rewrite IH by (try lia; rewrite length_app; simpl; lia).
  rewrite map_app. simpl. rewrite neg_neg. reflexivity.
Qed.

Lemma second_pass_dual (buf : list TPI) (rounds : nat) (out : list TPI) (index : Z) :
(rounds < length buf)%nat -> (0 < length out)%nat ->
index <= Z.of_nat (length buf) - 1 - Z.of_nat rounds ->
second_pass TPI mul lowest of_sint leb add highest lambda buf rounds (rounds - 1) out index
= map neg (second_pass TPI mul (neg highest) of_sint geb sub (neg highest) lambda
                     (map neg buf) rounds (rounds - 1) (map neg out) index).
Proof.
revert out index. induction rounds as [| rounds IH]; intros out index Hn Hout Hindex.
- simpl. symmetry. apply map_neg_neg.
- cbn [second_pass]. replace (S rounds - 1)%nat with rounds by lia.
rewrite !(sample_neg lowest (neg highest)) by (simpl; lia).
rewrite <- leb_neg.
rewrite (search_dual (fun jj => sample TPI lowest buf (Z.of_nat rounds + jj))
           (fun jj => sample TPI (neg highest) (map neg buf) (Z.of_nat rounds + jj))).
2:{ intros t Ht. apply sample_neg. lia. }
set (sd := search TPI mul of_sint geb sub lambda
             (fun jj => sample TPI (neg highest) (map neg buf) (Z.of_nat rounds + jj))
             (-1) (Z.to_nat (index + 1 + 1)) (index + 1) (neg highest) (index + 1)).
assert (Hsd : snd sd <= index + 1).
{ destruct (search_index TPI sub mul geb of_sint lambda
              (fun jj => sample TPI (neg highest) (map neg buf) (Z.of_nat rounds + jj))
              (-1) (Z.to_nat (index + 1 + 1)) (index + 1) (neg highest) (index + 1))
    as [H | (t & Ht & H)]; fold sd in H; lia. }
destruct (leb (sample TPI lowest buf (Z.of_nat rounds)) (sample TPI lowest out 0)).
+ cbn [fst snd]. rewrite IH by (simpl; lia). reflexivity.
+ cbn [fst snd]. rewrite IH by (simpl; lia). simpl. rewrite neg_neg. reflexivity.
Qed.

Lemma two_passes_dual (input : list TPI) :
(0 < length input)%nat ->
two_passes TPI mul lowest of_sint leb add highest lambda input
= map neg (two_passes TPI mul (neg highest) of_sint geb sub (neg highest) lambda
                    (map neg input)).
Proof.
intros Hn. unfold two_passes. rewrite length_map.
rewrite (first_pass_dual input (length input - 1) 1 [sample TPI lowest input 0] 0)
by (simpl; lia).
set (bufd := first_pass TPI mul (neg highest) of_sint geb sub (neg highest) lambda
                      (map neg input) (length input - 1) 1
                      (map neg [sample TPI lowest input 0]) 0).
assert (Hbufd : bufd = first_pass TPI mul (neg highest) of_sint geb sub (neg highest) lambda
                      (map neg input) (length input - 1) 1
                      [sample TPI (neg highest) (map neg input) 0] 0).
{ unfold bufd. simpl. rewrite (sample_neg lowest (neg highest)) by (simpl; lia).
reflexivity. }
rewrite <- Hbufd.
assert (Hlen : length bufd = length input).
{ unfold bufd. clear Hbufd.
assert (Hgen : forall rounds ii buf index,
          length (first_pass TPI mul (neg highest) of_sint geb sub (neg highest) lambda
                             (map neg input) rounds ii buf index)
          = (length buf + rounds)%nat).
{ induction rounds as [| rounds IH]; intros ii buf index; simpl; [lia |].
  rewrite IH, length_app. simpl. lia. }
rewrite Hgen. simpl. lia. }
replace (length input - 2)%nat with (length input - 1 - 1)%nat by lia.
rewrite (second_pass_dual (map neg bufd) (length input - 1)
         [sample TPI lowest (map neg bufd) (Z.of_nat (length input) - 1)] 0)
by (rewrite ?length_map; simpl; lia).
rewrite map_neg_neg. simpl.
rewrite (sample_neg (neg highest) lowest) by lia.
rewrite neg_neg. reflexivity.
Qed.

End Duality.

(** X6.  On a non-empty line of floating-point samples the erosion branch of
    the parabolic filter computes the negation of what the dilation branch
    computes on the negated line, and the other way round: the operations
    round to nearest, which commutes with the negation, and [lowest()] is
    the negation of [max()].  (The values are compared as numbers: the sign
    of a zero is not part of them.) *)
Theorem Filter_erosion_dual (t : FloatType) (param : floating) (input : list floating) :
  (0 < length input)%nat ->
  Filter_float t false param input
  = map fp_neg (Filter_float t true param (map fp_neg input))
  /\ Filter_float t true param (map fp_neg input)
     = map fp_neg (Filter_float t false param input).
Proof.
  intros Hn.
  assert (Hdual : Filter_float t false param input
                  = map fp_neg (Filter_float t true param (map fp_neg input))).
  { unfold Filter_float, Filter. cbv zeta.
    rewrite (two_passes_dual floating (fp_add t) (fp_sub t) (fp_mul t) fp_geb fp_leb
               (fp_lowest t) (fp_max t) (fp_of_sint t) fp_neg _
               fp_neg_neg fp_leb_neg (fp_add_neg t) input Hn).
    rewrite fp_neg_max. reflexivity. }
  split; [exact Hdual |].
  rewrite Hdual, map_map.
  rewrite <- (map_id (Filter_float _ _ _ _)) at 1.
  apply map_ext. intros x. symmetry. apply fp_neg_neg.
Qed.

Lemma Filter_erosion_dual_witness :
  Filter_float SFLOAT false (of_Z 3) line_test
  = map fp_neg (Filter_float SFLOAT true (of_Z 3) (map fp_neg line_test)).
Proof.
  apply (proj1 (Filter_erosion_dual SFLOAT (of_Z 3) line_test ltac:(simpl; lia))).
Defined.

(** ** The other dimension manipulations *)

Lemma list_eq_at (l1 l2 : list Z) :
  length l1 = length l2 -> (forall k, (k < length l1)%nat -> at_ l1 k = at_ l2 k) -> l1 = l2.
Proof. intros Hlen Hat. apply (nth_ext l1 l2 0 0 Hlen). exact Hat. Qed.

Lemma at_insert (l : list Z) (i k : nat) (v : Z) :
  at_ (<[ i := v ]> l) k = if ((k =? i) && (i <? length l))%nat then v else at_ l k.
Proof.
  destruct (Nat.eqb_spec k i) as [-> | Hne]; simpl.
  - destruct (Nat.ltb_spec i (length l)) as [Hi | Hi].
    + apply at_insert_eq. exact Hi.
    + rewrite list_insert_ge by lia. reflexivity.
  - apply at_insert_ne. lia.
Qed.

Lemma array_swap_length (i j : nat) (a : list Z) : length (array_swap i j a) = length a.
Proof. unfold array_swap. rewrite !length_insert. reflexivity. Qed.

Lemma array_swap_at (i j k : nat) (a : list Z) :
  (i < length a)%nat -> (j < length a)%nat ->
  at_ (array_swap i j a) k
  = if (k =? j)%nat then at_ a i else if (k =? i)%nat then at_ a j else at_ a k.
Proof.
  intros Hi Hj. unfold array_swap. rewrite !at_insert, length_insert.
  replace (j <? length a)%nat with true by (symmetry; apply Nat.ltb_lt; lia).
  replace (i <? length a)%nat with true by (symmetry; apply Nat.ltb_lt; lia).
  rewrite !andb_true_r. reflexivity.
Qed.

Lemma array_swap_twice (i j : nat) (a : list Z) :
  (i < length a)%nat -> (j < length a)%nat -> array_swap i j (array_swap i j a) = a.
Proof.
  intros Hi Hj. apply list_eq_at.
  - rewrite !array_swap_length. reflexivity.
  - intros k _. rewrite !array_swap_at by (rewrite ?array_swap_length; lia).
    rewrite !Nat.eqb_refl.
    destruct (Nat.eqb_spec k j) as [-> | Hkj].
    + destruct (Nat.eqb_spec i j) as [-> | _]; reflexivity.
    + destruct (Nat.eqb_spec k i) as [-> | Hki]; [| reflexivity].
      destruct (Nat.eqb_spec j i) as [-> | _]; reflexivity.
Qed.

(** A loop whose body always succeeds runs as the pure loop of its effect. *)
Lemma for_run {St : Type} (body : nat -> M St unit) (F : nat -> St -> St) (n lo : nat) (s : St) :
  (forall ii s', body ii s' = (Ok tt, F ii s')) ->
  for_ n lo body s = (Ok tt, loop n lo F s).
Proof.
  intros Hbody. revert lo s. induction n as [| n IH]; intros lo s; simpl.
  - reflexivity.
  - rewrite (bind_Ok _ _ s (F lo s) tt) by apply Hbody. apply IH.
Qed.

(** Case analysis on the comparisons of naturals in the goal. *)
Ltac nat_cases :=
  repeat match goal with
         | |- context [(?a <=? ?b)%nat] => destruct (Nat.leb_spec a b)
         | |- context [(?a <? ?b)%nat] => destruct (Nat.ltb_spec a b)
         | |- context [(?a =? ?b)%nat] => destruct (Nat.eqb_spec a b)
         end.

Lemma shift_down_length (n lo : nat) (l : list Z) :
  length (loop n lo shift_down l) = length l.
Proof.
  revert lo l. induction n as [| n IH]; intros lo l; simpl; [reflexivity |].
  rewrite IH. unfold shift_down. apply length_insert.
Qed.

Lemma shift_down_at (n lo : nat) (l : list Z) (k : nat) :
  (1 <= lo)%nat -> (lo + n <= length l)%nat ->
  at_ (loop n lo shift_down l) k
  = if ((lo - 1 <=? k) && (k <? lo - 1 + n))%nat then at_ l (S k) else at_ l k.
Proof.
  revert lo l. induction n as [| n IH]; intros lo l Hlo Hlen; simpl.
  - replace ((lo - 1 <=? k) && (k <? lo - 1 + 0))%nat with false; [reflexivity |].
    symmetry. apply andb_false_iff.
    destruct (Nat.leb_spec (lo - 1) k); [right; apply Nat.ltb_ge; lia | left; reflexivity].
  - rewrite IH by (unfold shift_down; rewrite ?length_insert; lia).
    unfold shift_down. rewrite !at_insert.
    replace (S lo - 1)%nat with lo by lia.
    nat_cases; cbn [andb]; try reflexivity; try lia; f_equal; lia.
Qed.

Lemma at_app_l (l1 l2 : list Z) (k : nat) :
  (k < length l1)%nat -> at_ (l1 ++ l2) k = at_ l1 k.
Proof. intros Hk. unfold at_. apply app_nth1. exact Hk. Qed.

Lemma at_app_r (l1 l2 : list Z) (k : nat) :
  (length l1 <= k)%nat -> at_ (l1 ++ l2) k = at_ l2 (k - length l1).
Proof. intros Hk. unfold at_. apply app_nth2. lia. Qed.

Lemma at_take (l : list Z) (n k : nat) : (k < n)%nat -> at_ (take n l) k = at_ l k.
Proof.
  intros Hk. unfold at_. rewrite !nth_lookup, lookup_take_lt by exact Hk. reflexivity.
Qed.

Lemma at_drop (l : list Z) (n k : nat) : at_ (drop n l) k = at_ l (n + k).
Proof. unfold at_. rewrite !nth_lookup, lookup_drop. reflexivity. Qed.

Lemma array_erase_at (l : list Z) (dim k : nat) :
  (dim < length l)%nat ->
  at_ (array_erase dim l) k = if (k <? dim)%nat then at_ l k else at_ l (S k).
Proof.
  intros Hd. unfold array_erase.
  destruct (Nat.ltb_spec k dim) as [Hk | Hk].
  - rewrite at_app_l by (rewrite length_take; lia). apply at_take. exact Hk.
  - rewrite at_app_r by (rewrite length_take; lia).
    rewrite at_drop, length_take. f_equal. lia.
Qed.

Lemma array_erase_length {A : Type} (l : list A) (dim : nat) :
  (dim < length l)%nat -> length (array_erase dim l) = (length l - 1)%nat.
Proof. intros Hd. unfold array_erase. rewrite length_app, length_take, length_drop. lia. Qed.

Lemma array_insert_length {A : Type} (l : list A) (dim : nat) (v : A) :
  length (array_insert dim v l) = S (length l).
Proof.
  unfold array_insert. rewrite length_app. simpl. rewrite length_take, length_drop. lia.
Qed.

Lemma array_insert_at (l : list Z) (dim k : nat) (v : Z) :
  (dim <= length l)%nat ->
  at_ (array_insert dim v l) k
  = if (k <? dim)%nat then at_ l k else if (k =? dim)%nat then v else at_ l (k - 1).
Proof.
  intros Hd. unfold array_insert.
  destruct (Nat.ltb_spec k dim) as [Hk | Hk].
  - rewrite at_app_l by (rewrite length_take; lia). apply at_take. exact Hk.
  - rewrite at_app_r by (rewrite length_take; lia). rewrite length_take.
    replace (dim `min` length l)%nat with dim by lia.
    destruct (Nat.eqb_spec k dim) as [-> | Hne].
    + rewrite Nat.sub_diag. reflexivity.
    + destruct (k - dim)%nat as [| m] eqn:E; [lia |].
      change (at_ (v :: drop dim l) (S m)) with (at_ (drop dim l) m).
      rewrite at_drop. f_equal. lia.
Qed.

Lemma array_erase_insert (l : list Z) (dim : nat) (v : Z) :
  (dim <= length l)%nat -> array_erase dim (array_insert dim v l) = l.
Proof.
  intros Hd. apply list_eq_at.
  - rewrite array_erase_length by (rewrite array_insert_length; lia).
    rewrite array_insert_length. lia.
  - intros k _. rewrite array_erase_at by (rewrite array_insert_length; lia).
    rewrite !array_insert_at by exact Hd.
    destruct (Nat.ltb_spec k dim) as [Hk | Hk]; [reflexivity |].
    replace (S k <? dim)%nat with false by (symmetry; apply Nat.ltb_ge; lia).
    replace (S k =? dim)%nat with false by (symmetry; apply Nat.eqb_neq; lia).
    f_equal. lia.
Qed.

(** Shifting down and cutting the last entry erases the entry at [dim]. *)
Lemma shift_down_erase (l : list Z) (dim : nat) :
  (dim < length l)%nat ->
  array_resize (length l - 1) 0 (loop (length l - (dim + 1)) (dim + 1) shift_down l)
  = array_erase dim l.
Proof.
  intros Hd. unfold array_resize. rewrite shift_down_length.
  replace (length l - 1 - length l)%nat with 0%nat by lia. simpl. rewrite app_nil_r.
  apply list_eq_at.
  - rewrite length_take, shift_down_length, array_erase_length by exact Hd. lia.
  - intros k Hk. rewrite length_take, shift_down_length in Hk.
    rewrite at_take by lia. rewrite shift_down_at by lia.
    rewrite array_erase_at by exact Hd.
    replace (dim + 1 - 1)%nat with dim by lia.
    destruct (Nat.ltb_spec k dim) as [Hkd | Hkd].
    + replace (dim <=? k)%nat with false by (symmetry; apply Nat.leb_gt; lia). reflexivity.
    + replace (dim <=? k)%nat with true by (symmetry; apply Nat.leb_le; lia).
      replace (k <? dim + (length l - (dim + 1)))%nat with true
        by (symmetry; apply Nat.ltb_lt; lia).
      reflexivity.
Qed.


(** A loop that keeps an invariant under which its body succeeds runs as
    the pure loop of its effect, and ends in the invariant. *)
Lemma for_run_inv {St : Type} (P : nat -> St -> Prop) (body : nat -> M St unit)
    (F : nat -> St -> St) (n lo : nat) (s : St) :
  (forall ii s', (lo <= ii < lo + n)%nat -> P ii s' ->
     body ii s' = (Ok tt, F ii s') /\ P (S ii) (F ii s')) ->
  P lo s ->
  for_ n lo body s = (Ok tt, loop n lo F s) /\ P (lo + n)%nat (loop n lo F s).
Proof.
  revert lo s. induction n as [| n IH]; intros lo s Hbody HP; simpl.
  - rewrite Nat.add_0_r. split; [reflexivity | exact HP].
  - destruct (Hbody lo s ltac:(lia) HP) as [Hrun HP'].
    rewrite (bind_Ok _ _ s (F lo s) tt Hrun).
    replace (lo + S n)%nat with (S lo + n)%nat by lia.
    apply IH; [| exact HP'].
    intros ii s' Hii. apply Hbody. lia.
Qed.

Lemma array_resize_length {A : Type} (n : nat) (v : A) (l : list A) :
  length (array_resize n v l) = n.
Proof. unfold array_resize. rewrite length_app, length_take, length_replicate. lia. Qed.

Lemma array_resize_at (n : nat) (v : Z) (l : list Z) (k : nat) :
  at_ (array_resize n v l) k
  = if ((k <? n) && (k <? length l))%nat then at_ l k
    else if (k <? n)%nat then v else 0.
Proof.
  unfold array_resize.
  destruct (Nat.ltb_spec k n) as [Hn | Hn]; destruct (Nat.ltb_spec k (length l)) as [Hl | Hl];
    cbn [andb].
  - rewrite at_app_l by (rewrite length_take; lia). apply at_take. exact Hn.
  - rewrite at_app_r by (rewrite length_take; lia). unfold at_.
    rewrite nth_lookup, lookup_replicate_2 by (rewrite length_take; lia). reflexivity.
  - apply at_default. rewrite length_app, length_take, length_replicate. lia.
  - apply at_default. rewrite length_app, length_take, length_replicate. lia.
Qed.

Lemma expansion_loop_spec (n ii : nat) (sizes newSizes : list Z) :
  expansion_loop n ii sizes newSizes = true
  <-> forall k, (ii <= k < ii + n)%nat -> at_ sizes k = at_ newSizes k \/ at_ sizes k = 1.
Proof.
  revert ii. induction n as [| n IH]; intros ii; simpl.
  - split; [intros _ k Hk; lia | reflexivity].
  - destruct (Z.eqb_spec (at_ sizes ii) (at_ newSizes ii)) as [He | He];
      destruct (Z.eqb_spec (at_ sizes ii) 1) as [H1 | H1]; cbn [negb andb];
      try (rewrite IH; split;
           [intros H k Hk; destruct (Nat.eq_dec k ii) as [-> | Hne];
            [tauto | apply H; lia]
           | intros H k Hk; apply H; lia]).
    split; [discriminate |]. intros H. destruct (H ii ltac:(lia)); contradiction.
Qed.

Lemma shift_down_erase_len (l : list Z) (m dim : nat) :
  length l = m -> (dim < m)%nat ->
  array_resize (m - 1) 0 (loop (m - (dim + 1)) (dim + 1) shift_down l) = array_erase dim l.
Proof. intros <- Hd. apply shift_down_erase. exact Hd. Qed.

Section DimensionFacts.

Variable InsertDimension : nat -> PixelSize -> PixelSize.
Variable InsertDimensionValue : nat -> Q -> PixelSize -> PixelSize.
Variable PixelSize_at : PixelSize -> nat -> Q.
Variable PixelSize_Set : nat -> Q -> PixelSize -> PixelSize.
Variable PixelSize_Resize : nat -> PixelSize -> PixelSize.
Variable PixelSize_SwapDimensions : nat -> nat -> PixelSize -> PixelSize.
Variable PixelSize_EraseDimension : nat -> PixelSize -> PixelSize.
Variable SetVector : Z -> Tensor -> Tensor.
Variable SetMatrix : Z -> Z -> Tensor -> Tensor.
Variables DIMENSION_NOT_EXPANDED DIMENSIONALITIES_DONT_MATCH IMAGE_NOT_SCALAR : Error.

Lemma AddSingleton_run (img : Image) (dim : nat) :
IsForged img = true -> (dim <= length (sizes_ img))%nat ->
AddSingleton InsertDimension dim img
= (Ok tt, set_pixelSize (InsertDimension dim (pixelSize_ img))
            (set_strides (array_insert dim 0 (strides_ img))
               (set_sizes (array_insert dim 1 (sizes_ img)) img))).
Proof.
intros Hf Hd. unfold AddSingleton.
rewrite (bind_Ok _ _ img img img) by reflexivity.
rewrite (bind_Ok _ _ img img tt) by (unfold DIP_THROW_IF; rewrite Hf; reflexivity).
rewrite (bind_Ok _ _ img img tt).
2:{ unfold DIP_THROW_IF.
    replace (length (sizes_ img) <? dim)%nat with false by (symmetry; apply Nat.ltb_ge; lia).
    reflexivity. }
reflexivity.
Qed.

(** The loop of [Squeeze( dim )] shifts the sizes and the strides, and
touches no other field but the pixel size. *)
Lemma Squeeze_loop (n lo : nat) (img : Image) :
exists ps,
  for_ n lo (fun ii =>
    modify (fun i => set_strides (<[ (ii - 1)%nat := at_ (strides_ i) ii ]> (strides_ i)) i) ;;;
    modify (fun i => set_sizes (<[ (ii - 1)%nat := at_ (sizes_ i) ii ]> (sizes_ i)) i) ;;;
    modify (fun i => set_pixelSize
              (PixelSize_Set (ii - 1) (PixelSize_at (pixelSize_ i) ii) (pixelSize_ i)) i))
    img
  = (Ok tt, set_pixelSize ps
              (set_sizes (loop n lo shift_down (sizes_ img))
                 (set_strides (loop n lo shift_down (strides_ img)) img))).
Proof.
revert lo img. induction n as [| n IH]; intros lo img.
- exists (pixelSize_ img). simpl. destruct img; reflexivity.
- cbn [for_ loop].
  set (img1 := set_pixelSize
                 (PixelSize_Set (lo - 1) (PixelSize_at (pixelSize_ img) lo) (pixelSize_ img))
                 (set_sizes (shift_down lo (sizes_ img))
                    (set_strides (shift_down lo (strides_ img)) img))).
  destruct (IH (S lo) img1) as [ps Hps]. exists ps.
  rewrite (bind_Ok _ _ img img1 tt) by reflexivity.
  rewrite Hps. reflexivity.
Qed.

(** X9.  [Squeeze( dim )] undoes [AddSingleton( dim )]: on a forged image
and for [dim] up to its dimensionality, adding a singleton dimension and
squeezing it again gives back the sizes, the strides and every other
field but the pixel size.  [Squeeze( dim )] on a dimension out of range,
or whose size is not 1, throws [INVALID_PARAMETER] and changes nothing. *)
Theorem AddSingleton_Squeeze (img : Image) (dim : nat) :
IsForged img = true ->
length (strides_ img) = length (sizes_ img) ->
((length (sizes_ img) <= dim)%nat \/ at_ (sizes_ img) dim <> 1 ->
 Squeeze PixelSize_at PixelSize_Set PixelSize_Resize dim img
 = (Throw INVALID_PARAMETER, img))
/\ ((dim <= length (sizes_ img))%nat ->
    exists img1 img2,
      AddSingleton InsertDimension dim img = (Ok tt, img1)
      /\ Squeeze PixelSize_at PixelSize_Set PixelSize_Resize dim img1 = (Ok tt, img2)
      /\ same_but_pixelSize img2 img).
Proof.
intros Hf Hlen. split.
- intros Hbad. unfold Squeeze.
  rewrite (bind_Ok _ _ img img img) by reflexivity.
  rewrite (bind_Ok _ _ img img tt) by (unfold DIP_THROW_IF; rewrite Hf; reflexivity).
  apply bind_Throw. unfold DIP_THROW_IF.
  replace ((length (sizes_ img) <=? dim)%nat || negb (at_ (sizes_ img) dim =? 1)) with true;
    [reflexivity |].
  symmetry. apply orb_true_iff. destruct Hbad as [H | H].
  + left. apply Nat.leb_le. exact H.
  + right. apply negb_true_iff. apply Z.eqb_neq. exact H.
- intros Hd. rewrite (AddSingleton_run img dim Hf Hd).
  set (img1 := set_pixelSize (InsertDimension dim (pixelSize_ img))
                 (set_strides (array_insert dim 0 (strides_ img))
                    (set_sizes (array_insert dim 1 (sizes_ img)) img))).
  assert (Hsz1 : sizes_ img1 = array_insert dim 1 (sizes_ img)) by reflexivity.
  assert (Hst1 : strides_ img1 = array_insert dim 0 (strides_ img)) by reflexivity.
  destruct (Squeeze_loop (length (sizes_ img1) - (dim + 1)) (dim + 1) img1) as [ps Hloop].
  exists img1. eexists. split; [reflexivity |].
  unfold Squeeze.
  rewrite (bind_Ok _ _ img1 img1 img1) by reflexivity.
  rewrite (bind_Ok _ _ img1 img1 tt)
    by (unfold DIP_THROW_IF; replace (IsForged img1) with true by (symmetry; exact Hf);
        reflexivity).
  rewrite (bind_Ok _ _ img1 img1 tt).
  2:{ unfold DIP_THROW_IF. rewrite Hsz1, array_insert_length, array_insert_at by exact Hd.
      rewrite Nat.ltb_irrefl, Nat.eqb_refl.
      replace (S (length (sizes_ img)) <=? dim)%nat with false
        by (symmetry; apply Nat.leb_gt; lia).
      reflexivity. }
  rewrite (bind_Ok _ _ _ _ tt Hloop).
  split; [reflexivity |].
  unfold same_but_pixelSize. simpl.
  rewrite !(shift_down_erase_len _ (length (array_insert dim 1 (sizes_ img))))
    by (rewrite !array_insert_length; lia).
  rewrite !array_erase_insert by lia.
  destruct img; reflexivity.
Qed.

Lemma array_resize_same {A : Type} (n : nat) (v : A) (l : list A) :
length l = n -> array_resize n v l = l.
Proof.
intros <-. unfold array_resize. rewrite firstn_all, Nat.sub_diag. apply app_nil_r.
Qed.

Lemma ExpandDimensionality_run (img : Image) (dim : nat) :
IsForged img = true ->
ExpandDimensionality dim img
= (Ok tt, if (length (sizes_ img) <? dim)%nat
          then set_strides (array_resize dim 0 (strides_ img))
                 (set_sizes (array_resize dim 1 (sizes_ img)) img)
          else img).
Proof.
intros Hf. unfold ExpandDimensionality.
rewrite (bind_Ok _ _ img img img) by reflexivity.
rewrite (bind_Ok _ _ img img tt) by (unfold DIP_THROW_IF; rewrite Hf; reflexivity).
destruct (length (sizes_ img) <? dim)%nat; reflexivity.
Qed.

Lemma ExpandSingletonDimension_run (img : Image) (dim : nat) (sz : Z) :
IsForged img = true -> (dim < length (sizes_ img))%nat -> at_ (sizes_ img) dim = 1 ->
ExpandSingletonDimension dim sz img
= (Ok tt, set_strides (<[ dim := 0 ]> (strides_ img))
            (set_sizes (<[ dim := sz ]> (sizes_ img)) img)).
Proof.
intros Hf Hd H1. unfold ExpandSingletonDimension.
rewrite (bind_Ok _ _ img img img) by reflexivity.
rewrite (bind_Ok _ _ img img tt) by (unfold DIP_THROW_IF; rewrite Hf; reflexivity).
rewrite (bind_Ok _ _ img img tt).
2:{ unfold DIP_THROW_IF.
    replace (length (sizes_ img) <=? dim)%nat with false by (symmetry; apply Nat.leb_gt; lia).
    reflexivity. }
rewrite (bind_Ok _ _ img img tt).
2:{ unfold DIP_THROW_IF. rewrite H1. reflexivity. }
reflexivity.
Qed.

(** The run of [ExpandSingletonDimensions] when the expansion is possible. *)
Lemma ExpandSingletonDimensions_expands (img : Image) (newSizes : list Z) :
IsForged img = true ->
length (strides_ img) = length (sizes_ img) ->
(length (sizes_ img) <= length newSizes)%nat ->
(forall k, (k < length (sizes_ img))%nat ->
   at_ (sizes_ img) k = at_ newSizes k \/ at_ (sizes_ img) k = 1) ->
exists img',
  ExpandSingletonDimensions DIMENSIONALITIES_DONT_MATCH newSizes img = (Ok tt, img')
  /\ IsForged img' = true
  /\ sizes_ img' = newSizes
  /\ length (strides_ img') = length newSizes
  /\ (forall k, (k < length newSizes)%nat ->
        at_ (strides_ img') k
        = if (k <? length (sizes_ img))%nat && (at_ (sizes_ img) k =? at_ newSizes k)
          then at_ (strides_ img) k else 0)
  /\ set_sizes (sizes_ img) (set_strides (strides_ img) img') = img.
Proof.
intros Hf Hlen. set (nd := length (sizes_ img)). intros Hnd Hok.
unfold ExpandSingletonDimensions.
rewrite (bind_Ok _ _ img img img) by reflexivity.
rewrite (bind_Ok _ _ img img tt) by (unfold DIP_THROW_IF; rewrite Hf; reflexivity).
fold nd.
  rewrite (bind_Ok _ _ img img tt).
  2:{ unfold DIP_THROW_IF.
      replace (length newSizes <? nd)%nat with false by (symmetry; apply Nat.ltb_ge; lia).
      reflexivity. }
  rewrite (bind_Ok _ _ img img tt).
  2:{ unfold DIP_THROW_IF, IsSingletonExpansionPossible. fold nd.
      replace (length newSizes <? nd)%nat with false by (symmetry; apply Nat.ltb_ge; lia).
      replace (expansion_loop nd 0 (sizes_ img) newSizes) with true; [reflexivity |].
      symmetry. apply expansion_loop_spec. intros k Hk. apply Hok. lia. }
  set (S0 := array_resize (length newSizes) 1 (sizes_ img)).
  set (T0 := array_resize (length newSizes) 0 (strides_ img)).
  set (img0 := set_strides T0 (set_sizes S0 img)).
  (* the state the loop starts from *)
  rewrite (bind_Ok _ _ img img0 tt).
  2:{ destruct (Nat.ltb_spec nd (length newSizes)) as [Hlt | Hge].
      - rewrite (ExpandDimensionality_run img _ Hf). fold nd.
        replace (nd <? length newSizes)%nat with true by (symmetry; apply Nat.ltb_lt; lia).
        reflexivity.
      - unfold ret, img0, S0, T0.
        rewrite !array_resize_same by (unfold nd in *; lia).
        destruct img; reflexivity. }
  assert (HS0 : forall k, at_ S0 k = at_ newSizes k \/ at_ S0 k = 1
                            \/ (length newSizes <= k)%nat).
  { intros k. unfold S0. rewrite array_resize_at. fold nd.
    destruct (Nat.ltb_spec k (length newSizes)) as [Hk | Hk]; [| right; right; lia].
    destruct (Nat.ltb_spec k nd) as [Hkn | Hkn]; cbn [andb].
    - destruct (Hok k Hkn) as [H | H]; [left | right; left]; exact H.
    - right. left. reflexivity. }
  set (F := fun (ii : nat) (i : Image) =>
              if negb (at_ (sizes_ i) ii =? at_ newSizes ii)
              then set_strides (<[ ii := 0 ]> (strides_ i))
                     (set_sizes (<[ ii := at_ newSizes ii ]> (sizes_ i)) i)
              else i).
  destruct (for_run_inv (expanding img newSizes S0 T0)
              (fun ii => i <- get ;;
                 if negb (at_ (sizes_ i) ii =? at_ newSizes ii)
                 then ExpandSingletonDimension ii (at_ newSizes ii) else ret tt)
              F (length newSizes) 0 img0) as [Hrun Hend].
  + (* one round *)
    intros ii i Hii (Hfi & Hls & Hlt & Hdone & Htodo & Hsdone & Hstodo & Hrest).
    rewrite (bind_Ok _ _ i i i) by reflexivity. unfold F.
    destruct (Z.eqb_spec (at_ (sizes_ i) ii) (at_ newSizes ii)) as [Heq | Hne]; cbn [negb].
    * split; [reflexivity |].
      split; [exact Hfi |]. split; [exact Hls |]. split; [exact Hlt |].
      split; [| split; [| split; [| split; [| exact Hrest]]]].
      -- intros k Hk. destruct (Nat.eq_dec k ii) as [-> | Hki];
           [exact Heq | apply Hdone; lia].
      -- intros k Hk. apply Htodo. lia.
      -- intros k Hk. destruct (Nat.eq_dec k ii) as [-> | Hki]; [| apply Hsdone; lia].
         rewrite <- (Htodo ii) by lia. rewrite Heq, Z.eqb_refl. apply Hstodo. lia.
      -- intros k Hk. apply Hstodo. lia.
    * assert (H1 : at_ (sizes_ i) ii = 1).
      { destruct (HS0 ii) as [H | [H | H]]; [| | lia].
        - exfalso. apply Hne. rewrite Htodo by lia. exact H.
        - rewrite Htodo by lia. exact H. }
      rewrite (ExpandSingletonDimension_run i ii _ Hfi ltac:(lia) H1).
      split; [reflexivity |].
      split; [exact Hfi |].
      split; [simpl; rewrite length_insert; exact Hls |].
      split; [simpl; rewrite length_insert; exact Hlt |].
      split; [| split; [| split; [| split]]]; simpl.
      -- intros k Hk. rewrite at_insert.
         destruct (Nat.eqb_spec k ii) as [-> | Hki]; cbn [andb].
         ++ replace (ii <? length (sizes_ i))%nat with true
              by (symmetry; apply Nat.ltb_lt; lia). reflexivity.
         ++ apply Hdone. lia.
      -- intros k Hk. rewrite at_insert_ne by lia. apply Htodo. lia.
      -- intros k Hk. rewrite at_insert.
         destruct (Nat.eqb_spec k ii) as [-> | Hki]; cbn [andb].
         ++ replace (ii <? length (strides_ i))%nat with true
              by (symmetry; apply Nat.ltb_lt; lia).
            rewrite <- (Htodo ii) by lia.
            replace (at_ (sizes_ i) ii =? at_ newSizes ii) with false
              by (symmetry; apply Z.eqb_neq; exact Hne).
            reflexivity.
         ++ apply Hsdone. lia.
      -- intros k Hk. rewrite at_insert_ne by lia. apply Hstodo. lia.
      -- rewrite <- Hrest at 3. destruct i; reflexivity.
  + (* the invariant holds at the start *)
    unfold expanding, img0.
    split; [exact Hf |].
    split; [simpl; apply array_resize_length |].
    split; [simpl; apply array_resize_length |].
    split; [intros k Hk; lia |]. split; [intros k Hk; reflexivity |].
    split; [intros k Hk; lia |]. split; [intros k Hk; reflexivity |].
    destruct img; reflexivity.
  + simpl in Hend.
    destruct Hend as (Hfi & Hls & Hlt & Hdone & _ & Hsdone & _ & Hrest).
    eexists. split; [exact Hrun |]. split; [exact Hfi |].
    split; [| split; [exact Hlt | split; [| exact Hrest]]].
    * apply list_eq_at; [exact Hls |]. intros k Hk. apply Hdone. lia.
    * intros k Hk. rewrite (Hsdone k Hk). unfold S0, T0. rewrite !array_resize_at.
      rewrite Hlen. fold nd.
      replace (k <? length newSizes)%nat with true by (symmetry; apply Nat.ltb_lt; lia).
      cbn [andb].
      destruct (Nat.ltb_spec k nd) as [Hkn | Hkn]; cbn [andb]; [reflexivity |].
      destruct (1 =? at_ newSizes k); reflexivity.
Qed.


(** X10.  [ExpandSingletonDimensions( newSizes )] on a forged image.  With
fewer new sizes than dimensions it throws [E::DIMENSIONALITIES_DONT_MATCH];
when some dimension has a size that is neither the new size nor 1 it
throws [SIZES_DONT_MATCH]; in both cases the image is left alone.
Otherwise it succeeds: the sizes become [newSizes], a dimension whose size
did not change keeps its stride, every dimension that was expanded or
added gets stride 0, and no other field changes. *)
Theorem ExpandSingletonDimensions_spec (img : Image) (newSizes : list Z) :
IsForged img = true ->
length (strides_ img) = length (sizes_ img) ->
let nd := length (sizes_ img) in
let run := ExpandSingletonDimensions DIMENSIONALITIES_DONT_MATCH newSizes img in
((length newSizes < nd)%nat -> run = (Throw DIMENSIONALITIES_DONT_MATCH, img))
/\ ((nd <= length newSizes)%nat ->
    (exists k, (k < nd)%nat /\ at_ (sizes_ img) k <> at_ newSizes k
               /\ at_ (sizes_ img) k <> 1) ->
    run = (Throw SIZES_DONT_MATCH, img))
/\ ((nd <= length newSizes)%nat ->
    (forall k, (k < nd)%nat ->
       at_ (sizes_ img) k = at_ newSizes k \/ at_ (sizes_ img) k = 1) ->
    exists img',
      run = (Ok tt, img')
      /\ sizes_ img' = newSizes
      /\ length (strides_ img') = length newSizes
      /\ (forall k, (k < length newSizes)%nat ->
            at_ (strides_ img') k
            = if (k <? nd)%nat && (at_ (sizes_ img) k =? at_ newSizes k)
              then at_ (strides_ img) k else 0)
      /\ set_sizes (sizes_ img) (set_strides (strides_ img) img') = img).
Proof.
intros Hf Hlen nd run. subst run. unfold ExpandSingletonDimensions.
rewrite (bind_Ok _ _ img img img) by reflexivity.
rewrite (bind_Ok _ _ img img tt) by (unfold DIP_THROW_IF; rewrite Hf; reflexivity).
fold nd. split; [| split].
- intros Hshort. apply bind_Throw. unfold DIP_THROW_IF.
  replace (length newSizes <? nd)%nat with true by (symmetry; apply Nat.ltb_lt; lia).
  reflexivity.
- intros Hnd (k & Hk & Hne & H1).
  rewrite (bind_Ok _ _ img img tt).
  2:{ unfold DIP_THROW_IF.
      replace (length newSizes <? nd)%nat with false by (symmetry; apply Nat.ltb_ge; lia).
      reflexivity. }
  apply bind_Throw. unfold DIP_THROW_IF, IsSingletonExpansionPossible. fold nd.
  replace (length newSizes <? nd)%nat with false by (symmetry; apply Nat.ltb_ge; lia).
  destruct (expansion_loop nd 0 (sizes_ img) newSizes) eqn:E; [| reflexivity].
  exfalso. pose proof (proj1 (expansion_loop_spec _ _ _ _) E) as E'.
  destruct (E' k ltac:(lia)); contradiction.
- intros Hnd Hok.
  destruct (ExpandSingletonDimensions_expands img newSizes Hf Hlen Hnd Hok)
    as (img' & Hrun & _ & Hrest).
  exists img'. unfold ExpandSingletonDimensions in Hrun.
  rewrite (bind_Ok _ _ img img img) in Hrun by reflexivity.
  rewrite (bind_Ok _ _ img img tt) in Hrun
    by (unfold DIP_THROW_IF; rewrite Hf; reflexivity).
  split; [exact Hrun | exact Hrest].
Qed.

Lemma unexpand_loop (n lo : nat) (img : Image) :
exists sizes',
  loop n lo unexpand_step img = set_sizes sizes' img
  /\ length sizes' = length (sizes_ img)
  /\ forall k, at_ sizes' k
               = if ((lo <=? k) && (k <? lo + n) && (k <? length (sizes_ img)))%nat
                    && (at_ (strides_ img) k =? 0)
                 then 1 else at_ (sizes_ img) k.
Proof.
revert lo img. induction n as [| n IH]; intros lo img.
- exists (sizes_ img). split; [destruct img; reflexivity |]. split; [reflexivity |].
  intros k. nat_cases; cbn [andb]; try reflexivity; lia.
- cbn [loop]. destruct (IH (S lo) (unexpand_step lo img)) as (sizes' & Heq & Hl & Hat).
  exists sizes'. unfold unexpand_step in *.
  destruct (Z.eqb_spec (at_ (strides_ img) lo) 0) as [H0 | H0].
  + split; [rewrite Heq; destruct img; reflexivity |].
    unfold set_sizes in Hl, Hat. cbn [sizes_ strides_] in Hl, Hat.
    rewrite length_insert in Hl, Hat. split; [exact Hl |].
    intros k. rewrite Hat, at_insert.
    destruct (Nat.eq_dec k lo) as [-> | Hne].
    * rewrite H0. nat_cases; cbn [andb]; try reflexivity; lia.
    * nat_cases; cbn [andb]; try reflexivity; lia.
  + split; [exact Heq |]. split; [exact Hl |].
    intros k. rewrite Hat.
    destruct (Nat.eq_dec k lo) as [-> | Hne].
    * replace (at_ (strides_ img) lo =? 0) with false by (symmetry; apply Z.eqb_neq; exact H0).
      rewrite !andb_false_r. reflexivity.
    * nat_cases; cbn [andb]; try reflexivity; lia.
Qed.

Lemma UnexpandSingletonDimensions_run (img : Image) :
IsForged img = true ->
exists sizes',
  UnexpandSingletonDimensions img
  = (Ok tt, set_sizes sizes'
              (if tensorStride_ img =? 0 then set_tensor (SetScalar (tensor_ img)) img
               else img))
  /\ length sizes' = length (sizes_ img)
  /\ forall k, at_ sizes' k
               = if (k <? length (sizes_ img))%nat && (at_ (strides_ img) k =? 0)
                 then 1 else at_ (sizes_ img) k.
Proof.
intros Hf. unfold UnexpandSingletonDimensions.
rewrite (bind_Ok _ _ img img img) by reflexivity.
rewrite (bind_Ok _ _ img img tt) by (unfold DIP_THROW_IF; rewrite Hf; reflexivity).
set (img1 := if tensorStride_ img =? 0 then set_tensor (SetScalar (tensor_ img)) img
             else img).
rewrite (bind_Ok _ _ img img1 tt)
  by (unfold img1; destruct (tensorStride_ img =? 0); reflexivity).
rewrite (for_run _ unexpand_step)
  by (intros ii s'; rewrite (bind_Ok _ _ s' s' s') by reflexivity;
      unfold unexpand_step; destruct (at_ (strides_ s') ii =? 0); reflexivity).
destruct (unexpand_loop (length (sizes_ img)) 0 img1) as (sizes' & Heq & Hl & Hat).
assert (Hs1 : sizes_ img1 = sizes_ img)
  by (unfold img1; destruct (tensorStride_ img =? 0); reflexivity).
assert (Ht1 : strides_ img1 = strides_ img)
  by (unfold img1; destruct (tensorStride_ img =? 0); reflexivity).
rewrite Hs1, Ht1 in *.
exists sizes'. rewrite Heq. split; [reflexivity |]. split; [exact Hl |].
intros k. rewrite Hat. nat_cases; cbn [andb]; try reflexivity; lia.
Qed.

(** X11.  [UnexpandSingletonDimensions] undoes [ExpandSingletonDimensions]:
on a forged image whose tensor stride is not 0 and whose dimensions of a
size other than 1 have a stride other than 0, expanding to [newSizes] and
unexpanding again gives the image its sizes back, with size 1 for the
dimensions that the expansion added; the dimensions that kept their size
keep their stride as well. *)
Theorem Expand_Unexpand (img : Image) (newSizes : list Z) :
IsForged img = true ->
length (strides_ img) = length (sizes_ img) ->
(length (sizes_ img) <= length newSizes)%nat ->
(forall k, (k < length (sizes_ img))%nat ->
   at_ (sizes_ img) k = at_ newSizes k \/ at_ (sizes_ img) k = 1) ->
(forall k, (k < length (sizes_ img))%nat ->
   at_ (sizes_ img) k <> 1 -> at_ (strides_ img) k <> 0) ->
tensorStride_ img <> 0 ->
exists img1 img2,
  ExpandSingletonDimensions DIMENSIONALITIES_DONT_MATCH newSizes img = (Ok tt, img1)
  /\ UnexpandSingletonDimensions img1 = (Ok tt, img2)
  /\ sizes_ img2 = array_resize (length newSizes) 1 (sizes_ img)
  /\ tensor_ img2 = tensor_ img
  /\ forall k, (k < length (sizes_ img))%nat -> at_ (sizes_ img) k <> 1 ->
               at_ (strides_ img2) k = at_ (strides_ img) k.
Proof.
intros Hf Hlen Hnd Hok Hstr Hts.
destruct (ExpandSingletonDimensions_expands img newSizes Hf Hlen Hnd Hok)
  as (img1 & Hrun1 & Hf1 & Hs1 & Hl1 & Ht1 & Hrest).
destruct (UnexpandSingletonDimensions_run img1 Hf1) as (sizes' & Hrun2 & Hl2 & Hat).
assert (Hts1 : tensorStride_ img1 = tensorStride_ img) by (rewrite <- Hrest; reflexivity).
assert (Hten1 : tensor_ img1 = tensor_ img) by (rewrite <- Hrest; reflexivity).
rewrite Hts1 in Hrun2.
replace (tensorStride_ img =? 0) with false in Hrun2 by (symmetry; apply Z.eqb_neq; exact Hts).
exists img1. eexists. split; [exact Hrun1 |]. split; [exact Hrun2 |]. simpl.
split; [| split; [exact Hten1 |]].
- apply list_eq_at.
  + rewrite Hl2, Hs1, array_resize_length. reflexivity.
  + intros k Hk. rewrite Hl2, Hs1 in Hk. rewrite Hat, Hs1, array_resize_at.
    replace (k <? length newSizes)%nat with true by (symmetry; apply Nat.ltb_lt; lia).
    rewrite (Ht1 k Hk). cbn [andb].
    destruct (Nat.ltb_spec k (length (sizes_ img))) as [Hkn | Hkn]; cbn [andb].
    * destruct (Z.eqb_spec (at_ (sizes_ img) k) (at_ newSizes k)) as [Heq | Hne].
      -- destruct (Z.eq_dec (at_ (sizes_ img) k) 1) as [H1 | H1].
         ++ destruct (at_ (strides_ img) k =? 0); congruence.
         ++ replace (at_ (strides_ img) k =? 0) with false
              by (symmetry; apply Z.eqb_neq; apply Hstr; assumption).
            symmetry. exact Heq.
      -- simpl. destruct (Hok k Hkn) as [H | H]; [contradiction | symmetry; exact H].
    * reflexivity.
- intros k Hk H1. rewrite (Ht1 k ltac:(lia)).
  replace (k <? length (sizes_ img))%nat with true by (symmetry; apply Nat.ltb_lt; lia).
  destruct (Hok k Hk) as [H | H]; [| contradiction].
  rewrite H, Z.eqb_refl. reflexivity.
Qed.

(** X8.  On a forged image, [SwapDimensions] with a dimension out of range
throws [ILLEGAL_DIMENSION] and leaves the image alone; with two dimensions
in range it succeeds, and swapping the same two dimensions again gives
back the sizes, the strides and every other field but the pixel size
(whose members are not modelled): the origin never moves. *)
Theorem SwapDimensions_twice (img : Image) (dim1 dim2 : nat) :
IsForged img = true ->
length (strides_ img) = length (sizes_ img) ->
((length (sizes_ img) <= dim1)%nat \/ (length (sizes_ img) <= dim2)%nat ->
 SwapDimensions PixelSize_SwapDimensions dim1 dim2 img = (Throw ILLEGAL_DIMENSION, img))
/\ ((dim1 < length (sizes_ img))%nat -> (dim2 < length (sizes_ img))%nat ->
    exists img1 img2,
      SwapDimensions PixelSize_SwapDimensions dim1 dim2 img = (Ok tt, img1)
      /\ SwapDimensions PixelSize_SwapDimensions dim1 dim2 img1 = (Ok tt, img2)
      /\ at_ (sizes_ img1) dim1 = at_ (sizes_ img) dim2
      /\ at_ (strides_ img1) dim1 = at_ (strides_ img) dim2
      /\ origin_ img1 = origin_ img
      /\ same_but_pixelSize img2 img).
Proof.
intros Hf Hlen. split.
- intros Hout. unfold SwapDimensions.
  rewrite (bind_Ok _ _ img img img) by reflexivity.
  rewrite (bind_Ok _ _ img img tt) by (unfold DIP_THROW_IF; rewrite Hf; reflexivity).
  apply bind_Throw. unfold DIP_THROW_IF.
  replace ((length (sizes_ img) <=? dim1)%nat || (length (sizes_ img) <=? dim2)%nat)
    with true; [reflexivity |].
  symmetry. apply orb_true_iff. destruct Hout; [left | right]; apply Nat.leb_le; lia.
- intros H1 H2.
  assert (Hrun : forall i, IsForged i = true ->
            length (sizes_ i) = length (sizes_ img) ->
            SwapDimensions PixelSize_SwapDimensions dim1 dim2 i
            = (Ok tt, if negb (dim1 =? dim2)%nat
                      then set_pixelSize (PixelSize_SwapDimensions dim1 dim2 (pixelSize_ i))
                             (set_strides (array_swap dim1 dim2 (strides_ i))
                                (set_sizes (array_swap dim1 dim2 (sizes_ i)) i))
                      else i)).
  { intros i Hfi Hli. unfold SwapDimensions.
    rewrite (bind_Ok _ _ i i i) by reflexivity.
    rewrite (bind_Ok _ _ i i tt) by (unfold DIP_THROW_IF; rewrite Hfi; reflexivity).
    rewrite (bind_Ok _ _ i i tt).
    2:{ unfold DIP_THROW_IF. rewrite Hli.
        replace ((length (sizes_ img) <=? dim1)%nat || (length (sizes_ img) <=? dim2)%nat)
          with false; [reflexivity |].
        symmetry. apply orb_false_iff. split; apply Nat.leb_gt; lia. }
    destruct (negb (dim1 =? dim2)%nat); reflexivity. }
  rewrite (Hrun img Hf eq_refl).
  destruct (Nat.eqb_spec dim1 dim2) as [-> | Hne]; simpl.
  + exists img, img. rewrite (Hrun img Hf eq_refl). simpl.
    repeat split. unfold same_but_pixelSize. destruct img; reflexivity.
  + eexists. eexists. split; [reflexivity |].
    rewrite Hrun by (simpl; first [exact Hf | rewrite ?array_swap_length; reflexivity]).
    replace (dim1 =? dim2)%nat with false by (symmetry; apply Nat.eqb_neq; exact Hne).
    simpl. split; [reflexivity |].
    rewrite !array_swap_at by lia.
    rewrite !Nat.eqb_refl.
    replace (dim1 =? dim2)%nat with false by (symmetry; apply Nat.eqb_neq; exact Hne).
    repeat split.
    unfold same_but_pixelSize. simpl.
    rewrite !array_swap_twice by lia. destruct img; reflexivity.
Qed.

End DimensionFacts.

Lemma SwapDimensions_twice_witness :
  exists img1 img2,
    SwapDimensions keep_pixel_size2 1 2 img_dims_test = (Ok tt, img1)
    /\ SwapDimensions keep_pixel_size2 1 2 img1 = (Ok tt, img2)
    /\ at_ (sizes_ img1) 1 = 15 /\ at_ (strides_ img1) 1 = 150
    /\ sizes_ img2 = [5; 10; 15] /\ strides_ img2 = [3; 15; 150].
Proof.
  destruct (SwapDimensions_twice keep_pixel_size2 img_dims_test 1 2 eq_refl eq_refl)
    as [_ H].
  destruct H as (img1 & img2 & H1 & H2 & Hsz & Hst & _ & Hsame); [simpl; lia | simpl; lia |].
  exists img1, img2. split; [exact H1 |]. split; [exact H2 |].
  split; [exact Hsz |]. split; [exact Hst |].
  unfold same_but_pixelSize in Hsame. split.
  - change [5; 10; 15] with (sizes_ img_dims_test). rewrite <- Hsame. reflexivity.
  - change [3; 15; 150] with (strides_ img_dims_test). rewrite <- Hsame. reflexivity.
Defined.

Lemma AddSingleton_Squeeze_witness :
  exists img1 img2,
    AddSingleton keep_pixel_size 1 img_singleton_test = (Ok tt, img1)
    /\ Squeeze first_pixel_size keep_pixel_size_value keep_pixel_size 1 img1 = (Ok tt, img2)
    /\ sizes_ img2 = [5; 10; 15] /\ strides_ img2 = [1; 5; 50].
Proof.
  destruct (AddSingleton_Squeeze keep_pixel_size first_pixel_size keep_pixel_size_value
              keep_pixel_size img_singleton_test 1 eq_refl eq_refl) as [_ H].
  destruct H as (img1 & img2 & H1 & H2 & Hsame); [simpl; lia |].
  exists img1, img2. split; [exact H1 |]. split; [exact H2 |].
  unfold same_but_pixelSize in Hsame. split.
  - change [5; 10; 15] with (sizes_ img_singleton_test). rewrite <- Hsame. reflexivity.
  - change [1; 5; 50] with (strides_ img_singleton_test). rewrite <- Hsame. reflexivity.
Defined.

Lemma ExpandSingletonDimensions_spec_witness :
  exists img',
    ExpandSingletonDimensions dimensionalities_error sizes_expand_test img_expand_test
    = (Ok tt, img')
    /\ sizes_ img' = [5; 20; 10; 15; 25]
    /\ at_ (strides_ img') 1 = 0 /\ at_ (strides_ img') 2 = 5 /\ at_ (strides_ img') 4 = 0.
Proof.
  destruct (ExpandSingletonDimensions_spec dimensionalities_error img_expand_test
              sizes_expand_test eq_refl eq_refl) as (_ & _ & H).
  destruct H as (img' & Hrun & Hs & _ & Hat & _).
  - simpl. lia.
  - intros k Hk. simpl in Hk.
    do 4 (destruct k as [| k]; [vm_compute; tauto |]). lia.
  - exists img'. split; [exact Hrun |]. split; [exact Hs |].
    split; [| split].
    + rewrite (Hat 1%nat) by (simpl; lia). reflexivity.
    + rewrite (Hat 2%nat) by (simpl; lia). reflexivity.
    + rewrite (Hat 4%nat) by (simpl; lia). reflexivity.
Defined.

Lemma Expand_Unexpand_witness :
  exists img1 img2,
    ExpandSingletonDimensions dimensionalities_error sizes_expand_test img_expand_test
    = (Ok tt, img1)
    /\ UnexpandSingletonDimensions img1 = (Ok tt, img2)
    /\ sizes_ img2 = [5; 1; 10; 15; 1].
Proof.
  destruct (Expand_Unexpand dimensionalities_error img_expand_test sizes_expand_test
              eq_refl eq_refl) as (img1 & img2 & H1 & H2 & Hs & _).
  - simpl. lia.
  - intros k Hk. simpl in Hk.
    do 4 (destruct k as [| k]; [vm_compute; tauto |]). lia.
  - intros k Hk. simpl in Hk.
    do 4 (destruct k as [| k]; [vm_compute; intros H; first [congruence | discriminate] |]).
    lia.
  - simpl. discriminate.
  - exists img1, img2. split; [exact H1 |]. split; [exact H2 |]. rewrite Hs. reflexivity.
Defined.


(** ** [Image::SplitDimension] *)

Lemma fold_umul_product (l : list Z) (a : Z) :
  is_uint a -> fold_left umul l a = wrap_uint (a * product l).
Proof.
  revert a. induction l as [| x l IH]; intros a Ha; simpl.
  - rewrite Z.mul_1_r. symmetry. apply wrap_uint_id. exact Ha.
  - rewrite IH by apply wrap_uint_range. unfold umul, wrap_uint.
    rewrite Z.mul_mod_idemp_l by lia. f_equal. ring.
Qed.

Lemma NumberOfPixels_product (img : Image) :
  NumberOfPixels img = wrap_uint (product (sizes_ img)).
Proof.
  unfold NumberOfPixels. rewrite fold_umul_product by (unfold is_uint; lia).
  f_equal. ring.
Qed.

Lemma product_app (l1 l2 : list Z) : product (l1 ++ l2) = product l1 * product l2.
Proof.
  induction l1 as [| x l1 IH]; simpl; [ring |]. fold (product (l1 ++ l2)) (product l1).
  rewrite IH. ring.
Qed.

(** The two arrays after a split at [dim], written out. *)
Lemma split_arrays {A : Type} (l : list A) (dim : nat) (x v w : A) :
  l !! dim = Some x ->
  array_insert (dim + 1) w (<[ dim := v ]> l) = take dim l ++ v :: w :: drop (S dim) l.
Proof.
  intros Hx. apply lookup_lt_Some in Hx as Hd.
  unfold array_insert.
  rewrite <- (take_drop_middle l dim x Hx) at 1 2.
  assert (Hlt : length (take dim l) = dim) by (rewrite length_take; lia).
  rewrite insert_app_r_alt by lia. rewrite Hlt, Nat.sub_diag. simpl.
  replace (dim + 1)%nat with (length (take dim l) + 1)%nat by lia.
  rewrite take_app_add', drop_app_add' by reflexivity.
  simpl. rewrite <- app_assoc. reflexivity.
Qed.

Lemma at_lookup (l : list Z) (k : nat) : (k < length l)%nat -> l !! k = Some (at_ l k).
Proof.
  intros Hk. unfold at_. destruct (nth_lookup_or_length l k 0) as [H | H]; [exact H | lia].
Qed.

Section SplitDimensionFacts.

Variable InsertDimensionValue : nat -> Q -> PixelSize -> PixelSize.
Variable PixelSize_at : PixelSize -> nat -> Q.

(** X12.  [SplitDimension( dim, size )] on a forged image, for a size other
  than 0.  A dimension out of range throws [ILLEGAL_DIMENSION]; a size that
  does not divide the size of the dimension throws; in both cases nothing
  changes.  Otherwise the dimension is replaced by two, of sizes [size] and
  the quotient: the image has as many pixels as before, the origin stays,
  and the pixel at [( a, b )] along the two new dimensions is at the offset
  of the pixel [a + b * size] along the old one. *)
Theorem SplitDimension_spec (img : Image) (dim : nat) (size : Z) :
  IsForged img = true ->
  length (strides_ img) = length (sizes_ img) ->
  0 < size < 2 ^ 64 ->
  is_uint (at_ (sizes_ img) dim) ->
  let run := SplitDimension InsertDimensionValue PixelSize_at dim size img in
  ((length (sizes_ img) <= dim)%nat -> run = (Throw ILLEGAL_DIMENSION, img))
  /\ ((dim < length (sizes_ img))%nat -> at_ (sizes_ img) dim mod size <> 0 ->
      run = (Throw not_divisible_error, img))
  /\ ((dim < length (sizes_ img))%nat -> at_ (sizes_ img) dim mod size = 0 ->
      exists img',
        run = (Ok tt, img')
        /\ sizes_ img' = take dim (sizes_ img)
                         ++ size :: at_ (sizes_ img) dim / size :: drop (S dim) (sizes_ img)
        /\ NumberOfPixels img' = NumberOfPixels img
        /\ origin_ img' = origin_ img
        /\ length (strides_ img') = length (sizes_ img')
        /\ forall a b : Z,
             eqm64 (a * at_ (strides_ img') dim + b * at_ (strides_ img') (dim + 1))
                   ((a + b * size) * at_ (strides_ img) dim)).
Proof.
  intros Hf Hlen Hsize Hs run. subst run. unfold SplitDimension.
  rewrite (bind_Ok _ _ img img img) by reflexivity.
  rewrite (bind_Ok _ _ img img tt) by (unfold DIP_THROW_IF; rewrite Hf; reflexivity).
  set (s := at_ (sizes_ img) dim) in *.
  assert (Hq : 0 <= s / size <= s).
  { unfold is_uint in Hs. split; [apply Z.div_pos; lia |].
    apply Z.div_le_upper_bound; nia. }
  assert (Hmul : umul size (udiv s size) = size * (s / size)).
  { unfold umul, udiv. apply wrap_uint_id. unfold is_uint in *.
    pose proof (Z.mul_div_le s size ltac:(lia)). nia. }
  split; [| split].
  - intros Hout. apply bind_Throw. unfold DIP_THROW_IF.
    replace (length (sizes_ img) <=? dim)%nat with true by (symmetry; apply Nat.leb_le; lia).
    reflexivity.
  - intros Hd Hrem.
    rewrite (bind_Ok _ _ img img tt).
    2:{ unfold DIP_THROW_IF.
        replace (length (sizes_ img) <=? dim)%nat with false
          by (symmetry; apply Nat.leb_gt; lia).
        reflexivity. }
    apply bind_Throw. unfold DIP_THROW_IF. rewrite Hmul.
    replace (size * (s / size) =? s) with false; [reflexivity |].
    symmetry. apply Z.eqb_neq. intros Heq. apply Hrem.
    rewrite <- Heq, Z.mul_comm. apply Z.mod_mul. lia.
  - intros Hd Hrem.
    rewrite (bind_Ok _ _ img img tt).
    2:{ unfold DIP_THROW_IF.
        replace (length (sizes_ img) <=? dim)%nat with false
          by (symmetry; apply Nat.leb_gt; lia).
        reflexivity. }
    assert (Hexact : size * (s / size) = s).
    { pose proof (Z.div_mod s size ltac:(lia)). lia. }
    rewrite (bind_Ok _ _ img img tt).
    2:{ unfold DIP_THROW_IF. rewrite Hmul, Hexact, Z.eqb_refl. reflexivity. }
    eexists. split; [reflexivity |]. simpl.
    assert (Hsizes : array_insert (dim + 1) (udiv s size) (<[ dim := size ]> (sizes_ img))
                     = take dim (sizes_ img) ++ size :: s / size :: drop (S dim) (sizes_ img)).
    { apply (split_arrays _ _ s). apply at_lookup. exact Hd. }
    split; [exact Hsizes |].
    split; [| split; [reflexivity | split]].
    + rewrite !NumberOfPixels_product. simpl. rewrite Hsizes. f_equal.
      rewrite <- (take_drop_middle (sizes_ img) dim s) at 3 by (apply at_lookup; exact Hd).
      rewrite !product_app. simpl. fold (product (drop (S dim) (sizes_ img))).
      rewrite <- Hexact at 2. ring.
    + rewrite !array_insert_length, length_insert. lia.
    + intros a b.
      rewrite !array_insert_at by lia.
      replace (dim <? dim + 1)%nat with true by (symmetry; apply Nat.ltb_lt; lia).
      replace (dim + 1 <? dim + 1)%nat with false by (symmetry; apply Nat.ltb_ge; lia).
      rewrite Nat.eqb_refl.
      set (st := at_ (strides_ img) dim).
      assert (E : smul st (to_sint size) mod 2 ^ 64 = (st * size) mod 2 ^ 64).
      { unfold smul, to_sint. rewrite (wrap_sint_eqm (st * wrap_sint size)).
        rewrite (Z.mul_mod st (wrap_sint size)), (Z.mul_mod st size) by lia.
        rewrite (wrap_sint_eqm size). reflexivity. }
      unfold eqm64.
      transitivity ((a * st + b * (st * size)) mod 2 ^ 64); [| f_equal; ring].
      rewrite (Z.add_mod (a * st) (b * smul st (to_sint size))) by lia.
      rewrite (Z.add_mod (a * st) (b * (st * size))) by lia.
      rewrite (Z.mul_mod b (smul st (to_sint size))), (Z.mul_mod b (st * size)) by lia.
      rewrite E. reflexivity.
Qed.

End SplitDimensionFacts.

Lemma SplitDimension_spec_witness :
  exists img',
    SplitDimension keep_pixel_size_value first_pixel_size 1 5 img_dims_test = (Ok tt, img')
    /\ sizes_ img' = [5; 5; 2; 15]
    /\ NumberOfPixels img' = 750.
Proof.
  destruct (SplitDimension_spec keep_pixel_size_value first_pixel_size img_dims_test 1 5
              eq_refl eq_refl) as (_ & _ & H).
  - lia.
  - vm_compute. split; [discriminate | reflexivity].
  - destruct H as (img' & Hrun & Hs & Hn & _).
    + simpl. lia.
    + reflexivity.
    + exists img'. split; [exact Hrun |]. split; [exact Hs |]. rewrite Hn. reflexivity.
Defined.


(** ** The tensor dimension: splitting complex samples, spatial and tensor *)

Lemma double_halve (s : Z) : - 2 ^ 62 <= s < 2 ^ 62 -> sdiv (smul s 2) 2 = s.
Proof.
  intros Hs. unfold sdiv, smul.
  rewrite (wrap_sint_id (s * 2)) by (unfold is_sint; lia).
  rewrite Z.quot_mul by lia. apply wrap_sint_id. unfold is_sint. lia.
Qed.

Lemma loop_update_length (g : Z -> Z) (n lo : nat) (l : list Z) :
  length (loop n lo (fun ii l => <[ ii := g (at_ l ii) ]> l) l) = length l.
Proof.
  revert lo l. induction n as [| n IH]; intros lo l; simpl; [reflexivity |].
  rewrite IH. apply length_insert.
Qed.

Lemma loop_update_all (g : Z -> Z) (l : list Z) :
  g 0 = 0 ->
  loop (length l) 0 (fun ii l => <[ ii := g (at_ l ii) ]> l) l = map g l.
Proof.
  intros Hg. apply list_eq_at.
  - rewrite loop_update_length, length_map. reflexivity.
  - intros k Hk. rewrite loop_update_length in Hk. rewrite at_loop_update.
    replace ((0 <=? k) && (k <? 0 + length l) && (k <? length l))%nat with true
      by (symmetry; rewrite !andb_true_iff; split; [split |];
          [apply Nat.leb_le | apply Nat.ltb_lt | apply Nat.ltb_lt]; lia).
    unfold at_. rewrite <- Hg at 2. symmetry. apply (map_nth g).
Qed.

Section TensorFacts.

Variable InsertDimension : nat -> PixelSize -> PixelSize.
Variable PixelSize_EraseDimension : nat -> PixelSize -> PixelSize.
Variable SetVector : Z -> Tensor -> Tensor.
Variable SetMatrix : Z -> Z -> Tensor -> Tensor.
Variable IMAGE_NOT_SCALAR : Error.

Lemma SplitComplexToTensor_run (img : Image) :
  IsForged img = true -> IsScalar img = true -> IsComplex (dataType_ img) = true ->
  length (strides_ img) = length (sizes_ img) ->
  SplitComplexToTensor SetVector IMAGE_NOT_SCALAR img
  = (Ok tt, set_colorSpace EmptyString
              (set_tensorStride 1
                 (set_tensor (SetVector 2 (tensor_ img))
                    (set_strides (map (fun s => smul s 2) (strides_ img))
                       (set_dataType
                          (if DataType_eqb (dataType_ img) DT_SCOMPLEX
                           then DT_SFLOAT else DT_DFLOAT) img))))).
Proof.
  intros Hf Hsc Hc Hlen. unfold SplitComplexToTensor.
  rewrite (bind_Ok _ _ img img img) by reflexivity.
  rewrite (bind_Ok _ _ img img tt) by (unfold DIP_THROW_IF; rewrite Hf; reflexivity).
  rewrite (bind_Ok _ _ img img tt) by (unfold DIP_THROW_IF; rewrite Hsc; reflexivity).
  rewrite (bind_Ok _ _ img img tt) by (unfold DIP_THROW_IF; rewrite Hc; reflexivity).
  erewrite bind_Ok by reflexivity.
  erewrite bind_Ok by apply for_modify.
  rewrite (loop_set_strides (fun ii l => <[ ii := smul (at_ l ii) 2 ]> l)).
  cbn [strides_ set_dataType]. rewrite <- Hlen.
  rewrite (loop_update_all (fun s => smul s 2)) by reflexivity.
  reflexivity.
Qed.

Lemma MergeTensorToComplex_run (img : Image) :
  IsForged img = true -> Elements (tensor_ img) = 2 -> tensorStride_ img = 1 ->
  IsComplex (dataType_ img) = false ->
  length (strides_ img) = length (sizes_ img) ->
  MergeTensorToComplex img
  = (Ok tt, set_colorSpace EmptyString
              (set_strides (map (fun s => sdiv s 2) (strides_ img))
                 (set_tensor (SetScalar (tensor_ img))
                    (set_dataType
                       (if DataType_eqb (dataType_ img) DT_SFLOAT
                        then DT_SCOMPLEX else DT_DCOMPLEX) img)))).
Proof.
  intros Hf He Hts Hc Hlen. unfold MergeTensorToComplex.
  rewrite (bind_Ok _ _ img img img) by reflexivity.
  rewrite (bind_Ok _ _ img img tt) by (unfold DIP_THROW_IF; rewrite Hf; reflexivity).
  rewrite (bind_Ok _ _ img img tt) by (unfold DIP_THROW_IF; rewrite He, Hts; reflexivity).
  rewrite (bind_Ok _ _ img img tt) by (unfold DIP_THROW_IF; rewrite Hc; reflexivity).
  erewrite bind_Ok by reflexivity.
  erewrite bind_Ok by reflexivity.
  erewrite bind_Ok by apply for_modify.
  rewrite (loop_set_strides (fun ii l => <[ ii := sdiv (at_ l ii) 2 ]> l)).
  cbn [strides_ set_dataType set_tensor]. rewrite <- Hlen.
  rewrite (loop_update_all (fun s => sdiv s 2)) by reflexivity.
  reflexivity.
Qed.

(** X13.  [MergeTensorToComplex] undoes [SplitComplexToTensor]: on a forged
  scalar image of a complex type, whose strides can be doubled without
  overflow, splitting gives a two-element tensor of the matching float type
  with tensor stride 1 and doubled strides, and merging gives back the data
  type, the sizes, the strides and the origin, on a scalar image again.
  [SplitComplexToTensor] throws [DATA_TYPE_NOT_SUPPORTED] on a scalar image
  that is not complex, and changes nothing. *)
Theorem SplitComplexToTensor_Merge (img : Image) :
  IsForged img = true -> IsScalar img = true ->
  length (strides_ img) = length (sizes_ img) ->
  Elements (SetVector 2 (tensor_ img)) = 2 ->
  (forall s, In s (strides_ img) -> - 2 ^ 62 <= s < 2 ^ 62) ->
  (IsComplex (dataType_ img) = false ->
   SplitComplexToTensor SetVector IMAGE_NOT_SCALAR img = (Throw DATA_TYPE_NOT_SUPPORTED, img))
  /\ (IsComplex (dataType_ img) = true ->
      exists img1 img2,
        SplitComplexToTensor SetVector IMAGE_NOT_SCALAR img = (Ok tt, img1)
        /\ MergeTensorToComplex img1 = (Ok tt, img2)
        /\ IsComplex (dataType_ img1) = false
        /\ Elements (tensor_ img1) = 2 /\ tensorStride_ img1 = 1
        /\ strides_ img1 = map (fun s => smul s 2) (strides_ img)
        /\ dataType_ img2 = dataType_ img /\ sizes_ img2 = sizes_ img
        /\ strides_ img2 = strides_ img /\ origin_ img2 = origin_ img
        /\ IsScalar img2 = true).
Proof.
  intros Hf Hsc Hlen Hvec Hstr. split.
  - intros Hc. unfold SplitComplexToTensor.
    rewrite (bind_Ok _ _ img img img) by reflexivity.
    rewrite (bind_Ok _ _ img img tt) by (unfold DIP_THROW_IF; rewrite Hf; reflexivity).
    rewrite (bind_Ok _ _ img img tt) by (unfold DIP_THROW_IF; rewrite Hsc; reflexivity).
    apply bind_Throw. unfold DIP_THROW_IF. rewrite Hc. reflexivity.
  - intros Hc. rewrite (SplitComplexToTensor_run img Hf Hsc Hc Hlen).
    eexists. eexists. split; [reflexivity |].
    rewrite MergeTensorToComplex_run.
    + split; [reflexivity |]. cbn.
      split; [destruct (dataType_ img); simpl in *; congruence |].
      split; [exact Hvec |]. split; [reflexivity |]. split; [reflexivity |].
      split; [destruct (dataType_ img); simpl in *; congruence |].
      split; [reflexivity |]. split; [| split; reflexivity].
      rewrite map_map. rewrite <- (map_id (strides_ img)) at 2.
      apply map_ext_in. intros s Hs. apply double_halve. apply Hstr. exact Hs.
    + exact Hf.
    + exact Hvec.
    + reflexivity.
    + cbn. destruct (dataType_ img); simpl in *; congruence.
    + cbn. rewrite length_map. exact Hlen.
Qed.

Lemma TensorToSpatial_at_run (img : Image) (dim : nat) :
  IsForged img = true -> (dim <= length (sizes_ img))%nat ->
  TensorToSpatial InsertDimension dim img
  = (Ok tt, set_colorSpace EmptyString
              (set_tensorStride 1
                 (set_tensor (SetScalar (tensor_ img))
                    (set_pixelSize (InsertDimension dim (pixelSize_ img))
                       (set_strides (array_insert dim (tensorStride_ img) (strides_ img))
                          (set_sizes (array_insert dim (Elements (tensor_ img))
                                                   (sizes_ img)) img)))))).
Proof.
  intros Hf Hd. unfold TensorToSpatial.
  rewrite (bind_Ok _ _ img img img) by reflexivity.
  rewrite (bind_Ok _ _ img img tt) by (unfold DIP_THROW_IF; rewrite Hf; reflexivity).
  rewrite (bind_Ok _ _ img img tt).
  - reflexivity.
  - unfold DIP_THROW_IF.
    replace (length (sizes_ img) <? dim)%nat with false by (symmetry; apply Nat.ltb_ge; lia).
    reflexivity.
Qed.

Lemma SpatialToTensor_run (img : Image) (dim : nat) :
  IsForged img = true -> IsScalar img = true ->
  (dim < length (sizes_ img))%nat -> is_uint (at_ (sizes_ img) dim) ->
  SpatialToTensor PixelSize_EraseDimension SetMatrix IMAGE_NOT_SCALAR dim 0 0 img
  = (Ok tt, set_colorSpace EmptyString
              (set_pixelSize (PixelSize_EraseDimension dim (pixelSize_ img))
                 (set_strides (array_erase dim (strides_ img))
                    (set_sizes (array_erase dim (sizes_ img))
                       (set_tensorStride (at_ (strides_ img) dim)
                          (set_tensor (SetMatrix (at_ (sizes_ img) dim) 1 (tensor_ img))
                                      img)))))).
Proof.
  intros Hf Hsc Hd Hu. unfold SpatialToTensor.
  rewrite (bind_Ok _ _ img img img) by reflexivity.
  rewrite (bind_Ok _ _ img img tt) by (unfold DIP_THROW_IF; rewrite Hf; reflexivity).
  rewrite (bind_Ok _ _ img img tt) by (unfold DIP_THROW_IF; rewrite Hsc; reflexivity).
  rewrite (bind_Ok _ _ img img tt).
  2:{ unfold DIP_THROW_IF.
      replace (length (sizes_ img) <=? dim)%nat with false by (symmetry; apply Nat.leb_gt; lia).
      reflexivity. }
  cbn [Z.eqb andb fst snd].
  rewrite (bind_Ok _ _ img img tt).
  - reflexivity.
  - unfold DIP_THROW_IF, umul. rewrite Z.mul_1_r, (wrap_uint_id _ Hu), Z.eqb_refl.
    reflexivity.
Qed.

(** X14.  [SpatialToTensor( dim )] undoes [TensorToSpatial( dim )]: on a
  forged image, for [dim] up to its dimensionality, turning the tensor
  dimension into the spatial dimension [dim] and back gives the image its
  sizes, its strides, its tensor stride and its origin back; the tensor is
  the column of as many elements as before. *)
Theorem TensorToSpatial_SpatialToTensor (img : Image) (dim : nat) :
  IsForged img = true ->
  length (strides_ img) = length (sizes_ img) ->
  (dim <= length (sizes_ img))%nat ->
  is_uint (Elements (tensor_ img)) ->
  exists img1 img2,
    TensorToSpatial InsertDimension dim img = (Ok tt, img1)
    /\ SpatialToTensor PixelSize_EraseDimension SetMatrix IMAGE_NOT_SCALAR dim 0 0 img1
       = (Ok tt, img2)
    /\ at_ (sizes_ img1) dim = Elements (tensor_ img)
    /\ at_ (strides_ img1) dim = tensorStride_ img
    /\ IsScalar img1 = true
    /\ sizes_ img2 = sizes_ img /\ strides_ img2 = strides_ img
    /\ tensorStride_ img2 = tensorStride_ img /\ origin_ img2 = origin_ img
    /\ tensor_ img2 = SetMatrix (Elements (tensor_ img)) 1 (SetScalar (tensor_ img)).
Proof.
  intros Hf Hlen Hd He.
  rewrite (TensorToSpatial_at_run img dim Hf Hd).
  set (sz1 := array_insert dim (Elements (tensor_ img)) (sizes_ img)).
  set (st1 := array_insert dim (tensorStride_ img) (strides_ img)).
  assert (Hat1 : at_ sz1 dim = Elements (tensor_ img)).
  { unfold sz1. rewrite array_insert_at by exact Hd.
    rewrite Nat.ltb_irrefl, Nat.eqb_refl. reflexivity. }
  assert (Hst1 : at_ st1 dim = tensorStride_ img).
  { unfold st1. rewrite array_insert_at by lia.
    rewrite Nat.ltb_irrefl, Nat.eqb_refl. reflexivity. }
  assert (Hsz : array_erase dim sz1 = sizes_ img)
    by (apply array_erase_insert; exact Hd).
  assert (Hst : array_erase dim st1 = strides_ img)
    by (apply array_erase_insert; lia).
  eexists. eexists. split; [reflexivity |].
  split.
  - apply SpatialToTensor_run.
    + exact Hf.
    + reflexivity.
    + change (dim < length sz1)%nat. unfold sz1. rewrite array_insert_length. lia.
    + change (is_uint (at_ sz1 dim)). rewrite Hat1. exact He.
  - split; [exact Hat1 |]. split; [exact Hst1 |]. split; [reflexivity |].
    split; [exact Hsz |]. split; [exact Hst |]. split; [exact Hst1 |].
    split; [reflexivity |].
    change (SetMatrix (at_ sz1 dim) 1 (SetScalar (tensor_ img))
            = SetMatrix (Elements (tensor_ img)) 1 (SetScalar (tensor_ img))).
    rewrite Hat1. reflexivity.
Qed.

End TensorFacts.

Lemma SplitComplexToTensor_Merge_witness :
  exists img1 img2,
    SplitComplexToTensor vector_tensor not_scalar_error img_complex_test = (Ok tt, img1)
    /\ MergeTensorToComplex img1 = (Ok tt, img2)
    /\ strides_ img1 = [2; 10; 100] /\ strides_ img2 = [1; 5; 50]
    /\ dataType_ img2 = DT_SCOMPLEX.
Proof.
  destruct (SplitComplexToTensor_Merge vector_tensor not_scalar_error img_complex_test
              eq_refl eq_refl eq_refl eq_refl) as [_ H].
  - intros s Hs. simpl in Hs. destruct Hs as [<- | [<- | [<- | []]]]; lia.
  - destruct (H eq_refl)
      as (img1 & img2 & H1 & H2 & _ & _ & _ & Hs1 & Hdt & _ & Hs2 & _).
    exists img1, img2. split; [exact H1 |]. split; [exact H2 |].
    split; [rewrite Hs1; reflexivity |]. split; [rewrite Hs2; reflexivity |].
    rewrite Hdt. reflexivity.
Defined.

Lemma TensorToSpatial_SpatialToTensor_witness :
  exists img1 img2,
    TensorToSpatial keep_pixel_size 1 img_dims_test = (Ok tt, img1)
    /\ SpatialToTensor keep_pixel_size matrix_tensor not_scalar_error 1 0 0 img1 = (Ok tt, img2)
    /\ at_ (sizes_ img1) 1 = 3
    /\ sizes_ img2 = [5; 10; 15] /\ strides_ img2 = [3; 15; 150] /\ tensorStride_ img2 = 1.
Proof.
  destruct (TensorToSpatial_SpatialToTensor keep_pixel_size keep_pixel_size matrix_tensor
              not_scalar_error img_dims_test 1 eq_refl eq_refl)
    as (img1 & img2 & H1 & H2 & Hat & _ & _ & Hs & Hst & Hts & _).
  - simpl. lia.
  - vm_compute. split; [discriminate | reflexivity].
  - exists img1, img2. split; [exact H1 |]. split; [exact H2 |].
    split; [rewrite Hat; reflexivity |]. split; [rewrite Hs; reflexivity |].
    split; [rewrite Hst; reflexivity | rewrite Hts; reflexivity].
Defined.


(** ** Rotations by multiples of 90 degrees *)

Lemma loop_app {St : Type} (g : nat -> St -> St) (n1 n2 lo : nat) (s : St) :
  loop (n1 + n2) lo g s = loop n2 (lo + n1) g (loop n1 lo g s).
Proof.
  revert lo s. induction n1 as [| n1 IH]; intros lo s; simpl.
  - rewrite Nat.add_0_r. reflexivity.
  - rewrite IH. replace (S lo + n1)%nat with (lo + S n1)%nat by lia. reflexivity.
Qed.

Lemma loop_skip {St : Type} (g : nat -> St -> St) (n lo : nat) (s : St) :
  (forall ii s', (lo <= ii < lo + n)%nat -> g ii s' = s') -> loop n lo g s = s.
Proof.
  revert lo s. induction n as [| n IH]; intros lo s H; simpl; [reflexivity |].
  rewrite H by lia. apply IH. intros ii s' Hii. apply H. lia.
Qed.

Lemma loop_one {St : Type} (g : nat -> St -> St) (n lo d : nat) (s : St) :
  (lo <= d < lo + n)%nat ->
  (forall ii s', (lo <= ii < lo + n)%nat -> ii <> d -> g ii s' = s') ->
  loop n lo g s = g d s.
Proof.
  intros Hd H.
  replace n with ((d - lo) + (1 + (lo + n - d - 1)))%nat by lia.
  rewrite loop_app, loop_app.
  rewrite (loop_skip g (d - lo)) by (intros ii s' Hii; apply H; lia).
  replace (lo + (d - lo))%nat with d by lia. simpl.
  apply loop_skip. intros ii s' Hii. apply H; lia.
Qed.

Lemma loop_two {St : Type} (g : nat -> St -> St) (n lo d d' : nat) (s : St) :
  (lo <= d < d')%nat -> (d' < lo + n)%nat ->
  (forall ii s', (lo <= ii < lo + n)%nat -> ii <> d -> ii <> d' -> g ii s' = s') ->
  loop n lo g s = g d' (g d s).
Proof.
  intros Hd Hd' H.
  replace n with ((d' - lo) + (lo + n - d'))%nat by lia.
  rewrite loop_app.
  rewrite (loop_one g (d' - lo) lo d) by (try lia; intros ii s' Hii Hne; apply H; lia).
  apply loop_one; [lia |]. intros ii s' Hii Hne. apply H; lia.
Qed.

Lemma nth_insert_true (nd d ii : nat) :
  nth ii (<[ d := true ]> (replicate nd false)) false = ((ii =? d) && (d <? nd))%nat.
Proof.
  rewrite nth_lookup.
  destruct (Nat.eqb_spec ii d) as [-> | Hne]; simpl.
  - destruct (Nat.ltb_spec d nd) as [Hd | Hd].
    + rewrite list_lookup_insert_eq by (rewrite length_replicate; exact Hd). reflexivity.
    + rewrite list_insert_ge by (rewrite length_replicate; lia).
      rewrite lookup_ge_None_2 by (rewrite length_replicate; lia). reflexivity.
  - rewrite list_lookup_insert_ne by congruence.
    destruct (Nat.ltb_spec ii nd) as [Hi | Hi].
    + rewrite lookup_replicate_2 by lia. reflexivity.
    + rewrite lookup_ge_None_2 by (rewrite length_replicate; lia). reflexivity.
Qed.

Lemma nth_insert_true2 (nd d d' ii : nat) :
  nth ii (<[ d' := true ]> (<[ d := true ]> (replicate nd false))) false
  = (((ii =? d') && (d' <? nd)) || ((ii =? d) && (d <? nd)))%nat.
Proof.
  rewrite nth_lookup.
  destruct (Nat.eqb_spec ii d') as [-> | Hne]; simpl.
  - destruct (Nat.ltb_spec d' nd) as [Hd | Hd]; simpl.
    + rewrite list_lookup_insert_eq by (rewrite length_insert, length_replicate; exact Hd).
      reflexivity.
    + rewrite list_insert_ge by (rewrite length_insert, length_replicate; lia).
      rewrite <- nth_lookup. apply nth_insert_true.
  - rewrite list_lookup_insert_ne by congruence.
    rewrite <- nth_lookup. apply nth_insert_true.
Qed.

Lemma Mirror_ok (img : Image) (d : nat) :
  IsForged img = true -> (d < length (sizes_ img))%nat ->
  Mirror d img = (Ok tt, mirrored d img).
Proof.
  intros Hf Hd. unfold Mirror.
  rewrite (bind_Ok _ _ img img img) by reflexivity.
  rewrite (bind_Ok _ _ img img tt) by (unfold DIP_THROW_IF; rewrite Hf; reflexivity).
  rewrite (bind_Ok _ _ img img tt).
  - reflexivity.
  - unfold DIP_THROW_IF.
    replace (length (sizes_ img) <=? d)%nat with false by (symmetry; apply Nat.leb_gt; lia).
    reflexivity.
Qed.

Lemma ptr_add_comm (o a b : Z) : ptr_add (ptr_add o a) b = ptr_add (ptr_add o b) a.
Proof.
  unfold ptr_add, wrap_uint. rewrite !Zplus_mod_idemp_l. f_equal. lia.
Qed.

Lemma quarter_turn_ok (sz : Z) (t : Turn) : turn_ok t -> turn_ok (quarter_turn sz t).
Proof.
  destruct t as [[[[a1 s1] a2] s2] o]. simpl. intros (H1 & H2 & Ho).
  split; [apply wrap_sint_range |]. split; [exact H1 | apply wrap_uint_range].
Qed.

Lemma iter_quarter_ok (sz : Z) (k : nat) (t : Turn) :
  turn_ok t -> turn_ok (Nat.iter k (quarter_turn sz) t).
Proof.
  intros Ht. induction k as [| k IH]; simpl; [exact Ht |].
  apply quarter_turn_ok. exact IH.
Qed.

(** Four quarter turns give every stride and the origin back. *)
Lemma quarter_turn_4 (sz : Z) (t : Turn) :
  turn_ok t -> Nat.iter 4 (quarter_turn sz) t = t.
Proof.
  destruct t as [[[[a1 s1] a2] s2] o]. simpl. intros (H1 & H2 & Ho).
  rewrite !sneg_sneg by assumption.
  f_equal.
  apply eqm_uint; [apply wrap_uint_range | exact Ho |].
  unfold ptr_add, smul, sneg. rewrite !wrap_uint_eqm, !wrap_sint_eqm.
  match goal with |- eqm64 ?l _ => replace l with o by ring end. reflexivity.
Qed.

Lemma iter_quarter_mod (sz : Z) (k : nat) (t : Turn) :
  turn_ok t ->
  Nat.iter k (quarter_turn sz) t = Nat.iter (k mod 4) (quarter_turn sz) t.
Proof.
  intros Ht.
  assert (H : forall q r : nat,
             Nat.iter (4 * q + r) (quarter_turn sz) t = Nat.iter r (quarter_turn sz) t).
  { intros q r. induction q as [| q IH].
    - reflexivity.
    - replace (4 * S q + r)%nat with ((4 * q + r) + 4)%nat by lia.
      rewrite Nat.iter_add, quarter_turn_4 by exact Ht. exact IH. }
  rewrite <- (H (k / 4)%nat (k mod 4)%nat). f_equal. apply Nat.div_mod_eq.
Qed.

(** The number of quarter turns that [Rotation90] reads in [n]. *)
Lemma quarter_count (n : Z) :
  (if srem n 4 <? 0 then sadd (srem n 4) 4 else srem n 4) = n mod 4.
Proof.
  unfold srem, sadd.
  pose proof (Z.rem_bound_abs n 4 ltac:(lia)) as Hb.
  pose proof (Z.quot_rem' n 4) as Hq.
  destruct (Z.ltb_spec (Z.rem n 4) 0) as [Hneg | Hpos].
  - rewrite wrap_sint_id by (unfold is_sint; lia).
    apply (Z.mod_unique_pos n 4 (Z.quot n 4 - 1)); lia.
  - apply (Z.mod_unique_pos n 4 (Z.quot n 4)); lia.
Qed.

Lemma sadd_mod_4 (n m : Z) : sadd n m mod 4 = (n mod 4 + m mod 4) mod 4.
Proof.
  unfold sadd, wrap_sint. rewrite <- Z.add_mod by lia.
  pose proof (Z.div_mod (n + m + 2 ^ 63) (2 ^ 64) ltac:(lia)) as H.
  replace ((n + m + 2 ^ 63) mod 2 ^ 64 - 2 ^ 63)
    with (n + m + (- (2 ^ 62 * ((n + m + 2 ^ 63) / 2 ^ 64))) * 4) by lia.
  apply Z_mod_plus_full.
Qed.

Lemma swap_as_insert (l : list Z) (d1 d2 : nat) :
  d1 <> d2 -> array_swap d1 d2 l = <[ d1 := at_ l d2 ]> (<[ d2 := at_ l d1 ]> l).
Proof. intros Hne. unfold array_swap. apply list_insert_insert_ne. congruence. Qed.

Lemma insert2_collapse (l : list Z) (d1 d2 : nat) (x y x' y' : Z) :
  d1 <> d2 ->
  <[ d1 := x ]> (<[ d2 := y ]> (<[ d1 := x' ]> (<[ d2 := y' ]> l)))
  = <[ d1 := x ]> (<[ d2 := y ]> l).
Proof.
  intros Hne. rewrite (list_insert_insert_ne _ d2 d1) by congruence.
  rewrite list_insert_insert_eq. rewrite list_insert_insert_eq. reflexivity.
Qed.

Lemma insert2_at1 (l : list Z) (d1 d2 : nat) (x y : Z) :
  (d1 < length l)%nat -> at_ (<[ d1 := x ]> (<[ d2 := y ]> l)) d1 = x.
Proof. intros H. apply at_insert_eq. rewrite length_insert. exact H. Qed.

Lemma insert2_at2 (l : list Z) (d1 d2 : nat) (x y : Z) :
  d1 <> d2 -> (d2 < length l)%nat -> at_ (<[ d1 := x ]> (<[ d2 := y ]> l)) d2 = y.
Proof.
  intros Hne H. rewrite at_insert_ne by exact Hne. apply at_insert_eq. exact H.
Qed.

Lemma insert2_id (l : list Z) (d1 d2 : nat) :
  <[ d1 := at_ l d1 ]> (<[ d2 := at_ l d2 ]> l) = l.
Proof. rewrite (insert_at_id l d2). apply insert_at_id. Qed.

Section RotationFacts.

Variable ArrayUseParameter : list bool -> nat -> bool -> Res (list bool).
Variable PixelSize_SwapDimensions : nat -> nat -> PixelSize -> PixelSize.

(** An array that has one value for each dimension is used as it is. *)
Hypothesis ArrayUseParameter_full :
  forall (array : list bool) (n : nat),
    length array = n -> ArrayUseParameter array n true = Ok array.

Local Abbreviation Mirror_process := (Mirror_process ArrayUseParameter).
Local Abbreviation Rotation90 := (Rotation90 ArrayUseParameter PixelSize_SwapDimensions).
Local Abbreviation SwapDimensions := (SwapDimensions PixelSize_SwapDimensions).

Lemma Mirror_process_run (process : list bool) (img : Image) :
  IsForged img = true -> length process = length (sizes_ img) ->
  Mirror_process process img
  = (Ok tt, loop (length (sizes_ img)) 0
              (fun ii i => if nth ii process false then mirrored ii i else i) img).
Proof.
  intros Hf Hlen. unfold Mirror_process.
  rewrite (bind_Ok _ _ img img img) by reflexivity.
  cbv zeta. rewrite (ArrayUseParameter_full _ _ Hlen).
  apply (for_run_inv (fun _ i => IsForged i = true /\ length (sizes_ i) = length (sizes_ img))).
  - intros ii s' Hii [Hf' Hl']. destruct (nth ii process false).
    + rewrite Mirror_ok by (try exact Hf'; lia). split; [reflexivity |].
      split; [exact Hf' | exact Hl'].
    + split; [reflexivity |]. split; [exact Hf' | exact Hl'].
  - split; [exact Hf | reflexivity].
Qed.

Lemma SwapDimensions_ok (img : Image) (d1 d2 : nat) :
  IsForged img = true -> (d1 < length (sizes_ img))%nat -> (d2 < length (sizes_ img))%nat ->
  d1 <> d2 ->
  SwapDimensions d1 d2 img
  = (Ok tt, set_pixelSize (PixelSize_SwapDimensions d1 d2 (pixelSize_ img))
              (set_strides (array_swap d1 d2 (strides_ img))
                 (set_sizes (array_swap d1 d2 (sizes_ img)) img))).
Proof.
  intros Hf H1 H2 Hne. unfold SwapDimensions.
  rewrite (bind_Ok _ _ img img img) by reflexivity.
  rewrite (bind_Ok _ _ img img tt) by (unfold DIP_THROW_IF; rewrite Hf; reflexivity).
  rewrite (bind_Ok _ _ img img tt).
  - replace (d1 =? d2)%nat with false by (symmetry; apply Nat.eqb_neq; exact Hne).
    reflexivity.
  - unfold DIP_THROW_IF.
    replace (length (sizes_ img) <=? d1)%nat with false by (symmetry; apply Nat.leb_gt; lia).
    replace (length (sizes_ img) <=? d2)%nat with false by (symmetry; apply Nat.leb_gt; lia).
    reflexivity.
Qed.

Lemma Mirror_one (img : Image) (d : nat) :
  IsForged img = true -> (d < length (sizes_ img))%nat ->
  Mirror_process (<[ d := true ]> (replicate (length (sizes_ img)) false)) img
  = (Ok tt, mirrored d img).
Proof.
  intros Hf Hd.
  rewrite Mirror_process_run by (try exact Hf; rewrite length_insert, length_replicate; reflexivity).
  f_equal. rewrite (loop_one _ _ 0 d).
  - rewrite nth_insert_true, Nat.eqb_refl.
    replace (d <? length (sizes_ img))%nat with true by (symmetry; apply Nat.ltb_lt; lia).
    reflexivity.
  - lia.
  - intros ii s' Hii Hne. rewrite nth_insert_true.
    replace (ii =? d)%nat with false by (symmetry; apply Nat.eqb_neq; exact Hne).
    reflexivity.
Qed.

Lemma Mirror_both (img : Image) (d1 d2 : nat) :
  IsForged img = true -> (d1 < length (sizes_ img))%nat -> (d2 < length (sizes_ img))%nat ->
  d1 <> d2 ->
  Mirror_process (<[ d2 := true ]> (<[ d1 := true ]> (replicate (length (sizes_ img)) false)))
                 img
  = (Ok tt, if (d1 <? d2)%nat then mirrored d2 (mirrored d1 img)
            else mirrored d1 (mirrored d2 img)).
Proof.
  intros Hf H1 H2 Hne.
  rewrite Mirror_process_run
    by (try exact Hf; rewrite !length_insert, length_replicate; reflexivity).
  f_equal.
  assert (Hskip : forall ii (s' : Image), ii <> d1 -> ii <> d2 ->
            (if nth ii (<[ d2 := true ]> (<[ d1 := true ]>
                          (replicate (length (sizes_ img)) false))) false
             then mirrored ii s' else s') = s').
  { intros ii s' Hn1 Hn2. rewrite nth_insert_true2.
    replace (ii =? d1)%nat with false by (symmetry; apply Nat.eqb_neq; exact Hn1).
    replace (ii =? d2)%nat with false by (symmetry; apply Nat.eqb_neq; exact Hn2).
    reflexivity. }
  assert (Hhit : forall ii (s' : Image), ii = d1 \/ ii = d2 ->
            (if nth ii (<[ d2 := true ]> (<[ d1 := true ]>
                          (replicate (length (sizes_ img)) false))) false
             then mirrored ii s' else s') = mirrored ii s').
  { intros ii s' Hii. rewrite nth_insert_true2.
    replace (d1 <? length (sizes_ img))%nat with true by (symmetry; apply Nat.ltb_lt; lia).
    replace (d2 <? length (sizes_ img))%nat with true by (symmetry; apply Nat.ltb_lt; lia).
    destruct Hii as [-> | ->]; rewrite Nat.eqb_refl, ?andb_true_r, ?orb_true_r; reflexivity. }
  destruct (Nat.ltb_spec d1 d2) as [Hlt | Hge].
  - rewrite (loop_two _ _ 0 d1 d2) by (try lia; intros ii s' _ Hn1 Hn2; apply Hskip; assumption).
    rewrite !Hhit by tauto. reflexivity.
  - rewrite (loop_two _ _ 0 d2 d1) by (try lia; intros ii s' _ Hn1 Hn2; apply Hskip; assumption).
    rewrite !Hhit by tauto. reflexivity.
Qed.

(** [Rotation90( n )] is [n mod 4] quarter turns of the two dimensions and
    the origin, and leaves the rest of the sizes and strides alone. *)
Lemma Rotation90_turns (img : Image) (n : Z) (d1 d2 : nat) :
  IsForged img = true ->
  length (strides_ img) = length (sizes_ img) ->
  (d1 < length (sizes_ img))%nat -> (d2 < length (sizes_ img))%nat -> d1 <> d2 ->
  is_sint (at_ (strides_ img) d2) ->
  exists img',
    Rotation90 n d1 d2 img = (Ok tt, img')
    /\ turned d1 d2 (Nat.iter (Z.to_nat (n mod 4)) (quarter_turn (SizeOf (dataType_ img)))
                              (turn_of d1 d2 img))
              (sizes_ img) (strides_ img) img'
    /\ IsForged img' = true /\ dataType_ img' = dataType_ img.
Proof.
  intros Hf Hlen H1 H2 Hne Hs2. unfold Rotation90.
  rewrite (bind_Ok _ _ img img img) by reflexivity.
  rewrite (bind_Ok _ _ img img tt) by (unfold DIP_THROW_IF; rewrite Hf; reflexivity).
  rewrite (bind_Ok _ _ img img tt).
  2:{ unfold DIP_THROW_IF.
      replace (length (sizes_ img) <=? d1)%nat with false by (symmetry; apply Nat.leb_gt; lia).
      replace (length (sizes_ img) <=? d2)%nat with false by (symmetry; apply Nat.leb_gt; lia).
      replace (d1 =? d2)%nat with false by (symmetry; apply Nat.eqb_neq; exact Hne).
      reflexivity. }
  cbv zeta. rewrite quarter_count.
  assert (Hk : n mod 4 = 0 \/ n mod 4 = 1 \/ n mod 4 = 2 \/ n mod 4 = 3)
    by (pose proof (Z.mod_pos_bound n 4 ltac:(lia)); lia).
  destruct Hk as [-> | [-> | [-> | ->]]];
    [change (Z.to_nat 0) with 0%nat | change (Z.to_nat 1) with 1%nat
     | change (Z.to_nat 2) with 2%nat | change (Z.to_nat 3) with 3%nat];
    simpl (_ =? _); cbv iota; unfold Nat.iter; cbn [nat_rect].
  - (* nothing *)
    exists img. split; [reflexivity |]. split; [| split; [exact Hf | reflexivity]].
    unfold turned, turn_of. cbv beta iota zeta. rewrite !insert2_id. repeat split.
  - (* mirror the second, swap *)
    erewrite bind_Ok by (apply Mirror_one; assumption).
    rewrite SwapDimensions_ok by assumption.
    eexists. split; [reflexivity |]. split; [| split; [exact Hf | reflexivity]].
    unfold turned, turn_of, quarter_turn, mirrored, Pointer. cbv beta iota zeta.
    cbn [sizes_ strides_ origin_ dataType_ set_pixelSize set_strides set_sizes set_origin].
    rewrite !swap_as_insert by exact Hne.
    rewrite at_insert_eq by lia. rewrite at_insert_ne by congruence.
    rewrite (list_insert_insert_eq _ d2). repeat split.
  - (* mirror both *)
    erewrite Mirror_both by assumption.
    eexists. split; [reflexivity |]. split.
    + unfold turned, turn_of, quarter_turn. cbv beta iota zeta.
      destruct (Nat.ltb_spec d1 d2) as [Hlt | Hge]; unfold mirrored, Pointer;
        cbn [sizes_ strides_ origin_ dataType_ set_strides set_origin];
        rewrite ?insert2_id.
      * rewrite at_insert_ne by congruence.
        split; [reflexivity |]. split; [apply list_insert_insert_ne; congruence |].
        apply ptr_add_comm.
      * rewrite at_insert_ne by congruence. repeat split.
    + destruct (d1 <? d2)%nat; split; (exact Hf || reflexivity).
  - (* mirror the first, swap *)
    erewrite bind_Ok by (apply Mirror_one; assumption).
    rewrite SwapDimensions_ok by assumption.
    eexists. split; [reflexivity |]. split; [| split; [exact Hf | reflexivity]].
    unfold turned, turn_of, quarter_turn, mirrored, Pointer. cbv beta iota zeta.
    cbn [sizes_ strides_ origin_ dataType_ set_pixelSize set_strides set_sizes set_origin].
    rewrite !swap_as_insert by exact Hne.
    rewrite at_insert_eq by lia. rewrite at_insert_ne by congruence.
    rewrite sneg_sneg by exact Hs2.
    split; [reflexivity |]. split.
    + rewrite (list_insert_insert_ne _ d2 d1) by congruence.
      rewrite list_insert_insert_eq. reflexivity.
    + apply eqm_uint; [apply wrap_uint_range | apply wrap_uint_range |].
      unfold ptr_add, smul, sneg. rewrite !wrap_uint_eqm, !wrap_sint_eqm.
      match goal with |- eqm64 ?l ?r => replace r with l by ring end. reflexivity.
Qed.

Lemma turn_of_turned (img img1 : Image) (d1 d2 : nat) (t : Turn) :
  length (strides_ img) = length (sizes_ img) ->
  (d1 < length (sizes_ img))%nat -> (d2 < length (sizes_ img))%nat -> d1 <> d2 ->
  turned d1 d2 t (sizes_ img) (strides_ img) img1 ->
  turn_of d1 d2 img1 = t
  /\ length (sizes_ img1) = length (sizes_ img)
  /\ length (strides_ img1) = length (sizes_ img).
Proof.
  intros Hlen H1 H2 Hne. destruct t as [[[[a1 s1] a2] s2] o]. intros (Hsz & Hst & Ho).
  unfold turn_of. rewrite Hsz, Hst, Ho.
  rewrite !insert2_at1, !insert2_at2 by (congruence || lia).
  rewrite !length_insert. repeat split. exact Hlen.
Qed.

(** X15.  Rotations by multiples of 90 degrees compose: on a forged image
  with parallel size and stride arrays whose fields are within the range of
  their types, in the plane of two different dimensions of the image,
  [Rotation90( n )] followed by [Rotation90( m )] gives the sizes, the strides
  and the origin that [Rotation90( n + m )] gives, for all [n] and [m], also
  negative ones and when the sum wraps around. *)
Theorem Rotation90_compose (img : Image) (n m : Z) (d1 d2 : nat) :
  IsForged img = true -> wf_Image img = true ->
  (d1 < length (sizes_ img))%nat -> (d2 < length (sizes_ img))%nat -> d1 <> d2 ->
  exists img1 img2 img3,
    Rotation90 n d1 d2 img = (Ok tt, img1)
    /\ Rotation90 m d1 d2 img1 = (Ok tt, img2)
    /\ Rotation90 (sadd n m) d1 d2 img = (Ok tt, img3)
    /\ sizes_ img2 = sizes_ img3 /\ strides_ img2 = strides_ img3
    /\ origin_ img2 = origin_ img3.
Proof.
  intros Hf Hwf H1 H2 Hne.
  unfold wf_Image in Hwf. rewrite !andb_true_iff in Hwf.
  destruct Hwf as [[[[Hlen Hsz] Hst] _] Ho].
  apply Nat.eqb_eq in Hlen.
  assert (Hs1 : is_sint (at_ (strides_ img) d1))
    by (apply is_sintb_spec, forallb_at; [exact Hst | lia]).
  assert (Hs2 : is_sint (at_ (strides_ img) d2))
    by (apply is_sintb_spec, forallb_at; [exact Hst | lia]).
  apply is_uintb_spec in Ho.
  assert (Hok : turn_ok (turn_of d1 d2 img)) by (split; [| split]; assumption).
  destruct (Rotation90_turns img n d1 d2 Hf Hlen H1 H2 Hne Hs2)
    as (img1 & Hrun1 & Ht1 & Hf1 & Hdt1).
  destruct (Rotation90_turns img (sadd n m) d1 d2 Hf Hlen H1 H2 Hne Hs2)
    as (img3 & Hrun3 & Ht3 & _ & _).
  destruct (turn_of_turned img img1 d1 d2 _ Hlen H1 H2 Hne Ht1) as (Hto & Hl1 & Hl1').
  assert (Hok1 : turn_ok (turn_of d1 d2 img1))
    by (rewrite Hto; apply iter_quarter_ok; exact Hok).
  destruct (Rotation90_turns img1 m d1 d2 Hf1) as (img2 & Hrun2 & Ht2 & _ & _);
    [lia | lia | lia | exact Hne | |].
  { unfold turn_ok, turn_of in Hok1. tauto. }
  exists img1, img2, img3.
  split; [exact Hrun1 |]. split; [exact Hrun2 |]. split; [exact Hrun3 |].
  rewrite Hdt1, Hto in Ht2.
  rewrite <- Nat.iter_add in Ht2.
  rewrite iter_quarter_mod in Ht2 by exact Hok.
  replace ((Z.to_nat (m mod 4) + Z.to_nat (n mod 4)) mod 4)%nat
    with (Z.to_nat (sadd n m mod 4)) in Ht2.
  2:{ rewrite sadd_mod_4.
      pose proof (Z.mod_pos_bound n 4 ltac:(lia)) as Hn.
      pose proof (Z.mod_pos_bound m 4 ltac:(lia)) as Hm.
      assert (Hkn : n mod 4 = 0 \/ n mod 4 = 1 \/ n mod 4 = 2 \/ n mod 4 = 3) by lia.
      assert (Hkm : m mod 4 = 0 \/ m mod 4 = 1 \/ m mod 4 = 2 \/ m mod 4 = 3) by lia.
      destruct Hkn as [-> | [-> | [-> | ->]]]; destruct Hkm as [-> | [-> | [-> | ->]]];
        reflexivity. }
  destruct (Nat.iter (Z.to_nat (sadd n m mod 4)) _ (turn_of d1 d2 img))
    as [[[[a1 s1] a2] s2] o].
  destruct (Nat.iter (Z.to_nat (n mod 4)) _ (turn_of d1 d2 img))
    as [[[[b1 r1] b2] r2] p].
  destruct Ht1 as (Hsz1 & Hst1 & _).
  destruct Ht2 as (Hsz2 & Hst2 & Ho2).
  destruct Ht3 as (Hsz3 & Hst3 & Ho3).
  rewrite Hsz2, Hst2, Ho2, Hsz3, Hst3, Ho3, Hsz1, Hst1.
  rewrite !insert2_collapse by exact Hne. repeat split.
Qed.

End RotationFacts.

Lemma Rotation90_compose_witness :
  exists img1 img2,
    Rotation90 use_parameter keep_pixel_size2 1 0 1 img_dims_test = (Ok tt, img1)
    /\ Rotation90 use_parameter keep_pixel_size2 (-1) 0 1 img1 = (Ok tt, img2)
    /\ sizes_ img2 = [5; 10; 15] /\ strides_ img2 = [3; 15; 150] /\ origin_ img2 = 4096.
Proof.
  destruct (Rotation90_compose use_parameter keep_pixel_size2) with
    (img := img_dims_test) (n := 1) (m := -1) (d1 := 0%nat) (d2 := 1%nat)
    as (img1 & img2 & img3 & H1 & H2 & H3 & Hsz & Hst & Ho).
  - intros array n Hlen. unfold use_parameter. rewrite Hlen, Nat.eqb_refl. reflexivity.
  - reflexivity.
  - reflexivity.
  - simpl. lia.
  - simpl. lia.
  - discriminate.
  - exists img1, img2. split; [exact H1 |]. split; [exact H2 |].
    assert (H0 : img3 = img_dims_test)
      by (vm_compute in H3; injection H3 as H3; rewrite <- H3; reflexivity).
    rewrite Hsz, Hst, Ho, H0. repeat split.
Defined.


(** ** Squeezing all singleton dimensions and adding them again *)

Lemma drop_cons_at (l r : list Z) (ii : nat) (a : Z) :
  drop ii l = a :: r -> at_ l ii = a /\ drop (S ii) l = r /\ (ii < length l)%nat.
Proof.
  intros H.
  assert (Hlt : (ii < length l)%nat).
  { destruct (Nat.ltb_spec ii (length l)) as [Hlt | Hge]; [exact Hlt |].
    rewrite drop_ge in H by lia. discriminate. }
  destruct (lookup_lt_is_Some_2 l ii Hlt) as [x Hx].
  rewrite (drop_S l x ii Hx) in H. injection H as -> Hr.
  split; [| split; [exact Hr | exact Hlt]].
  unfold at_. apply nth_lookup_Some. exact Hx.
Qed.

Lemma take_S_insert (l : list Z) (jj : nat) (a : Z) :
  (jj < length l)%nat -> take (S jj) (<[ jj := a ]> l) = take jj l ++ [a].
Proof.
  intros Hjj. rewrite (take_S_r _ jj a).
  - rewrite take_insert_ge by lia. reflexivity.
  - apply list_lookup_insert_eq. exact Hjj.
Qed.

Lemma kept_length (sizes a : list Z) : (length (kept sizes a) <= length sizes)%nat.
Proof.
  revert a. induction sizes as [| n sizes IH]; intros a; simpl; [lia |].
  destruct a as [| x a]; simpl; [lia |].
  specialize (IH a). destruct (1 <? n); simpl; lia.
Qed.

Section SqueezeFacts.

Variable InsertDimension : nat -> PixelSize -> PixelSize.
Variable PixelSize_at : PixelSize -> nat -> Q.
Variable PixelSize_Set : nat -> Q -> PixelSize -> PixelSize.
Variable PixelSize_Resize : nat -> PixelSize -> PixelSize.

Local Abbreviation Squeeze_all := (Squeeze_all PixelSize_at PixelSize_Set PixelSize_Resize).
Local Abbreviation AddSingleton_dims := (AddSingleton_dims InsertDimension).

Local Abbreviation squeeze_round :=
  (fun (ii : nat) (st : Image * nat * list nat) =>
     let '(i, jj, dims) := st in
     if 1 <? at_ (sizes_ i) ii then
       let i := set_strides (<[ jj := at_ (strides_ i) ii ]> (strides_ i)) i in
       let i := set_sizes (<[ jj := at_ (sizes_ i) ii ]> (sizes_ i)) i in
       let i := set_pixelSize
                  (PixelSize_Set jj (PixelSize_at (pixelSize_ i) ii) (pixelSize_ i)) i in
       (i, S jj, dims)
     else (i, jj, dims ++ [ii])).

(** The loop of [Squeeze( dims )], from dimension [ii] on: the kept sizes and
    strides are written from position [jj], the removed dimensions are added
    to [dims]. *)
Lemma Squeeze_all_loop (r rs : list Z) :
  length r = length rs ->
  forall (i : Image) (jj ii : nat) (dims : list nat),
    drop ii (sizes_ i) = r -> drop ii (strides_ i) = rs -> (jj <= ii)%nat ->
    exists i',
      loop (length r) ii squeeze_round (i, jj, dims)
      = (i', (jj + length (kept r r))%nat, dims ++ removed ii r)
      /\ take (jj + length (kept r r)) (sizes_ i') = take jj (sizes_ i) ++ kept r r
      /\ take (jj + length (kept r r)) (strides_ i') = take jj (strides_ i) ++ kept r rs
      /\ length (sizes_ i') = length (sizes_ i)
      /\ length (strides_ i') = length (strides_ i)
      /\ IsForged i' = IsForged i /\ origin_ i' = origin_ i /\ dataType_ i' = dataType_ i.
Proof.
  revert rs. induction r as [| a r IH]; intros rs Hlen i jj ii dims Hsz Hst Hjj.
  - destruct rs; [| discriminate]. simpl. exists i.
    rewrite !Nat.add_0_r, !app_nil_r. repeat split.
  - destruct rs as [| s rs]; [discriminate |]. simpl in Hlen.
    apply drop_cons_at in Hsz as (Ha & Hsz' & Hlt).
    apply drop_cons_at in Hst as (Hs & Hst' & Hlt').
    subst a s. cbn [length loop kept removed]. cbv beta iota zeta.
    destruct (1 <? at_ (sizes_ i) ii) eqn:Ea.
    + cbn [sizes_ strides_ set_strides set_sizes set_pixelSize].
      set (i1 := set_pixelSize _ _).
      destruct (IH rs ltac:(lia) i1 (S jj) (S ii) dims) as (i' & Hrun & Hsz1 & Hst1 & Hl & Hl' & Hf & Ho & Hdt).
      * unfold i1. cbn. rewrite drop_insert_lt by lia. exact Hsz'.
      * unfold i1. cbn. rewrite drop_insert_lt by lia. exact Hst'.
      * lia.
      * exists i'. cbn [length]. replace (jj + S (length (kept r r)))%nat
          with (S jj + length (kept r r))%nat by lia.
        split; [exact Hrun |].
        unfold i1 in Hsz1, Hst1, Hl, Hl'. cbn in Hsz1, Hst1, Hl, Hl'.
        rewrite take_S_insert in Hsz1, Hst1 by lia. rewrite length_insert in Hl, Hl'.
        rewrite <- !app_assoc in Hsz1, Hst1.
        split; [exact Hsz1 |]. split; [exact Hst1 |]. split; [exact Hl |].
        split; [exact Hl' |]. split; [exact Hf |]. split; [exact Ho | exact Hdt].
    + destruct (IH rs ltac:(lia) i jj (S ii) (dims ++ [ii])) as (i' & Hrun & Hrest);
        [exact Hsz' | exact Hst' | lia |].
      exists i'. rewrite <- app_assoc in Hrun. split; [exact Hrun | exact Hrest].
Qed.

Lemma Squeeze_all_run (img : Image) :
  IsForged img = true -> length (strides_ img) = length (sizes_ img) ->
  exists img1,
    Squeeze_all img = (Ok (removed 0 (sizes_ img)), img1)
    /\ sizes_ img1 = kept (sizes_ img) (sizes_ img)
    /\ strides_ img1 = kept (sizes_ img) (strides_ img)
    /\ IsForged img1 = true /\ origin_ img1 = origin_ img /\ dataType_ img1 = dataType_ img.
Proof.
  intros Hf Hlen.
  destruct (Squeeze_all_loop (sizes_ img) (strides_ img) (eq_sym Hlen) img 0 0 [])
    as (i' & Hrun & Hsz & Hst & Hl & Hl' & Hf' & Ho & Hdt);
    [reflexivity | reflexivity | lia |].
  simpl in Hsz, Hst. change (0 + length (kept (sizes_ img) (sizes_ img)))%nat
    with (length (kept (sizes_ img) (sizes_ img))) in Hrun.
  change ([] ++ removed 0 (sizes_ img)) with (removed 0 (sizes_ img)) in Hrun.
  pose proof (kept_length (sizes_ img) (sizes_ img)) as Hk.
  unfold Squeeze_all.
  rewrite (bind_Ok _ _ img img img) by reflexivity.
  rewrite (bind_Ok _ _ img img tt) by (unfold DIP_THROW_IF; rewrite Hf; reflexivity).
  cbv zeta.
  match goal with
  | |- context [loop ?n ?lo ?f ?s] => change (loop n lo f s) with (loop n lo squeeze_round s)
  end.
  rewrite Hrun. cbn [fst snd].
  eexists. split; [reflexivity |].
  cbn [sizes_ strides_ origin_ dataType_ set_pixelSize set_sizes set_strides].
  unfold array_resize.
  replace (length (kept (sizes_ img) (sizes_ img)) - length (sizes_ i'))%nat with 0%nat by lia.
  replace (length (kept (sizes_ img) (sizes_ img)) - length (strides_ i'))%nat with 0%nat by lia.
  simpl. rewrite !app_nil_r.
  split; [exact Hsz |]. split; [exact Hst |].
  split; [rewrite <- Hf; exact Hf' |]. split; [exact Ho | exact Hdt].
Qed.

(** [AddSingleton] for the removed dimensions of [r], in front of which the
    image has the sizes [p] and the strides [ps]. *)
Lemma AddSingleton_each_run (r : list Z) :
  (forall a, In a r -> 1 <= a) ->
  forall (rs p ps : list Z) (img : Image),
    length r = length rs -> length p = length ps ->
    IsForged img = true ->
    sizes_ img = p ++ kept r r -> strides_ img = ps ++ kept r rs ->
    exists img',
      AddSingleton_each InsertDimension (removed (length p) r) img = (Ok tt, img')
      /\ sizes_ img' = p ++ r /\ strides_ img' = ps ++ flagged r rs
      /\ origin_ img' = origin_ img /\ dataType_ img' = dataType_ img.
Proof.
  induction r as [| a r IH]; intros Hr rs p ps img Hlen Hp Hf Hsz Hst.
  - destruct rs; [| discriminate]. exists img. simpl in *.
    split; [reflexivity |]. split; [exact Hsz |]. split; [exact Hst |]. split; reflexivity.
  - destruct rs as [| s rs]; [discriminate |]. simpl in Hlen.
    assert (Hr' : forall b, In b r -> 1 <= b) by (intros b Hb; apply Hr; right; exact Hb).
    cbn [removed kept flagged] in *.
    destruct (Z.ltb_spec 1 a) as [Ha | Ha].
    + destruct (IH Hr' rs (p ++ [a]) (ps ++ [s]) img) as (img' & Hrun & Hsz' & Hst' & Hrest).
      * lia.
      * rewrite !length_app. simpl. lia.
      * exact Hf.
      * rewrite <- app_assoc. exact Hsz.
      * rewrite <- app_assoc. exact Hst.
      * exists img'. rewrite length_app in Hrun. simpl in Hrun.
        rewrite Nat.add_1_r in Hrun. rewrite <- app_assoc in Hsz', Hst'.
        split; [exact Hrun |]. split; [exact Hsz' |]. split; [exact Hst' | exact Hrest].
    + assert (a = 1) as -> by (specialize (Hr a (or_introl eq_refl)); lia).
      cbn [AddSingleton_each].
      erewrite bind_Ok.
      2:{ apply AddSingleton_run; [exact Hf |]. rewrite Hsz, length_app. lia. }
      set (img1 := set_pixelSize _ _).
      destruct (IH Hr' rs (p ++ [1]) (ps ++ [0]) img1) as (img' & Hrun & Hsz' & Hst' & Ho & Hdt).
      * lia.
      * rewrite !length_app. simpl. lia.
      * exact Hf.
      * unfold img1. cbn. rewrite Hsz. unfold array_insert.
        rewrite take_app_length, drop_app_length, <- app_assoc. reflexivity.
      * unfold img1. cbn. rewrite Hst, Hp. unfold array_insert.
        rewrite take_app_length, drop_app_length, <- app_assoc. reflexivity.
      * exists img'. rewrite length_app in Hrun. simpl in Hrun.
        rewrite Nat.add_1_r in Hrun. rewrite <- app_assoc in Hsz', Hst'.
        split; [exact Hrun |]. split; [exact Hsz' |]. split; [exact Hst' |].
        split; [exact Ho | exact Hdt].
Qed.

(** X16.  [AddSingleton( dims )] undoes [Squeeze( dims )]: on a forged image
  with parallel size and stride arrays and no size 0, [Squeeze( dims )] keeps
  the sizes and the strides of the dimensions larger than 1, in their order,
  and writes the other dimensions to [dims] in increasing order; then
  [AddSingleton( dims )] gives the sizes back, and the strides but for those
  of the singleton dimensions, which are 0.  The origin is never touched. *)
Theorem Squeeze_AddSingleton (img : Image) :
  IsForged img = true -> length (strides_ img) = length (sizes_ img) ->
  (forall a, In a (sizes_ img) -> 1 <= a) ->
  exists img1 img2,
    Squeeze_all img = (Ok (removed 0 (sizes_ img)), img1)
    /\ AddSingleton_dims (removed 0 (sizes_ img)) img1 = (Ok tt, img2)
    /\ sizes_ img1 = kept (sizes_ img) (sizes_ img)
    /\ strides_ img1 = kept (sizes_ img) (strides_ img)
    /\ (forall a, In a (sizes_ img1) -> 1 < a)
    /\ sizes_ img2 = sizes_ img
    /\ strides_ img2 = flagged (sizes_ img) (strides_ img)
    /\ origin_ img2 = origin_ img.
Proof.
  intros Hf Hlen Hpos.
  destruct (Squeeze_all_run img Hf Hlen) as (img1 & Hrun1 & Hsz1 & Hst1 & Hf1 & Ho1 & Hdt1).
  destruct (AddSingleton_each_run (sizes_ img) Hpos (strides_ img) [] [] img1)
    as (img2 & Hrun2 & Hsz2 & Hst2 & Ho2 & _);
    [lia | reflexivity | exact Hf1 | exact Hsz1 | exact Hst1 |].
  exists img1, img2. split; [exact Hrun1 |]. split.
  - unfold AddSingleton_dims.
    rewrite (bind_Ok _ _ img1 img1 img1) by reflexivity.
    rewrite (bind_Ok _ _ img1 img1 tt) by (unfold DIP_THROW_IF; rewrite Hf1; reflexivity).
    exact Hrun2.
  - split; [exact Hsz1 |]. split; [exact Hst1 |]. split.
    + rewrite Hsz1. clear. induction (sizes_ img) as [| n l IH]; simpl; [tauto |].
      intros a. destruct (Z.ltb_spec 1 n) as [Hn | Hn].
      * intros [<- | Ha]; [exact Hn | apply IH; exact Ha].
      * apply IH.
    + split; [exact Hsz2 |]. split; [exact Hst2 |]. rewrite Ho2. exact Ho1.
Qed.

End SqueezeFacts.

Lemma Squeeze_AddSingleton_witness :
  exists img1 img2,
    Squeeze_all first_pixel_size keep_pixel_size_value keep_pixel_size img_squeeze_test
    = (Ok [0; 2]%nat, img1)
    /\ AddSingleton_dims keep_pixel_size [0; 2]%nat img1 = (Ok tt, img2)
    /\ sizes_ img1 = [5; 10] /\ strides_ img1 = [1; 5]
    /\ sizes_ img2 = [1; 5; 1; 10] /\ strides_ img2 = [0; 1; 0; 5].
Proof.
  destruct (Squeeze_AddSingleton keep_pixel_size first_pixel_size keep_pixel_size_value
              keep_pixel_size img_squeeze_test eq_refl eq_refl)
    as (img1 & img2 & H1 & H2 & Hsz1 & Hst1 & _ & Hsz2 & Hst2 & _).
  - intros a Ha. simpl in Ha. destruct Ha as [<- | [<- | [<- | [<- | []]]]]; lia.
  - exists img1, img2. split; [exact H1 |]. split; [exact H2 |].
    split; [rewrite Hsz1; reflexivity |]. split; [rewrite Hst1; reflexivity |].
    split; [rewrite Hsz2; reflexivity | rewrite Hst2; reflexivity].
Defined.


(** ** The Python buffer protocol: an image exported and imported again *)

Lemma loop_insert_length (f : nat -> Z) (n lo : nat) (l : list Z) :
  length (loop n lo (fun ii l => <[ ii := f ii ]> l) l) = length l.
Proof.
  revert lo l. induction n as [| n IH]; intros lo l; simpl; [reflexivity |].
  rewrite IH. apply length_insert.
Qed.

Lemma loop_insert_all (f : nat -> Z) (l : list Z) (n : nat) :
  loop n 0 (fun ii l => <[ ii := f ii ]> l) (replicate n 1)
  = map f (seq 0 n).
Proof.
  apply list_eq_at.
  - rewrite loop_insert_length, length_replicate, length_map, length_seq. reflexivity.
  - intros k Hk. rewrite loop_insert_length, length_replicate in Hk.
    rewrite at_loop_insert by (rewrite length_replicate; lia).
    replace ((0 <=? k) && (k <? 0 + n))%nat with true
      by (symmetry; apply andb_true_iff; split; [apply Nat.leb_le | apply Nat.ltb_lt]; lia).
    unfold at_. rewrite (nth_indep _ 0 (f 0%nat)) by (rewrite length_map, length_seq; lia).
    rewrite (map_nth f), seq_nth by lia. reflexivity.
Qed.

Lemma map_at_seq (g : Z -> Z) (l : list Z) :
  map (fun ii => g (at_ l ii)) (seq 0 (length l)) = map g l.
Proof.
  induction l as [| a l IH] using rev_ind; [reflexivity |].
  rewrite length_app. simpl. rewrite Nat.add_1_r, seq_S, !map_app. simpl.
  f_equal.
  - rewrite <- IH. apply map_ext_in. intros k Hk. apply in_seq in Hk.
    unfold at_. rewrite app_nth1 by lia. reflexivity.
  - unfold at_. rewrite app_nth2 by lia. rewrite Nat.sub_diag. reflexivity.
Qed.

Lemma buffer_sizes_all (shape : list Z) :
  buffer_sizes shape (length shape) = map to_uint shape.
Proof.
  unfold buffer_sizes.
  rewrite (loop_insert_all (fun ii => to_uint (at_ shape ii)) shape).
  apply (map_at_seq to_uint).
Qed.

Lemma isEmpty_loop (shape : list Z) (n lo : nat) (b : bool) :
  loop n lo (fun ii isEmpty => isEmpty || (at_ shape ii =? 0)) b
  = b || existsb (fun ii => at_ shape ii =? 0) (seq lo n).
Proof.
  revert lo b. induction n as [| n IH]; intros lo b; simpl.
  - rewrite orb_false_r. reflexivity.
  - rewrite IH, orb_assoc. reflexivity.
Qed.

Lemma buffer_isEmpty_false (shape : list Z) :
  (forall a, In a shape -> a <> 0) -> buffer_isEmpty shape (length shape) = false.
Proof.
  intros H. unfold buffer_isEmpty. rewrite isEmpty_loop. simpl.
  apply not_true_is_false. intros Hex. apply existsb_exists in Hex.
  destruct Hex as (ii & Hii & Hz). apply in_seq in Hii. apply Z.eqb_eq in Hz.
  apply (H (at_ shape ii)); [| exact Hz]. unfold at_. apply nth_In. lia.
Qed.

Lemma buffer_strides_run (itemsize : Z) (bs : list Z) (n ii : nat) (acc : list Z) :
  (forall k, (ii <= k < ii + n)%nat ->
     smul (sdiv (at_ bs k) (to_sint itemsize)) (to_sint itemsize) = at_ bs k) ->
  buffer_strides itemsize bs n ii acc
  = Ok (loop n ii (fun k l => <[ k := sdiv (at_ bs k) (to_sint itemsize) ]> l) acc).
Proof.
  revert ii acc. induction n as [| n IH]; intros ii acc H; simpl; [reflexivity |].
  rewrite H by lia. rewrite Z.eqb_refl. simpl. apply IH. intros k Hk. apply H. lia.
Qed.

Lemma byte_stride_back (s itemsize : Z) :
  0 < itemsize -> is_sint itemsize -> is_sint s -> is_sint (s * itemsize) ->
  sdiv (smul s itemsize) itemsize = s.
Proof.
  intros Hpos Hi Hs Hm. unfold sdiv, smul. rewrite (wrap_sint_id _ Hm).
  rewrite Z.quot_mul by lia. apply wrap_sint_id. exact Hs.
Qed.

Lemma SizeOf_range (dt : DataType) : 0 < SizeOf dt /\ is_sint (SizeOf dt).
Proof. destruct dt; unfold is_sint; simpl; lia. Qed.

Lemma buffer_strides_all (itemsize : Z) (strides : list Z) :
  0 < itemsize -> is_sint itemsize ->
  (forall s, In s strides -> is_sint s /\ is_sint (s * itemsize)) ->
  buffer_strides itemsize (map (fun s => smul s itemsize) strides) (length strides) 0
                 (replicate (length strides) 1)
  = Ok strides.
Proof.
  intros Hpos Hi Hs.
  assert (Hback : forall s, In s strides ->
            sdiv (smul s itemsize) (to_sint itemsize) = s).
  { intros s Hin. unfold to_sint. rewrite (wrap_sint_id _ Hi).
    apply byte_stride_back; try assumption; apply Hs; exact Hin. }
  assert (Hat : forall k, (k < length strides)%nat ->
            at_ (map (fun s => smul s itemsize) strides) k = smul (at_ strides k) itemsize).
  { intros k Hk. unfold at_.
    rewrite (nth_indep _ 0 (smul 0 itemsize)) by (rewrite length_map; exact Hk).
    apply (map_nth (fun s => smul s itemsize)). }
  rewrite buffer_strides_run.
  - f_equal.
    rewrite (loop_insert_all
               (fun k => sdiv (at_ (map (fun s => smul s itemsize) strides) k)
                              (to_sint itemsize)) strides).
    transitivity (map (fun ii => (fun s : Z => s) (at_ strides ii)) (seq 0 (length strides))).
    + apply map_ext_in. intros k Hk. apply in_seq in Hk.
      rewrite Hat by lia. apply Hback. unfold at_. apply nth_In. lia.
    + rewrite (map_at_seq (fun s : Z => s)). apply map_id.
  - intros k Hk. rewrite Hat by lia. rewrite Hback by (unfold at_; apply nth_In; lia).
    unfold to_sint. rewrite (wrap_sint_id _ Hi). reflexivity.
Qed.

Lemma map_to_uint_sint (l : list Z) :
  (forall a, In a l -> is_uint a) -> map to_uint (map to_sint l) = l.
Proof.
  intros H. rewrite map_map. rewrite <- (map_id l) at 2. apply map_ext_in.
  intros a Ha. unfold to_uint, to_sint. apply eqm_uint.
  - apply wrap_uint_range.
  - apply H. exact Ha.
  - rewrite wrap_uint_eqm. apply wrap_sint_eqm.
Qed.

Lemma to_sint_nonzero (a : Z) : is_uint a -> a <> 0 -> to_sint a <> 0.
Proof.
  intros Ha Hne H. apply Hne.
  apply eqm_uint; [exact Ha | unfold is_uint; lia |].
  rewrite <- (wrap_sint_eqm a). fold (to_sint a). rewrite H. reflexivity.
Qed.

Section BufferFacts.

Variable ReverseDimensions : bool.
Variables DT_ULONG DT_LONG : DataType.
Variable DIP_ASSERT : bool -> option Error.
Variable Image_default : Image.
Variable Image_external : nat -> Z -> DataType -> list Z -> list Z -> Image.
Variable PixelSize_EraseDimension : nat -> PixelSize -> PixelSize.
Variable SetMatrix : Z -> Z -> Tensor -> Tensor.
Variable IMAGE_NOT_SCALAR : Error.

(** An assertion that holds does nothing. *)
Hypothesis DIP_ASSERT_true : DIP_ASSERT true = None.

(** The constructor for external data gives a forged scalar image with the
    data type, the sizes, the strides and the origin it is given, and tensor
    stride 1, when there are as many strides as sizes and every size is
    between 1 and the largest [dip::sint]. *)
Hypothesis Image_external_fields :
  forall (segment : nat) (origin : Z) (dt : DataType) (sizes strides : list Z),
    length strides = length sizes ->
    (forall a, In a sizes -> 0 < a < 2 ^ 63) ->
    let out := Image_external segment origin dt sizes strides in
    IsForged out = true /\ dataType_ out = dt /\ sizes_ out = sizes
    /\ strides_ out = strides /\ origin_ out = origin
    /\ IsScalar out = true /\ tensorStride_ out = 1.

Local Abbreviation BufferToImage :=
  (BufferToImage ReverseDimensions DT_ULONG DT_LONG DIP_ASSERT Image_default Image_external
                 PixelSize_EraseDimension SetMatrix IMAGE_NOT_SCALAR).
Local Abbreviation ImageToBuffer := (ImageToBuffer ReverseDimensions).

Lemma buffer_datatype_format (image : Image) :
  buffer_datatype DT_ULONG DT_LONG (py.format (ImageToBuffer image)) = Ok (dataType_ image).
Proof.
  unfold ImageToBuffer.
  destruct (negb (IsForged image)); cbn [py.format]; destruct (dataType_ image); reflexivity.
Qed.

(** Importing the buffer of the sizes [sizes] and the strides [strides]:
    the checks pass, and the image is built around the data with the sizes
    and the strides, reversed if dimensions are. *)
Lemma BufferToImage_import (pyObject : nat) (origin : Z) (dt : DataType) (fmt : string)
    (sizes strides : list Z) (auto_tensor : bool) :
  buffer_datatype DT_ULONG DT_LONG fmt = Ok dt ->
  length strides = length sizes ->
  Z.of_nat (length sizes) < 2 ^ 63 ->
  (forall a, In a sizes -> 0 < a < 2 ^ 63) ->
  (forall s, In s strides -> is_sint s /\ is_sint (s * SizeOf dt)) ->
  BufferToImage pyObject
    (py.mk_buffer_info origin (to_sint (SizeOf dt)) fmt (to_sint (Z.of_nat (length sizes)))
       (map to_sint sizes) (map (fun s => smul s (to_sint (SizeOf dt))) strides))
    auto_tensor
  = let sizes' := if ReverseDimensions then rev sizes else sizes in
    let strides' := if ReverseDimensions then rev strides else strides in
    let out := Image_external pyObject origin dt sizes' strides' in
    if auto_tensor
       && ((2 <? length sizes')%nat
           && ((at_ sizes' 0 <? 10) || (at_ sizes' (length sizes - 1) <? 10)))
    then if at_ sizes' 0 <? at_ sizes' (length sizes - 1)
         then SpatialToTensor_of PixelSize_EraseDimension SetMatrix IMAGE_NOT_SCALAR 0 out
         else SpatialToTensor_of PixelSize_EraseDimension SetMatrix IMAGE_NOT_SCALAR
                                 (length sizes - 1) out
    else Ok out.
Proof.
  intros Hfmt Hlen Hnd Hsz Hst.
  destruct (SizeOf_range dt) as [Hpos Hi].
  unfold BufferToImage.
  cbn [py.format py.ndim py.shape py.strides py.itemsize py.ptr].
  rewrite Hfmt.
  assert (Hndim : Z.to_nat (to_uint (to_sint (Z.of_nat (length sizes))))
                  = length (map to_sint sizes)).
  { rewrite length_map. unfold to_uint, to_sint.
    rewrite wrap_sint_id by (unfold is_sint; lia).
    rewrite wrap_uint_id by (unfold is_uint; lia). apply Nat2Z.id. }
  rewrite Hndim. rewrite Nat.eqb_refl, DIP_ASSERT_true.
  rewrite buffer_isEmpty_false.
  2:{ intros a Ha. apply in_map_iff in Ha. destruct Ha as (b & <- & Hb).
      specialize (Hsz b Hb). apply to_sint_nonzero; [unfold is_uint |]; lia. }
  rewrite buffer_sizes_all.
  rewrite map_to_uint_sint by (intros a Ha; specialize (Hsz a Ha); unfold is_uint; lia).
  rewrite length_map, <- Hlen.
  unfold to_sint at 1 2. rewrite (wrap_sint_id _ Hi).
  rewrite buffer_strides_all by assumption.
  reflexivity.
Qed.

(** X17.  An image exported as a Python buffer and imported again: a raw
  image comes back as a raw image of the same data type; a forged scalar
  image whose sizes lie between 1 and the largest [dip::sint] and whose
  strides in bytes do not overflow comes back forged and scalar, with the
  same data type, sizes, strides and origin, whether or not the dimensions
  are reversed on the way, and also with the search for a tensor dimension
  when the image has at most two dimensions. *)
Theorem Buffer_round_trip (pyObject : nat) (img : Image) (auto_tensor : bool) :
  (IsForged img = false ->
   BufferToImage pyObject (ImageToBuffer img) auto_tensor
   = Ok (set_dataType (dataType_ img) Image_default))
  /\ (IsForged img = true -> IsScalar img = true ->
      length (strides_ img) = length (sizes_ img) ->
      Z.of_nat (length (sizes_ img)) < 2 ^ 63 ->
      (forall a, In a (sizes_ img) -> 0 < a < 2 ^ 63) ->
      (forall s, In s (strides_ img) ->
         is_sint s /\ is_sint (s * SizeOf (dataType_ img))) ->
      (auto_tensor = true -> (length (sizes_ img) <= 2)%nat) ->
      exists out,
        BufferToImage pyObject (ImageToBuffer img) auto_tensor = Ok out
        /\ IsForged out = true /\ IsScalar out = true
        /\ dataType_ out = dataType_ img /\ sizes_ out = sizes_ img
        /\ strides_ out = strides_ img /\ origin_ out = origin_ img).
Proof.
  split.
  - intros Hf. unfold BufferToImage. rewrite buffer_datatype_format.
    unfold ImageToBuffer. rewrite Hf. cbn [negb py.ndim py.shape].
    change (Z.to_nat (to_uint 1)) with 1%nat. cbn [length Nat.eqb].
    rewrite DIP_ASSERT_true. reflexivity.
  - intros Hf Hsc Hlen Hnd Hsz Hst Hauto.
    pose proof (buffer_datatype_format img) as Hfmt.
    unfold ImageToBuffer in *. rewrite Hf, Hsc in *.
    cbn [negb py.format] in *.
    set (sizes := if ReverseDimensions then rev (sizes_ img) else sizes_ img).
    set (strides := if ReverseDimensions then rev (strides_ img) else strides_ img).
    replace (if ReverseDimensions
             then rev (map (fun s => smul s (to_sint (SizeOf (dataType_ img))))
                           (strides_ img))
             else map (fun s => smul s (to_sint (SizeOf (dataType_ img)))) (strides_ img))
      with (map (fun s => smul s (to_sint (SizeOf (dataType_ img)))) strides)
      by (unfold strides; destruct ReverseDimensions; [rewrite map_rev |]; reflexivity).
    assert (Hl : length sizes = length (sizes_ img))
      by (unfold sizes; destruct ReverseDimensions; [apply length_rev | reflexivity]).
    assert (Hl' : length strides = length sizes)
      by (rewrite Hl; unfold strides; destruct ReverseDimensions; rewrite ?length_rev;
          exact Hlen).
    assert (Hin : forall a, In a sizes -> In a (sizes_ img))
      by (unfold sizes; destruct ReverseDimensions; intros a Ha;
          [apply in_rev in Ha |]; exact Ha).
    assert (Hin' : forall s, In s strides -> In s (strides_ img))
      by (unfold strides; destruct ReverseDimensions; intros a Ha;
          [apply in_rev in Ha |]; exact Ha).
    rewrite (BufferToImage_import pyObject (origin_ img) (dataType_ img) _ sizes strides
               auto_tensor Hfmt Hl').
    2:{ rewrite Hl. exact Hnd. }
    2:{ intros a Ha. apply Hsz, Hin. exact Ha. }
    2:{ intros s Hs. apply Hst, Hin'. exact Hs. }
    cbv zeta.
    replace (if ReverseDimensions then rev sizes else sizes) with (sizes_ img)
      by (unfold sizes; destruct ReverseDimensions; [rewrite rev_involutive |]; reflexivity).
    replace (if ReverseDimensions then rev strides else strides) with (strides_ img)
      by (unfold strides; destruct ReverseDimensions; [rewrite rev_involutive |]; reflexivity).
    destruct (Image_external_fields pyObject (origin_ img) (dataType_ img) (sizes_ img)
                (strides_ img) Hlen Hsz) as (Hf' & Hdt & Hsz' & Hst' & Ho & Hsc' & _).
    replace (auto_tensor && ((2 <? length (sizes_ img))%nat && _)) with false.
    + eexists. split; [reflexivity |]. tauto.
    + destruct auto_tensor; [| reflexivity]. simpl.
      replace (2 <? length (sizes_ img))%nat with false; [reflexivity |].
      symmetry. apply Nat.ltb_ge. apply Hauto. reflexivity.
Qed.

Local Abbreviation BufferToImage_axis :=
  (BufferToImage_axis ReverseDimensions DT_ULONG DT_LONG DIP_ASSERT Image_default
                      Image_external PixelSize_EraseDimension SetMatrix IMAGE_NOT_SCALAR).

(** X18.  A tensor image exported as a Python buffer and imported again,
  when dimensions are reversed: the tensor dimension is the last dimension of
  the array, and importing with tensor axis -1 gives a forged image with the
  same data type, sizes, strides, tensor stride and origin, and a column
  tensor of as many elements.  The search for a tensor dimension gives the
  same image when the image has two dimensions or more and fewer tensor
  elements than 10 and than its last size. *)
Theorem Buffer_tensor_round_trip (pyObject : nat) (img : Image) :
  ReverseDimensions = true ->
  IsForged img = true -> IsScalar img = false ->
  0 < TensorElements img < 2 ^ 63 ->
  is_sint (tensorStride_ img) ->
  is_sint (tensorStride_ img * SizeOf (dataType_ img)) ->
  length (strides_ img) = length (sizes_ img) ->
  Z.of_nat (length (sizes_ img)) + 1 < 2 ^ 63 ->
  (forall a, In a (sizes_ img) -> 0 < a < 2 ^ 63) ->
  (forall s, In s (strides_ img) -> is_sint s /\ is_sint (s * SizeOf (dataType_ img))) ->
  exists out t0,
    BufferToImage_axis pyObject (ImageToBuffer img) (-1) = Ok out
    /\ IsForged out = true
    /\ dataType_ out = dataType_ img /\ sizes_ out = sizes_ img
    /\ strides_ out = strides_ img /\ origin_ out = origin_ img
    /\ tensorStride_ out = tensorStride_ img
    /\ tensor_ out = SetMatrix (TensorElements img) 1 t0
    /\ ((2 <= length (sizes_ img))%nat -> TensorElements img < 10 ->
        TensorElements img < at_ (sizes_ img) (length (sizes_ img) - 1) ->
        BufferToImage pyObject (ImageToBuffer img) true = Ok out).
Proof.
  intros Hrev Hf Hsc HT Hts Htsb Hlen Hnd Hsz Hst.
  pose proof (buffer_datatype_format img) as Hfmt.
  set (T := TensorElements img) in *. set (ts := tensorStride_ img) in *.
  set (out0 := Image_external pyObject (origin_ img) (dataType_ img)
                              (T :: sizes_ img) (ts :: strides_ img)).
  assert (Himport : forall auto_tensor,
            BufferToImage pyObject (ImageToBuffer img) auto_tensor
            = if auto_tensor
                 && ((2 <? S (length (sizes_ img)))%nat
                     && ((T <? 10) || (at_ (T :: sizes_ img) (length (sizes_ img)) <? 10)))
              then if T <? at_ (T :: sizes_ img) (length (sizes_ img))
                   then SpatialToTensor_of PixelSize_EraseDimension SetMatrix
                                           IMAGE_NOT_SCALAR 0 out0
                   else SpatialToTensor_of PixelSize_EraseDimension SetMatrix
                                           IMAGE_NOT_SCALAR (length (sizes_ img)) out0
              else Ok out0).
  { intros auto_tensor.
    assert (Hif : forall (A : Type) (a b : A), (if ReverseDimensions then a else b) = a)
      by (intros A a b; rewrite Hrev; reflexivity).
    unfold ImageToBuffer in *. rewrite Hf, Hsc in *.
    cbn [negb py.format] in *. rewrite !Hif. fold T ts.
    replace (rev (map (fun s => smul s (to_sint (SizeOf (dataType_ img)))) (strides_ img))
             ++ [smul ts (to_sint (SizeOf (dataType_ img)))])
      with (map (fun s => smul s (to_sint (SizeOf (dataType_ img))))
                (rev (strides_ img) ++ [ts]))
      by (rewrite map_app, map_rev; reflexivity).
    rewrite (BufferToImage_import pyObject (origin_ img) (dataType_ img) _
               (rev (sizes_ img) ++ [T]) (rev (strides_ img) ++ [ts]) auto_tensor Hfmt).
    - cbv zeta. rewrite !Hif.
      rewrite !rev_app_distr, !rev_involutive. cbn [rev app].
      rewrite length_app, length_rev. cbn [length].
      replace (length (sizes_ img) + 1 - 1)%nat with (length (sizes_ img)) by lia.
      reflexivity.
    - rewrite !length_app, !length_rev, Hlen. reflexivity.
    - rewrite length_app, length_rev. cbn [length]. lia.
    - intros a Ha. apply in_app_or in Ha. destruct Ha as [Ha | [<- | []]].
      + apply Hsz, in_rev. exact Ha.
      + exact HT.
    - intros s Hs. apply in_app_or in Hs. destruct Hs as [Hs | [<- | []]].
      + apply Hst, in_rev. exact Hs.
      + split; assumption. }
  destruct (Image_external_fields pyObject (origin_ img) (dataType_ img) (T :: sizes_ img)
              (ts :: strides_ img)) as (Hf0 & Hdt0 & Hsz0 & Hst0 & Ho0 & Hsc0 & _).
  { simpl. rewrite Hlen. reflexivity. }
  { intros a [<- | Ha]; [exact HT | apply Hsz; exact Ha]. }
  fold out0 in Hf0, Hdt0, Hsz0, Hst0, Ho0, Hsc0.
  assert (Hto : SpatialToTensor_of PixelSize_EraseDimension SetMatrix IMAGE_NOT_SCALAR 0 out0
                = Ok (set_colorSpace EmptyString
                        (set_pixelSize (PixelSize_EraseDimension 0 (pixelSize_ out0))
                           (set_strides (strides_ img)
                              (set_sizes (sizes_ img)
                                 (set_tensorStride ts
                                    (set_tensor (SetMatrix T 1 (tensor_ out0)) out0))))))).
  { unfold SpatialToTensor_of. rewrite SpatialToTensor_run.
    - rewrite Hsz0, Hst0. reflexivity.
    - exact Hf0.
    - exact Hsc0.
    - rewrite Hsz0. simpl. lia.
    - rewrite Hsz0. unfold at_. simpl. unfold is_uint. lia. }
  eexists. exists (tensor_ out0). split.
  - unfold BufferToImage_axis. rewrite (Himport false). cbn [andb].
    change (ssub (sneg (-1)) 1) with 0. cbn [Z.ltb Z.compare].
    change (Z.to_nat (to_uint 0)) with 0%nat. exact Hto.
  - cbn [IsForged dataBlock_ dataType_ sizes_ strides_ origin_ tensorStride_ tensor_
         set_colorSpace set_pixelSize set_strides set_sizes set_tensorStride set_tensor].
    split; [exact Hf0 |]. split; [exact Hdt0 |]. split; [reflexivity |].
    split; [reflexivity |]. split; [exact Ho0 |]. split; [reflexivity |].
    split; [reflexivity |].
    intros H2 H10 Hlast. rewrite (Himport true). cbn [andb].
    assert (Hat : at_ (T :: sizes_ img) (length (sizes_ img))
                  = at_ (sizes_ img) (length (sizes_ img) - 1)).
    { unfold at_. destruct (length (sizes_ img)) as [| n] eqn:E; [lia |].
      simpl. rewrite Nat.sub_0_r. reflexivity. }
    rewrite Hat.
    replace (2 <? S (length (sizes_ img)))%nat with true by (symmetry; apply Nat.ltb_lt; lia).
    replace (T <? 10) with true by (symmetry; apply Z.ltb_lt; exact H10).
    replace (T <? at_ (sizes_ img) (length (sizes_ img) - 1)) with true
      by (symmetry; apply Z.ltb_lt; exact Hlast).
    cbn [andb orb]. exact Hto.
Qed.

End BufferFacts.

Lemma Buffer_round_trip_witness :
  exists out,
    BufferToImage false DT_UINT64 DT_SINT64 no_assert raw_image external_image
                  keep_pixel_size matrix_tensor not_scalar_error 7
                  (ImageToBuffer false img_singleton_test) false = Ok out
    /\ sizes_ out = [5; 10; 15] /\ strides_ out = [1; 5; 50] /\ origin_ out = 4096
    /\ dataType_ out = DT_SFLOAT.
Proof.
  destruct (Buffer_round_trip false DT_UINT64 DT_SINT64 no_assert raw_image external_image
              keep_pixel_size matrix_tensor not_scalar_error eq_refl) with
    (pyObject := 7%nat) (img := img_singleton_test) (auto_tensor := false) as [_ H].
  - intros segment origin dt sizes strides _ _. repeat split.
  - destruct H as (out & Hrun & _ & _ & Hdt & Hsz & Hst & Ho).
    + reflexivity.
    + reflexivity.
    + reflexivity.
    + simpl. lia.
    + intros a Ha. simpl in Ha. destruct Ha as [<- | [<- | [<- | []]]]; lia.
    + intros s Hs. simpl in Hs. unfold is_sint.
      destruct Hs as [<- | [<- | [<- | []]]]; simpl; lia.
    + discriminate.
    + exists out. split; [exact Hrun |].
      rewrite Hsz, Hst, Ho, Hdt. repeat split.
Defined.

Lemma Buffer_tensor_round_trip_witness :
  exists out,
    BufferToImage_axis true DT_UINT64 DT_SINT64 no_assert raw_image external_image
                       keep_pixel_size matrix_tensor not_scalar_error 7
                       (ImageToBuffer true img_dims_test) (-1) = Ok out
    /\ BufferToImage true DT_UINT64 DT_SINT64 no_assert raw_image external_image
                     keep_pixel_size matrix_tensor not_scalar_error 7
                     (ImageToBuffer true img_dims_test) true = Ok out
    /\ sizes_ out = [5; 10; 15] /\ strides_ out = [3; 15; 150] /\ tensorStride_ out = 1
    /\ TensorElements out = 3.
Proof.
  destruct (Buffer_tensor_round_trip true DT_UINT64 DT_SINT64 no_assert raw_image
              external_image keep_pixel_size matrix_tensor not_scalar_error eq_refl) with
    (pyObject := 7%nat) (img := img_dims_test)
    as (out & t0 & Hrun & _ & _ & Hsz & Hst & _ & Hts & Hte & Hauto).
  - intros segment origin dt sizes strides _ _. repeat split.
  - reflexivity.
  - reflexivity.
  - reflexivity.
  - vm_compute. split; reflexivity.
  - vm_compute. split; [discriminate | reflexivity].
  - vm_compute. split; [discriminate | reflexivity].
  - reflexivity.
  - simpl. lia.
  - intros a Ha. simpl in Ha. destruct Ha as [<- | [<- | [<- | []]]]; lia.
  - intros s Hs. simpl in Hs. unfold is_sint.
    destruct Hs as [<- | [<- | [<- | []]]]; simpl; lia.
  - exists out. split; [exact Hrun |]. split.
    + apply Hauto; [simpl; lia | vm_compute; reflexivity | vm_compute; reflexivity].
    + rewrite Hsz, Hst, Hts. unfold TensorElements. rewrite Hte. repeat split.
Defined.


(** ** Eigenvalues come largest first, each with its eigenvector *)

Section EigenFacts.

Variable T : Type.
Variable ltb : T -> T -> bool.
Variable eigenvalues : list T -> list T.
Variable eigenvectors : list T -> list T.

(** [<] is asymmetric, as it is on the values of a [double]. *)
Hypothesis ltb_asym : forall a b, ltb a b = true -> ltb b a = false.

Ltac perm3 :=
  first [ apply Permutation_refl
        | apply perm_swap
        | apply perm_skip, perm_swap
        | eapply perm_trans; [apply perm_swap | apply perm_skip, perm_swap]
        | eapply perm_trans; [apply perm_skip, perm_swap | apply perm_swap]
        | eapply perm_trans; [apply perm_skip, perm_swap |];
          eapply perm_trans; [apply perm_swap | apply perm_skip, perm_swap] ].

Ltac sorted3 :=
  repeat match goal with
         | H : ltb _ _ = true |- _ => apply ltb_asym in H
         end;
  repeat match goal with
         | H : ltb _ _ = false |- _ => rewrite ?H; clear H
         end;
  split; [reflexivity | split; [perm3 | reflexivity]].

(** X19.  [SymmetricEigenSystem3D] and [SymmetricEigenSystem2D] return the
  eigenvalues that the solver found with none smaller than the next, each
  still paired with its eigenvector: the pairs of an eigenvalue and a column
  are a permutation of the solver's pairs; [SymmetricEigenValues3D] and
  [SymmetricEigenValues2D] return the same eigenvalues. *)
Theorem SymmetricEigenSystem_sorted (input : list T) :
  (length (eigenvalues input) = 3%nat -> length (eigenvectors input) = 9%nat ->
   let '(lambdas, vectors) := SymmetricEigenSystem3D T ltb eigenvalues eigenvectors input in
   descending T ltb lambdas = true
   /\ Permutation (zip lambdas (columns3 T vectors))
                  (zip (eigenvalues input) (columns3 T (eigenvectors input)))
   /\ SymmetricEigenValues3D T ltb eigenvalues input = lambdas)
  /\ (length (eigenvalues input) = 2%nat -> length (eigenvectors input) = 4%nat ->
      let '(lambdas, vectors) := SymmetricEigenSystem2D T ltb eigenvalues eigenvectors input in
      descending T ltb lambdas = true
      /\ Permutation (zip lambdas (columns2 T vectors))
                     (zip (eigenvalues input) (columns2 T (eigenvectors input)))
      /\ SymmetricEigenValues2D T ltb eigenvalues input = lambdas).
Proof.
  split.
  - intros Hl Hv.
    unfold SymmetricEigenSystem3D, SymmetricEigenValues3D.
    destruct (eigenvalues input) as [| a [| b [| c [| ? ?]]]]; try discriminate.
    destruct (eigenvectors input)
      as [| v0 [| v1 [| v2 [| v3 [| v4 [| v5 [| v6 [| v7 [| v8 [| ? ?]]]]]]]]]];
      try discriminate.
    clear Hl Hv. cbn.
    destruct (ltb a b) eqn:Eab; cbn.
    + destruct (ltb a c) eqn:Eac; cbn.
      * destruct (ltb b c) eqn:Ebc; cbn; sorted3.
      * rewrite (ltb_asym _ _ Eab). cbn. sorted3.
    + destruct (ltb b c) eqn:Ebc; cbn.
      * destruct (ltb a c) eqn:Eac; cbn; sorted3.
      * rewrite ?Eab. cbn. sorted3.
  - intros Hl Hv.
    unfold SymmetricEigenSystem2D, SymmetricEigenValues2D.
    destruct (eigenvalues input) as [| a [| b [| ? ?]]]; try discriminate.
    destruct (eigenvectors input) as [| v0 [| v1 [| v2 [| v3 [| ? ?]]]]]; try discriminate.
    clear Hl Hv. cbn.
    destruct (ltb a b) eqn:Eab; cbn; sorted3.
Qed.

End EigenFacts.

Lemma SymmetricEigenSystem_sorted_witness :
  SymmetricEigenSystem3D Z Z.ltb eigenvalues_test eigenvectors_test [4; 0; 0; 0; 8; 0; 0; 0; 6]
  = ([8; 6; 4], [0; 1; 0; 0; 0; 1; 1; 0; 0])
  /\ descending Z Z.ltb [8; 6; 4] = true
  /\ Permutation (zip [8; 6; 4] (columns3 Z [0; 1; 0; 0; 0; 1; 1; 0; 0]))
                 (zip [4; 6; 8] (columns3 Z [1; 0; 0; 0; 0; 1; 0; 1; 0])).
Proof.
  split; [reflexivity |].
  assert (Hasym : forall a b, Z.ltb a b = true -> Z.ltb b a = false) by (intros a b; lia).
  destruct (SymmetricEigenSystem_sorted Z Z.ltb eigenvalues_test eigenvectors_test Hasym
              [4; 0; 0; 0; 8; 0; 0; 0; 6]) as [H _].
  specialize (H eq_refl eq_refl).
  change (SymmetricEigenSystem3D Z Z.ltb eigenvalues_test eigenvectors_test
            [4; 0; 0; 0; 8; 0; 0; 0; 6])
    with ([8; 6; 4], [0; 1; 0; 0; 0; 1; 1; 0; 0]) in H.
  destruct H as (Hd & Hp & _). split; [exact Hd | exact Hp].
Defined.


(** ** The window of a crop lies inside the image *)

Lemma length_loop_insert_any {A : Type} (f : nat -> A) (n lo : nat) (l : list A) :
  length (loop n lo (fun k l => <[ k := f k ]> l) l) = length l.
Proof.
  revert lo l. induction n as [| n IH]; intros lo l; simpl; [reflexivity |].
  rewrite IH. apply length_insert.
Qed.

(** X20.  [CropWindow] throws [IMAGE_NOT_FORGED] on a raw image and
  [ARRAY_PARAMETER_WRONG_LENGTH] when the window has not one size per
  dimension.  When the window fits, with sizes from 1 on and image sizes
  within [dip::sint], it returns one range per dimension, which starts at
  the window origin of the placement policy, spans exactly the window size
  and lies inside the image: [0 <= start] and [stop < ] the image size. *)
Theorem CropWindow_inside (array_gt : list Z -> list Z -> bool) (img : Image)
    (sizes : list Z) (loc : CropLocation) :
  (IsForged img = false -> CropWindow array_gt sizes loc img = Throw IMAGE_NOT_FORGED)
  /\ (IsForged img = true -> length sizes <> length (sizes_ img) ->
      CropWindow array_gt sizes loc img = Throw ARRAY_PARAMETER_WRONG_LENGTH)
  /\ (IsForged img = true ->
      window_fits sizes (sizes_ img) = true ->
      array_gt sizes (sizes_ img) = false ->
      (forall ii, (ii < length sizes)%nat -> 1 <= at_ sizes ii) ->
      (forall ii, (ii < length sizes)%nat -> at_ (sizes_ img) ii < 2 ^ 63) ->
      exists ranges,
        CropWindow array_gt sizes loc img = Ok ranges
        /\ length ranges = length sizes
        /\ forall ii, (ii < length sizes)%nat ->
             let '(start, stop) := nth ii ranges (0, -1) in
             start = at_ (GetWindowOrigin (sizes_ img) sizes loc) ii
             /\ 0 <= start
             /\ stop - start + 1 = at_ sizes ii
             /\ stop < at_ (sizes_ img) ii).
Proof.
  split; [| split].
  - intros Hf. unfold CropWindow. rewrite Hf. reflexivity.
  - intros Hf Hne. unfold CropWindow, CropWindow_sizes. rewrite Hf. cbn [negb].
    replace (length sizes =? length (sizes_ img))%nat with false
      by (symmetry; apply Nat.eqb_neq; exact Hne).
    reflexivity.
  - intros Hf Hfits Hgt Hpos Hmax.
    assert (Hlen : length sizes = length (sizes_ img)).
    { unfold window_fits in Hfits. apply andb_true_iff in Hfits.
      apply Nat.eqb_eq. apply Hfits. }
    unfold CropWindow, CropWindow_sizes. rewrite Hf, Hgt, Hlen, Nat.eqb_refl. cbn [negb].
    eexists. split; [reflexivity |]. split.
    + rewrite length_loop_insert_any. apply length_replicate.
    + intros ii Hii.
      rewrite nth_loop_insert by (rewrite length_replicate; lia).
      replace ((0 <=? ii) && (ii <? 0 + length (sizes_ img)))%nat with true
        by (symmetry; apply andb_true_iff; split;
            [apply Nat.leb_le | apply Nat.ltb_lt]; lia).
      fold (at_ (GetWindowOrigin (sizes_ img) sizes loc) ii). fold (at_ sizes ii).
      destruct (window_fits_at sizes (sizes_ img) ii Hfits ltac:(lia)) as [HW HI].
      specialize (Hpos ii ltac:(lia)). specialize (Hmax ii ltac:(lia)).
      pose proof (GetWindowOrigin_at (sizes_ img) sizes loc ii Hlen ltac:(lia) HW HI) as Ho.
      cbv zeta in Ho.
      set (I := at_ (sizes_ img) ii) in *. set (W := at_ sizes ii) in *.
      set (o := at_ (GetWindowOrigin (sizes_ img) sizes loc) ii) in *.
      assert (Hb : 0 <= o /\ o + W <= I).
      { rewrite Ho. destruct loc.
        - destruct (Z.even I) eqn:EI, (Z.odd W) eqn:EW; cbn [andb];
            rewrite ?Z.add_0_r; try (split; [apply Z.add_nonneg_nonneg; [apply Z.div_pos |]
                                            | ]; lia).
          + apply Z.even_spec in EI. apply Z.odd_spec in EW.
            destruct EI as [x ->]. destruct EW as [y ->].
            replace (2 * x - (2 * y + 1)) with (1 + (x - y - 1) * 2) by lia.
            rewrite Z.div_add by lia. change (1 / 2) with 0. lia.
          + pose proof (Z.div_mod (I - W) 2 ltac:(lia)).
            pose proof (Z.mod_pos_bound (I - W) 2 ltac:(lia)). lia.
          + pose proof (Z.div_mod (I - W) 2 ltac:(lia)).
            pose proof (Z.mod_pos_bound (I - W) 2 ltac:(lia)). lia.
          + pose proof (Z.div_mod (I - W) 2 ltac:(lia)).
            pose proof (Z.mod_pos_bound (I - W) 2 ltac:(lia)). lia.
        - destruct (Z.odd I) eqn:EI, (Z.even W) eqn:EW; cbn [andb];
            rewrite ?Z.add_0_r.
          + apply Z.odd_spec in EI. apply Z.even_spec in EW.
            destruct EI as [x ->]. destruct EW as [y ->].
            replace (2 * x + 1 - 2 * y) with (1 + (x - y) * 2) by lia.
            rewrite Z.div_add by lia. change (1 / 2) with 0. lia.
          + pose proof (Z.div_mod (I - W) 2 ltac:(lia)).
            pose proof (Z.mod_pos_bound (I - W) 2 ltac:(lia)). lia.
          + pose proof (Z.div_mod (I - W) 2 ltac:(lia)).
            pose proof (Z.mod_pos_bound (I - W) 2 ltac:(lia)). lia.
          + pose proof (Z.div_mod (I - W) 2 ltac:(lia)).
            pose proof (Z.mod_pos_bound (I - W) 2 ltac:(lia)). lia.
        - lia.
        - lia. }
      unfold to_sint, usub, uadd.
      rewrite (wrap_uint_id (o + W)) by (unfold is_uint; lia).
      rewrite (wrap_uint_id (o + W - 1)) by (unfold is_uint; lia).
      rewrite !wrap_sint_id by (unfold is_sint; lia).
      split; [reflexivity |]. lia.
Qed.

Lemma CropWindow_inside_witness :
  exists ranges,
    CropWindow no_gt [3; 4; 15] CENTER img_dims_test = Ok ranges
    /\ ranges = [(1, 3); (3, 6); (0, 14)].
Proof.
  destruct (CropWindow_inside no_gt img_dims_test [3; 4; 15] CENTER) as (_ & _ & H).
  destruct H as (ranges & Hrun & _ & _).
  - reflexivity.
  - reflexivity.
  - reflexivity.
  - intros ii Hii. simpl in Hii.
    destruct ii as [| [| [| ii]]]; [vm_compute; discriminate .. | lia].
  - intros ii Hii. simpl in Hii.
    destruct ii as [| [| [| ii]]]; [vm_compute; reflexivity .. | lia].
  - exists ranges. split; [exact Hrun |].
    vm_compute in Hrun. injection Hrun as <-. reflexivity.
Defined.


(** ** Which orders [PermuteDimensions] accepts *)

Lemma for_throw_if {St : Type} (c : nat -> bool) (e : Error) (n lo : nat) (s : St) :
  for_ n lo (fun ii => DIP_THROW_IF (c ii) e) s
  = if existsb c (seq lo n) then (Throw e, s) else (Ok tt, s).
Proof.
  revert lo. induction n as [| n IH]; intros lo; simpl; [reflexivity |].
  destruct (c lo) eqn:Ec; simpl.
  - apply bind_Throw. reflexivity.
  - rewrite (bind_Ok _ _ s s tt) by reflexivity. apply IH.
Qed.

Lemma nth_insert_bool (keep : list bool) (d d' : nat) :
  (d < length keep)%nat ->
  nth d' (<[ d := true ]> keep) false = ((d' =? d)%nat || nth d' keep false).
Proof.
  intros Hd. rewrite !nth_lookup.
  destruct (Nat.eqb_spec d' d) as [-> | Hne]; simpl.
  - rewrite list_lookup_insert_eq by exact Hd. reflexivity.
  - rewrite list_lookup_insert_ne by congruence. reflexivity.
Qed.

Lemma take_S_nth (order : list nat) (ii : nat) :
  (ii < length order)%nat -> take (S ii) order = take ii order ++ [nth ii order 0%nat].
Proof.
  intros Hii. apply take_S_r.
  destruct (nth_lookup_or_length order ii 0%nat) as [H | H]; [exact H | lia].
Qed.

(** The first loop: it ends without throwing exactly when [order] names
    dimensions below [nd] and none twice, and then [keep] marks them. *)
Lemma mark_kept_spec (order : list nat) (nd : nat) (n ii : nat) (keep : list bool) :
  (ii + n)%nat = length order -> length keep = nd ->
  (forall d, nth d keep false = true <-> In d (take ii order)) ->
  List.NoDup (take ii order) -> (forall d, In d (take ii order) -> (d < nd)%nat) ->
  (exists keep',
      mark_kept order nd n ii keep = Ok keep'
      /\ (forall d, nth d keep' false = true <-> In d order)
      /\ List.NoDup order /\ (forall d, In d order -> (d < nd)%nat))
  \/ ((exists e, mark_kept order nd n ii keep = Throw e)
      /\ ~ (List.NoDup order /\ forall d, In d order -> (d < nd)%nat)).
Proof.
  revert ii keep. induction n as [| n IH]; intros ii keep Hn Hlen Hkeep Hnd Hlt.
  - rewrite Nat.add_0_r in Hn. subst ii. rewrite firstn_all in *.
    left. exists keep. split; [reflexivity |]. split; [exact Hkeep |].
    split; [exact Hnd | exact Hlt].
  - assert (Hii : (ii < length order)%nat) by lia.
    assert (Hin : In (nth ii order 0%nat) order) by (apply nth_In; exact Hii).
    pose proof (take_S_nth order ii Hii) as Htake.
    cbn [mark_kept].
    destruct (Nat.leb_spec nd (nth ii order 0%nat)) as [Hge | Hd].
    + right. split; [eexists; reflexivity |]. intros [_ Hall].
      specialize (Hall _ Hin). lia.
    + destruct (nth (nth ii order 0%nat) keep false) eqn:Ek.
      * right. split; [eexists; reflexivity |]. intros [Hno _].
        apply Hkeep in Ek.
        rewrite <- (take_drop (S ii) order), Htake in Hno.
        apply NoDup_app_remove_r in Hno. apply NoDup_remove_2 in Hno.
        apply Hno. rewrite app_nil_r. exact Ek.
      * apply (IH (S ii) (<[ nth ii order 0%nat := true ]> keep)).
        -- lia.
        -- rewrite length_insert. exact Hlen.
        -- intros d. rewrite nth_insert_bool by lia. rewrite Htake, in_app_iff.
           rewrite orb_true_iff, Nat.eqb_eq, Hkeep. simpl. intuition congruence.
        -- rewrite Htake. apply List.NoDup_app; [exact Hnd | |].
           ++ apply List.NoDup_cons; [intros [] | apply List.NoDup_nil].
           ++ intros d Hd' [<- | []]. apply Hkeep in Hd'. congruence.
        -- intros d. rewrite Htake, in_app_iff. simpl.
           intros [Hd' | [<- | []]]; [apply Hlt; exact Hd' | exact Hd].
Qed.

Section PermuteFacts.

Variable permute : list nat -> list Z -> list Z.
Variable PixelSize_Permute : list nat -> PixelSize -> PixelSize.

Local Abbreviation PermuteDimensions := (PermuteDimensions permute PixelSize_Permute).

Lemma PermuteDimensions_run (img : Image) (order : list nat) :
  IsForged img = true -> (length order <= length (sizes_ img))%nat ->
  PermuteDimensions order img
  = match mark_kept order (length (sizes_ img)) (length order) 0
                    (replicate (length (sizes_ img)) false) with
    | Throw e => (Throw e, img)
    | Ok keep =>
        if existsb (fun ii => negb (nth ii keep false) && (1 <? at_ (sizes_ img) ii))
                   (seq 0 (length (sizes_ img)))
        then (Throw discard_error, img)
        else (Ok tt, set_pixelSize (PixelSize_Permute order (pixelSize_ img))
                       (set_strides (permute order (strides_ img))
                          (set_sizes (permute order (sizes_ img)) img)))
    end.
Proof.
  intros Hf Hle. unfold PermuteDimensions.
  rewrite (bind_Ok _ _ img img img) by reflexivity.
  rewrite (bind_Ok _ _ img img tt) by (unfold DIP_THROW_IF; rewrite Hf; reflexivity).
  rewrite (bind_Ok _ _ img img tt).
  2:{ unfold DIP_THROW_IF.
      replace (length (sizes_ img) <? length order)%nat with false
        by (symmetry; apply Nat.ltb_ge; exact Hle).
      reflexivity. }
  cbv zeta.
  destruct (mark_kept order (length (sizes_ img)) (length order) 0
                      (replicate (length (sizes_ img)) false)) as [keep | e];
    [| reflexivity].
  pose proof (for_throw_if
                (fun ii => negb (nth ii keep false) && (1 <? at_ (sizes_ img) ii))
                discard_error (length (sizes_ img)) 0 img) as Hloop.
  destruct (existsb _ _).
  - apply bind_Throw. exact Hloop.
  - rewrite (bind_Ok _ _ img img tt) by exact Hloop. reflexivity.
Qed.

Lemma nth_replicate_false (n d : nat) : nth d (replicate n false) false = false.
Proof.
  revert d. induction n as [| n IH]; intros [| d]; simpl; try reflexivity. apply IH.
Qed.

Lemma NoDup_below_length (order : list nat) (nd : nat) :
  List.NoDup order -> (forall d, In d order -> (d < nd)%nat) -> (length order <= nd)%nat.
Proof.
  intros Hno Hlt.
  assert (H : (length order <= length (seq 0 nd))%nat).
  { apply NoDup_incl_length; [exact Hno |].
    intros d Hd. apply in_seq. specialize (Hlt d Hd). lia. }
  rewrite length_seq in H. exact H.
Qed.

(** X21.  On a forged image, [PermuteDimensions( order )] returns without
  throwing exactly when [order] names dimensions of the image, none of them
  twice, and leaves out none that is larger than 1; then the sizes and the
  strides are permuted by [order], and nothing else but the pixel size
  changes.  With more entries than the image has dimensions it throws
  [ARRAY_PARAMETER_WRONG_LENGTH]. *)
Theorem PermuteDimensions_accepts (img : Image) (order : list nat) :
  IsForged img = true ->
  ((length (sizes_ img) < length order)%nat ->
   PermuteDimensions order img = (Throw ARRAY_PARAMETER_WRONG_LENGTH, img))
  /\ ((exists img', PermuteDimensions order img = (Ok tt, img'))
      <-> (List.NoDup order
           /\ (forall d, In d order -> (d < length (sizes_ img))%nat)
           /\ (forall ii, (ii < length (sizes_ img))%nat -> ~ In ii order ->
                 at_ (sizes_ img) ii <= 1)))
  /\ (forall img', PermuteDimensions order img = (Ok tt, img') ->
      img' = set_pixelSize (PixelSize_Permute order (pixelSize_ img))
               (set_strides (permute order (strides_ img))
                  (set_sizes (permute order (sizes_ img)) img))).
Proof.
  intros Hf.
  assert (Hlong : (length (sizes_ img) < length order)%nat ->
                  PermuteDimensions order img = (Throw ARRAY_PARAMETER_WRONG_LENGTH, img)).
  { intros Hlt. unfold PermuteDimensions.
    rewrite (bind_Ok _ _ img img img) by reflexivity.
    rewrite (bind_Ok _ _ img img tt) by (unfold DIP_THROW_IF; rewrite Hf; reflexivity).
    apply bind_Throw. unfold DIP_THROW_IF.
    replace (length (sizes_ img) <? length order)%nat with true
      by (symmetry; apply Nat.ltb_lt; exact Hlt).
    reflexivity. }
  assert (Hk0 : forall d, nth d (replicate (length (sizes_ img)) false) false = true
                          <-> In d (take 0 order)).
  { intros d. rewrite nth_replicate_false. simpl. split; [discriminate | tauto]. }
  pose proof (mark_kept_spec order (length (sizes_ img)) (length order) 0
                (replicate (length (sizes_ img)) false) eq_refl
                (length_replicate _ _) Hk0 (List.NoDup_nil _)
                (fun d (H : In d []) => match H with end)) as Hmark.
  split; [exact Hlong |]. split; [split |].
  - intros [img' Hrun].
    destruct (Nat.ltb_spec (length (sizes_ img)) (length order)) as [Hlt | Hle].
    { rewrite (Hlong Hlt) in Hrun. discriminate. }
    rewrite (PermuteDimensions_run img order Hf Hle) in Hrun.
    destruct Hmark as [(keep & Hk & Hkeep & Hno & Hall) | [[e He] _]];
      [| rewrite He in Hrun; discriminate].
    rewrite Hk in Hrun. split; [exact Hno |]. split; [exact Hall |].
    intros ii Hii Hnot.
    destruct (existsb _ _) eqn:Eex in Hrun; [discriminate |].
    destruct (Z.leb_spec (at_ (sizes_ img) ii) 1) as [Hs | Hs]; [exact Hs |].
    exfalso. apply not_true_iff_false in Eex. apply Eex.
    apply existsb_exists. exists ii. split; [apply in_seq; lia |].
    apply andb_true_iff. split; [| apply Z.ltb_lt; exact Hs].
    apply negb_true_iff. apply not_true_is_false. intros Hkt. apply Hnot, Hkeep. exact Hkt.
  - intros (Hno & Hall & Hdis).
    pose proof (NoDup_below_length order _ Hno Hall) as Hle.
    rewrite (PermuteDimensions_run img order Hf Hle).
    destruct Hmark as [(keep & Hk & Hkeep & _) | [_ Hbad]];
      [| exfalso; apply Hbad; split; assumption].
    rewrite Hk.
    replace (existsb _ _) with false; [eexists; reflexivity |].
    symmetry. apply not_true_is_false. intros Hex. apply existsb_exists in Hex.
    destruct Hex as (ii & Hii & Hc). apply in_seq in Hii.
    apply andb_true_iff in Hc. destruct Hc as [Hk' Hs].
    apply negb_true_iff in Hk'. apply Z.ltb_lt in Hs.
    assert (Hnot : ~ In ii order) by (intros Hin; apply Hkeep in Hin; congruence).
    specialize (Hdis ii ltac:(lia) Hnot). lia.
  - intros img' Hrun.
    destruct (Nat.ltb_spec (length (sizes_ img)) (length order)) as [Hlt | Hle].
    { rewrite (Hlong Hlt) in Hrun. discriminate. }
    rewrite (PermuteDimensions_run img order Hf Hle) in Hrun.
    destruct (mark_kept _ _ _ _ _); [| discriminate].
    destruct (existsb _ _); [discriminate |]. congruence.
Qed.

End PermuteFacts.

Lemma PermuteDimensions_accepts_witness :
  (exists img', PermuteDimensions permute_at keep_pixel_size_order [2; 0; 1]%nat img_dims_test
                = (Ok tt, img')
                /\ sizes_ img' = [15; 5; 10] /\ strides_ img' = [150; 3; 15])
  /\ ~ (exists img', PermuteDimensions permute_at keep_pixel_size_order [2; 0]%nat img_dims_test
                     = (Ok tt, img')).
Proof.
  destruct (PermuteDimensions_accepts permute_at keep_pixel_size_order img_dims_test
              [2; 0; 1]%nat eq_refl) as (_ & Hiff & Hres).
  destruct (PermuteDimensions_accepts permute_at keep_pixel_size_order img_dims_test
              [2; 0]%nat eq_refl) as (_ & Hiff' & _).
  split.
  - destruct (proj2 Hiff) as [img' Hrun].
    { split; [repeat constructor; simpl; intuition lia |].
      split.
      - intros d Hd. simpl in *. lia.
      - intros ii Hii Hnot. exfalso. apply Hnot. simpl in *. lia. }
    exists img'. split; [exact Hrun |]. rewrite (Hres img' Hrun). split; reflexivity.
  - intros Hex. apply Hiff' in Hex. destruct Hex as (_ & _ & Hdis).
    specialize (Hdis 1%nat). simpl in Hdis.
    assert (H : 10 <= 1) by (apply Hdis; [lia | intuition lia]). lia.
Defined.


(** ** The flat structuring element: both methods find the best sample *)

Section BestUnder.

(** [better] is the strict part of a total order: [>] for the dilation, [<]
    for the erosion. *)
Variable better : Z -> Z -> bool.
Hypothesis better_irrefl : forall a, better a a = false.
Hypothesis better_trans :
  forall a b c, better a b = true -> better b c = true -> better a c = true.
Hypothesis better_total : forall a b, a <> b -> better a b = true \/ better b a = true.

Variable worst : Z.
Variable in_ : Z -> Z.
Variable runs : list PixelRun.
Variable stride : Z.

Hypothesis worst_bound : forall a, better worst (in_ a) = false.
Hypothesis run_lengths : forall run, In run runs -> 1 <= run_length run < 2 ^ 63.
Hypothesis no_overflow :
  forall run jj, in_table runs run jj ->
    is_sint (jj * stride) /\ is_sint (run_offset run + jj * stride).

Local Abbreviation pixel p run jj := (in_ (p + (run_offset run + jj * stride))).

(** The state of a scan at [p]: no sample seen is better than the best so
    far, which is the sample at place [index] of some run, or still the start
    value when nothing has been seen. *)
Local Abbreviation at_place p best index :=
  (exists run, In run runs /\ 0 <= index < run_length run /\ best = pixel p run index).

Local Abbreviation scanning p Seen st :=
  ((forall v, Seen v -> better v (fst st) = false)
   /\ (at_place p (fst st) (snd st)
       \/ (fst st = worst /\ snd st = 0 /\ forall v, ~ Seen v))).

Lemma update_scanning (p : Z) (Seen : Z -> Prop) (st : Z * Z) (run : PixelRun) (pos : Z) :
  scanning p Seen st -> In run runs -> 0 <= pos < run_length run ->
  scanning p (fun v => Seen v \/ v = pixel p run pos) (update better st (pixel p run pos) pos).
Proof.
  destruct st as [best index]. cbn [fst snd]. intros [Hnone Hat] Hin Hpos.
  unfold update.
  destruct (Z.eqb_spec best (pixel p run pos)) as [Heq | Hne]; cbn [fst snd].
  - split.
    + intros v [Hv | ->]; [apply Hnone; exact Hv | rewrite <- Heq; apply better_irrefl].
    + left. destruct Hat as [(run' & Hin' & Hidx & Hbest) | (_ & -> & _)].
      * destruct (Z.max_spec index pos) as [[_ ->] | [_ ->]].
        -- exists run. split; [exact Hin |]. split; [exact Hpos | exact Heq].
        -- exists run'. split; [exact Hin' |]. split; [exact Hidx | exact Hbest].
      * rewrite Z.max_r by lia. exists run. split; [exact Hin |].
        split; [exact Hpos | exact Heq].
  - destruct (better (pixel p run pos) best) eqn:Eb; cbn [fst snd].
    + split.
      * intros v [Hv | ->]; [| apply better_irrefl].
        destruct (better v (pixel p run pos)) eqn:Ev; [| reflexivity].
        rewrite <- (Hnone v Hv). symmetry. apply (better_trans _ _ _ Ev Eb).
      * left. exists run. split; [exact Hin |]. split; [exact Hpos | reflexivity].
    + split.
      * intros v [Hv | ->]; [apply Hnone; exact Hv | exact Eb].
      * destruct Hat as [Hat | (-> & _ & _)]; [left; exact Hat |].
        exfalso. destruct (better_total _ _ Hne) as [H | H].
        -- rewrite worst_bound in H. discriminate.
        -- rewrite Eb in H. discriminate.
Qed.

Lemma scanning_ext (p : Z) (Seen Seen' : Z -> Prop) (st : Z * Z) :
  (forall v, Seen' v <-> Seen v) -> scanning p Seen st -> scanning p Seen' st.
Proof.
  intros Hext [Hnone Hat]. split.
  - intros v Hv. apply Hnone, Hext. exact Hv.
  - destruct Hat as [Hat | (H1 & H2 & H3)]; [left; exact Hat | right].
    split; [exact H1 |]. split; [exact H2 |]. intros v Hv. apply (H3 v), Hext. exact Hv.
Qed.

(** The pixels that came in: after the runs [rs], the samples seen are those
    seen before and the last ones of [rs]. *)
Lemma came_in_scanning (p : Z) (rs : list PixelRun) :
  (forall run, In run rs -> In run runs) ->
  forall (Seen : Z -> Prop) (st : Z * Z),
    scanning p Seen st ->
    scanning p (fun v => Seen v
                         \/ exists run, In run rs /\ v = pixel p run (run_length run - 1))
             (came_in in_ better rs stride p st).
Proof.
  induction rs as [| run rs IH]; intros Hsub Seen st Hst.
  - simpl. apply (scanning_ext p Seen); [| exact Hst].
    intros v. split; [intros [H | (run & [] & _)]; exact H | intros H; left; exact H].
  - unfold came_in. cbn [fold_left]. fold (came_in in_ better rs stride p).
    assert (Hin : In run runs) by (apply Hsub; left; reflexivity).
    pose proof (run_lengths run Hin) as Hlen.
    assert (Htab : in_table runs run (run_length run - 1)) by (split; [exact Hin | lia]).
    destruct (no_overflow _ _ Htab) as [Hmul Hadd].
    assert (Hl : to_sint (usub (run_length run) 1) = run_length run - 1).
    { unfold to_sint, usub. rewrite wrap_uint_id by (unfold is_uint; lia).
      apply wrap_sint_id. unfold is_sint. lia. }
    rewrite Hl.
    assert (Hpos : sadd (run_offset run) (smul (run_length run - 1) stride)
                   = run_offset run + (run_length run - 1) * stride).
    { unfold sadd, smul. rewrite (wrap_sint_id _ Hmul). apply wrap_sint_id. exact Hadd. }
    rewrite Hpos.
    pose proof (update_scanning p Seen st run (run_length run - 1) Hst Hin ltac:(lia)) as Hup.
    pose proof (IH (fun r Hr => Hsub r (or_intror Hr)) _ _ Hup) as Hrest.
    eapply scanning_ext; [| exact Hrest].
    intros v. cbv beta. split.
      * intros [H | (run' & [<- | Hin'] & ->)].
        -- left. left. exact H.
        -- left. right. reflexivity.
        -- right. exists run'. split; [exact Hin' | reflexivity].
      * intros [[H | ->] | (run' & Hin' & ->)].
        -- left. exact H.
        -- right. exists run. split; [left; reflexivity | reflexivity].
        -- right. exists run'. split; [right; exact Hin' | reflexivity].
Qed.

(** All pixels of a run, from place [jj] on. *)
Lemma all_of_run_scanning (p : Z) (run : PixelRun) :
  In run runs ->
  forall (n : nat) (jj : Z) (Seen : Z -> Prop) (st : Z * Z),
    0 <= jj -> jj + Z.of_nat n = run_length run ->
    scanning p Seen st ->
    scanning p (fun v => Seen v \/ exists k, jj <= k < run_length run /\ v = pixel p run k)
             (all_of_run in_ better stride p n jj (wrap_sint (run_offset run + jj * stride)) st).
Proof.
  intros Hin. pose proof (run_lengths run Hin) as Hlen.
  induction n as [| n IH]; intros jj Seen st Hjj Hn Hst.
  - simpl. apply (scanning_ext p Seen); [| exact Hst].
    intros v. split; [intros [H | (k & Hk & _)]; [exact H | lia] | intros H; left; exact H].
  - cbn [all_of_run].
    assert (Htab : in_table runs run jj) by (split; [exact Hin | lia]).
    destruct (no_overflow _ _ Htab) as [_ Hadd].
    rewrite (wrap_sint_id _ Hadd).
    replace (to_sint jj) with jj by (symmetry; apply wrap_sint_id; unfold is_sint; lia).
    replace (uadd jj 1) with (jj + 1) by (symmetry; apply wrap_uint_id; unfold is_uint; lia).
    replace (sadd (run_offset run + jj * stride) stride)
      with (wrap_sint (run_offset run + (jj + 1) * stride))
      by (unfold sadd; f_equal; ring).
    pose proof (update_scanning p Seen st run jj Hst Hin ltac:(lia)) as Hup.
    pose proof (IH (jj + 1) _ _ ltac:(lia) ltac:(lia) Hup) as Hrest.
    eapply scanning_ext; [| exact Hrest].
    intros v. cbv beta. split.
      * intros [H | (k & Hk & ->)].
        -- left. left. exact H.
        -- destruct (Z.eq_dec k jj) as [-> | Hne].
           ++ left. right. reflexivity.
           ++ right. exists k. split; [lia | reflexivity].
      * intros [[H | ->] | (k & Hk & ->)].
        -- left. exact H.
        -- right. exists jj. split; [lia | reflexivity].
        -- right. exists k. split; [lia | reflexivity].
Qed.

Lemma all_pixels_scanning (p : Z) (rs : list PixelRun) :
  (forall run, In run rs -> In run runs) ->
  forall (Seen : Z -> Prop) (st : Z * Z),
    scanning p Seen st ->
    scanning p (fun v => Seen v \/ exists run k, in_table rs run k /\ v = pixel p run k)
             (all_pixels in_ better rs stride p st).
Proof.
  induction rs as [| run rs IH]; intros Hsub Seen st Hst.
  - simpl. apply (scanning_ext p Seen); [| exact Hst].
    intros v. split; [intros [H | (run & k & [[] _] & _)]; exact H | intros H; left; exact H].
  - unfold all_pixels. cbn [fold_left]. fold (all_pixels in_ better rs stride p).
    assert (Hin : In run runs) by (apply Hsub; left; reflexivity).
    pose proof (run_lengths run Hin) as Hlen.
    assert (Htab : in_table runs run 0) by (split; [exact Hin | lia]).
    destruct (no_overflow _ _ Htab) as [_ Hadd].
    pose proof (all_of_run_scanning p run Hin (Z.to_nat (run_length run)) 0 Seen st
                  ltac:(lia) ltac:(rewrite Z2Nat.id; lia) Hst) as Hrun.
    replace (wrap_sint (run_offset run + 0 * stride)) with (run_offset run) in Hrun
      by (rewrite (wrap_sint_id _ Hadd); ring).
    pose proof (IH (fun r Hr => Hsub r (or_intror Hr)) _ _ Hrun) as Hrest.
    eapply scanning_ext; [| exact Hrest].
    intros v. cbv beta. split.
      * intros [H | (run' & k & [[<- | Hin'] Hk] & ->)].
        -- left. left. exact H.
        -- left. right. exists k. split; [exact Hk | reflexivity].
        -- right. exists run', k. split; [split; assumption | reflexivity].
      * intros [[H | (k & Hk & ->)] | (run' & k & [Hin' Hk] & ->)].
        -- left. exact H.
        -- right. exists run, k. split; [split; [left; reflexivity | lia] | reflexivity].
        -- right. exists run', k. split; [split; [right; exact Hin' | exact Hk] | reflexivity].
Qed.

Hypothesis runs_nonempty : runs <> [].

Lemma some_run : exists run, In run runs.
Proof.
  clear - runs_nonempty. destruct runs as [| run rs]; [congruence |].
  exists run. left. reflexivity.
Qed.

Lemma scanning_best (p : Z) (Seen : Z -> Prop) (st : Z * Z) :
  (forall run k, in_table runs run k -> Seen (pixel p run k)) ->
  scanning p Seen st ->
  best_under better in_ runs stride p (fst st)
  /\ exists run, In run runs /\ 0 <= snd st < run_length run /\ fst st = pixel p run (snd st).
Proof.
  intros Hall [Hnone Hat].
  assert (Hplace : at_place p (fst st) (snd st)).
  { destruct Hat as [Hat | (_ & _ & Hno)]; [exact Hat |].
    exfalso. destruct some_run as [run Hin].
    apply (Hno (pixel p run 0)). apply Hall. split; [exact Hin |].
    pose proof (run_lengths run Hin). lia. }
  split; [| exact Hplace].
  split.
  - destruct Hplace as (run & Hin & Hidx & Hbest).
    exists run, (snd st). split; [split; assumption | exact Hbest].
  - intros run jj Htab. apply Hnone, Hall. exact Htab.
Qed.

(** At the head of a round at [p], the best sample is known to be in the
    filter when [index] is not negative: it is at place [index] of a run, and
    no pixel that was in the filter before is better. *)
Local Abbreviation in_filter p st :=
  ((exists run, In run runs /\ 0 <= snd st < run_length run - 1
                /\ fst st = pixel p run (snd st))
   /\ forall run jj, In run runs -> 0 <= jj < run_length run - 1 ->
        better (pixel p run jj) (fst st) = false).

Lemma round_best (p : Z) (st : Z * Z) :
  (0 <= snd st -> in_filter p st) ->
  let st' := if 0 <=? snd st then came_in in_ better runs stride p st
             else all_pixels in_ better runs stride p (worst, 0) in
  best_under better in_ runs stride p (fst st')
  /\ (exists run, In run runs /\ 0 <= snd st' < run_length run
                  /\ fst st' = pixel p run (snd st')).
Proof.
  intros Hhead. cbv zeta.
  destruct (Z.leb_spec 0 (snd st)) as [Hidx | Hidx].
  - destruct (Hhead Hidx) as [(run & Hin & Hi & Hbest) Hold].
    apply (scanning_best p
             (fun v => (exists run jj, In run runs /\ 0 <= jj < run_length run - 1
                                       /\ v = pixel p run jj)
                       \/ exists run, In run runs /\ v = pixel p run (run_length run - 1))).
    + intros run' k [Hin' Hk].
      destruct (Z.eq_dec k (run_length run' - 1)) as [-> | Hne].
      * right. exists run'. split; [exact Hin' | reflexivity].
      * left. exists run', k. split; [exact Hin' |]. split; [lia | reflexivity].
    + apply came_in_scanning; [intros r Hr; exact Hr |].
      split.
      * intros v (run' & jj & Hin' & Hjj & ->). apply Hold; assumption.
      * left. exists run. split; [exact Hin |]. split; [lia | exact Hbest].
  - apply (scanning_best p
             (fun v => False \/ exists run k, in_table runs run k /\ v = pixel p run k)).
    + intros run k Htab. right. exists run, k. split; [exact Htab | reflexivity].
    + apply all_pixels_scanning; [intros r Hr; exact Hr |].
      split; [intros v [] |]. right. cbn [fst snd]. repeat split. intros v [].
Qed.

(** The run length method writes, for each pixel of the line, the best
    sample under the table. *)
Lemma run_length_method_best (n : nat) :
  forall (p : Z) (st : Z * Z),
    (0 <= snd st -> in_filter p st) ->
    let out := run_length_method in_ better worst runs stride stride n p st in
    length out = n
    /\ forall k, (k < n)%nat ->
         best_under better in_ runs stride (p + Z.of_nat k * stride) (nth k out 0).
Proof.
  induction n as [| n IH]; intros p st Hhead; cbv zeta.
  - split; [reflexivity | intros k Hk; lia].
  - cbn [run_length_method].
    destruct (round_best p st Hhead) as [Hbest (run & Hin & Hi & Hval)].
    cbv zeta in Hbest, Hi, Hval.
    set (st' := if 0 <=? snd st then came_in in_ better runs stride p st
                else all_pixels in_ better runs stride p (worst, 0)) in *.
    pose proof (run_lengths run Hin) as Hlen.
    assert (Hdec : ssub (snd st') 1 = snd st' - 1)
      by (apply wrap_sint_id; unfold is_sint; lia).
    destruct (IH (p + stride) (fst st', ssub (snd st') 1)) as [Hl Hk].
    { cbn [fst snd]. rewrite Hdec. intros Hnext. split.
      - exists run. split; [exact Hin |]. split; [lia |].
        rewrite Hval. f_equal. ring.
      - intros run' jj Hin' Hjj.
        replace (p + stride + (run_offset run' + jj * stride))
          with (p + (run_offset run' + (jj + 1) * stride)) by ring.
        apply Hbest. split; [exact Hin' | lia]. }
    cbv zeta in Hl, Hk. split; [cbn [length]; rewrite Hl; reflexivity |].
    intros [| k] Hlt; cbn [nth].
    + replace (p + Z.of_nat 0 * stride) with p by (simpl; ring). exact Hbest.
    + replace (p + Z.of_nat (S k) * stride) with (p + stride + Z.of_nat k * stride)
        by (rewrite Nat2Z.inj_succ; ring).
      apply Hk. lia.
Qed.

(** The brute force method reads the best of the samples at its offsets. *)
Lemma fold_pick_best (p : Z) (os : list Z) (best : Z) (Seen : Z -> Prop) :
  Seen best -> (forall v, Seen v -> better v best = false) ->
  let r := fold_left (fun best o => pick better best (in_ (p + o))) os best in
  (Seen r \/ exists o, In o os /\ r = in_ (p + o))
  /\ (forall v, Seen v -> better v r = false)
  /\ forall o, In o os -> better (in_ (p + o)) r = false.
Proof.
  revert best Seen. induction os as [| o os IH]; intros best Seen Hseen Hnone; cbv zeta.
  - simpl. split; [left; exact Hseen |]. split; [exact Hnone | intros o []].
  - cbn [fold_left].
    set (best' := pick better best (in_ (p + o))).
    assert (Hb : (best' = best \/ best' = in_ (p + o))
                 /\ better (in_ (p + o)) best' = false
                 /\ forall v, Seen v -> better v best' = false).
    { unfold best', pick. destruct (better (in_ (p + o)) best) eqn:Eb.
      - split; [right; reflexivity |]. split; [apply better_irrefl |].
        intros v Hv. destruct (better v (in_ (p + o))) eqn:Ev; [| reflexivity].
        rewrite <- (Hnone v Hv). symmetry. apply (better_trans _ _ _ Ev Eb).
      - split; [left; reflexivity |]. split; [exact Eb | exact Hnone]. }
    destruct Hb as (Hcase & Ho & Hnone').
    destruct (IH best' (fun v => Seen v \/ v = in_ (p + o))) as (Hr & Hs & Hos).
    + destruct Hcase as [-> | ->]; [left; exact Hseen | right; reflexivity].
    + intros v [Hv | ->]; [apply Hnone'; exact Hv | exact Ho].
    + cbv zeta in Hr, Hs, Hos. split; [| split].
      * destruct Hr as [[Hr | Hr] | (o' & Ho' & Hr)].
        -- left. exact Hr.
        -- right. exists o. split; [left; reflexivity | exact Hr].
        -- right. exists o'. split; [right; exact Ho' | exact Hr].
      * intros v Hv. apply Hs. left. exact Hv.
      * intros o' [<- | Ho']; [apply Hs; right; reflexivity | apply Hos; exact Ho'].
Qed.

Lemma In_offsets_of (o : Z) :
  In o (offsets_of runs stride)
  <-> exists run jj, in_table runs run jj /\ o = run_offset run + jj * stride.
Proof.
  unfold offsets_of. rewrite in_flat_map. split.
  - intros (run & Hin & Ho). apply in_map_iff in Ho. destruct Ho as (k & <- & Hk).
    apply in_seq in Hk. exists run, (Z.of_nat k). split; [| reflexivity].
    split; [exact Hin |]. pose proof (run_lengths run Hin). lia.
  - intros (run & jj & [Hin Hjj] & ->). exists run. split; [exact Hin |].
    apply in_map_iff. exists (Z.to_nat jj). split; [rewrite Z2Nat.id by lia; reflexivity |].
    apply in_seq. lia.
Qed.

Lemma brute_force_best (p : Z) :
  best_under better in_ runs stride p (brute_force in_ better (offsets_of runs stride) p).
Proof.
  unfold brute_force.
  destruct (offsets_of runs stride) as [| o os] eqn:E.
  { exfalso. destruct some_run as [run Hrun].
    assert (Hin : In (run_offset run + 0 * stride) (offsets_of runs stride)).
    { apply In_offsets_of. exists run, 0. split; [| reflexivity].
      split; [exact Hrun |]. pose proof (run_lengths run Hrun). lia. }
    rewrite E in Hin. destruct Hin. }
  cbn [hd tl].
  destruct (fold_pick_best p os (in_ (p + o)) (fun v => v = in_ (p + o)) eq_refl)
    as (Hr & Hs & Hos).
  { intros v ->. apply better_irrefl. }
  cbv zeta in Hr, Hs, Hos.
  assert (Hmem : forall o', In o' (o :: os) ->
            exists run jj, in_table runs run jj /\ o' = run_offset run + jj * stride)
    by (intros o' Ho'; apply In_offsets_of; rewrite E; exact Ho').
  split.
  - destruct Hr as [Hr | (o' & Ho' & Hr)].
    + destruct (Hmem o (or_introl eq_refl)) as (run & jj & Htab & Ho).
      exists run, jj. split; [exact Htab |]. rewrite Hr, Ho. reflexivity.
    + destruct (Hmem o' (or_intror Ho')) as (run & jj & Htab & Ho).
      exists run, jj. split; [exact Htab |]. rewrite Hr, Ho. reflexivity.
  - intros run jj Htab.
    assert (Hin : In (run_offset run + jj * stride) (o :: os)).
    { rewrite <- E. apply In_offsets_of. exists run, jj. split; [exact Htab | reflexivity]. }
    destruct Hin as [<- | Hin]; [apply Hs; reflexivity | apply Hos; exact Hin].
Qed.

Lemma best_under_unique (p v v' : Z) :
  best_under better in_ runs stride p v -> best_under better in_ runs stride p v' -> v = v'.
Proof.
  intros [(run & jj & Htab & Hv) Hnone] [(run' & jj' & Htab' & Hv') Hnone'].
  destruct (Z.eq_dec v v') as [Heq | Hne]; [exact Heq | exfalso].
  destruct (better_total _ _ Hne) as [H | H].
  - rewrite Hv, (Hnone' _ _ Htab) in H. discriminate.
  - rewrite Hv', (Hnone _ _ Htab') in H. discriminate.
Qed.

End BestUnder.

Lemma gtb_order :
  (forall a, Z.gtb a a = false)
  /\ (forall a b c, Z.gtb a b = true -> Z.gtb b c = true -> Z.gtb a c = true)
  /\ (forall a b, a <> b -> Z.gtb a b = true \/ Z.gtb b a = true).
Proof.
  split; [| split].
  - intros a. rewrite Z.gtb_ltb. apply Z.ltb_irrefl.
  - intros a b c. rewrite !Z.gtb_ltb, !Z.ltb_lt. lia.
  - intros a b. rewrite !Z.gtb_ltb, !Z.ltb_lt. lia.
Qed.

Lemma ltb_order :
  (forall a, Z.ltb a a = false)
  /\ (forall a b c, Z.ltb a b = true -> Z.ltb b c = true -> Z.ltb a c = true)
  /\ (forall a b, a <> b -> Z.ltb a b = true \/ Z.ltb b a = true).
Proof.
  split; [| split].
  - intros a. apply Z.ltb_irrefl.
  - intros a b c. rewrite !Z.ltb_lt. lia.
  - intros a b. rewrite !Z.ltb_lt. lia.
Qed.

(** X22.  [FlatSEMorphologyLineFilter::Filter] on samples of an integer
  type, for a pixel table with at least one run, runs of at least one pixel,
  offsets that do not overflow and the stride of the line: with the run
  length method and with the brute force method alike, the value written for
  each pixel of the line is the largest sample under the table for the
  dilation and the smallest for the erosion; so the two methods write the
  same values. *)
Theorem FlatSE_Filter_best (lowest highest : Z) (in_ : Z -> Z) (dilation_ bruteForce_ : bool)
    (runs : list PixelRun) (stride : Z) (n : nat) :
  runs <> [] ->
  (forall run, In run runs -> 1 <= run_length run < 2 ^ 63) ->
  (forall run jj, in_table runs run jj ->
     is_sint (jj * stride) /\ is_sint (run_offset run + jj * stride)) ->
  (forall a, lowest <= in_ a <= highest) ->
  let out := FlatSE_Filter lowest highest in_ dilation_ bruteForce_ (offsets_of runs stride)
                           runs stride stride n in
  length out = n
  /\ (forall ii, (ii < n)%nat ->
        best_under (if dilation_ then Z.gtb else Z.ltb) in_ runs stride
                   (Z.of_nat ii * stride) (nth ii out 0))
  /\ FlatSE_Filter lowest highest in_ dilation_ true (offsets_of runs stride)
                   runs stride stride n
     = FlatSE_Filter lowest highest in_ dilation_ false (offsets_of runs stride)
                     runs stride stride n.
Proof.
  intros Hne Hlen Hov Hrange.
  destruct gtb_order as (Gi & Gt & Gtot). destruct ltb_order as (Li & Lt & Ltot).
  assert (Gw : forall a, Z.gtb lowest (in_ a) = false)
    by (intros a; rewrite Z.gtb_ltb; apply Z.ltb_ge; apply Hrange).
  assert (Lw : forall a, Z.ltb highest (in_ a) = false)
    by (intros a; apply Z.ltb_ge; apply Hrange).
  assert (Hhead : forall better,
            0 <= snd (0, -1) ->
            (exists run, In run runs /\ 0 <= snd (0, -1) < run_length run - 1
                         /\ fst (0, -1) = in_ (0 + (run_offset run + snd (0, -1) * stride)))
            /\ forall run jj, In run runs -> 0 <= jj < run_length run - 1 ->
                 better (in_ (0 + (run_offset run + jj * stride))) (fst (0, -1)) = false)
    by (intros better H; simpl in H; lia).
  assert (Hall : forall brute,
            let out := FlatSE_Filter lowest highest in_ dilation_ brute
                                     (offsets_of runs stride) runs stride stride n in
            length out = n
            /\ forall ii, (ii < n)%nat ->
                 best_under (if dilation_ then Z.gtb else Z.ltb) in_ runs stride
                            (Z.of_nat ii * stride) (nth ii out 0)).
  { intros brute. cbv zeta. unfold FlatSE_Filter.
    destruct brute, dilation_.
    - split; [rewrite length_map, length_seq; reflexivity |].
      intros ii Hii.
      rewrite (nth_indep _ 0 (brute_force in_ Z.gtb (offsets_of runs stride)
                                          (Z.of_nat 0 * stride)))
        by (rewrite length_map, length_seq; exact Hii).
      rewrite (map_nth (fun ii => brute_force in_ Z.gtb (offsets_of runs stride)
                                              (Z.of_nat ii * stride))).
      rewrite seq_nth by exact Hii.
      apply (brute_force_best Z.gtb Gi Gt in_ runs stride Hlen Hne).
    - split; [rewrite length_map, length_seq; reflexivity |].
      intros ii Hii.
      rewrite (nth_indep _ 0 (brute_force in_ Z.ltb (offsets_of runs stride)
                                          (Z.of_nat 0 * stride)))
        by (rewrite length_map, length_seq; exact Hii).
      rewrite (map_nth (fun ii => brute_force in_ Z.ltb (offsets_of runs stride)
                                              (Z.of_nat ii * stride))).
      rewrite seq_nth by exact Hii.
      apply (brute_force_best Z.ltb Li Lt in_ runs stride Hlen Hne).
    - destruct (run_length_method_best Z.gtb Gi Gt Gtot lowest in_ runs stride Gw Hlen Hov
                  Hne n 0 (0, -1) (Hhead Z.gtb)) as [Hl Hk].
      cbv zeta in Hl, Hk. split; [exact Hl |]. intros ii Hii.
      rewrite <- (Z.add_0_l (Z.of_nat ii * stride)). apply Hk. exact Hii.
    - destruct (run_length_method_best Z.ltb Li Lt Ltot highest in_ runs stride Lw Hlen Hov
                  Hne n 0 (0, -1) (Hhead Z.ltb)) as [Hl Hk].
      cbv zeta in Hl, Hk. split; [exact Hl |]. intros ii Hii.
      rewrite <- (Z.add_0_l (Z.of_nat ii * stride)). apply Hk. exact Hii. }
  destruct (Hall bruteForce_) as [Hl Hb]. cbv zeta in Hl, Hb.
  cbv zeta. split; [exact Hl |]. split; [exact Hb |].
  destruct (Hall true) as [Hl1 Hb1]. destruct (Hall false) as [Hl2 Hb2].
  cbv zeta in Hl1, Hb1, Hl2, Hb2.
  apply (nth_ext _ _ 0 0); [rewrite Hl1, Hl2; reflexivity |].
  intros ii Hii. rewrite Hl1 in Hii.
  destruct dilation_.
  - apply (best_under_unique Z.gtb Gtot in_ runs stride (Z.of_nat ii * stride));
      [apply Hb1 | apply Hb2]; exact Hii.
  - apply (best_under_unique Z.ltb Ltot in_ runs stride (Z.of_nat ii * stride));
      [apply Hb1 | apply Hb2]; exact Hii.
Qed.

Lemma FlatSE_Filter_best_witness :
  FlatSE_Filter 0 255 in_test true true (offsets_of runs_test 1) runs_test 1 1 5
  = [1; 4; 4; 4; 4]
  /\ FlatSE_Filter 0 255 in_test true false (offsets_of runs_test 1) runs_test 1 1 5
     = [1; 4; 4; 4; 4].
Proof.
  destruct (FlatSE_Filter_best 0 255 in_test true true runs_test 1 5) as (_ & _ & Heq).
  - discriminate.
  - intros run [<- | []]. simpl. lia.
  - intros run jj [[<- | []] Hjj]. simpl in *. unfold is_sint. lia.
  - intros a. unfold in_test. pose proof (Z.mod_pos_bound (a * a) 7 ltac:(lia)). lia.
  - split; [reflexivity |]. rewrite <- Heq. reflexivity.
Defined.


(** ** The grey size of an object: what a line adds *)

Section GreySizeFacts.

Variable T : Type.
Variable add : T -> T -> T.
Variable zero : T.
Variable objectIndices : Z -> option nat.
Variable nTensor_ : nat.

Local Abbreviation add_pixel := (add_pixel T add zero nTensor_).
Local Abbreviation ScanLine_pixel := (ScanLine_pixel T add zero objectIndices nTensor_).
Local Abbreviation added_to := (added_to T zero objectIndices nTensor_).

Lemma add_pixel_loop (index : nat) (grey : list T) (k : nat) (n lo : nat) (data_ : list T) :
  (index + lo + n <= length data_)%nat ->
  let data' :=
    loop n lo
         (fun ii data_ =>
            <[ (index + ii)%nat := add (nth (index + ii) data_ zero) (nth ii grey zero) ]>
              data_) data_ in
  length data' = length data_
  /\ nth k data' zero
     = fold_left add
         (flat_map (fun ii => if (index + ii =? k)%nat then [nth ii grey zero] else [])
                   (seq lo n))
         (nth k data_ zero).
Proof.
  revert lo data_. induction n as [| n IH]; intros lo data_ Hlen; cbv zeta.
  - split; reflexivity.
  - cbn [loop seq flat_map]. rewrite fold_left_app.
    destruct (IH (S lo) (<[ (index + lo)%nat := add (nth (index + lo) data_ zero)
                                                    (nth lo grey zero) ]> data_)) as [Hl Hk].
    { rewrite length_insert. lia. }
    cbv zeta in Hl, Hk. rewrite Hl, Hk, length_insert. split; [reflexivity |].
    f_equal. rewrite !nth_lookup.
    destruct (Nat.eqb_spec (index + lo) k) as [<- | Hne].
    + rewrite list_lookup_insert_eq by lia. reflexivity.
    + rewrite list_lookup_insert_ne by exact Hne. reflexivity.
Qed.

Lemma add_pixel_spec (index : nat) (grey : list T) (k : nat) (data_ : list T) :
  (index + nTensor_ <= length data_)%nat ->
  length (add_pixel index grey data_) = length data_
  /\ nth k (add_pixel index grey data_) zero
     = fold_left add
         (flat_map (fun ii => if (index + ii =? k)%nat then [nth ii grey zero] else [])
                   (seq 0 nTensor_))
         (nth k data_ zero).
Proof.
  intros Hlen. apply (add_pixel_loop index grey k nTensor_ 0 data_). lia.
Qed.

(** The index that [data] points to is the one of the last object seen. *)
Local Abbreviation cached st :=
  (fst (fst st) = 0 \/ snd (fst st) = objectIndices (fst (fst st))).

Lemma ScanLine_pixel_spec (st : Z * option nat * list T) (px : Z * list T) (k : nat) :
  (forall id index, objectIndices id = Some index ->
     (index + nTensor_ <= length (snd st))%nat) ->
  cached st ->
  let st' := ScanLine_pixel st px in
  cached st'
  /\ length (snd st') = length (snd st)
  /\ nth k (snd st') zero = fold_left add (added_to k px) (nth k (snd st) zero).
Proof.
  destruct st as [[objectID data] data_]. destruct px as [label grey].
  cbn [fst snd]. intros Hbound Hc. cbv zeta. unfold ScanLine_pixel, added_to.
  destruct (Z.ltb_spec 0 label) as [Hpos | Hnon]; [| cbn [fst snd]; tauto].
  assert (Hdata : (if negb (label =? objectID) then (label, objectIndices label)
                   else (objectID, data)) = (label, objectIndices label)).
  { destruct (Z.eqb_spec label objectID) as [-> | Hne]; [| reflexivity].
    cbn [negb]. destruct Hc as [H0 | ->]; [lia | reflexivity]. }
  rewrite Hdata.
  destruct (objectIndices label) as [index |] eqn:E; cbn [fst snd].
  - destruct (add_pixel_spec index grey k data_ (Hbound _ _ E)) as [Hl Hk].
    split; [right; symmetry; exact E |]. split; [exact Hl | exact Hk].
  - split; [right; symmetry; exact E |]. split; reflexivity.
Qed.

(** X23.  [FeatureGreySize::ScanLine] adds to the entry [k] of [data_], in
  the order of the line, the grey value of tensor element [ii] of every
  pixel with a label above 0 whose object has an index [k - ii]; pixels with
  label 0 or with an object that has no index add nothing, and the pointer
  kept from one pixel to the next changes nothing in that. *)
Theorem ScanLine_adds (line : list (Z * list T)) (data_ : list T) (k : nat) :
  (forall id index, objectIndices id = Some index ->
     (index + nTensor_ <= length data_)%nat) ->
  length (ScanLine T add zero objectIndices nTensor_ line data_) = length data_
  /\ nth k (ScanLine T add zero objectIndices nTensor_ line data_) zero
     = fold_left add (flat_map (added_to k) line) (nth k data_ zero).
Proof.
  intros Hbound. unfold ScanLine.
  assert (H : forall st : Z * option nat * list T,
             length (snd st) = length data_ -> cached st ->
             length (snd (fold_left ScanLine_pixel line st)) = length data_
             /\ nth k (snd (fold_left ScanLine_pixel line st)) zero
                = fold_left add (flat_map (added_to k) line) (nth k (snd st) zero)).
  { induction line as [| px line IH]; intros st Hl Hc.
    - simpl. split; [exact Hl | reflexivity].
    - cbn [fold_left flat_map]. rewrite fold_left_app.
      destruct (ScanLine_pixel_spec st px k) as (Hc' & Hl' & Hk').
      + intros id index E. rewrite Hl. apply (Hbound id index E).
      + exact Hc.
      + cbv zeta in Hc', Hl', Hk'.
        destruct (IH (ScanLine_pixel st px)) as [Hlen Hnth];
          [rewrite Hl'; exact Hl | exact Hc' |].
        split; [exact Hlen |]. rewrite Hnth, Hk'. reflexivity. }
  apply (H (0, None, data_)); [reflexivity | left; reflexivity].
Qed.

End GreySizeFacts.

Lemma ScanLine_adds_witness :
  ScanLine Z Z.add 0 indices_test 1 line_grey_test [0; 0] = [8; 5]
  /\ nth 0 (ScanLine Z Z.add 0 indices_test 1 line_grey_test [0; 0]) 0 = 0 + 3 + 4 + 1.
Proof.
  split; [reflexivity |].
  destruct (ScanLine_adds Z Z.add 0 indices_test 1 line_grey_test [0; 0] 0) as [_ H].
  - intros id index. unfold indices_test.
    destruct (id =? 1); [intros [= <-]; simpl; lia |].
    destruct (id =? 2); [intros [= <-]; simpl; lia | discriminate].
  - rewrite H. reflexivity.
Defined.


(** ** The plan cache never deletes a plan that is in use *)

Lemma cache_find_Some_In (cache : Cache) (key : Z) (data : PlanData) :
  cache_find key cache = Some data -> In (key, data) cache.
Proof.
  induction cache as [| [k d] rest IH]; simpl; [discriminate |].
  destruct (Z.eqb_spec k key) as [-> | Hne].
  - intros [= ->]. left. reflexivity.
  - intros H. right. apply IH. exact H.
Qed.

Lemma cache_find_None (cache : Cache) (key : Z) :
  cache_find key cache = None <-> ~ In key (map fst cache).
Proof.
  induction cache as [| [k d] rest IH]; simpl; [tauto |].
  destruct (Z.eqb_spec k key) as [-> | Hne].
  - split; [discriminate | intros H; exfalso; apply H; left; reflexivity].
  - rewrite IH. tauto.
Qed.

Lemma cache_find_In (cache : Cache) (key : Z) (data : PlanData) :
  List.NoDup (map fst cache) -> In (key, data) cache -> cache_find key cache = Some data.
Proof.
  induction cache as [| [k d] rest IH]; simpl; [tauto |].
  intros Hno [[= -> ->] | Hin].
  - rewrite Z.eqb_refl. reflexivity.
  - inversion Hno as [| ? ? Hnot Hno']; subst.
    destruct (Z.eqb_spec k key) as [-> | Hne].
    + exfalso. apply Hnot. apply (in_map fst _ _ Hin).
    + apply IH; assumption.
Qed.

Lemma cache_find_map (g : PlanData -> PlanData) (cache : Cache) (key : Z) :
  cache_find key (map (fun p => (fst p, g (snd p))) cache)
  = option_map g (cache_find key cache).
Proof.
  induction cache as [| [k d] rest IH]; simpl; [reflexivity |].
  destruct (k =? key); [reflexivity | exact IH].
Qed.

Lemma cache_find_change (f : PlanData -> PlanData) (cache : Cache) (length key : Z) :
  cache_find key (cache_change length f cache)
  = if key =? length then option_map f (cache_find key cache) else cache_find key cache.
Proof.
  unfold cache_change. induction cache as [| [k d] rest IH]; simpl.
  - destruct (key =? length); reflexivity.
  - destruct (Z.eqb_spec k length) as [-> | Hne]; simpl.
    + destruct (Z.eqb_spec length key) as [<- | Hne'].
      * rewrite Z.eqb_refl. reflexivity.
      * rewrite IH. reflexivity.
    + destruct (Z.eqb_spec k key) as [-> | Hne'].
      * replace (key =? length) with false by (symmetry; apply Z.eqb_neq; exact Hne).
        reflexivity.
      * exact IH.
Qed.

Lemma cache_find_erase (cache : Cache) (length key : Z) :
  cache_find key (cache_erase length cache)
  = if key =? length then None else cache_find key cache.
Proof.
  unfold cache_erase. induction cache as [| [k d] rest IH]; simpl.
  - destruct (key =? length); reflexivity.
  - destruct (Z.eqb_spec k length) as [-> | Hne]; simpl.
    + rewrite IH. destruct (Z.eqb_spec key length) as [Heq | Hne'].
      * reflexivity.
      * replace (length =? key) with false by (symmetry; apply Z.eqb_neq; congruence).
        reflexivity.
    + destruct (Z.eqb_spec k key) as [-> | Hne'].
      * replace (key =? length) with false by (symmetry; apply Z.eqb_neq; exact Hne).
        reflexivity.
      * exact IH.
Qed.

Lemma cache_find_app (cache : Cache) (length key : Z) (data : PlanData) :
  cache_find key (cache ++ [(length, data)])
  = match cache_find key cache with
    | Some d => Some d
    | None => if length =? key then Some data else None
    end.
Proof.
  induction cache as [| [k d] rest IH]; simpl; [reflexivity |].
  destruct (k =? key); [reflexivity | exact IH].
Qed.

Lemma cache_ok_map (g : PlanData -> PlanData) (cache : Cache) :
  (forall d, plan (g d) = plan d) -> cache_ok cache ->
  cache_ok (map (fun p => (fst p, g (snd p))) cache).
Proof.
  intros Hg [Hno Hplan]. split.
  - rewrite map_map. simpl. exact Hno.
  - intros key data Hin. apply in_map_iff in Hin. destruct Hin as ([k d] & Heq & Hin).
    simpl in Heq. injection Heq as <- <-. rewrite Hg. apply Hplan. exact Hin.
Qed.

Lemma cache_ok_change (f : PlanData -> PlanData) (cache : Cache) (length : Z) :
  (forall d, plan (f d) = plan d) -> cache_ok cache -> cache_ok (cache_change length f cache).
Proof.
  intros Hf [Hno Hplan]. unfold cache_change. split.
  - rewrite map_map.
    replace (map (fun x => fst (if fst x =? length then (fst x, f (snd x)) else x)) cache)
      with (map fst cache); [exact Hno |].
    apply map_ext. intros [k d]. simpl. destruct (k =? length); reflexivity.
  - intros key data Hin. apply in_map_iff in Hin. destruct Hin as ([k d] & Heq & Hin).
    simpl in Heq. destruct (k =? length); injection Heq as <- <-.
    + rewrite Hf. apply Hplan. exact Hin.
    + apply Hplan. exact Hin.
Qed.

Lemma cache_ok_erase (cache : Cache) (length : Z) :
  cache_ok cache -> cache_ok (cache_erase length cache).
Proof.
  intros [Hno Hplan]. unfold cache_erase. split.
  - clear Hplan. induction cache as [| [k d] rest IH]; simpl; [constructor |].
    inversion Hno as [| ? ? Hnot Hno']; subst.
    destruct (negb (k =? length)); simpl; [| apply IH; exact Hno'].
    constructor; [| apply IH; exact Hno'].
    intros Hin. apply Hnot. apply in_map_iff in Hin. destruct Hin as (p & <- & Hp).
    apply filter_In in Hp. apply in_map. apply Hp.
  - intros key data Hin. apply filter_In in Hin. apply Hplan. apply Hin.
Qed.

Lemma cache_ok_insert (cache : Cache) (length : Z) (data : PlanData) :
  plan data = length -> cache_ok cache -> cache_ok (cache_insert length data cache).
Proof.
  intros Hp [Hno Hplan]. unfold cache_insert.
  destruct (cache_find length cache) eqn:E; [split; assumption |].
  apply cache_find_None in E. split.
  - rewrite map_app. simpl. apply List.NoDup_app; [exact Hno | |].
    + constructor; [intros [] | constructor].
    + intros a Ha [<- | []]. apply E. exact Ha.
  - intros key d Hin. apply in_app_or in Hin. destruct Hin as [Hin | [[= <- <-] | []]].
    + apply Hplan. exact Hin.
    + exact Hp.
Qed.

(** Erasing a key takes one element at most out of a cache without double
    keys. *)
Lemma cache_erase_length (cache : Cache) (length : Z) :
  List.NoDup (map fst cache) ->
  (List.length cache <= List.length (cache_erase length cache) + 1)%nat.
Proof.
  unfold cache_erase. induction cache as [| [k d] rest IH]; intros Hno; simpl; [lia |].
  inversion Hno as [| ? ? Hnot Hno']; subst.
  destruct (Z.eqb_spec k length) as [-> | Hne]; simpl.
  - assert (Hall : List.filter (fun p => negb (fst p =? length)) rest = rest).
    { clear IH Hno Hno'. induction rest as [| [k' d'] rest IH]; simpl; [reflexivity |].
      destruct (Z.eqb_spec k' length) as [-> | Hne]; simpl.
      - exfalso. apply Hnot. left. reflexivity.
      - f_equal. apply IH. intros Hin. apply Hnot. right. exact Hin. }
    rewrite Hall. lia.
  - specialize (IH Hno'). lia.
Qed.

(** The element picked for deletion is not in use. *)
Lemma oldest_unused_spec (cache : Cache) (access_counter : Z) :
  let '(acc, len) := oldest_unused cache access_counter in
  len = 0
  \/ exists key data, In (key, data) cache /\ use_count data = 0 /\ plan data = len.
Proof.
  unfold oldest_unused.
  assert (H : forall (done : Cache) (st : Z * Z),
             (snd st = 0 \/ exists key data, In (key, data) (done ++ cache)
                                             /\ use_count data = 0 /\ plan data = snd st) ->
             forall rest, (forall p, In p rest -> In p (done ++ cache)) ->
             let '(acc, len) :=
               fold_left (fun (st : Z * Z) (p : Z * PlanData) =>
                            let '(acc, len) := st in
                            if use_count (snd p) =? 0 then
                              if last_access (snd p) <? acc
                              then (last_access (snd p), plan (snd p))
                              else (acc, len)
                            else (acc, len)) rest st in
             len = 0 \/ exists key data, In (key, data) (done ++ cache)
                                         /\ use_count data = 0 /\ plan data = len).
  { intros done st Hst rest. revert st Hst.
    induction rest as [| [k d] rest IH]; intros [acc len] Hst Hsub.
    - simpl. exact Hst.
    - cbn [fold_left snd]. apply IH; [| intros p Hp; apply Hsub; right; exact Hp].
      destruct (Z.eqb_spec (use_count d) 0) as [Hz | Hnz]; [| exact Hst].
      destruct (last_access d <? acc); [| exact Hst].
      right. exists k, d. split; [apply Hsub; left; reflexivity |]. split; [exact Hz |].
      reflexivity. }
  specialize (H [] (access_counter, 0) (or_introl eq_refl) cache (fun p Hp => Hp)).
  exact H.
Qed.

(** X24.  [PlanCache( length )] returns the plan for [length] and counts one
  more use of it, with the time of this access; it deletes at most one
  element (every key but one is still there afterwards, and the cache does
  not shrink), never one that is in use, and changes the use count of no
  other element; the cache grows by one element at most.  [PlanCache(
  length, true )] returns [nullptr], deletes nothing and takes one use off
  the element for [length], unless that has none. *)
Theorem PlanCache_keeps_used (cache : Cache) (access_counter length : Z) :
  cache_ok cache ->
  (let '(r, (cache', counter')) := PlanCache length false (cache, access_counter) in
   cache_ok cache'
   /\ r = Some length
   /\ (exists data,
         cache_find length cache' = Some data /\ last_access data = counter'
         /\ use_count data = match cache_find length cache with
                             | Some d => uadd (use_count d) 1
                             | None => 1
                             end)
   /\ (forall key data, key <> length -> cache_find key cache = Some data ->
         0 < use_count data ->
         exists data', cache_find key cache' = Some data'
                       /\ use_count data' = use_count data /\ plan data' = plan data)
   /\ (forall key data', key <> length -> cache_find key cache' = Some data' ->
         exists data, cache_find key cache = Some data
                      /\ use_count data' = use_count data)
   /\ (List.length cache' <= List.length cache + 1)%nat
   /\ (List.length cache <= List.length cache')%nat
   /\ (exists deleted, forall key data, key <> deleted -> cache_find key cache = Some data ->
         exists data', cache_find key cache' = Some data' /\ plan data' = plan data))
  /\ (let '(r, (cache', counter')) := PlanCache length true (cache, access_counter) in
      r = None /\ counter' = access_counter /\ map fst cache' = map fst cache
      /\ forall key,
           cache_find key cache'
           = if (key =? length)
             then option_map (fun d => if 0 <? use_count d
                                       then mkPlanData (usub (use_count d) 1) (last_access d)
                                                       (plan d)
                                       else d) (cache_find key cache)
             else cache_find key cache).
Proof.
  intros Hok. split.
  - unfold PlanCache.
    set (reset := if access_counter =? 2 ^ 64 - 1
                  then (map (fun p => (fst p, mkPlanData (use_count (snd p)) 0 (plan (snd p))))
                            cache, 1)
                  else (cache, access_counter)).
    assert (Hreset : cache_ok (fst reset)
                     /\ List.length (fst reset) = List.length cache
                     /\ forall key,
                          (cache_find key (fst reset) = None <-> cache_find key cache = None)
                          /\ (forall d, cache_find key cache = Some d ->
                                exists d', cache_find key (fst reset) = Some d'
                                           /\ use_count d' = use_count d /\ plan d' = plan d)
                          /\ (forall d', cache_find key (fst reset) = Some d' ->
                                exists d, cache_find key cache = Some d
                                          /\ use_count d' = use_count d /\ plan d' = plan d)).
    { unfold reset. destruct (access_counter =? 2 ^ 64 - 1); cbn [fst].
      - split; [apply (cache_ok_map (fun d => mkPlanData (use_count d) 0 (plan d)));
                [reflexivity | exact Hok] |].
        split; [apply length_map |].
        intros key.
        rewrite (cache_find_map (fun d => mkPlanData (use_count d) 0 (plan d))).
        destruct (cache_find key cache) as [d |]; simpl.
        + split; [split; discriminate |]. split.
          * intros d0 [= <-]. eexists. split; [reflexivity |]. split; reflexivity.
          * intros d' [= <-]. exists d. split; [reflexivity |]. split; reflexivity.
        + split; [tauto |]. split; intros ? [=].
      - split; [exact Hok |]. split; [reflexivity |]. intros key.
        split; [tauto |]. split.
        + intros d E. exists d. split; [exact E |]. split; reflexivity.
        + intros d E. exists d. split; [exact E |]. split; reflexivity. }
    destruct reset as [cache1 counter1]. cbn [fst] in Hreset.
    destruct Hreset as (Hok1 & Hlen1 & Hsame).
    destruct (cache_find length cache1) as [data1 |] eqn:E1.
    + (* Update *)
      destruct (proj2 (proj2 (Hsame length)) data1 E1) as (d0 & E0 & Hu0 & Hp0).
      split; [apply (cache_ok_change
                       (fun d => mkPlanData (uadd (use_count d) 1) (uadd counter1 1) (plan d)));
              [reflexivity | exact Hok1] |].
      split.
      { f_equal. destruct Hok1 as [_ Hplan]. apply Hplan.
        apply cache_find_Some_In. exact E1. }
      split.
      { eexists. rewrite cache_find_change, Z.eqb_refl, E1. simpl.
        split; [reflexivity |]. split; [reflexivity |]. rewrite E0, Hu0. reflexivity. }
      split.
      { intros key data Hne Hfind Huse.
        destruct (proj1 (proj2 (Hsame key)) data Hfind) as (d' & E' & Hu' & Hp').
        exists d'. rewrite cache_find_change.
        replace (key =? length) with false by (symmetry; apply Z.eqb_neq; exact Hne).
        split; [exact E' |]. split; [exact Hu' | exact Hp']. }
      split.
      { intros key data' Hne Hfind. rewrite cache_find_change in Hfind.
        replace (key =? length) with false in Hfind by (symmetry; apply Z.eqb_neq; exact Hne).
        destruct (proj2 (proj2 (Hsame key)) data' Hfind) as (d & E & Hu & _).
        exists d. split; [exact E | exact Hu]. }
      split; [unfold cache_change; rewrite length_map; lia |].
      split; [unfold cache_change; rewrite length_map; lia |].
      exists length. intros key data Hne Hfind.
      destruct (proj1 (proj2 (Hsame key)) data Hfind) as (d' & E' & _ & Hp').
      exists d'. rewrite cache_find_change.
      replace (key =? length) with false by (symmetry; apply Z.eqb_neq; exact Hne).
      split; [exact E' | exact Hp'].
    + (* Not found *)
      assert (E0 : cache_find length cache = None) by (apply (Hsame length); exact E1).
      set (cache2 := if maxSize <=? Z.of_nat (List.length cache1)
                     then let '(acc, len) := oldest_unused cache1 counter1 in
                          if 0 <? len then cache_erase len cache1 else cache1
                     else cache1).
      assert (H2 : cache_ok cache2
                   /\ (List.length cache2 <= List.length cache1)%nat
                   /\ cache_find length cache2 = None
                   /\ (forall key d, cache_find key cache1 = Some d -> 0 < use_count d ->
                         cache_find key cache2 = Some d)
                   /\ (forall key d, cache_find key cache2 = Some d ->
                         cache_find key cache1 = Some d)
                   /\ (List.length cache1 <= List.length cache2 + 1)%nat
                   /\ (exists deleted, forall key d, key <> deleted ->
                         cache_find key cache1 = Some d -> cache_find key cache2 = Some d)).
      { unfold cache2. destruct (maxSize <=? Z.of_nat (List.length cache1)).
        2:{ split; [exact Hok1 |]. split; [lia |]. split; [exact E1 |].
            split; [auto |]. split; [auto |]. split; [lia |]. exists 0. auto. }
        pose proof (oldest_unused_spec cache1 counter1) as Hold.
        destruct (oldest_unused cache1 counter1) as [acc len].
        destruct (Z.ltb_spec 0 len) as [Hpos | Hle].
        2:{ split; [exact Hok1 |]. split; [lia |]. split; [exact E1 |].
            split; [auto |]. split; [auto |]. split; [lia |]. exists 0. auto. }
        destruct Hold as [-> | (key0 & d0 & Hin0 & Hu0 & Hp0)]; [lia |].
        assert (Hkey0 : key0 = len) by (rewrite <- Hp0; symmetry; apply Hok1 in Hin0; exact Hin0).
        subst key0.
        assert (Hf0 : cache_find len cache1 = Some d0)
          by (apply cache_find_In; [apply Hok1 | exact Hin0]).
        split; [apply cache_ok_erase; exact Hok1 |].
        split; [unfold cache_erase; apply filter_length_le |].
        split.
        { rewrite cache_find_erase. destruct (length =? len); [reflexivity | exact E1]. }
        split.
        { intros key d Hfind Huse. rewrite cache_find_erase.
          destruct (Z.eqb_spec key len) as [-> | Hne]; [| exact Hfind].
          rewrite Hf0 in Hfind. injection Hfind as <-. lia. }
        split.
        { intros key d Hfind. rewrite cache_find_erase in Hfind.
          destruct (key =? len); [discriminate | exact Hfind]. }
        split; [apply cache_erase_length; apply Hok1 |].
        exists len. intros key d Hne Hfind. rewrite cache_find_erase.
        replace (key =? len) with false by (symmetry; apply Z.eqb_neq; exact Hne).
        exact Hfind. }
      destruct H2 as (Hok2 & Hlen2 & E2 & Hkeep & Hold & Hlen2' & deleted & Hrest).
      unfold cache_insert. rewrite E2.
      assert (Hfind : cache_find length
                        (cache2 ++ [(length, mkPlanData 1 (uadd counter1 1) length)])
                      = Some (mkPlanData 1 (uadd counter1 1) length))
        by (rewrite cache_find_app, E2, Z.eqb_refl; reflexivity).
      rewrite Hfind. cbn [plan].
      split.
      { pose proof (cache_ok_insert cache2 length (mkPlanData 1 (uadd counter1 1) length)
                      eq_refl Hok2) as H.
        unfold cache_insert in H. rewrite E2 in H. exact H. }
      split; [reflexivity |].
      split.
      { eexists. split; [reflexivity |]. split; [reflexivity |]. rewrite E0. reflexivity. }
      split.
      { intros key data Hne Hf Huse.
        destruct (proj1 (proj2 (Hsame key)) data Hf) as (d' & E' & Hu' & Hp').
        exists d'. rewrite cache_find_app, (Hkeep key d' E') by lia.
        split; [reflexivity |]. split; [exact Hu' | exact Hp']. }
      split.
      { intros key data' Hne Hf. rewrite cache_find_app in Hf.
        destruct (cache_find key cache2) as [d2 |] eqn:Ek.
        - injection Hf as <-.
          destruct (proj2 (proj2 (Hsame key)) d2 (Hold key d2 Ek)) as (d & E & Hu & _).
          exists d. split; [exact E | exact Hu].
        - destruct (Z.eqb_spec length key) as [<- | _]; [congruence | discriminate]. }
      split; [rewrite length_app; simpl; lia |].
      split; [rewrite length_app; simpl; lia |].
      exists deleted. intros key data Hne Hf.
      destruct (proj1 (proj2 (Hsame key)) data Hf) as (d' & E' & _ & Hp').
      exists d'. rewrite cache_find_app, (Hrest key d' Hne E').
      split; [reflexivity | exact Hp'].
  - unfold PlanCache.
    destruct (cache_find length cache) as [data |] eqn:E.
    + destruct (Z.ltb_spec 0 (use_count data)) as [Hpos | Hle].
      * split; [reflexivity |]. split; [reflexivity |]. split.
        -- unfold cache_change. rewrite map_map. apply map_ext.
           intros [k d]. simpl. destruct (k =? length); reflexivity.
        -- intros key. rewrite cache_find_change.
           destruct (Z.eqb_spec key length) as [-> | Hne]; [| reflexivity].
           rewrite E. simpl.
           replace (0 <? use_count data) with true by (symmetry; apply Z.ltb_lt; exact Hpos).
           reflexivity.
      * split; [reflexivity |]. split; [reflexivity |]. split; [reflexivity |].
        intros key. destruct (Z.eqb_spec key length) as [-> | Hne]; [| reflexivity].
        rewrite E. simpl.
        replace (0 <? use_count data) with false by (symmetry; apply Z.ltb_ge; exact Hle).
        reflexivity.
    + split; [reflexivity |]. split; [reflexivity |]. split; [reflexivity |].
      intros key. destruct (Z.eqb_spec key length) as [-> | Hne]; [| reflexivity].
      rewrite E. reflexivity.
Qed.

Lemma PlanCache_keeps_used_witness :
  exists cache' counter',
    PlanCache 64 false (cache_test, 100) = (Some 64, (cache', counter'))
    /\ cache_find 3 cache' = None
    /\ (exists data', cache_find 5 cache' = Some data' /\ use_count data' = 1)
    /\ (30 <= length cache' <= 31)%nat.
Proof.
  assert (Hok : cache_ok cache_test).
  { unfold cache_test. split.
    - rewrite map_map. cbn [map fst]. repeat (constructor; [simpl; lia |]). constructor.
    - intros key data Hin. apply in_map_iff in Hin. destruct Hin as (k & [= <- <-] & _).
      reflexivity. }
  destruct (PlanCache_keeps_used cache_test 100 64 Hok) as [H _].
  destruct (PlanCache 64 false (cache_test, 100)) as [r [cache' counter']] eqn:E.
  destruct H as (_ & -> & _ & Hkeep & _ & Hlen & Hlen' & _).
  exists cache', counter'. split; [reflexivity |].
  split; [vm_compute in E; injection E as <- _; reflexivity |].
  split; [| split; [exact Hlen' | exact Hlen]].
  destruct (Hkeep 5 (mkPlanData 1 5 5)) as (data' & Hf & Hu & _);
    [lia | reflexivity | simpl; lia |].
  exists data'. split; [exact Hf | exact Hu].
Defined.

(* ===================================================================== *)
(** * [RDFT::Apply]: the two layouts of a half-complex spectrum *)

Lemma nth_insert_any {A : Type} (l : list A) (i j : nat) (x d : A) :
  nth j (<[ i := x ]> l) d = if ((j =? i) && (i <? length l))%nat then x else nth j l d.
Proof.
  rewrite !nth_lookup.
  destruct (Nat.eqb_spec j i) as [-> | Hne]; simpl.
  - destruct (Nat.ltb_spec i (length l)) as [Hlt | Hge].
    + rewrite list_lookup_insert_eq by exact Hlt. reflexivity.
    + rewrite list_insert_ge by exact Hge. reflexivity.
  - rewrite list_lookup_insert_ne by congruence. reflexivity.
Qed.

Section RDFTFacts.

Context {T : Type}.
Variable zero : T.

(** A loop of assignments [d[ w k ] = source[ r k ]] whose targets differ, and
    which never reads a sample it wrote before. *)
Section Move.

Variables (source : option (list T)) (w r : nat -> nat).

Local Abbreviation move := (fun k d => <[ w k := nth (r k) (default d source) zero ]> d).

Lemma loop_move_length (n lo : nat) (d : list T) :
  length (loop n lo move d) = length d.
Proof.
  revert lo d. induction n as [| n IH]; intros lo d; simpl; [reflexivity |].
  rewrite IH. apply length_insert.
Qed.

Lemma loop_move_other (n lo : nat) (d : list T) (j : nat) :
  (forall k, (lo <= k < lo + n)%nat -> w k <> j) ->
  nth j (loop n lo move d) zero = nth j d zero.
Proof.
  revert lo d. induction n as [| n IH]; intros lo d Hj; simpl; [reflexivity |].
  rewrite IH by (intros k Hk; apply Hj; lia).
  rewrite nth_insert_any.
  destruct (Nat.eqb_spec j (w lo)) as [-> | _]; simpl; [| reflexivity].
  exfalso. apply (Hj lo); [lia | reflexivity].
Qed.

Lemma loop_move_at (n lo : nat) (d : list T) (k : nat) :
  (forall k k', (lo <= k < k')%nat -> (k' < lo + n)%nat -> w k <> w k') ->
  (source = None -> forall k k', (lo <= k < k')%nat -> (k' < lo + n)%nat -> w k <> r k') ->
  (forall k, (lo <= k < lo + n)%nat -> (w k < length d)%nat) ->
  (lo <= k < lo + n)%nat ->
  nth (w k) (loop n lo move d) zero = nth (r k) (default d source) zero.
Proof.
  revert lo d. induction n as [| n IH]; intros lo d Hw Hr Hlen Hk; simpl; [lia |].
  destruct (Nat.eq_dec k lo) as [-> | Hne].
  - rewrite loop_move_other by (intros k' Hk' E; apply (Hw lo k'); [lia | lia | congruence]).
    rewrite nth_insert_any, Nat.eqb_refl. simpl.
    pose proof (Hlen lo ltac:(lia)) as Hlo. apply Nat.ltb_lt in Hlo. rewrite Hlo. reflexivity.
  - rewrite IH.
    + destruct source as [src |] eqn:Hs; simpl; [reflexivity |].
      rewrite nth_insert_any.
      destruct (Nat.eqb_spec (r k) (w lo)) as [E | _]; simpl; [| reflexivity].
      exfalso. apply (Hr eq_refl lo k); [lia | lia | congruence].
    + intros a b Ha Hb. apply Hw; lia.
    + intros Hs a b Ha Hb. apply Hr; [exact Hs | lia | lia].
    + intros a Ha. rewrite length_insert. apply Hlen. lia.
    + lia.
Qed.

End Move.

Lemma copy_n_length (source : option (list T)) (first count result : nat) (d : list T) :
  length (copy_n T zero source first count result d) = length d.
Proof. unfold copy_n. apply loop_move_length. Qed.

(** [copy_n] towards the front of the same array, or from another array. *)
Lemma copy_n_nth (source : option (list T)) (first count result : nat) (d : list T) (j : nat) :
  (source = None -> result <= first)%nat -> (result + count <= length d)%nat ->
  nth j (copy_n T zero source first count result d) zero
  = if ((result <=? j) && (j <? result + count))%nat
    then nth (first + (j - result)) (default d source) zero
    else nth j d zero.
Proof.
  intros Hfront Hlen. unfold copy_n.
  destruct (Nat.leb_spec result j) as [Hlo | Hlo]; simpl.
  - destruct (Nat.ltb_spec j (result + count)) as [Hhi | Hhi].
    + replace j with (result + (j - result))%nat at 1 by lia.
      rewrite (loop_move_at source (fun k => (result + k)%nat) (fun k => (first + k)%nat)).
      * reflexivity.
      * intros; lia.
      * intros Hs k k' Hk Hk'. specialize (Hfront Hs). lia.
      * intros; lia.
      * lia.
    + apply (loop_move_other source (fun k => (result + k)%nat) (fun k => (first + k)%nat)).
      intros; lia.
  - apply (loop_move_other source (fun k => (result + k)%nat) (fun k => (first + k)%nat)).
    intros; lia.
Qed.

Lemma copy_backward_length (first last d_last : nat) (d : list T) :
  length (copy_backward T zero first last d_last d) = length d.
Proof.
  unfold copy_backward.
  apply (loop_move_length None (fun k => (d_last - k)%nat) (fun k => (last - k)%nat)).
Qed.

(** [copy_backward] towards the back of the array. *)
Lemma copy_backward_nth (first last d_last : nat) (d : list T) (j : nat) :
  (first <= last <= d_last)%nat -> (d_last <= length d)%nat ->
  nth j (copy_backward T zero first last d_last d) zero
  = if ((d_last - (last - first) <=? j) && (j <? d_last))%nat
    then nth (j - (d_last - last)) d zero
    else nth j d zero.
Proof.
  intros Hord Hlen. unfold copy_backward.
  destruct (Nat.leb_spec (d_last - (last - first)) j) as [Hlo | Hlo]; simpl.
  - destruct (Nat.ltb_spec j d_last) as [Hhi | Hhi].
    + replace j with (d_last - (d_last - j))%nat at 1 by lia.
      rewrite (loop_move_at None (fun k => (d_last - k)%nat) (fun k => (last - k)%nat)).
      * simpl. f_equal. lia.
      * intros; lia.
      * intros _ k k' Hk Hk'. lia.
      * intros; lia.
      * lia.
    + apply (loop_move_other None (fun k => (d_last - k)%nat) (fun k => (last - k)%nat)).
      intros; lia.
  - apply (loop_move_other None (fun k => (d_last - k)%nat) (fun k => (last - k)%nat)).
    intros; lia.
Qed.

End RDFTFacts.

Section RDFTRuns.

Context {T : Type}.
Variable zero : T.

Lemma copy_n_whole (src d : list T) (n : nat) :
  (n <= length src)%nat -> (n <= length d)%nat ->
  copy_n T zero (Some src) 0 n 0 d = take n src ++ drop n d.
Proof.
  intros Hs Hd. apply (nth_ext _ _ zero zero).
  - rewrite copy_n_length, length_app, length_take, length_drop. lia.
  - intros j Hj. rewrite copy_n_length in Hj.
    rewrite copy_n_nth by (simpl; (discriminate || lia)). simpl.
    destruct (Nat.ltb_spec j n) as [Hlt | Hge].
    + rewrite app_nth1 by (rewrite length_take; lia).
      rewrite !nth_lookup, lookup_take_lt by exact Hlt. f_equal. f_equal. lia.
    + rewrite app_nth2 by (rewrite length_take; lia).
      rewrite length_take, !nth_lookup, lookup_drop. f_equal. f_equal. lia.
Qed.

(** The complex layout, sample by sample. *)
Lemma layout_nth (p tail : list T) (j : nat) :
  (1 <= length p)%nat ->
  nth j (take 1 p ++ [zero] ++ drop 1 p ++ tail) zero
  = if (j =? 0)%nat then nth 0 p zero
    else if (j =? 1)%nat then zero
    else if (j <? length p + 1)%nat then nth (j - 1) p zero
    else nth (j - (length p + 1)) tail zero.
Proof.
  intros Hp. destruct p as [| p0 p]; [simpl in Hp; lia |].
  destruct j as [| [| j]]; try reflexivity.
  change (take 1 (p0 :: p) ++ [zero] ++ drop 1 (p0 :: p) ++ tail)
    with (p0 :: zero :: p ++ tail).
  cbn [nth Nat.eqb length].
  replace (S (S j) - 1)%nat with (S j) by lia. cbn [nth].
  destruct (Nat.ltb_spec (S (S j)) (S (length p) + 1)) as [Hlt | Hge].
  - apply app_nth1. lia.
  - rewrite app_nth2 by lia. f_equal. lia.
Qed.

Lemma land_1_even (a : Z) : (Z.land a 1 =? 0) = Z.even a.
Proof.
  change 1 with (Z.ones 1). rewrite Z.land_ones by lia. change (2 ^ 1) with 2.
  destruct (Z.even a) eqn:He.
  - apply Z.even_spec in He. destruct He as [m ->]. apply Z.eqb_eq.
    rewrite Z.mul_comm. apply Z.mod_mul. lia.
  - apply (f_equal negb) in He. rewrite Z.negb_even in He. simpl in He.
    apply Z.odd_spec in He. destruct He as [m ->]. apply Z.eqb_neq.
    rewrite Z.add_comm, Z.mul_comm, Z.mod_add by lia. discriminate.
Qed.

(** The two cases of [nfft_ & 1u], with [nfft_ / 2] in each. *)
Lemma half_parity (a : Z) :
  (Z.even a = true /\ a = 2 * (a / 2)) \/ (Z.even a = false /\ a = 2 * (a / 2) + 1).
Proof.
  pose proof (Z.div_mod a 2 ltac:(lia)) as Hdm.
  pose proof (Z.mod_pos_bound a 2 ltac:(lia)) as Hb.
  destruct (Z.even a) eqn:He.
  - left. split; [reflexivity |].
    apply Z.even_spec in He. destruct He as [m Hm]. lia.
  - right. split; [reflexivity |].
    apply (f_equal negb) in He. rewrite Z.negb_even in He. simpl in He.
    apply Z.odd_spec in He. destruct He as [m Hm]. lia.
Qed.

Ltac decide_nat :=
  repeat match goal with
  | |- context [(?a =? ?b)%nat] =>
      first [ replace (a =? b)%nat with true by (symmetry; apply Nat.eqb_eq; lia)
            | replace (a =? b)%nat with false by (symmetry; apply Nat.eqb_neq; lia) ]
  | |- context [(?a <=? ?b)%nat] =>
      first [ replace (a <=? b)%nat with true by (symmetry; apply Nat.leb_le; lia)
            | replace (a <=? b)%nat with false by (symmetry; apply Nat.leb_gt; lia) ]
  | |- context [(?a <? ?b)%nat] =>
      first [ replace (a <? b)%nat with true by (symmetry; apply Nat.ltb_lt; lia)
            | replace (a <? b)%nat with false by (symmetry; apply Nat.ltb_ge; lia) ]
  end;
  cbn [andb].

(** The forward transform: the plan's packed spectrum is spread out into
    complex numbers. *)
Lemma RDFT_forward_run (plan : list T -> T -> bool -> list T) (nfft : Z)
    (source : option (list T)) (scale : T) (d : list T) :
  1 <= nfft -> 2 * (nfft / 2 + 1) < 2 ^ 64 ->
  2 * (nfft / 2 + 1) <= Z.of_nat (length d) ->
  (forall src, source = Some src -> nfft <= Z.of_nat (length src)) ->
  (forall l s b, length (plan l s b) = length l) ->
  RDFT_Apply T zero {| nfft_ := nfft; inverse_ := false; plan_ := Some plan |} source scale d
  = (Ok tt,
     let p := plan (take (Z.to_nat nfft) (default d source)) scale true in
     take 1 p ++ [zero] ++ drop 1 p ++ (if Z.even nfft then [zero] else [])
       ++ drop (Z.to_nat (2 * (nfft / 2 + 1))) d).
Proof.
  intros Hn Hmax Hd Hsrc Hplan.
  set (N := Z.to_nat nfft).
  assert (HN : (1 <= N)%nat) by (unfold N; lia).
  unfold RDFT_Apply. cbn [plan_ inverse_ nfft_ negb].
  assert (Hhalf : 2 * (nfft / 2) <= nfft <= 2 * (nfft / 2) + 1)
    by (destruct (half_parity nfft) as [[_ Hm] | [_ Hm]]; lia).
  assert (Hu : umul 2 (uadd (udiv nfft 2) 1) = 2 * (nfft / 2 + 1)).
  { unfold umul, uadd, udiv, wrap_uint.
    rewrite (Z.mod_small (nfft / 2 + 1)) by lia. apply Z.mod_small. lia. }
  rewrite Hu, land_1_even.
  assert (Hu1 : usub (2 * (nfft / 2 + 1)) 1 = 2 * (nfft / 2 + 1) - 1)
    by (unfold usub, wrap_uint; apply Z.mod_small; lia).
  rewrite Hu1.
  set (d1 := match source with Some src => copy_n T zero (Some src) 0 N 0 d | None => d end).
  assert (Hd1 : d1 = take N (default d source) ++ drop N d).
  { unfold d1. destruct source as [src |]; simpl.
    - apply copy_n_whole; [pose proof (Hsrc src eq_refl) | ]; unfold N; lia.
    - symmetry. apply take_drop. }
  set (p := plan (take N (default d source)) scale true).
  assert (Hp : length p = N).
  { unfold p. rewrite Hplan, length_take.
    destruct source as [src |]; simpl; [pose proof (Hsrc src eq_refl) |]; unfold N; lia. }
  assert (Hlast : Z.to_nat (if Z.even nfft then 2 * (nfft / 2 + 1) - 1 else 2 * (nfft / 2 + 1))
                  = (N + 1)%nat).
  { unfold N. destruct (half_parity nfft) as [[-> Hm] | [-> Hm]]; lia. }
  assert (Hzero : Z.to_nat (2 * (nfft / 2 + 1) - 1) = if Z.even nfft then (N + 1)%nat else N).
  { unfold N. destruct (half_parity nfft) as [[-> Hm] | [-> Hm]]; lia. }
  assert (Hn2 : Z.to_nat (2 * (nfft / 2 + 1)) = if Z.even nfft then (N + 2)%nat else (N + 1)%nat).
  { unfold N. destruct (half_parity nfft) as [[-> Hm] | [-> Hm]]; lia. }
  assert (Hdn : (Z.to_nat (2 * (nfft / 2 + 1)) <= length d)%nat) by lia.
  assert (HNd : (N + 1 <= length d)%nat) by (destruct (Z.even nfft); lia).
  transitivity (Ok tt,
    <[ 1%nat := zero ]> (copy_backward T zero 1 N (N + 1)
       (<[ Z.to_nat (2 * (nfft / 2 + 1) - 1) := zero ]> (p ++ drop N d)))).
  { unfold bind, modify, ret, exec. fold N.
    destruct source as [src |]; simpl; fold N; simpl in Hd1; unfold d1 in Hd1.
    - rewrite Hlast, Hd1.
      rewrite take_app_length', drop_app_length'; [| rewrite length_take | rewrite length_take].
      + reflexivity.
      + pose proof (Hsrc src eq_refl). unfold N. lia.
      + pose proof (Hsrc src eq_refl). unfold N. lia.
    - rewrite Hlast. reflexivity. }
  f_equal. fold N p.
  set (m := Z.to_nat (2 * (nfft / 2 + 1) - 1)) in *.
  set (n := Z.to_nat (2 * (nfft / 2 + 1))) in *.
  set (tail := (if Z.even nfft then [zero] else []) ++ drop n d).
  assert (Hlen0 : length (p ++ drop N d) = length d)
    by (rewrite length_app, length_drop; lia).
  apply (nth_ext _ _ zero zero).
  - rewrite length_insert, copy_backward_length, length_insert, Hlen0.
    rewrite !length_app, length_take, length_drop. simpl length. unfold tail.
    rewrite length_app, length_drop.
    destruct (Z.even nfft); simpl length; lia.
  - intros j Hj.
    rewrite length_insert, copy_backward_length, length_insert, Hlen0 in Hj.
    rewrite (layout_nth p tail j) by lia. rewrite Hp.
    rewrite nth_insert_any, copy_backward_length, length_insert, Hlen0.
    rewrite copy_backward_nth by (rewrite ?length_insert, ?Hlen0; lia).
    rewrite !nth_insert_any, Hlen0.
    unfold tail. clearbody m n.
    assert (Hcases : (j = 0 \/ j = 1 \/ 2 <= j < N + 1 \/ j = N + 1 \/ N + 2 <= j)%nat) by lia.
    destruct (Z.even nfft); subst m n;
      destruct Hcases as [-> | [-> | [Hc | [-> | Hc]]]]; decide_nat.
    + apply app_nth1. lia.
    + reflexivity.
    + replace (j - (N + 1 - N))%nat with (j - 1)%nat by lia. apply app_nth1. lia.
    + replace (N + 1 - (N + 1))%nat with 0%nat by lia. reflexivity.
    + rewrite app_nth2 by lia. rewrite Hp.
      replace (j - (N + 1))%nat with (S (j - (N + 2))) by lia. cbn [app nth].
      rewrite !nth_lookup, !lookup_drop. f_equal. f_equal. lia.
    + apply app_nth1. lia.
    + reflexivity.
    + replace (j - (N + 1 - N))%nat with (j - 1)%nat by lia. apply app_nth1. lia.
    + rewrite app_nth2 by lia. rewrite Hp. cbn [app].
      rewrite !nth_lookup, !lookup_drop. f_equal. f_equal. lia.
    + rewrite app_nth2 by lia. rewrite Hp. cbn [app].
      rewrite !nth_lookup, !lookup_drop. f_equal. f_equal. lia.
Qed.

(** The inverse transform: the complex input is packed for the plan. *)
Lemma RDFT_inverse_run (plan : list T -> T -> bool -> list T) (nfft : Z)
    (source : option (list T)) (scale : T) (d : list T) :
  1 <= nfft < 2 ^ 64 ->
  nfft <= Z.of_nat (length d) ->
  nfft + 1 <= Z.of_nat (length (default d source)) ->
  RDFT_Apply T zero {| nfft_ := nfft; inverse_ := true; plan_ := Some plan |} source scale d
  = (Ok tt,
     plan (nth 0 (default d source) zero :: take (Z.to_nat nfft - 1) (drop 2 (default d source)))
          scale false
       ++ drop (Z.to_nat nfft) d).
Proof.
  intros Hn Hd Hs.
  set (N := Z.to_nat nfft).
  assert (HN : (1 <= N)%nat) by (unfold N; lia).
  unfold RDFT_Apply. cbn [plan_ inverse_ nfft_ negb].
  assert (Hu : Z.to_nat (usub nfft 1) = (N - 1)%nat).
  { unfold usub, wrap_uint. rewrite Z.mod_small by lia. unfold N. lia. }
  rewrite Hu. unfold bind, modify, ret, exec. fold N. cbv beta iota.
  set (s := default d source).
  set (d0 := <[ 0%nat := nth 0 (default d source) zero ]> d).
  set (packed := nth 0 s zero :: take (N - 1) (drop 2 s)).
  assert (Hpl : length packed = N).
  { unfold packed. cbn [length]. rewrite length_take, length_drop. unfold s, N in *. lia. }
  assert (Hc : copy_n T zero source 2 (N - 1) 1 d0 = packed ++ drop N d).
  { apply (nth_ext _ _ zero zero).
    - rewrite copy_n_length, length_app, Hpl, length_drop. unfold d0.
      rewrite length_insert. unfold N in *. lia.
    - intros j Hj. rewrite copy_n_length in Hj. unfold d0 in Hj. rewrite length_insert in Hj.
      rewrite copy_n_nth by (unfold d0; rewrite ?length_insert; unfold N in *; lia).
      assert (Hcases : (j = 0 \/ 1 <= j < N \/ N <= j)%nat) by lia.
      destruct Hcases as [-> | [Hj1 | Hj1]]; decide_nat.
      + unfold d0. rewrite nth_insert_any. decide_nat. reflexivity.
      + rewrite app_nth1 by lia. unfold packed.
        replace j with (S (j - 1)) at 2 by lia. cbn [nth].
        rewrite (nth_lookup (take _ _)), lookup_take_lt by lia.
        rewrite lookup_drop, nth_lookup.
        destruct source as [src |]; cbn [default]; unfold s; cbn [default].
        * reflexivity.
        * unfold d0. rewrite list_lookup_insert_ne by lia. reflexivity.
      + rewrite app_nth2 by lia. rewrite Hpl.
        unfold d0. rewrite nth_insert_any. decide_nat.
        rewrite !nth_lookup, lookup_drop. f_equal. f_equal. lia. }
  unfold d0 in Hc. fold s in Hc. rewrite Hc.
  rewrite take_app_length', drop_app_length' by (symmetry; exact Hpl).
  reflexivity.
Qed.

End RDFTRuns.

(** X25.  [RDFT::Apply] of a forward transform returns normally and leaves in
    the destination array the plan's packed spectrum spread out into complex
    numbers: its first sample, a zero imaginary part, the other samples, one
    more zero imaginary part when [nfft_] is even, and behind these
    [2 * ( nfft_ / 2 + 1 )] samples the array as it was. *)
Theorem RDFT_Apply_forward {T : Type} (zero : T) (self : RDFT T)
    (plan : list T -> T -> bool -> list T) (source : option (list T)) (scale : T)
    (destination : list T) :
  plan_ self = Some plan -> inverse_ self = false ->
  1 <= nfft_ self -> 2 * (nfft_ self / 2 + 1) < 2 ^ 64 ->
  2 * (nfft_ self / 2 + 1) <= Z.of_nat (length destination) ->
  (forall src, source = Some src -> nfft_ self <= Z.of_nat (length src)) ->
  (forall l s b, length (plan l s b) = length l) ->
  let p := plan (take (Z.to_nat (nfft_ self)) (default destination source)) scale true in
  RDFT_Apply T zero self source scale destination
  = (Ok tt,
     take 1 p ++ [zero] ++ drop 1 p ++ (if Z.even (nfft_ self) then [zero] else [])
       ++ drop (Z.to_nat (2 * (nfft_ self / 2 + 1))) destination).
Proof.
  destruct self as [nfft inverse pl]. cbn [plan_ inverse_ nfft_].
  intros Hpl Hinv Hn Hmax Hd Hsrc Hplan. subst inverse pl.
  apply RDFT_forward_run; assumption.
Qed.

Lemma RDFT_Apply_forward_witness :
  RDFT_Apply Z 0 {| nfft_ := 4; inverse_ := false; plan_ := Some plan_test |}
             (Some [1; 2; 3; 4]) 1 [9; 9; 9; 9; 9; 9; 7]
  = (Ok tt, [4; 0; 3; 2; 1; 0; 7]).
Proof.
  apply (RDFT_Apply_forward 0 {| nfft_ := 4; inverse_ := false; plan_ := Some plan_test |}
           plan_test (Some [1; 2; 3; 4]) 1 [9; 9; 9; 9; 9; 9; 7]).
  - reflexivity.
  - reflexivity.
  - cbn [nfft_]. lia.
  - reflexivity.
  - vm_compute. discriminate.
  - intros src Hsrc. injection Hsrc as <-. vm_compute. discriminate.
  - intros l s b. apply length_rev.
Defined.

(** X26.  A forward [RDFT::Apply] followed by an inverse one, in place or
    into another array, gives the inverse plan exactly the packed spectrum
    that the forward plan made of the first [nfft_] input samples: the first
    [nfft_] samples of the result are the inverse plan's output for it, and
    the rest of the array is untouched.  So with plans that undo each other
    the round trip returns the input. *)
Theorem RDFT_Apply_round_trip {T : Type} (zero : T) (nfft : Z)
    (plan plan' : list T -> T -> bool -> list T) (source : option (list T)) (scale scale' : T)
    (destination : list T) (other : option (list T)) :
  1 <= nfft -> 2 * (nfft / 2 + 1) < 2 ^ 64 ->
  2 * (nfft / 2 + 1) <= Z.of_nat (length destination) ->
  (forall src, source = Some src -> nfft <= Z.of_nat (length src)) ->
  (forall out, other = Some out -> nfft <= Z.of_nat (length out)) ->
  (forall l s b, length (plan l s b) = length l) ->
  let forward := {| nfft_ := nfft; inverse_ := false; plan_ := Some plan |} in
  let inverse := {| nfft_ := nfft; inverse_ := true; plan_ := Some plan' |} in
  let x := take (Z.to_nat nfft) (default destination source) in
  exists spectrum,
    RDFT_Apply T zero forward source scale destination = (Ok tt, spectrum)
    /\ match other with
       | None =>
           RDFT_Apply T zero inverse None scale' spectrum
           = (Ok tt, plan' (plan x scale true) scale' false ++ drop (Z.to_nat nfft) spectrum)
       | Some out =>
           RDFT_Apply T zero inverse (Some spectrum) scale' out
           = (Ok tt, plan' (plan x scale true) scale' false ++ drop (Z.to_nat nfft) out)
       end.
Proof.
  intros Hn Hmax Hd Hsrc Hother Hplan forward inverse x.
  set (N := Z.to_nat nfft).
  assert (HN : (1 <= N)%nat) by (unfold N; lia).
  assert (Hhalf : 2 * (nfft / 2) <= nfft <= 2 * (nfft / 2) + 1)
    by (destruct (half_parity nfft) as [[_ Hm] | [_ Hm]]; lia).
  set (p := plan x scale true).
  assert (Hp : length p = N).
  { unfold p, x. rewrite Hplan, length_take.
    destruct source as [src |]; simpl; [pose proof (Hsrc src eq_refl) |]; unfold N; lia. }
  set (tail := (if Z.even nfft then [zero] else [])
                 ++ drop (Z.to_nat (2 * (nfft / 2 + 1))) destination).
  exists (take 1 p ++ [zero] ++ drop 1 p ++ tail).
  split; [apply RDFT_forward_run; assumption |].
  set (spectrum := take 1 p ++ [zero] ++ drop 1 p ++ tail).
  assert (Hlen : (N + 1 <= length spectrum)%nat).
  { unfold spectrum. rewrite !length_app, length_take, length_drop. cbn [length]. lia. }
  assert (Hpack : nth 0 spectrum zero :: take (N - 1) (drop 2 spectrum) = p).
  { unfold spectrum. destruct p as [| p0 p']; [simpl in Hp; lia |].
    change (take 1 (p0 :: p') ++ [zero] ++ drop 1 (p0 :: p') ++ tail)
      with (p0 :: zero :: p' ++ tail).
    cbn [nth drop]. f_equal. rewrite drop_0.
    apply take_app_length'. simpl in Hp. lia. }
  destruct other as [out |].
  - unfold inverse. rewrite RDFT_inverse_run.
    + change (default out (Some spectrum)) with spectrum. fold N.
      rewrite Hpack. reflexivity.
    + lia.
    + exact (Hother out eq_refl).
    + change (default out (Some spectrum)) with spectrum. unfold N in Hlen. lia.
  - unfold inverse. rewrite RDFT_inverse_run.
    + change (default spectrum None) with spectrum. fold N.
      rewrite Hpack. reflexivity.
    + lia.
    + unfold N in Hlen. lia.
    + change (default spectrum None) with spectrum. unfold N in Hlen. lia.
Qed.

Lemma RDFT_Apply_round_trip_witness :
  exists spectrum,
    RDFT_Apply Z 0 {| nfft_ := 5; inverse_ := false; plan_ := Some plan_test |}
               None 1 [1; 2; 3; 4; 5; 6; 7] = (Ok tt, spectrum)
    /\ RDFT_Apply Z 0 {| nfft_ := 5; inverse_ := true; plan_ := Some plan_test |}
                  (Some spectrum) 1 [0; 0; 0; 0; 0; 8] = (Ok tt, [1; 2; 3; 4; 5; 8]).
Proof.
  destruct (RDFT_Apply_round_trip 0 5 plan_test plan_test None 1 1 [1; 2; 3; 4; 5; 6; 7]
              (Some [0; 0; 0; 0; 0; 8])) as [spectrum [H1 H2]].
  - lia.
  - reflexivity.
  - vm_compute. discriminate.
  - intros src Hsrc. discriminate Hsrc.
  - intros out Hout. injection Hout as <-. vm_compute. discriminate.
  - intros l s b. apply length_rev.
  - exists spectrum. split; [exact H1 | exact H2].
Defined.
